(** * Patch-and-extraction pipeline of the contract playbook application

    A shallow embedding of the pipeline code in [services/geminiService.ts]
    (batch chunker, retrying dispatcher, cross-batch deduplication, rule
    update records) and of [updateClause] in
    [components/superdoc/SuperdocEditor.tsx] (position map and patch
    transaction), followed by the properties proved about them.

    Conventions of the embedding:
    - a JavaScript string is a [string]: a sequence of code units, here
      restricted to 8-bit units; [String.length] is [.length];
    - a JavaScript number that holds an integer is a [Z]; a number that may
      be [NaN] is an [option Z] ([None] is [NaN]); the one quotient of the
      code (the average block size) is a [Q];
    - [Set<string>] and [Map<string,string>] are [gset string] and
      [gmap string string];
    - [console], [delay] and the remote service are recorded as events of a
      trace, in program order. *)

From Stdlib Require Import ZArith QArith List String Ascii Bool Lia DecimalString DecimalNat.
From stdpp Require Import gmap strings list.
Import ListNotations.

#[local] Open Scope Z_scope.

(** ** JavaScript strings *)

Module JS.

Definition dquote : string := String (ascii_of_nat 34) EmptyString.
Definition newline : string := String (ascii_of_nat 10) EmptyString.

(** [s.length] *)
Definition strlen (s : string) : Z := Z.of_nat (String.length s).

(** The characters matched by [\s] and stripped by [trim]: tab, line feed,
    vertical tab, form feed, carriage return, space and no-break space
    (the ones that fit in an 8-bit unit). *)
Definition is_space (c : ascii) : bool :=
  let n := nat_of_ascii c in
  ((9 <=? n)%nat && (n <=? 13)%nat) || (n =? 32)%nat || (n =? 160)%nat.

Fixpoint trimStart (s : string) : string :=
  match s with
  | String c s' => if is_space c then trimStart s' else s
  | EmptyString => EmptyString
  end.

Fixpoint trimEnd (s : string) : string :=
  match s with
  | String c s' =>
      match trimEnd s' with
      | EmptyString => if is_space c then EmptyString else String c EmptyString
      | t => String c t
      end
  | EmptyString => EmptyString
  end.

(** [s.trim()] *)
Definition trim (s : string) : string := trimEnd (trimStart s).

Definition is_upper (c : ascii) : bool :=
  let n := nat_of_ascii c in (65 <=? n)%nat && (n <=? 90)%nat.

Definition is_lower (c : ascii) : bool :=
  let n := nat_of_ascii c in (97 <=? n)%nat && (n <=? 122)%nat.

Definition lower_char (c : ascii) : ascii :=
  if is_upper c then ascii_of_nat (nat_of_ascii c + 32) else c.

Definition upper_char (c : ascii) : ascii :=
  if is_lower c then ascii_of_nat (nat_of_ascii c - 32) else c.

Fixpoint map_chars (f : ascii -> ascii) (s : string) : string :=
  match s with
  | String c s' => String (f c) (map_chars f s')
  | EmptyString => EmptyString
  end.

(** [s.toLowerCase()] and [s.toUpperCase()]. The letters A-Z and a-z are
    mapped and every other character is left as it is, which is what the
    engine does on texts of ASCII characters (codes below 128); the
    letters the engine also maps outside of ASCII are not mapped here. *)
Definition toLowerCase (s : string) : string := map_chars lower_char s.
Definition toUpperCase (s : string) : string := map_chars upper_char s.

(** [s.indexOf(sub)], [None] for -1. *)
Definition indexOf (s sub : string) : option nat := String.index 0 sub s.

(** [s.includes(sub)] *)
Definition includes (s sub : string) : bool :=
  match indexOf s sub with Some _ => true | None => false end.

(** [s.substring(0, n)] *)
Definition substring0 (n : nat) (s : string) : string := String.substring 0 n s.

(** [String(n)] / template interpolation of a non-negative integer. *)
Definition string_of_nat (n : nat) : string := NilZero.string_of_uint (Nat.to_uint n).

(** Truthiness of a string: only the empty string is falsy. *)
Definition truthy (s : string) : bool :=
  match s with EmptyString => false | String _ _ => true end.

(** [s.slice(n)] for [0 <= n]. *)
Fixpoint drop (n : nat) (s : string) : string :=
  match n, s with
  | O, _ => s
  | S n', String _ s' => drop n' s'
  | S _, EmptyString => EmptyString
  end.

End JS.

(** ** services/geminiService.ts *)

Module Gemini.
Import JS.

(** *** Data model (types.ts) *)

Record Paragraph := {
  para_id : string;
  para_text : string;
  para_style : string;
  para_outline_level : Z
}.

Record ShadowDocument := { paragraphs : list Paragraph }.

Record RiskCriteria := { green : string; yellow : string; red : string }.

Record PlaybookRule := {
  rule_id : option string;
  category : option string;
  subcategory : option string;
  topic : string;
  synonyms : option (list string);
  signal_keywords : option (list string);
  clause_number : option string;
  preferred_position : string;
  reasoning : string;
  fallback_position : option string;
  suggested_drafting : option string;
  risk_criteria : RiskCriteria
}.

Record Playbook := { playbook_name : string; playbook_party : string; rules : list PlaybookRule }.

Record AnalysisFinding := {
  target_id : string;
  risk_level : string;
  issue_type : string;
  finding_reasoning : string;
  suggested_text : string;
  original_text : string
}.

(** *** createChunks *)

Definition MAX_CHARS_PER_BATCH : Z := 40000.

(** The template literal [pText] of one paragraph. *)
Definition pText (p : Paragraph) : string :=
  "<<CLAUSE id=" +:+ dquote +:+ para_id p +:+ dquote +:+ ">>" +:+ newline
    +:+ para_text p +:+ newline +:+ "<<END_CLAUSE>>" +:+ newline +:+ newline.

Definition totalChars (ps : list Paragraph) : Z :=
  fold_left (fun sum p => sum + strlen (para_text p)) ps 0.

(** [totalChars / document.paragraphs.length]; the quotient 0/0 is [NaN],
    rendered as [None]. *)
Definition avgBlockSize (ps : list Paragraph) : option Q :=
  match Z.of_nat (length ps) with
  | Zpos n => Some (totalChars ps # n)
  | _ => None
  end.

(** [x < c] on numbers, false when [x] is [NaN]. *)
Definition num_lt (x : option Q) (c : Q) : bool :=
  match x with
  | Some q => negb (Qle_bool c q)
  | None => false
  end.

Definition dynamicMaxClauses (avg : option Q) : Z :=
  if num_lt avg 200 then 50
  else if num_lt avg 500 then 30
  else 18.

Record chunkState := {
  chunks : list string;
  currentChunk : string;
  currentClauseCount : Z
}.

(** One iteration of [for (const p of document.paragraphs)]. *)
Definition chunkStep (maxClauses : Z) (st : chunkState) (p : Paragraph) : chunkState :=
  let willExceedChars := MAX_CHARS_PER_BATCH <? strlen (currentChunk st) + strlen (pText p) in
  let willExceedClauses := maxClauses <? currentClauseCount st + 1 in
  let st1 :=
    if (willExceedChars || willExceedClauses) && (0 <? strlen (currentChunk st))
    then {| chunks := chunks st ++ [currentChunk st];
            currentChunk := EmptyString;
            currentClauseCount := 0 |}
    else st in
  {| chunks := chunks st1;
     currentChunk := currentChunk st1 +:+ pText p;
     currentClauseCount := currentClauseCount st1 + 1 |}.

Definition createChunks (document : ShadowDocument) : list string :=
  if (length (paragraphs document) =? 0)%nat then []
  else
    let maxClauses := dynamicMaxClauses (avgBlockSize (paragraphs document)) in
    let st := fold_left (chunkStep maxClauses) (paragraphs document)
                {| chunks := []; currentChunk := EmptyString; currentClauseCount := 0 |} in
    if 0 <? strlen (currentChunk st) then chunks st ++ [currentChunk st] else chunks st.

(** *** normalizeCategory and classifyClauseLocally *)

Definition DEFAULT_CATEGORIES : list string :=
  ["LIABILITY"; "INDEMNITY"; "CONFIDENTIALITY"; "TERMINATION"; "IP"; "PAYMENT";
   "GOVERNING_LAW"; "DISPUTE"; "DEFINITIONS"; "BOILERPLATE"].

Definition mappings : list (string * string) :=
  [("COMMERCIAL", "PAYMENT"); ("LEGAL", "GENERAL"); ("SCOPE", "DEFINITIONS");
   ("LIMITATION OF LIABILITY", "LIABILITY"); ("INTELLECTUAL PROPERTY", "IP");
   ("WARRANTY", "GENERAL"); ("PRIVACY", "CONFIDENTIALITY"); ("GDPR", "CONFIDENTIALITY");
   ("TERM", "TERMINATION"); ("NDA", "CONFIDENTIALITY"); ("NONDISCLOSURE", "CONFIDENTIALITY")].

Definition string_in (s : string) (l : list string) : bool := existsb (String.eqb s) l.

(** [/^[A-Z_]+$/.test(s)] *)
Fixpoint all_upper_or_underscore (s : string) : bool :=
  match s with
  | String c s' => (is_upper c || (nat_of_ascii c =? 95)%nat) && all_upper_or_underscore s'
  | EmptyString => true
  end.

Definition is_category_name (s : string) : bool :=
  truthy s && all_upper_or_underscore s.

(** [x || dflt] on an optional string. *)
Definition or_default (x : option string) (dflt : string) : string :=
  match x with
  | Some s => if truthy s then s else dflt
  | None => dflt
  end.

Definition normalizeCategory (raw : string) : string :=
  let upper := trim (toUpperCase raw) in
  if string_in upper DEFAULT_CATEGORIES then upper
  else
    match find (fun pc => includes upper (fst pc)) mappings with
    | Some pc => snd pc
    | None =>
        if (2 <? strlen upper) && (strlen upper <? 30) && is_category_name upper
        then upper else "GENERAL"
    end.

Definition count_hits (textLower : string) (words : option (list string)) : Z :=
  match words with
  | Some ws => Z.of_nat (length (List.filter (fun w => includes textLower (toLowerCase w)) ws))
  | None => 0
  end.

Definition ruleScore (textLower : string) (rule : PlaybookRule) : Z :=
  2 * count_hits textLower (signal_keywords rule) + 3 * count_hits textLower (synonyms rule).

Record categoryScore := {
  cs_category : string;
  matchingRules : list PlaybookRule;
  score : Z
}.

(** [scores.get(category) || {rules: [], score: 0}], the update, and
    [scores.set]: the entry keeps its place in the map's insertion order. *)
Fixpoint scores_add (scores : list categoryScore) (cat : string) (rule : PlaybookRule) (s : Z)
    : list categoryScore :=
  match scores with
  | [] => [{| cs_category := cat; matchingRules := [rule]; score := s |}]
  | e :: rest =>
      if String.eqb (cs_category e) cat
      then {| cs_category := cat;
              matchingRules := matchingRules e ++ [rule];
              score := score e + s |} :: rest
      else e :: scores_add rest cat rule s
  end.

(** Stable sort by descending score ([(a, b) => b.score - a.score]):
    [x], which came before the entries of [l], goes in front of the first
    one whose score is not greater. *)
Fixpoint insert_by_score (x : categoryScore) (l : list categoryScore) : list categoryScore :=
  match l with
  | [] => [x]
  | y :: l' => if score y <=? score x then x :: l else y :: insert_by_score x l'
  end.

Definition sort_by_score (l : list categoryScore) : list categoryScore :=
  fold_right insert_by_score [] l.

Definition classifyClauseLocally (clauseText : string) (rules : list PlaybookRule)
    : list categoryScore :=
  let textLower := toLowerCase clauseText in
  let scores :=
    fold_left
      (fun scores rule =>
         let cat := normalizeCategory (or_default (category rule) "GENERAL") in
         let s := ruleScore textLower rule in
         if 0 <? s then scores_add scores cat rule s else scores)
      rules [] in
  firstn 5 (sort_by_score scores).

(** [chunk.replace(/<<CLAUSE[^>]*>>/g, '')]: length of the match of
    [<<CLAUSE[^>]*>>] at the head of [s], if any. *)
Fixpoint span_not_gt (s : string) : nat :=
  match s with
  | String c s' => if (nat_of_ascii c =? 62)%nat then O else S (span_not_gt s')
  | EmptyString => O
  end.

Definition clause_tag_length (s : string) : option nat :=
  if String.prefix "<<CLAUSE" s then
    let n := span_not_gt (drop 8 s) in
    if String.prefix ">>" (drop (8 + n) s) then Some (8 + n + 2)%nat else None
  else None.

Definition end_tag_length (s : string) : option nat :=
  if String.prefix "<<END_CLAUSE>>" s then Some 14%nat else None.

(** [s.replace(re, '')] with the global flag: every match, left to right,
    is removed; [skip] counts the characters of the current match that are
    still to be dropped. *)
Fixpoint remove_matches (matchLength : string -> option nat) (skip : nat) (s : string) : string :=
  match s with
  | EmptyString => EmptyString
  | String c s' =>
      match skip with
      | S k => remove_matches matchLength k s'
      | O =>
          match matchLength s with
          | Some (S k) => remove_matches matchLength k s'
          | _ => String c (remove_matches matchLength O s')
          end
      end
  end.

Definition stripClauseTags (chunk : string) : string :=
  remove_matches end_tag_length O (remove_matches clause_tag_length O chunk).

(** [Math.max(...xs)]; [None] is [-Infinity]. *)
Definition maxOf (xs : list Z) : option Z :=
  fold_left (fun m x => match m with Some y => Some (Z.max y x) | None => Some x end) xs None.

(** [m < c], true for [-Infinity]. *)
Definition max_lt (m : option Z) (c : Z) : bool :=
  match m with Some x => x <? c | None => true end.

(** *** generateContentWithRetry *)

(** What the code reads of a rejected call: [e.status], [e.code],
    [e.message] and [e.toString()]. *)
Record ApiError := {
  err_status : option Z;
  err_code : option Z;
  err_message : option string;
  err_toString : string
}.

Record Response := { resp_text : option string }.

Record AnalysisTestConfig := {
  temperature : option Q;
  systemPromptOverride : option string;
  adversarialInstruction : option string
}.

(** The request of one batch. The prompt is kept as its parts (party,
    rules sent, document segment, extra instruction), not as the
    formatted text. *)
Record GenParams := {
  gp_party : string;
  gp_rules : list PlaybookRule;
  gp_segment : string;
  gp_instruction : option string;
  gp_systemInstruction : option string;
  gp_temperature : option Q
}.

Inductive event :=
| EvRequest (params : GenParams)                 (* a remote call is issued *)
| EvSettled (ok : bool)                          (* its promise settles *)
| EvRetryWarning (status : option Z) (backoff : Q)
| EvDelay (ms : Q)
| EvSkipBatch (i : nat) (maxScore : option Z)
| EvDuplicateId (id : string)
| EvDuplicateContent (existingId duplicateId : string)
| EvBatchFailed (i : nat) (e : ApiError).

Definition num_is (x : option Z) (c : Z) : bool :=
  match x with Some v => v =? c | None => false end.

Definition errorMessage (e : ApiError) : string :=
  or_default (err_message e) (if truthy (err_toString e) then err_toString e else EmptyString).

Definition isRateLimit (e : ApiError) : bool :=
  let msg := errorMessage e in
  num_is (err_status e) 429 || num_is (err_code e) 429 || includes msg "429"
  || includes msg "quota" || includes msg "RESOURCE_EXHAUSTED".

Definition isServerError (e : ApiError) : bool :=
  num_is (err_status e) 500 || num_is (err_status e) 503 || num_is (err_code e) 500.

(** [2000 * Math.pow(2, 3 - retries)] *)
Definition backoff (retries : nat) : Q :=
  (2000 * Qpower 2 (3 - Z.of_nat retries))%Q.

Section Dispatch.

(** The remote service: a state and the outcome of one call. *)
Variable Service : Type.
Variable generateContent : Service -> GenParams -> Service * (Response + ApiError).

(** services/irParser.ts is not part of the sources at hand. *)
Variable IRParsedClause : Type.
Variable parseIR : string -> list IRParsedClause.
Variable mapIRToFindings : list IRParsedClause -> list AnalysisFinding.

Fixpoint generateContentWithRetry (svc : Service) (params : GenParams) (retries : nat)
    : Service * list event * (Response + ApiError) :=
  match generateContent svc params with
  | (svc1, inl response) => (svc1, [EvRequest params; EvSettled true], inl response)
  | (svc1, inr e) =>
      match retries with
      | S retries' =>
          if isRateLimit e || isServerError e then
            let '(svc2, tr, r) := generateContentWithRetry svc1 params retries' in
            (svc2,
             [EvRequest params; EvSettled false;
              EvRetryWarning (err_status e) (backoff retries); EvDelay (backoff retries)] ++ tr,
             r)
          else (svc1, [EvRequest params; EvSettled false], inr e)
      | O => (svc1, [EvRequest params; EvSettled false], inr e)
      end
  end.

(** *** analyzeDocumentWithGemini

    The optional callbacks [onProgress] and [debugLog] only report and
    are left out; the console output and the remote calls are the
    events of the trace. *)

Record runState := {
  svc : Service;
  allFindings : list AnalysisFinding;
  seenIds : gset string;
  seenTextHashes : gmap string string;
  trace : list event
}.

Definition log (st : runState) (evs : list event) : runState :=
  {| svc := svc st; allFindings := allFindings st; seenIds := seenIds st;
     seenTextHashes := seenTextHashes st; trace := trace st ++ evs |}.

Definition textHash (f : AnalysisFinding) : string :=
  substring0 100 (toLowerCase (trim (original_text f)))
    +:+ "_" +:+ string_of_nat (String.length (original_text f)).

(** [seenIds.add], [seenTextHashes.set] and [allFindings.push]. *)
Definition acceptFinding (st : runState) (f : AnalysisFinding) : runState :=
  {| svc := svc st;
     allFindings := allFindings st ++ [f];
     seenIds := {[target_id f]} ∪ seenIds st;
     seenTextHashes := <[textHash f := target_id f]> (seenTextHashes st);
     trace := trace st |}.

(** [existingIdForText && existingIdForText !== f.target_id] *)
Definition sameContentOtherId (existingIdForText : option string) (id : string) : bool :=
  match existingIdForText with
  | Some e => truthy e && negb (String.eqb e id)
  | None => false
  end.

(** One iteration of [for (const f of findings)]. *)
Definition mergeFinding (st : runState) (f : AnalysisFinding) : runState :=
  if bool_decide (target_id f ∈ seenIds st) then
    log st [EvDuplicateId (target_id f)]
  else
    let existingIdForText := seenTextHashes st !! textHash f in
    if sameContentOtherId existingIdForText (target_id f) then
      log st [EvDuplicateContent (default EmptyString existingIdForText) (target_id f)]
    else acceptFinding st f.

Definition option_truthy (x : option string) : option string :=
  match x with
  | Some s => if truthy s then Some s else None
  | None => None
  end.

(** [maxScore]: the best local relevance score of a batch. *)
Definition batchMaxScore (playbook : Playbook) (chunk : string) : option Z :=
  let chunkText := stripClauseTags chunk in
  let relevantCategories := classifyClauseLocally chunkText (rules playbook) in
  maxOf (map score relevantCategories).

(** The request built for a batch that passed the relevance threshold. *)
Definition batchParams (playbook : Playbook) (party : string)
    (testConfig : option AnalysisTestConfig) (chunk : string) : GenParams :=
  let chunkText := stripClauseTags chunk in
  let relevantCategories := classifyClauseLocally chunkText (rules playbook) in
  let relevantRules := firstn 5 (flat_map matchingRules relevantCategories) in
  let rulesToUse :=
    if (0 <? length relevantRules)%nat then relevantRules else firstn 5 (rules playbook) in
  {| gp_party := party;
     gp_rules := rulesToUse;
     gp_segment := chunk;
     gp_instruction := testConfig ≫= (fun c => option_truthy (adversarialInstruction c));
     gp_systemInstruction := testConfig ≫= (fun c => option_truthy (systemPromptOverride c));
     gp_temperature := testConfig ≫= temperature |}.

(** [response.text], or the empty string when it is falsy, through
    [parseIR] and [mapIRToFindings]. *)
Definition findingsOf (response : Response) : list AnalysisFinding :=
  mapIRToFindings (parseIR (or_default (resp_text response) EmptyString)).

Definition with_call (st : runState) (svc1 : Service) (tr : list event) : runState :=
  {| svc := svc1; allFindings := allFindings st; seenIds := seenIds st;
     seenTextHashes := seenTextHashes st; trace := trace st ++ tr |}.

(** The body of the [try] block for batch [i]; [Some e] when it throws [e]. *)
Definition batchBody (playbook : Playbook) (party : string)
    (testConfig : option AnalysisTestConfig)
    (st : runState) (i : nat) (chunk : string) : runState * option ApiError :=
  let maxScore := batchMaxScore playbook chunk in
  if max_lt maxScore 4 then (log st [EvSkipBatch i maxScore], None)
  else
    match generateContentWithRetry (svc st) (batchParams playbook party testConfig chunk) 3 with
    | (svc1, tr, inr e) => (with_call st svc1 tr, Some e)
    | (svc1, tr, inl response) =>
        (fold_left mergeFinding (findingsOf response) (with_call st svc1 tr), None)
    end.

(** One iteration of [for (let i = 0; i < chunks.length; i++)]:
    [try { ... } catch (error) { console.error(...) }]. *)
Definition batchStep (playbook : Playbook) (party : string)
    (testConfig : option AnalysisTestConfig)
    (st : runState) (ic : nat * string) : runState :=
  match batchBody playbook party testConfig st (fst ic) (snd ic) with
  | (st1, None) => st1
  | (st1, Some e) => log st1 [EvBatchFailed (fst ic) e]
  end.

Definition indexed {A} (l : list A) : list (nat * A) := combine (seq 0 (length l)) l.

Definition analyzeChunks (playbook : Playbook) (party : string)
    (testConfig : option AnalysisTestConfig)
    (svc0 : Service) (chunks : list string) : runState :=
  fold_left (batchStep playbook party testConfig) (indexed chunks)
    {| svc := svc0; allFindings := []; seenIds := ∅; seenTextHashes := ∅; trace := [] |}.

Definition analyzeDocumentWithGemini (svc0 : Service) (document : ShadowDocument)
    (playbook : Playbook) (party : string) (testConfig : option AnalysisTestConfig)
    : runState :=
  analyzeChunks playbook party testConfig svc0 (createChunks document).

End Dispatch.

Arguments svc {Service} _.
Arguments allFindings {Service} _.
Arguments seenIds {Service} _.
Arguments seenTextHashes {Service} _.
Arguments trace {Service} _.
Arguments log {Service} _ _.
Arguments acceptFinding {Service} _ _.
Arguments mergeFinding {Service} _ _.
Arguments with_call {Service} _ _ _.

(** *** parseRuleIR *)

Definition is_quote (c : ascii) : bool :=
  (nat_of_ascii c =? 34)%nat || (nat_of_ascii c =? 39)%nat.

(** Length of the longest prefix whose characters satisfy [p]: what a
    greedy [[...]*] consumes. *)
Fixpoint span (p : ascii -> bool) (s : string) : nat :=
  match s with
  | String c s' => if p c then S (span p s') else O
  | EmptyString => O
  end.

(** The match of the block header at the head of [s]: the literal
    [<<RULE], one or more spaces, [id=], a quote (single or double), one
    or more characters that are not quotes (the captured id), a quote,
    optional spaces and [>>]. The result is the id and the length of the
    match. Each greedy class is followed by a character outside of it, so
    its longest run is the only one that can match. *)
Definition rule_header (s : string) : option (string * nat) :=
  if String.prefix "<<RULE" s then
    let s1 := drop 6 s in
    let n1 := span is_space s1 in
    if (n1 =? 0)%nat then None
    else
      let s2 := drop n1 s1 in
      if String.prefix "id=" s2 then
        match drop 3 s2 with
        | String q s4 =>
            if is_quote q then
              let k := span (fun c => negb (is_quote c)) s4 in
              if (k =? 0)%nat then None
              else
                match drop k s4 with
                | String q' s5 =>
                    if is_quote q' then
                      let n2 := span is_space s5 in
                      if String.prefix ">>" (drop n2 s5)
                      then Some (substring0 k s4, (6 + n1 + 3 + 1 + k + 1 + n2 + 2)%nat)
                      else None
                    else None
                | EmptyString => None
                end
            else None
        | EmptyString => None
        end
      else None
  else None.

(** The match of the whole block regex at the head of [s]: id, body (up
    to the first [<<END_RULE>>], the lazy [[\s\S]*?]) and match length. *)
Definition rule_block (s : string) : option (string * string * nat) :=
  match rule_header s with
  | Some (id, h) =>
      match indexOf (drop h s) "<<END_RULE>>" with
      | Some m => Some (id, substring0 m (drop h s), (h + m + 12)%nat)
      | None => None
      end
  | None => None
  end.

(** The loop [while ((match = blockRegex.exec(text)) !== null)]: the
    matches from left to right, each search resuming where the previous
    match ended; [skip] counts the characters of the current match still
    to be passed. *)
Fixpoint ruleBlocks (skip : nat) (text : string) : list (string * string) :=
  match text with
  | EmptyString => []
  | String _ text' =>
      match skip with
      | S k => ruleBlocks k text'
      | O =>
          match rule_block text with
          | Some (id, body, len) => (id, body) :: ruleBlocks (Nat.pred len) text'
          | None => ruleBlocks O text'
          end
      end
  end.

Definition eqb_ci (a b : ascii) : bool := Ascii.eqb (lower_char a) (lower_char b).

(** A literal matched at the head of [s] under the [i] flag. *)
Fixpoint prefix_ci (p s : string) : bool :=
  match p, s with
  | EmptyString, _ => true
  | String a p', String b s' => eqb_ci a b && prefix_ci p' s'
  | String _ _, EmptyString => false
  end.

Definition is_label_char (c : ascii) : bool :=
  is_upper c || is_lower c || (nat_of_ascii c =? 95)%nat.

(** [\[[A-Z_]+\]] (flag [i]) matches at the head of [s]. *)
Definition label_at (s : string) : bool :=
  match s with
  | String c s1 =>
      (nat_of_ascii c =? 91)%nat
      && (0 <? span is_label_char s1)%nat
      && String.prefix "]" (drop (span is_label_char s1) s1)
  | EmptyString => false
  end.

(** [([\s\S]*?)(?=\[[A-Z_]+\]|$)]: the shortest prefix followed by a
    label or by the end of the input. *)
Fixpoint until_label (s : string) : string :=
  match s with
  | EmptyString => EmptyString
  | String c s' => if label_at s then EmptyString else String c (until_label s')
  end.

(** [body.match(sectionRegex)]: the leftmost occurrence of the label and
    the text captured after it. *)
Fixpoint find_section (label body : string) : option string :=
  if prefix_ci label body then Some (until_label (drop (String.length label) body))
  else
    match body with
    | String _ body' => find_section label body'
    | EmptyString => None
    end.

Definition sectionLabel (key : string) : string := "[" +:+ key +:+ "]".

(** The helper [extract]: [m ? m[1].trim() : null]. *)
Definition extract (body key : string) : option string :=
  option_map trim (find_section (sectionLabel key) body).

(** [if (v) newRule.field = v] and [v || old]: the extracted value when
    it is truthy, the old value otherwise. *)
Definition updated (v : option string) (old : string) : string :=
  match v with
  | Some s => if truthy s then s else old
  | None => old
  end.

Definition updated_opt (v : option string) (old : option string) : option string :=
  match v with
  | Some s => if truthy s then Some s else old
  | None => old
  end.

Definition is_truthy (v : option string) : bool :=
  match v with Some s => truthy s | None => false end.

(** The body of the loop after the original rule is found. *)
Definition applyRuleBlock (body : string) (originalRule : PlaybookRule) : PlaybookRule :=
  let red_ := extract body "RISK_RED" in
  let yellow_ := extract body "RISK_YELLOW" in
  let green_ := extract body "RISK_GREEN" in
  {| rule_id := rule_id originalRule;
     category := updated_opt (extract body "CATEGORY") (category originalRule);
     subcategory := subcategory originalRule;
     topic := updated (extract body "TOPIC") (topic originalRule);
     synonyms := synonyms originalRule;
     signal_keywords := signal_keywords originalRule;
     clause_number := clause_number originalRule;
     preferred_position := updated (extract body "PREFERRED") (preferred_position originalRule);
     reasoning := updated (extract body "REASONING") (reasoning originalRule);
     fallback_position := updated_opt (extract body "FALLBACK") (fallback_position originalRule);
     suggested_drafting := updated_opt (extract body "DRAFTING") (suggested_drafting originalRule);
     risk_criteria :=
       if is_truthy red_ || is_truthy yellow_ || is_truthy green_
       then {| green := updated green_ (green (risk_criteria originalRule));
               yellow := updated yellow_ (yellow (risk_criteria originalRule));
               red := updated red_ (red (risk_criteria originalRule)) |}
       else risk_criteria originalRule |}.

(** [originalRules.find(r => r.rule_id === id)] *)
Definition findRule (originalRules : list PlaybookRule) (id : string) : option PlaybookRule :=
  find (fun r => match rule_id r with Some i => String.eqb i id | None => false end)
    originalRules.

Definition parseRuleIR (text : string) (originalRules : list PlaybookRule)
    : list PlaybookRule :=
  flat_map
    (fun m : string * string =>
       match findRule originalRules (fst m) with
       | Some originalRule => [applyRuleBlock (snd m) originalRule]
       | None => []
       end)
    (ruleBlocks O text).


(** *** generateRuleId *)

(** [s.replace(/\s+/g, rep)]: every maximal run of white space becomes
    one [rep]; [in_run] tells that the previous character was white
    space. *)
Fixpoint replace_spaces (rep : string) (in_run : bool) (s : string) : string :=
  match s with
  | EmptyString => EmptyString
  | String c s' =>
      if is_space c then
        if in_run then replace_spaces rep true s'
        else rep +:+ replace_spaces rep true s'
      else String c (replace_spaces rep false s')
  end.

(** [s.padStart(2, '0')] *)
Definition padStart2 (s : string) : string :=
  match String.length s with
  | 0%nat => "00"
  | 1%nat => "0" +:+ s
  | _ => s
  end.

(** The index is the counter of a category, a non-negative integer. *)
Definition generateRuleId (category : string) (subcategory : option string) (index : nat)
    : string :=
  let cat :=
    substring0 12 (replace_spaces "_" false
                     (toUpperCase (if truthy category then category else "GENERAL"))) in
  let sub :=
    match subcategory with
    | Some s =>
        if truthy s
        then "_" +:+ substring0 8 (replace_spaces "_" false (toUpperCase s))
        else EmptyString
    | None => EmptyString
    end in
  let num := padStart2 (string_of_nat index) in
  cat +:+ sub +:+ "_" +:+ num.

(** *** postProcessPlaybookRules *)

(** [a.indexOf(v)] on an array of strings. *)
Fixpoint array_indexOf (v : string) (a : list string) : option nat :=
  match a with
  | [] => None
  | x :: a' => if String.eqb x v then Some O else option_map S (array_indexOf v a')
  end.

(** [a.filter((v, i, a) => a.indexOf(v) === i)] *)
Definition unique (a : list string) : list string :=
  map snd
    (List.filter
       (fun iv : nat * string =>
          match array_indexOf (snd iv) a with
          | Some j => (j =? fst iv)%nat
          | None => false
          end)
       (indexed a)).

(** [\w] *)
Definition is_word (c : ascii) : bool :=
  is_upper c || is_lower c
  || ((48 <=? nat_of_ascii c)%nat && (nat_of_ascii c <=? 57)%nat)
  || (nat_of_ascii c =? 95)%nat.

Definition starts_with_word (s : string) : bool :=
  match s with
  | String c _ => is_word c
  | EmptyString => false
  end.

(** [text.match(/\b[a-z]{4,}\b/g)]: the matches from left to right. A
    match can only start after a character that is not a word character
    (or at the start) and takes the whole run of lower-case letters,
    which must be four or more and must not be followed by a word
    character: a shorter run would end between two word characters,
    where [\b] fails. [prev_word] tells that the previous character is a
    word character, [skip] counts the characters of the current match
    still to be passed. *)
Fixpoint keyword_matches (skip : nat) (prev_word : bool) (s : string) : list string :=
  match s with
  | EmptyString => []
  | String c s' =>
      match skip with
      | S k => keyword_matches k (is_word c) s'
      | O =>
          let n := span is_lower s in
          if negb prev_word && (4 <=? n)%nat && negb (starts_with_word (drop n s))
          then substring0 n s :: keyword_matches (Nat.pred n) (is_word c) s'
          else keyword_matches O (is_word c) s'
      end
  end.

(** [[...new Set(words)]]: the distinct words in the order of their
    first occurrence. *)
Fixpoint set_of (seen : list string) (words : list string) : list string :=
  match words with
  | [] => []
  | w :: words' =>
      if string_in w seen then set_of seen words'
      else w :: set_of (w :: seen) words'
  end.

Definition STOP_WORDS : list string :=
  ["this"; "that"; "with"; "from"; "shall"; "will"; "must"].

(** The keywords extracted from the topic and the preferred position. *)
Definition extractKeywords (rule : PlaybookRule) : list string :=
  let text := toLowerCase (topic rule +:+ " " +:+ preferred_position rule) in
  let words := keyword_matches O false text in
  firstn 5 (List.filter (fun w => negb (string_in w STOP_WORDS)) (set_of [] words)).

(** [x || dflt] on a string. *)
Definition or_else (x dflt : string) : string := if truthy x then x else dflt.

(** The callback of [rules.map], with the counters it captured. A rule
    without a [risk_criteria] object reads as one whose three texts are
    empty. *)
Definition postProcessRule (categoryCounters : gmap string nat) (rule : PlaybookRule)
    : gmap string nat * PlaybookRule :=
  let normalizedCategory := normalizeCategory (or_default (category rule) "GENERAL") in
  let counter := (default 0%nat (categoryCounters !! normalizedCategory) + 1)%nat in
  let rule_id_ := generateRuleId normalizedCategory (subcategory rule) counter in
  let synonyms0 := default [] (synonyms rule) in
  let synonyms_ :=
    if (length synonyms0 =? 0)%nat && truthy (topic rule) then
      let topicLower := toLowerCase (topic rule) in
      unique [topic rule; topicLower; replace_spaces " " false topicLower]
    else synonyms0 in
  let signal_keywords0 := default [] (signal_keywords rule) in
  let signal_keywords_ :=
    if (length signal_keywords0 =? 0)%nat then extractKeywords rule
    else signal_keywords0 in
  let risk_criteria_ :=
    {| red := or_else (red (risk_criteria rule)) "Clause is missing or clearly adverse";
       yellow := or_else (yellow (risk_criteria rule)) "Clause exists but needs negotiation";
       green := or_else (green (risk_criteria rule)) "Clause meets preferred position" |} in
  (<[normalizedCategory := counter]> categoryCounters,
   {| rule_id := Some rule_id_;
      category := Some normalizedCategory;
      subcategory := subcategory rule;
      topic := topic rule;
      synonyms := Some synonyms_;
      signal_keywords := Some signal_keywords_;
      clause_number := clause_number rule;
      preferred_position := preferred_position rule;
      reasoning := reasoning rule;
      fallback_position := fallback_position rule;
      suggested_drafting := suggested_drafting rule;
      risk_criteria := risk_criteria_ |}).

(** [rules.map(...)] from the counters reached so far. *)
Fixpoint postProcessFrom (categoryCounters : gmap string nat) (rules : list PlaybookRule)
    : list PlaybookRule :=
  match rules with
  | [] => []
  | rule :: rest =>
      let '(counters1, rule1) := postProcessRule categoryCounters rule in
      rule1 :: postProcessFrom counters1 rest
  end.

Definition postProcessPlaybookRules (rules : list PlaybookRule) : list PlaybookRule :=
  postProcessFrom ∅ rules.

(** [enrichPlaybookWithEmbeddings]; the progress callback only reports. *)
Definition enrichPlaybookWithEmbeddings (playbook : Playbook) : Playbook :=
  {| playbook_name := playbook_name playbook;
     playbook_party := playbook_party playbook;
     rules := postProcessPlaybookRules (rules playbook) |}.

(** *** refinePlaybookRule and refinePlaybookGlobal *)

(** [{ ...rule, rule_id: id }] *)
Definition with_rule_id (rule : PlaybookRule) (id : string) : PlaybookRule :=
  {| rule_id := Some id;
     category := category rule;
     subcategory := subcategory rule;
     topic := topic rule;
     synonyms := synonyms rule;
     signal_keywords := signal_keywords rule;
     clause_number := clause_number rule;
     preferred_position := preferred_position rule;
     reasoning := reasoning rule;
     fallback_position := fallback_position rule;
     suggested_drafting := suggested_drafting rule;
     risk_criteria := risk_criteria rule |}.

(** The object kept of a rule in the context of a global refinement. *)
Definition fullContextRule (r : PlaybookRule) : PlaybookRule :=
  {| rule_id := rule_id r;
     category := category r;
     subcategory := None;
     topic := topic r;
     synonyms := None;
     signal_keywords := None;
     clause_number := None;
     preferred_position := preferred_position r;
     reasoning := reasoning r;
     fallback_position := fallback_position r;
     suggested_drafting := suggested_drafting r;
     risk_criteria := risk_criteria r |}.

(** A refinement request, kept as its parts: the instruction and the
    rules serialized into the prompt. The system instruction is
    [REFINEMENT_IR_PROMPT] in both callers. *)
Record RefineRequest := {
  rr_instruction : string;
  rr_rules : list PlaybookRule
}.

(** [a === b] on optional strings. *)
Definition same_id (a b : option string) : bool :=
  match a, b with
  | Some x, Some y => String.eqb x y
  | None, None => true
  | _, _ => false
  end.

(** [rules.map((r, i) => ({ ...r, rule_id: r.rule_id || `RULE_${i + 1}` }))],
    [i] counting from [start]. *)
Fixpoint withStableIds (start : nat) (rules : list PlaybookRule) : list PlaybookRule :=
  match rules with
  | [] => []
  | r :: rest =>
      with_rule_id r (or_default (rule_id r) ("RULE_" +:+ string_of_nat (start + 1)))
        :: withStableIds (S start) rest
  end.

(** [rulesWithIds.map(r => changedRules.find(c => c.rule_id === r.rule_id) || r)] *)
Definition mergeChanges (rulesWithIds changedRules : list PlaybookRule) : list PlaybookRule :=
  map (fun r =>
         match find (fun c => same_id (rule_id c) (rule_id r)) changedRules with
         | Some change => change
         | None => r
         end)
      rulesWithIds.

Section Refinement.

Variable Service : Type.

(** [generateContentWithRetry(ai, ...)] on a refinement request: the
    state of the service afterwards and the response, or the error the
    call is rejected with once its retries are spent. *)
Variable generateRefinement : Service -> RefineRequest -> Service * (Response + ApiError).

(** The result is the value of the promise, or the error it rejects
    with. *)
Definition refinePlaybookRule (svc : Service) (rule : PlaybookRule) (instruction : string)
    : Service * (PlaybookRule + ApiError) :=
  let ruleWithId := with_rule_id rule (or_default (rule_id rule) "SINGLE_RULE_01") in
  match generateRefinement svc
          {| rr_instruction := instruction; rr_rules := [ruleWithId] |} with
  | (svc1, inr e) => (svc1, inr e)
  | (svc1, inl response) =>
      let changes := parseRuleIR (or_default (resp_text response) EmptyString) [ruleWithId] in
      (svc1, inl (match changes with
                  | change :: _ => change
                  | [] => ruleWithId
                  end))
  end.

Definition refinePlaybookGlobal (svc : Service) (playbook : Playbook) (instruction : string)
    : Service * (Playbook + ApiError) :=
  let rulesWithIds := withStableIds 0 (rules playbook) in
  let fullContextRules := map fullContextRule rulesWithIds in
  match generateRefinement svc
          {| rr_instruction := instruction; rr_rules := fullContextRules |} with
  | (svc1, inr e) => (svc1, inr e)
  | (svc1, inl response) =>
      let changedRules :=
        parseRuleIR (or_default (resp_text response) EmptyString) rulesWithIds in
      (svc1, inl {| playbook_name := playbook_name playbook;
                    playbook_party := playbook_party playbook;
                    rules := mergeChanges rulesWithIds changedRules |})
  end.

End Refinement.

(** *** cleanAndParseJSON *)

(** [s.replace(/^p/i, '')] for a literal [p]. *)
Definition remove_prefix_ci (p s : string) : string :=
  if prefix_ci p s then drop (String.length p) s else s.

(** [s.endsWith(p)], read from the end: [p] is a prefix of what is left
    after the first [length s - length p] characters. *)
Definition ends_with (s p : string) : bool :=
  (String.length p <=? String.length s)%nat
  && String.eqb (drop (String.length s - String.length p) s) p.

(** [s.replace(/p$/, '')] for a literal [p]. *)
Definition remove_suffix (p s : string) : string :=
  if ends_with s p then substring0 (String.length s - String.length p) s else s.

(** The text handed to [JSON.parse]. *)
Definition stripFences (text : string) : string :=
  remove_suffix "```" (remove_prefix_ci "```" (remove_prefix_ci "```json" (trim text))).

Section Json.

(** The values of JSON and [JSON.parse], which answers [None] where
    it throws. *)
Variable Json : Type.
Variable JSON_parse : string -> option Json.

(** The result, and the texts reported by
    [console.error("JSON Parse failed on text:", text)]. *)
Definition cleanAndParseJSON (text : string) (fallback : Json) : Json * list string :=
  if truthy text then
    match JSON_parse (stripFences text) with
    | Some value => (value, [])
    | None => (fallback, [text])
    end
  else (fallback, []).

End Json.

(** *** runWithConcurrencyLimit *)

(** The helper is asynchronous: the tasks it calls run in turns, from one
    await to the next, and the environment chooses which suspended task
    runs its next turn. It is a step relation on the state of one call of
    the helper.

    A task is an async function without arguments: the events of its run
    up to its first await, which happen inside [task()]; the events of
    each later turn; the value its promise resolves to. Tasks whose
    promise rejects are left out. *)
Record PoolTask (T : Type) := {
  atCall : list event;
  resumptions : list (list event);
  resolvesTo : T
}.
Arguments atCall {T} _.
Arguments resumptions {T} _.
Arguments resolvesTo {T} _.

(** An entry of [executing]: the promise [p] of a task that was called,
    with the turns the task has still to run. *)
Record Started (T : Type) := {
  turnsLeft : list (list event);
  settlesWith : T
}.
Arguments turnsLeft {T} _.
Arguments settlesWith {T} _.

(** Where the body of the helper stands: it runs, and calls the next task
    before anything else happens; it is suspended at
    [await Promise.race(executing)]; or a promise of the race has settled
    and the body resumes, at once or after the reactions of other promises
    that settled with it. *)
Inductive loopStatus := LoopRuns | LoopAwaits | LoopReleased.

Record poolState (T : Type) := {
  pending : list (PoolTask T);      (* the tasks [for ... of] has not reached *)
  executing : list (Started T);
  loop : loopStatus;
  results : list T;
  emitted : list event
}.
Arguments pending {T} _.
Arguments executing {T} _.
Arguments loop {T} _.
Arguments results {T} _.
Arguments emitted {T} _.

Definition poolStart {T} (tasks : list (PoolTask T)) : poolState T :=
  {| pending := tasks; executing := []; loop := LoopRuns; results := [];
     emitted := [] |}.

(** The body of the helper is suspended: at the race, or after the last
    task at [await Promise.all(executing)]. *)
Definition loopWaits {T} (st : poolState T) : Prop :=
  loop st = LoopAwaits \/ loop st = LoopReleased \/ pending st = [].

Definition afterSettle (s : loopStatus) : loopStatus :=
  match s with
  | LoopAwaits => LoopReleased
  | other => other
  end.

Inductive pool_step {T} (limit : Z) : poolState T -> poolState T -> Prop :=
(** One round of the loop: [task()], [executing.push(p)], and the await
    when [executing.length >= limit]. *)
| pool_call st task rest :
    loop st <> LoopAwaits ->
    pending st = task :: rest ->
    pool_step limit st
      {| pending := rest;
         executing := executing st
                        ++ [{| turnsLeft := resumptions task;
                               settlesWith := resolvesTo task |}];
         loop := if limit <=? Z.of_nat (length (executing st) + 1)
                 then LoopAwaits else LoopRuns;
         results := results st;
         emitted := emitted st ++ atCall task |}
(** A suspended task runs a turn that is not its last. *)
| pool_turn st before r after turn more :
    loopWaits st ->
    executing st = before ++ r :: after ->
    turnsLeft r = turn :: more ->
    more <> [] ->
    pool_step limit st
      {| pending := pending st;
         executing := before ++ {| turnsLeft := more; settlesWith := settlesWith r |}
                             :: after;
         loop := loop st;
         results := results st;
         emitted := emitted st ++ turn |}
(** A task runs its last turn, if one is left, and its promise settles:
    [results.push(result)], then [executing.splice(index, 1)], and the
    race is won. *)
| pool_settle st before r after :
    loopWaits st ->
    executing st = before ++ r :: after ->
    (length (turnsLeft r) <= 1)%nat ->
    pool_step limit st
      {| pending := pending st;
         executing := before ++ after;
         loop := afterSettle (loop st);
         results := results st ++ [settlesWith r];
         emitted := emitted st ++ concat (turnsLeft r) |}.

(** The states a call of the helper goes through. *)
Inductive pool_reaches {T} (limit : Z) (tasks : list (PoolTask T)) : poolState T -> Prop :=
| reaches_start : pool_reaches limit tasks (poolStart tasks)
| reaches_step st st' :
    pool_reaches limit tasks st -> pool_step limit st st' ->
    pool_reaches limit tasks st'.

(** The helper returns: every task was called and every promise settled. *)
Definition runWithConcurrencyLimit {T} (tasks : list (PoolTask T)) (limit : Z)
    (final : poolState T) : Prop :=
  pool_reaches limit tasks final /\ pending final = [] /\ executing final = [].

End Gemini.

(** ** components/superdoc/SuperdocEditor.tsx *)

Module Superdoc.
Import JS.

(** *** The document tree of the editing engine

    The engine (ProseMirror, wrapped by Superdoc) is not part of the
    sources; what [updateClause] uses of it is modelled here. A node is a
    text node, a leaf (size 1) or a node with content (size 2 plus the
    size of its content); a position counts the tokens before it, the
    top node's content starting at 0. *)

Record attrs := {
  attr_id : option string;
  attr_status : option string;
  attr_risk : option string
}.

Definition no_attrs : attrs :=
  {| attr_id := None; attr_status := None; attr_risk := None |}.

#[warnings="-register-all"]
Inductive pmnode :=
| TextNode (text : string)
| LeafNode (a : attrs)
| ElemNode (a : attrs) (content : list pmnode).

Definition node_attrs (n : pmnode) : attrs :=
  match n with
  | TextNode _ => no_attrs
  | LeafNode a | ElemNode a _ => a
  end.

Definition node_content (n : pmnode) : list pmnode :=
  match n with
  | ElemNode _ cs => cs
  | _ => []
  end.

(** [node.nodeSize] *)
Fixpoint nodeSize (n : pmnode) : Z :=
  match n with
  | TextNode t => strlen t
  | LeafNode _ => 1
  | ElemNode _ cs => 2 + fold_right (fun c acc => nodeSize c + acc) 0 cs
  end.

(** [fragment.size] *)
Definition contentSize (cs : list pmnode) : Z :=
  fold_right (fun c acc => nodeSize c + acc) 0 cs.

Section Traversal.

(** The callback of [descendants]: it sees the node and its position,
    updates what the closure captured, and answers whether to descend
    (anything but [false]). *)
Context {St : Type} (f : pmnode -> Z -> St -> St * bool).

(** [nodesBetween] over a whole fragment: [visit] calls [f] on a node
    and, unless [f] answered [false], walks its children from the
    position after its opening token. *)
Fixpoint visit (n : pmnode) (pos : Z) (st : St) : St :=
  match n with
  | ElemNode _ cs =>
      if snd (f n pos st) then
        (fix walk (cs : list pmnode) (p : Z) (st : St) : St :=
           match cs with
           | [] => st
           | c :: cs' => walk cs' (p + nodeSize c) (visit c p st)
           end) cs (pos + 1) (fst (f n pos st))
      else fst (f n pos st)
  | _ => fst (f n pos st)
  end.

Fixpoint walk (cs : list pmnode) (p : Z) (st : St) : St :=
  match cs with
  | [] => st
  | c :: cs' => walk cs' (p + nodeSize c) (visit c p st)
  end.

(** [node.descendants(f)] *)
Definition descendants (n : pmnode) (st : St) : St := walk (node_content n) 0 st.

End Traversal.

(** [node.nodeAt(pos)]: the node directly after the position, counted
    from the start of the content of [node]; inside a text node, that
    text node. *)
Fixpoint nodeAt (n : pmnode) (pos : Z) : option pmnode :=
  match n with
  | ElemNode _ cs =>
      (fix scan (cs : list pmnode) (pos : Z) : option pmnode :=
         match cs with
         | [] => None
         | c :: cs' =>
             if pos <? 0 then None
             else if pos =? 0 then Some c
             else if pos <? nodeSize c then
               match c with
               | TextNode _ => Some c
               | _ => nodeAt c (pos - 1)
               end
             else scan cs' (pos - nodeSize c)
         end) cs pos
  | _ => None
  end.

(** *** The diff primitive (utils/diff) *)

Inductive diffop := DIFF_DELETE | DIFF_INSERT | DIFF_EQUAL.

Record diffpart := { op : diffop; text : string }.

(** *** Transactions *)

(** A position computed by the code: an integer, or [NaN] when an index
    fell outside the position map. *)
Definition jsnum := option Z.

Definition jadd (a b : jsnum) : jsnum :=
  match a, b with Some x, Some y => Some (x + y) | _, _ => None end.

Definition jsub (a b : jsnum) : jsnum :=
  match a, b with Some x, Some y => Some (x - y) | _, _ => None end.

Inductive step :=
| Delete (from to : jsnum)                  (* tr.delete(from, to) *)
| InsertText (text : string) (pos : jsnum)  (* tr.insertText(text, pos) *)
| SetNodeMarkup (pos : Z) (a : attrs).      (* tr.setNodeMarkup(pos, undefined, attrs) *)

Definition transaction := list step.

(** *** updateClause *)

(** [node.attrs.id === clauseId] *)
Definition has_id (clauseId : string) (n : pmnode) : bool :=
  match attr_id (node_attrs n) with
  | Some i => String.eqb i clauseId
  | None => false
  end.

(** The callback that looks for the block: it records the position and
    the node and does not descend into a node that matches. *)
Definition findBlock (clauseId : string) (n : pmnode) (pos : Z)
    (found : option (Z * pmnode)) : option (Z * pmnode) * bool :=
  if has_id clauseId n then (Some (pos, n), false) else (found, true).

Definition locateBlock (doc : pmnode) (clauseId : string) : option (Z * pmnode) :=
  descendants (findBlock clauseId) doc None.

(** [positionMap[i]]; [undefined] outside of the array. *)
Definition lookupZ (positionMap : list Z) (i : Z) : jsnum :=
  if i <? 0 then None else positionMap !! Z.to_nat i.

(** The callback that builds the position map and the text buffer. *)
Definition mapText (clausePos : Z) (n : pmnode) (pos : Z) (acc : list Z * string)
    : (list Z * string) * bool :=
  match n with
  | TextNode t =>
      let absolutePos := clausePos + 1 + pos in
      ((fst acc ++ map (fun i => absolutePos + Z.of_nat i) (seq 0 (String.length t)),
        snd acc +:+ t), true)
  | _ => (acc, true)
  end.

Definition buildPositionMap (clausePos : Z) (clauseNode : pmnode) : list Z * string :=
  descendants (mapText clausePos) clauseNode ([], EmptyString).

Record patchState := {
  tr : transaction;
  textIndex : Z;
  mapOffset : jsnum
}.

(** One call of the callback of [diffs.forEach]. *)
Definition applyPart (positionMap : list Z) (st : patchState) (part : diffpart) : patchState :=
  let token := text part in
  let len := Z.of_nat (length positionMap) in
  match op part with
  | DIFF_EQUAL =>
      {| tr := tr st; textIndex := textIndex st + strlen token; mapOffset := mapOffset st |}
  | DIFF_DELETE =>
      let baseDocPos := lookupZ positionMap (textIndex st) in
      let endTextIndex := Z.min (textIndex st + strlen token - 1) (len - 1) in
      let baseEndDocPos := jadd (lookupZ positionMap endTextIndex) (Some 1) in
      let actualDocPos := jadd baseDocPos (mapOffset st) in
      let actualEndDocPos := jadd baseEndDocPos (mapOffset st) in
      {| tr := tr st ++ [Delete actualDocPos actualEndDocPos];
         textIndex := textIndex st + strlen token;
         mapOffset := jsub (mapOffset st) (jsub actualEndDocPos actualDocPos) |}
  | DIFF_INSERT =>
      let baseDocPos :=
        if textIndex st <? len then lookupZ positionMap (textIndex st)
        else jadd (lookupZ positionMap (len - 1)) (Some 1) in
      let actualDocPos := jadd baseDocPos (mapOffset st) in
      {| tr := tr st ++ [InsertText token actualDocPos];
         textIndex := textIndex st;
         mapOffset := jadd (mapOffset st) (Some (strlen token)) |}
  end.

Definition buildPatch (positionMap : list Z) (diffs : list diffpart) : patchState :=
  fold_left (applyPart positionMap) diffs
    {| tr := []; textIndex := 0; mapOffset := Some 0 |}.

Definition set_status (a : attrs) (status : string) : attrs :=
  {| attr_id := attr_id a; attr_status := Some status; attr_risk := attr_risk a |}.

(** What [updateClause] does to the outside. *)
Inductive effect :=
| ConsoleGroup (label : string)
| ConsoleError (message : string)
| ConsoleGroupEnd
| SetDocumentMode (mode : string)       (* editor.setDocumentMode(mode) *)
| TrackChangesCommand (on : bool)       (* activeEditor.commands.trackChanges(on) *)
| Dispatch (t : transaction).           (* [t] is built on the state of the view
                                           and handed to [dispatch] *)

(** How the editor lets track changes be switched on, and whether that
    call throws. *)
Inductive tracking :=
| BySetDocumentMode (throws : bool)
| ByCommand (throws : bool)
| NoTracking.

(** The editor instance: [editorInstanceRef.current] and its
    [activeEditor], of which the document of the current state is kept. *)
Record Editor := {
  activeEditor : option pmnode;
  trackChanges : tracking
}.

Record result := {
  returned : option bool;     (* the value of the promise; [None] when it rejects *)
  effects : list effect;
  document : option pmnode    (* the document of the editor afterwards *)
}.

(** The [try] block that enables track changes; an exception is caught
    and logged. *)
Definition enableTrackChanges (editor : Editor) : list effect :=
  match trackChanges editor with
  | BySetDocumentMode throws =>
      SetDocumentMode "suggesting"
        :: (if throws then [ConsoleError "Track changes error:"] else [])
  | ByCommand throws =>
      TrackChangesCommand true
        :: (if throws then [ConsoleError "Track changes error:"] else [])
  | NoTracking => []
  end.

Section UpdateClause.

(** [calculateWordDiff] of utils/diff, which is not among the sources. *)
Variable calculateWordDiff : string -> string -> list diffpart.

(** The engine: a transaction is built on the document of the view,
    each step ([tr.delete], [tr.insertText], [tr.setNodeMarkup]) being
    applied as it is issued, and [dispatch] makes the result the
    document of the view. [None] when a step throws: that happens while
    the transaction is built, so before it is dispatched. *)
Variable applyTransaction : pmnode -> transaction -> option pmnode.

Definition updateClause (editor : option Editor) (clauseId newText : string) : result :=
  match editor with
  | None => {| returned := Some false; effects := []; document := None |}
  | Some ed =>
  match activeEditor ed with
  | None => {| returned := Some false; effects := []; document := None |}
  | Some doc =>
      let group := ConsoleGroup ("[Diffing] Update Block " +:+ clauseId) in
      match locateBlock doc clauseId with
      | None =>
          {| returned := Some false;
             effects := [group;
                         ConsoleError ("Block node not found for ID: " +:+ clauseId);
                         ConsoleGroupEnd];
             document := Some doc |}
      | Some (clausePos, clauseNode) =>
          let start := group :: enableTrackChanges ed in
          let '(positionMap, textBuffer) := buildPositionMap clausePos clauseNode in
          if (length positionMap =? 0)%nat then
            {| returned := Some false;
               effects := start ++ [ConsoleError "No text in block"; ConsoleGroupEnd];
               document := Some doc |}
          else
            let diffs := calculateWordDiff textBuffer newText in
            let patch := buildPatch positionMap diffs in
            match applyTransaction doc (tr patch) with
            | None =>
                (* a step of [diffs.forEach] throws: nothing is dispatched *)
                {| returned := None;
                   effects := start;
                   document := Some doc |}
            | Some finalDoc =>
                match locateBlock finalDoc clauseId with
                | Some (newPos, _) =>
                    match nodeAt finalDoc newPos with
                    | None =>
                        (* reading [.attrs] of [null] throws *)
                        {| returned := None;
                           effects := start ++ [Dispatch (tr patch)];
                           document := Some finalDoc |}
                    | Some n =>
                        let finalTr :=
                          [SetNodeMarkup newPos (set_status (node_attrs n) "pending")] in
                        match applyTransaction finalDoc finalTr with
                        | None =>
                            (* [setNodeMarkup] throws before [finalDispatch] *)
                            {| returned := None;
                               effects := start ++ [Dispatch (tr patch)];
                               document := Some finalDoc |}
                        | Some lastDoc =>
                            {| returned := Some true;
                               effects := start ++ [Dispatch (tr patch); Dispatch finalTr;
                                                    ConsoleGroupEnd];
                               document := Some lastDoc |}
                        end
                    end
                | None =>
                    {| returned := Some true;
                       effects := start ++ [Dispatch (tr patch); ConsoleGroupEnd];
                       document := Some finalDoc |}
                end
            end
      end
  end
  end.

End UpdateClause.

(** *** The transaction on the token sequence *)

(** Modelled from the spec: the editing engine, which is outside the
    sources. Its boundary (section 6) is position-based
    [delete(tx, from, to)] and [insertText(tx, pos, text)], applied in
    order as one transaction. The document is read as its sequence of
    tokens, one per position: a character of a text node, the opening or
    closing token of a node with content, or a leaf. [delete] removes the
    positions from [from] up to [to], [insertText] puts the characters at
    [pos]; a position that is [NaN] or outside of the document makes the
    engine throw. *)
Inductive token :=
| TChar (c : ascii)
| TOpen (a : attrs)
| TClose
| TLeaf (a : attrs).

Fixpoint textTokens (s : string) : list token :=
  match s with
  | String c s' => TChar c :: textTokens s'
  | EmptyString => []
  end.

Fixpoint flatten (n : pmnode) : list token :=
  match n with
  | TextNode t => textTokens t
  | LeafNode a => [TLeaf a]
  | ElemNode a cs => TOpen a :: flat_map flatten cs ++ [TClose]
  end.

(** The tokens of a fragment; position [p] of a document is index [p] of
    the tokens of its content. *)
Definition tokens (cs : list pmnode) : list token := flat_map flatten cs.

(** The text of a run of tokens: its characters, in order. *)
Fixpoint chars (ts : list token) : string :=
  match ts with
  | TChar c :: ts' => String c (chars ts')
  | _ :: ts' => chars ts'
  | [] => EmptyString
  end.

Definition in_range (ts : list token) (p : Z) : bool :=
  (0 <=? p) && (p <=? Z.of_nat (length ts)).

Definition applyStep (ts : list token) (s : step) : option (list token) :=
  match s with
  | Delete (Some from) (Some to) =>
      if in_range ts from && in_range ts to && (from <=? to)
      then Some (firstn (Z.to_nat from) ts ++ skipn (Z.to_nat to) ts)
      else None
  | InsertText text (Some pos) =>
      if in_range ts pos
      then Some (firstn (Z.to_nat pos) ts ++ textTokens text ++ skipn (Z.to_nat pos) ts)
      else None
  | SetNodeMarkup pos a =>
      if pos <? 0 then None
      else
        match ts !! Z.to_nat pos with
        | Some (TOpen _) => Some (<[Z.to_nat pos := TOpen a]> ts)
        | Some (TLeaf _) => Some (<[Z.to_nat pos := TLeaf a]> ts)
        | _ => None
        end
  | _ => None
  end.

Definition applySteps (t : transaction) (ts : list token) : option (list token) :=
  fold_left (fun acc s => acc ≫= (fun ts => applyStep ts s)) t (Some ts).

(** The texts of the text leaves of a node, in document order. *)
Fixpoint textLeaves (n : pmnode) : list string :=
  match n with
  | TextNode t => [t]
  | LeafNode _ => []
  | ElemNode _ cs => flat_map textLeaves cs
  end.

(** The engine keeps no empty text node in a document. *)
Fixpoint well_formed (n : pmnode) : bool :=
  match n with
  | TextNode t => truthy t
  | LeafNode _ => true
  | ElemNode _ cs => forallb well_formed cs
  end.

(** The fragment-level reading of [nodeAt]. *)
Fixpoint nodeAtIn (cs : list pmnode) (pos : Z) : option pmnode :=
  match cs with
  | [] => None
  | c :: cs' =>
      if pos <? 0 then None
      else if pos =? 0 then Some c
      else if pos <? nodeSize c then
        match c with
        | TextNode _ => Some c
        | _ => nodeAt c (pos - 1)
        end
      else nodeAtIn cs' (pos - nodeSize c)
  end.


(** *** extractNodeText and getClauses *)

(** [node.attrs.id] when it is truthy. *)
Definition truthy_id (n : pmnode) : option string :=
  match attr_id (node_attrs n) with
  | Some i => if truthy i then Some i else None
  | None => None
  end.

Record Clause := {
  clause_id : string;
  clause_text : string;
  clause_risk : option string;
  startPos : Z;
  clause_nodeSize : Z
}.

Section Clauses.

(** [node.isBlock], a property of the type of the node in the schema
    of the engine. *)
Variable isBlock : pmnode -> bool.

(** The text of a node: a text node gives its text; any other node the
    texts of its children, a line feed after each child that is a
    block, trimmed. *)
Fixpoint extractNodeText (node : pmnode) : string :=
  match node with
  | TextNode t => t
  | LeafNode _ => trim EmptyString
  | ElemNode _ cs =>
      trim
        ((fix each (cs : list pmnode) : string :=
            match cs with
            | [] => EmptyString
            | child :: cs' =>
                extractNodeText child
                  +:+ (if isBlock child then newline else EmptyString)
                  +:+ each cs'
            end) cs)
  end.

(** The callback of [getClauses]: a node with an id not seen before is
    recorded; the walk always descends. *)
Definition collectClause (n : pmnode) (pos : Z) (st : gset string * list Clause)
    : (gset string * list Clause) * bool :=
  match truthy_id n with
  | Some id =>
      if bool_decide (id ∈ fst st) then (st, true)
      else
        (({[id]} ∪ fst st,
          snd st ++ [{| clause_id := id;
                        clause_text := extractNodeText n;
                        clause_risk := attr_risk (node_attrs n);
                        startPos := pos;
                        clause_nodeSize := nodeSize n |}]),
         true)
  | None => (st, true)
  end.

Definition getClauses (editor : option Editor) : list Clause :=
  match editor with
  | None => []
  | Some ed =>
      match activeEditor ed with
      | None => []
      | Some doc => snd (descendants collectClause doc (∅, []))
      end
  end.

End Clauses.

(** *** assembleClauseContext *)

Section TraversalWithParent.

(** The callback of [descendants] with all four arguments: the node,
    its position, its parent and its index in the parent. *)
Context {St : Type} (f : pmnode -> Z -> pmnode -> nat -> St -> St * bool).

Fixpoint visitIn (n : pmnode) (pos : Z) (parent : pmnode) (index : nat) (st : St) : St :=
  match n with
  | ElemNode _ cs =>
      if snd (f n pos parent index st) then
        (fix walkIn (cs : list pmnode) (p : Z) (i : nat) (st : St) : St :=
           match cs with
           | [] => st
           | c :: cs' => walkIn cs' (p + nodeSize c) (S i) (visitIn c p n i st)
           end) cs (pos + 1) O (fst (f n pos parent index st))
      else fst (f n pos parent index st)
  | _ => fst (f n pos parent index st)
  end.

Fixpoint walkIn (parent : pmnode) (cs : list pmnode) (p : Z) (i : nat) (st : St) : St :=
  match cs with
  | [] => st
  | c :: cs' => walkIn parent cs' (p + nodeSize c) (S i) (visitIn c p parent i st)
  end.

Definition descendantsIn (n : pmnode) (st : St) : St := walkIn n (node_content n) 0 O st.

End TraversalWithParent.

Record Target := {
  targetNode : pmnode;
  targetPos : Z;
  targetIndex : nat;
  parentNode : pmnode
}.

(** The callback that looks for the target block. *)
Definition findTarget (clauseId : string) (n : pmnode) (pos : Z) (parent : pmnode)
    (index : nat) (found : option Target) : option Target * bool :=
  if has_id clauseId n
  then (Some {| targetNode := n; targetPos := pos; targetIndex := index;
                parentNode := parent |}, false)
  else (found, true).

(** The options; the two counts are the numbers of turns of the loops. *)
Record ClauseContextOptions := {
  prevClauses : option nat;
  nextClauses : option nat;
  maxContextChars : option Z
}.

Record ClauseAssemblyOutput := {
  target : string;
  context : string;
  meta_id : string;
  meta_startPos : Z;
  meta_endPos : Z;
  contextStart : Z;
  contextEnd : Z;
  truncated : bool
}.

(** [text.slice(-n)] for [0 < n]: the last [n] characters. *)
Definition slice_last (n : Z) (text : string) : string :=
  drop (String.length text - Z.to_nat n) text.

(** [text.slice(0, n)] for [0 < n]. *)
Definition slice_first (n : Z) (text : string) : string := substring0 (Z.to_nat n) text.

Section Assembly.

Variable isBlock : pmnode -> bool.

(** The loop over the siblings before the target, nearest first;
    [turns] counts the turns left. The result is the text, the start
    of the context and whether the limit cut the loop short. *)
Fixpoint collectPrev (maxContextChars : Z) (siblings : list pmnode) (turns : nat)
    (prevText : string) (charsCollected : Z) (contextStart : Z) : string * Z * bool :=
  match turns, siblings with
  | S turns', sibling :: rest =>
      let text := extractNodeText isBlock sibling in
      if negb (maxContextChars =? 0) && (maxContextChars <? charsCollected + strlen text)
      then
        let remaining := maxContextChars - charsCollected in
        (if 0 <? remaining
         then slice_last remaining text +:+ newline +:+ prevText
         else prevText,
         contextStart, true)
      else
        collectPrev maxContextChars rest turns'
          (text +:+ newline +:+ prevText) (charsCollected + strlen text)
          (contextStart - nodeSize sibling)
  | _, _ => (prevText, contextStart, false)
  end.

(** The loop over the siblings after the target. *)
Fixpoint collectNext (maxContextChars : Z) (siblings : list pmnode) (turns : nat)
    (nextText : string) (charsCollected : Z) (contextEnd : Z) : string * Z * bool :=
  match turns, siblings with
  | S turns', sibling :: rest =>
      let text := extractNodeText isBlock sibling in
      if negb (maxContextChars =? 0) && (maxContextChars <? charsCollected + strlen text)
      then
        let remaining := maxContextChars - charsCollected in
        (if 0 <? remaining
         then nextText +:+ slice_first remaining text
         else nextText,
         contextEnd, true)
      else
        collectNext maxContextChars rest turns'
          (nextText +:+ text +:+ newline) (charsCollected + strlen text)
          (contextEnd + nodeSize sibling)
  | _, _ => (nextText, contextEnd, false)
  end.

(** The console warning for a block that is not found is left out. *)
Definition assembleClauseContext (editor : option Editor) (clauseId : string)
    (options : ClauseContextOptions) : option ClauseAssemblyOutput :=
  match editor with
  | None => None
  | Some ed =>
  match activeEditor ed with
  | None => None
  | Some doc =>
      let prevClauses_ := default 1%nat (prevClauses options) in
      let nextClauses_ := default 1%nat (nextClauses options) in
      let maxContextChars_ := default 2000 (maxContextChars options) in
      match descendantsIn (findTarget clauseId) doc None with
      | None => None
      | Some found =>
          let rawTargetText := extractNodeText isBlock (targetNode found) in
          let siblings := node_content (parentNode found) in
          let '(prevText, contextStart_, truncatedPrev) :=
            collectPrev maxContextChars_ (rev (firstn (targetIndex found) siblings))
              prevClauses_ EmptyString 0 (targetPos found) in
          let '(nextText, contextEnd_, truncatedNext) :=
            collectNext maxContextChars_ (skipn (S (targetIndex found)) siblings)
              nextClauses_ EmptyString 0
              (targetPos found + nodeSize (targetNode found)) in
          Some {| target := "<target_clause id=" +:+ dquote +:+ clauseId +:+ dquote +:+ ">"
                              +:+ rawTargetText +:+ "</target_clause>";
                  context := "<context>" +:+ trim prevText +:+ newline +:+ "..."
                               +:+ newline +:+ trim nextText +:+ "</context>";
                  meta_id := clauseId;
                  meta_startPos := targetPos found;
                  meta_endPos := targetPos found + nodeSize (targetNode found);
                  contextStart := contextStart_;
                  contextEnd := contextEnd_;
                  truncated := truncatedPrev || truncatedNext |}
      end
  end
  end.

End Assembly.

End Superdoc.

(** * Vocabulary of the properties *)

(** ** For services/geminiService.ts *)

Module GeminiSpec.
Import JS Gemini.

(** *** The batch chunker *)

(** Concatenation of a list of strings, in order. *)
Definition joinAll (l : list string) : string := fold_right String.append EmptyString l.

(** The serialization of a run of blocks: their [pText]s, in order. *)
Definition serialize (g : list Paragraph) : string := joinAll (map pText g).

(** A closed chunk: a non-empty run of whole blocks, within the count
    ceiling, and within the character budget unless it is a single block. *)
Definition good_group (maxClauses : Z) (g : list Paragraph) : Prop :=
  g <> [] /\
  Z.of_nat (length g) <= maxClauses /\
  (strlen (serialize g) <= MAX_CHARS_PER_BATCH \/ length g = 1%nat).

(** The loop invariant: the closed chunks are the serializations of
    [groups], the open chunk is the serialization of [cur]. *)
Record chunk_inv (maxClauses : Z) (st : chunkState)
    (groups : list (list Paragraph)) (cur : list Paragraph) : Prop := {
  inv_chunks : chunks st = map serialize groups;
  inv_current : currentChunk st = serialize cur;
  inv_count : currentClauseCount st = Z.of_nat (length cur);
  inv_groups : Forall (good_group maxClauses) groups;
  inv_cur : cur = [] \/ good_group maxClauses cur
}.

(** *** Traces of a run *)

(** A failure the code retries on: rate limit or server error. *)
Definition transient (e : ApiError) : bool := isRateLimit e || isServerError e.

Definition delays (tr : list event) : list Q :=
  flat_map (fun ev => match ev with EvDelay ms => [ms] | _ => [] end) tr.

Definition is_request (ev : event) : bool :=
  match ev with EvRequest _ => true | _ => false end.

Definition requests (tr : list event) : nat := length (List.filter is_request tr).

(** [n; n-1; ...; 1]: the values of [retries] at which a retry can happen. *)
Fixpoint countdown (n : nat) : list nat :=
  match n with
  | O => []
  | S n' => n :: countdown n'
  end.

(** Calls in flight: a request adds one, a settled promise removes one. *)
Definition flightDelta (ev : event) : Z :=
  match ev with
  | EvRequest _ => 1
  | EvSettled _ => -1
  | _ => 0
  end.

Definition inFlight (tr : list event) : Z :=
  fold_right (fun ev n => flightDelta ev + n) 0 tr.

(** Traces in which every call settles before anything else happens. *)
Inductive sequential : list event -> Prop :=
| seq_nil : sequential []
| seq_call params ok tr : sequential tr -> sequential (EvRequest params :: EvSettled ok :: tr)
| seq_other ev tr : flightDelta ev = 0 -> sequential tr -> sequential (ev :: tr).

Definition is_transient_failure (r : Response + ApiError) : Prop :=
  exists e, r = inr e /\ transient e = true.

Definition is_rejection (ev : event) : Prop :=
  match ev with
  | EvDuplicateId _ | EvDuplicateContent _ _ => True
  | _ => False
  end.

(** What became of a batch: skipped by the relevance filter, failed
    after its retries, or answered with findings. *)
Inductive batchOutcome :=
| Skipped
| Failed (e : ApiError)
| Delivered (findings : list AnalysisFinding).

Definition delivered (outs : list batchOutcome) : list AnalysisFinding :=
  flat_map (fun o => match o with Delivered fs => fs | _ => [] end) outs.

(** C2 as the specification states it, on the findings returned:
    pairwise distinct identifiers, and no two findings with the same
    fingerprint under different identifiers. *)
Definition deduplicated (fs : list AnalysisFinding) : Prop :=
  NoDup (map target_id fs) /\
  forall f g, In f fs -> In g fs -> textHash f = textHash g -> target_id f = target_id g.

(** [g] stands in the way of [f]: it has its identifier or its
    fingerprint. *)
Definition clashes (f g : AnalysisFinding) : bool :=
  String.eqb (target_id g) (target_id f) || String.eqb (textHash g) (textHash f).

(** The merge as the specification words it, first wins: a finding is
    kept, after those kept so far, unless one of them has its identifier
    or its fingerprint. *)
Fixpoint keepFirst (kept incoming : list AnalysisFinding) : list AnalysisFinding :=
  match incoming with
  | [] => kept
  | f :: rest =>
      if existsb (clashes f) kept then keepFirst kept rest
      else keepFirst (kept ++ [f]) rest
  end.

Section Dispatch.

Variable Service : Type.
Variable generateContent : Service -> GenParams -> Service * (Response + ApiError).
Variable IRParsedClause : Type.
Variable parseIR : string -> list IRParsedClause.
Variable mapIRToFindings : list IRParsedClause -> list AnalysisFinding.

Abbreviation retry := (generateContentWithRetry Service generateContent).
Abbreviation runState := (runState Service).
Abbreviation findingsOf := (findingsOf IRParsedClause parseIR mapIRToFindings).

(** The outcomes of the first [n] calls made in succession from [svc]. *)
Fixpoint outcomes (svc : Service) (params : GenParams) (n : nat)
    : list (Response + ApiError) :=
  match n with
  | O => []
  | S n' =>
      let '(svc1, r) := generateContent svc params in
      r :: outcomes svc1 params n'
  end.

(** The part of the run state the deduplication reads and writes. *)
Definition core_eq (a b : runState) : Prop :=
  allFindings a = allFindings b /\
  seenIds a = seenIds b /\
  seenTextHashes a = seenTextHashes b.

(** The invariant of the running result set. *)
Record dedup_inv (st : runState) : Prop := {
  inv_nodup : NoDup (map target_id (allFindings st));
  inv_seen : forall id, id ∈ seenIds st <-> In id (map target_id (allFindings st));
  inv_hash : forall f, In f (allFindings st) ->
               seenTextHashes st !! textHash f = Some (target_id f);
  inv_nonempty : forall f, In f (allFindings st) -> target_id f <> EmptyString
}.

(** Every fingerprint on record is that of a finding kept, under its
    identifier. *)
Definition hash_inv (st : runState) : Prop :=
  forall h e, seenTextHashes st !! h = Some e ->
              exists g, In g (allFindings st) /\ textHash g = h /\ target_id g = e.

Fixpoint batchOutcomes (playbook : Playbook) (party : string)
    (testConfig : option AnalysisTestConfig) (svc : Service)
    (batches : list (nat * string)) : list batchOutcome :=
  match batches with
  | [] => []
  | (i, chunk) :: rest =>
      if max_lt (batchMaxScore playbook chunk) 4
      then Skipped :: batchOutcomes playbook party testConfig svc rest
      else
        match retry svc (batchParams playbook party testConfig chunk) 3 with
        | (svc1, _, inr e) => Failed e :: batchOutcomes playbook party testConfig svc1 rest
        | (svc1, _, inl response) =>
            Delivered (findingsOf response)
              :: batchOutcomes playbook party testConfig svc1 rest
        end
  end.

Definition emptyRun (svc0 : Service) : runState :=
  {| svc := svc0; allFindings := []; seenIds := ∅; seenTextHashes := ∅; trace := [] |}.

End Dispatch.

Arguments core_eq {Service} _ _.
Arguments dedup_inv {Service} _.
Arguments emptyRun {Service} _.
Arguments hash_inv {Service} _.

(** *** A concrete service, for evaluation *)

(** A service that answers every call with the same text and counts the
    calls; a parser that reads the text "R" as four findings, the second
    repeating the identifier of the first and the third its text. *)
Definition toyService (n : nat) (_ : GenParams) : nat * (Response + ApiError) :=
  (S n, inl {| resp_text := Some "R" |}).

(** A service that rejects its first two calls with a rate-limit error
    and answers from the third call on. *)
Definition rateLimitError : ApiError :=
  {| err_status := Some 429; err_code := None;
     err_message := Some "Too Many Requests"; err_toString := "Error" |}.

Definition busyService (n : nat) (_ : GenParams) : nat * (Response + ApiError) :=
  (S n, if (n <? 2)%nat then inr rateLimitError else inl {| resp_text := Some "R" |}).

Definition toyFinding (id text : string) : AnalysisFinding :=
  {| target_id := id; risk_level := "red"; issue_type := "Liability";
     finding_reasoning := "r"; suggested_text := "s"; original_text := text |}.

Definition toyParse (text : string) : list AnalysisFinding :=
  if String.eqb text "R"
  then [toyFinding "a" "Unlimited liability."; toyFinding "a" "Other text.";
        toyFinding "b" "UNLIMITED liability."; toyFinding "c" "Fees are due."]
  else [].

(** A parser that reads every text as two findings with the same text,
    the first without an identifier. *)
Definition emptyIdParse (text : string) : list AnalysisFinding :=
  [toyFinding EmptyString "Same text."; toyFinding "x" "Same text."].

Definition toyRule : PlaybookRule :=
  {| rule_id := Some "LIAB_01"; category := Some "LIABILITY"; subcategory := None;
     topic := "Liability Cap"; synonyms := None;
     signal_keywords := Some ["liability"; "fees"]; clause_number := None;
     preferred_position := "capped"; reasoning := "risk";
     fallback_position := None; suggested_drafting := None;
     risk_criteria := {| green := "g"; yellow := "y"; red := "r" |} |}.

Definition toyPlaybook : Playbook :=
  {| playbook_name := "P"; playbook_party := "Customer"; rules := [toyRule] |}.

Definition toyParagraph (i : nat) : Paragraph :=
  {| para_id := "p" +:+ string_of_nat i; para_text := "Liability is limited to fees.";
     para_style := "Normal"; para_outline_level := 0 |}.

Definition toyDocument (n : nat) : ShadowDocument :=
  {| paragraphs := map toyParagraph (seq 0 n) |}.

Definition toyRun (n : nat) : runState nat :=
  analyzeDocumentWithGemini nat toyService AnalysisFinding toyParse (fun l => l)
    0%nat (toyDocument n) toyPlaybook "Customer" None.

Definition emptyIdRun : runState nat :=
  analyzeDocumentWithGemini nat toyService AnalysisFinding emptyIdParse (fun l => l)
    0%nat (toyDocument 1) toyPlaybook "Customer" None.

(** *** The pool *)

(** All the events of a task, in the order of its turns. *)
Definition taskEvents {T} (task : PoolTask T) : list event :=
  atCall task ++ concat (resumptions task).

(** The task that emits [evs]: the first event inside the call, the others
    in one later turn. *)
Definition taskOf (evs : list event) : PoolTask (list AnalysisFinding) :=
  {| atCall := firstn 1 evs; resumptions := [skipn 1 evs]; resolvesTo := [] |}.

(** [task] dispatches the batch: called, it issues the request of the
    batch before its first await, or logs that the batch is skipped when
    the batch is below the relevance threshold. What the task does in its
    later turns, and the value of its promise, are free. *)
Definition batch_task (playbook : Playbook) (party : string)
    (testConfig : option AnalysisTestConfig)
    (batch : nat * string) (task : PoolTask (list AnalysisFinding)) : Prop :=
  if max_lt (batchMaxScore playbook (snd batch)) 4
  then atCall task = [EvSkipBatch (fst batch) (batchMaxScore playbook (snd batch))]
  else atCall task = [EvRequest (batchParams playbook party testConfig (snd batch))].

(** C9 as the specification states it, for the limit [N]: the events of
    the run are those of a call of runWithConcurrencyLimit with limit [N]
    on one task per batch, in the order of the batches. *)
Definition pool_dispatch (N : Z) (document : ShadowDocument) (playbook : Playbook)
    (party : string) (testConfig : option AnalysisTestConfig)
    (tr : list event) : Prop :=
  exists tasks final,
    Forall2 (batch_task playbook party testConfig) (indexed (createChunks document)) tasks /\
    runWithConcurrencyLimit tasks N final /\
    emitted final = tr.

(** *** Rule update records *)

(** The label occurs somewhere in the body, letter case aside. *)
Definition occurs_ci (label body : string) : Prop :=
  exists pre mid post,
    body = pre +:+ mid +:+ post /\ toLowerCase mid = toLowerCase label.

(** The frame condition of one labelled text field: without the label the
    field keeps its value, and a new value is the non-empty trimmed text
    extracted for the label. *)
Definition field_frame (key body old new : string) : Prop :=
  (~ occurs_ci (sectionLabel key) body -> new = old) /\
  (new = old \/ (extract body key = Some new /\ new <> EmptyString)).

Definition field_frame_opt (key body : string) (old new : option string) : Prop :=
  (~ occurs_ci (sectionLabel key) body -> new = old) /\
  (new = old \/ exists v, new = Some v /\ extract body key = Some v /\ v <> EmptyString).

(** The frame condition of a whole record against its original rule. *)
Record rule_frame (body : string) (old new : PlaybookRule) : Prop := {
  frame_rule_id : rule_id new = rule_id old;
  frame_subcategory : subcategory new = subcategory old;
  frame_synonyms : synonyms new = synonyms old;
  frame_signal_keywords : signal_keywords new = signal_keywords old;
  frame_clause_number : clause_number new = clause_number old;
  frame_topic : field_frame "TOPIC" body (topic old) (topic new);
  frame_category : field_frame_opt "CATEGORY" body (category old) (category new);
  frame_preferred :
    field_frame "PREFERRED" body (preferred_position old) (preferred_position new);
  frame_reasoning : field_frame "REASONING" body (reasoning old) (reasoning new);
  frame_fallback :
    field_frame_opt "FALLBACK" body (fallback_position old) (fallback_position new);
  frame_drafting :
    field_frame_opt "DRAFTING" body (suggested_drafting old) (suggested_drafting new);
  frame_red :
    field_frame "RISK_RED" body (red (risk_criteria old)) (red (risk_criteria new));
  frame_yellow :
    field_frame "RISK_YELLOW" body (yellow (risk_criteria old)) (yellow (risk_criteria new));
  frame_green :
    field_frame "RISK_GREEN" body (green (risk_criteria old)) (green (risk_criteria new))
}.

Definition known_id (originalRules : list PlaybookRule) (m : string * string) : bool :=
  match findRule originalRules (fst m) with Some _ => true | None => false end.

End GeminiSpec.

(** ** For the playbook clean-up of services/geminiService.ts *)

Module PlaybookSpec.
Import JS Gemini.

(** Every character of the string satisfies [p]. *)
Fixpoint all_chars (p : ascii -> bool) (s : string) : bool :=
  match s with
  | String c s' => p c && all_chars p s'
  | EmptyString => true
  end.

Definition is_digit (c : ascii) : bool :=
  (48 <=? nat_of_ascii c)%nat && (nat_of_ascii c <=? 57)%nat.

Definition not_space (c : ascii) : bool := negb (is_space c).

Definition not_underscore (c : ascii) : bool := negb (nat_of_ascii c =? 95)%nat.

(** The number a string of digits stands for. *)
Definition decimal_value (s : string) : option nat :=
  option_map Nat.of_uint (NilEmpty.uint_of_string s).

(** The category a rule is filed under by the clean-up. *)
Definition categoryOf (rule : PlaybookRule) : string :=
  normalizeCategory (or_default (category rule) "GENERAL").

(** A generated keyword: four or more lower-case letters, not a stop
    word. *)
Definition is_keyword (w : string) : Prop :=
  (4 <= String.length w)%nat /\ all_chars is_lower w = true /\ ~ In w STOP_WORDS.

(** What the clean-up guarantees of a rule [new] made from [old]. *)
Record cleaned (old new : PlaybookRule) : Prop := {
  kept_topic : topic new = topic old;
  kept_subcategory : subcategory new = subcategory old;
  kept_clause_number : clause_number new = clause_number old;
  kept_preferred : preferred_position new = preferred_position old;
  kept_reasoning : reasoning new = reasoning old;
  kept_fallback : fallback_position new = fallback_position old;
  kept_drafting : suggested_drafting new = suggested_drafting old;
  clean_category : category new = Some (categoryOf old);
  clean_rule_id :
    exists counter, (0 < counter)%nat /\
      rule_id new = Some (generateRuleId (categoryOf old) (subcategory old) counter);
  clean_synonyms :
    exists l, synonyms new = Some l /\
      (forall l0, synonyms old = Some l0 -> l0 <> [] -> l = l0) /\
      (truthy (topic old) = true -> l <> []);
  clean_keywords :
    exists l, signal_keywords new = Some l /\
      (forall l0, signal_keywords old = Some l0 -> l0 <> [] -> l = l0) /\
      ((signal_keywords old = None \/ signal_keywords old = Some []) ->
         (length l <= 5)%nat /\ NoDup l /\ Forall is_keyword l);
  clean_red : truthy (red (risk_criteria new)) = true /\
    (truthy (red (risk_criteria old)) = true ->
       red (risk_criteria new) = red (risk_criteria old));
  clean_yellow : truthy (yellow (risk_criteria new)) = true /\
    (truthy (yellow (risk_criteria old)) = true ->
       yellow (risk_criteria new) = yellow (risk_criteria old));
  clean_green : truthy (green (risk_criteria new)) = true /\
    (truthy (green (risk_criteria old)) = true ->
       green (risk_criteria new) = green (risk_criteria old))
}.

End PlaybookSpec.

(** ** For the local classification of services/geminiService.ts *)

Module ClassifySpec.
Import JS Gemini PlaybookSpec.

(** The rules of [rules] filed under [cat] that the text hits, in their
    order. *)
Definition hits (textLower : string) (cat : string) (rules : list PlaybookRule)
    : list PlaybookRule :=
  List.filter (fun r => String.eqb (categoryOf r) cat && (0 <? ruleScore textLower r)) rules.

Definition total (textLower : string) (rules : list PlaybookRule) : Z :=
  fold_right (fun r acc => ruleScore textLower r + acc) 0 rules.

(** An entry of the ranking: it holds the rules of its category that the
    text hits, there is at least one, and its score is their total. *)
Definition well_scored (textLower : string) (rules : list PlaybookRule) (e : categoryScore)
    : Prop :=
  matchingRules e = hits textLower (cs_category e) rules /\
  matchingRules e <> [] /\
  score e = total textLower (matchingRules e) /\
  2 <= score e.

(** The table after the rules [seen]: one entry for each category that
    was hit, each well scored. *)
Definition table_inv (textLower : string) (seen : list PlaybookRule)
    (scores : list categoryScore) : Prop :=
  NoDup (map cs_category scores) /\
  Forall (well_scored textLower seen) scores /\
  forall cat, hits textLower cat seen <> [] -> In cat (map cs_category scores).

Fixpoint descending (l : list Z) : Prop :=
  match l with
  | x :: l' =>
      match l' with
      | y :: _ => y <= x /\ descending l'
      | [] => True
      end
  | [] => True
  end.

(** What a request may carry: between one and five rules of the
    playbook, each hit by the text of the batch, for the given party. *)
Definition selected_rules (playbook : Playbook) (party : string) (params : GenParams) : Prop :=
  gp_party params = party /\
  (1 <= length (gp_rules params) <= 5)%nat /\
  Forall (fun r => In r (rules playbook) /\
                   0 < ruleScore (toLowerCase (stripClauseTags (gp_segment params))) r)
         (gp_rules params).

(** A batch is relevant when the rules of one category that its text
    hits, tags removed and lower-cased, total four points or more. *)
Definition relevant (playbook : Playbook) (chunk : string) : Prop :=
  exists cat,
    4 <= total (toLowerCase (stripClauseTags chunk))
           (hits (toLowerCase (stripClauseTags chunk)) cat (rules playbook)).

(** The document segments of the requests of a trace, in order. *)
Definition segments (tr : list event) : list string :=
  flat_map (fun ev => match ev with EvRequest p => [gp_segment p] | _ => [] end) tr.

(** Each chunk as many times as its number of attempts. *)
Definition attempted (ks : list nat) (chunks : list string) : list string :=
  flat_map (fun kc => repeat (snd kc) (fst kc)) (combine ks chunks).

(** A paragraph whose identifier holds no [>] and whose text holds no
    [<]. *)
Definition plain_paragraph (p : Paragraph) : Prop :=
  all_chars (fun c => negb (nat_of_ascii c =? 62)%nat) (para_id p) = true /\
  all_chars (fun c => negb (nat_of_ascii c =? 60)%nat) (para_text p) = true.

(** What is left of the serialization of a paragraph without its tags. *)
Definition bare (p : Paragraph) : string :=
  newline +:+ para_text p +:+ newline +:+ newline +:+ newline.

End ClassifySpec.

(** ** For the rule refinement of services/geminiService.ts *)

Module RefineSpec.
Import JS Gemini GeminiSpec.

(** The response names the identifier in one of its blocks. *)
Definition names_rule (text : string) (id : option string) : Prop :=
  exists i body, id = Some i /\ In (i, body) (ruleBlocks O text).

(** What became of the rule [r] of the playbook: [r'] has its
    identifier; it is [r] itself unless the response names that
    identifier, and otherwise it is made from a block of that identifier
    and from the first rule of the playbook that carries it. *)
Definition refined (text : string) (originals : list PlaybookRule) (r r' : PlaybookRule)
    : Prop :=
  rule_id r' = rule_id r /\
  (~ names_rule text (rule_id r) -> r' = r) /\
  (r' = r \/
   exists i body r0,
     rule_id r = Some i /\ In (i, body) (ruleBlocks O text) /\
     findRule originals i = Some r0 /\ r' = applyRuleBlock body r0).

(** A service that answers every refinement with one block for the
    rule LIAB_01 and one for a rule that does not exist. *)
Definition toyRefinement (n : nat) (_ : RefineRequest) : nat * (Response + ApiError) :=
  (S n,
   inl {| resp_text :=
            Some ("<<RULE id='LIAB_01'>>[TOPIC] Liability limit<<END_RULE>>"
                  +:+ "<<RULE id='Liability Cap'>>[TOPIC] ignored<<END_RULE>>") |}).

End RefineSpec.

(** ** For components/superdoc/SuperdocEditor.tsx *)

Module SuperdocSpec.
Import JS Superdoc.

(** *** Tokens, characters and the diff *)

(** Number of characters among the tokens. *)
Definition nchars (ts : list token) : nat := String.length (chars ts).

(** The positions of the characters of [ts], the first token being at
    [base]: what the position map holds. *)
Fixpoint charPositions (base : Z) (ts : list token) : list Z :=
  match ts with
  | [] => []
  | TChar _ :: ts' => base :: charPositions (base + 1) ts'
  | _ :: ts' => charPositions (base + 1) ts'
  end.

Fixpoint origOf (diffs : list diffpart) : string :=
  match diffs with
  | [] => EmptyString
  | d :: ds =>
      match op d with
      | DIFF_INSERT => origOf ds
      | _ => text d +:+ origOf ds
      end
  end.

Fixpoint newOf (diffs : list diffpart) : string :=
  match diffs with
  | [] => EmptyString
  | d :: ds =>
      match op d with
      | DIFF_DELETE => newOf ds
      | _ => text d +:+ newOf ds
      end
  end.

(** The invariant of the segments of a diff of [(original, proposed)],
    as the specification gives it: the segments that are not insertions
    spell the original text, those that are not deletions the proposed
    text. *)
Definition diff_invariant (diffs : list diffpart) (original proposed : string) : Prop :=
  origOf diffs = original /\ newOf diffs = proposed.

(** The contract [updateClause] needs of the diff primitive for
    [(original, proposed)]: the invariant above, and no deletion is
    empty. *)
Definition diff_ok (diffs : list diffpart) (original proposed : string) : Prop :=
  origOf diffs = original /\
  newOf diffs = proposed /\
  Forall (fun d => op d = DIFF_DELETE -> text d <> EmptyString) diffs.

Fixpoint takeChars (k : nat) (ts : list token) : list token * list token :=
  match k, ts with
  | O, _ => ([], ts)
  | S _, [] => ([], [])
  | S k', TChar c :: ts' =>
      let '(m, r) := takeChars k' ts' in (TChar c :: m, r)
  | S _, t :: ts' =>
      let '(m, r) := takeChars k ts' in (t :: m, r)
  end.

Definition ends_with_char (ts : list token) : Prop :=
  exists P c, ts = P ++ [TChar c].

Definition starts_with_char (ts : list token) : Prop :=
  exists c Q, ts = TChar c :: Q.

(** The cut between the tokens already passed and the tokens ahead is
    kept right before the next character or, past the last character,
    right after it. *)
Definition at_boundary (Cp Cr : list token) : Prop :=
  (chars Cr <> EmptyString -> starts_with_char Cr) /\
  (chars Cr = EmptyString -> ends_with_char Cp).

Definition is_char (t : token) : bool :=
  match t with TChar _ => true | _ => false end.

(** The structural tokens of a run of tokens: all but the characters. *)
Definition structure (ts : list token) : list token :=
  List.filter (fun t => negb (is_char t)) ts.

(** The nesting depth after [ts], entered at [depth]; [None] when a
    closing token has no opening one. *)
Fixpoint closes (depth : nat) (ts : list token) : option nat :=
  match ts with
  | [] => Some depth
  | TOpen _ :: ts' => closes (S depth) ts'
  | TClose :: ts' =>
      match depth with
      | S d => closes d ts'
      | O => None
      end
  | _ :: ts' => closes depth ts'
  end.

(** A DELETE segment that stays inside text: the last character it
    deletes stands as many positions after the first as characters, so
    that no structural token lies between them. *)
Definition delete_in_text (positionMap : list Z) (textIndex : Z) (token : string) : bool :=
  match lookupZ positionMap textIndex,
        lookupZ positionMap (textIndex + strlen token - 1) with
  | Some first, Some last => last - first =? strlen token - 1
  | _, _ => false
  end.

(** Every DELETE segment of the diff stays inside text; [textIndex] is
    the text index at which the first segment is met. *)
Fixpoint deletes_in_text (positionMap : list Z) (textIndex : Z) (diffs : list diffpart)
    : bool :=
  match diffs with
  | [] => true
  | d :: ds =>
      match op d with
      | DIFF_EQUAL => deletes_in_text positionMap (textIndex + strlen (text d)) ds
      | DIFF_DELETE =>
          delete_in_text positionMap textIndex (text d)
          && deletes_in_text positionMap (textIndex + strlen (text d)) ds
      | DIFF_INSERT => deletes_in_text positionMap textIndex ds
      end
  end.

Section Patch.

(** The document is [L ++ C ++ R]: [C] are the tokens of the content of
    the block, [L] the tokens before them (up to the opening token of
    the block), [R] the tokens after them. With [plain] the deletions
    are known to stay inside text. *)
Variables (L C R : list token) (proposed : string) (plain : bool).

(** After some segments: the tokens [Cp] of the block have been passed
    and [Cr] are ahead, [D] stands where [Cp] stood, the text index
    counts the characters of [Cp], the offset is the growth from [Cp]
    to [D], and the steps issued so far turn the document into
    [L ++ D ++ Cr ++ R]. *)
Definition patch_inv (remaining : list diffpart) (st : patchState) : Prop :=
  exists D Cp Cr,
    C = Cp ++ Cr /\
    at_boundary Cp Cr /\
    textIndex st = Z.of_nat (nchars Cp) /\
    mapOffset st = Some (Z.of_nat (length D) - Z.of_nat (length Cp)) /\
    chars Cr = origOf remaining /\
    chars D +:+ newOf remaining = proposed /\
    applySteps (tr st) (L ++ C ++ R) = Some (L ++ D ++ Cr ++ R) /\
    (plain = true -> structure D = structure Cp).

End Patch.

(** *** Searching and updating *)

(** The search by id answers with a node of the tree, at the position of
    its first token. *)
Definition located_in (cs : list pmnode) (p : Z) (clauseId : string)
    (r : option (Z * pmnode)) : Prop :=
  exists q n pre post,
    r = Some (q, n) /\
    tokens cs = pre ++ flatten n ++ post /\
    q = p + Z.of_nat (length pre) /\
    has_id clauseId n = true.

Definition reported_at (cs : list pmnode) (p : Z) (r : option (Z * pmnode)) : Prop :=
  exists q n, r = Some (q, n) /\ p <= q < p + contentSize cs /\ nodeAtIn cs (q - p) = Some n.

Definition dispatched (es : list effect) : list transaction :=
  flat_map (fun e => match e with Dispatch t => [t] | _ => [] end) es.

(** A step that edits text, as opposed to one that sets attributes. *)
Definition is_edit (s : step) : bool :=
  match s with
  | Delete _ _ | InsertText _ _ => true
  | SetNodeMarkup _ _ => false
  end.

Definition theEditor (doc : pmnode) (t : tracking) : option Editor :=
  Some {| activeEditor := Some doc; trackChanges := t |}.

(** The effects up to the position map: the console group and the switch
    to track changes. *)
Definition prologue (clauseId : string) (t : tracking) : list effect :=
  ConsoleGroup ("[Diffing] Update Block " +:+ clauseId)
    :: enableTrackChanges {| activeEditor := None; trackChanges := t |}.

Section PatchOf.

Variable calculateWordDiff : string -> string -> list diffpart.

(** The transaction [updateClause] builds for a block. *)
Definition patchOf (clausePos : Z) (clauseNode : pmnode) (newText : string) : patchState :=
  buildPatch (fst (buildPositionMap clausePos clauseNode))
    (calculateWordDiff (snd (buildPositionMap clausePos clauseNode)) newText).

End PatchOf.

(** *** The search by id, read on the tokens *)

Definition attrs_have_id (clauseId : string) (a : attrs) : bool :=
  match attr_id a with
  | Some i => String.eqb i clauseId
  | None => false
  end.

(** One token of the search: [fst st] is the depth inside a node that
    matched (0 outside of one), [snd st] the position of the last match. *)
Definition scanToken (clauseId : string) (t : token) (i : Z) (st : nat * option Z)
    : nat * option Z :=
  match fst st with
  | S k =>
      match t with
      | TOpen _ => (S (S k), snd st)
      | TClose => (k, snd st)
      | _ => st
      end
  | O =>
      match t with
      | TOpen a => if attrs_have_id clauseId a then (1%nat, Some i) else st
      | TLeaf a => if attrs_have_id clauseId a then (O, Some i) else st
      | _ => st
      end
  end.

Fixpoint scanTokens (clauseId : string) (ts : list token) (i : Z) (st : nat * option Z)
    : nat * option Z :=
  match ts with
  | [] => st
  | t :: ts' => scanTokens clauseId ts' (i + 1) (scanToken clauseId t i st)
  end.

(** *** An engine on tokens and a document, for evaluation *)

Definition push_char (c : ascii) (cur : list pmnode) : list pmnode :=
  match cur with
  | TextNode t :: r => TextNode (t +:+ String c EmptyString) :: r
  | _ => TextNode (String c EmptyString) :: cur
  end.

(** Reads a balanced token sequence back as nodes; [cur] holds the
    finished siblings of the open node, last first, [stack] the open
    ancestors with theirs. *)
Fixpoint parse (ts : list token) (cur : list pmnode)
    (stack : list (attrs * list pmnode)) : option (list pmnode) :=
  match ts with
  | [] => match stack with [] => Some (rev cur) | _ :: _ => None end
  | TChar c :: ts' => parse ts' (push_char c cur) stack
  | TLeaf a :: ts' => parse ts' (LeafNode a :: cur) stack
  | TOpen a :: ts' => parse ts' [] ((a, cur) :: stack)
  | TClose :: ts' =>
      match stack with
      | (a, outer) :: stack' => parse ts' (ElemNode a (rev cur) :: outer) stack'
      | [] => None
      end
  end.

(** The tokens read so far by [parse]: those of the finished siblings
    and, around them, of the open ancestors. *)
Fixpoint consumed (stack : list (attrs * list pmnode)) (cur : list pmnode) : list token :=
  match stack with
  | [] => tokens (rev cur)
  | (a, outer) :: stack' => consumed stack' outer ++ TOpen a :: tokens (rev cur)
  end.

(** Applies a transaction to the tokens of the document and reads the
    result back; it throws when a step is out of range or the result is
    not balanced. *)
Definition tokenEngine (doc : pmnode) (t : transaction) : option pmnode :=
  match doc with
  | ElemNode a cs =>
      applySteps t (tokens cs) ≫= (fun ts => ElemNode a <$> parse ts [] [])
  | _ => None
  end.

Definition clauseAttrs (id : string) : attrs :=
  {| attr_id := Some id; attr_status := Some "original"; attr_risk := None |}.

Definition run (t : string) : pmnode := ElemNode no_attrs [TextNode t].

Definition clause1 : pmnode :=
  ElemNode (clauseAttrs "c1") [run "Liability is "; run "unlimited."].

(** A document of three blocks: two runs of text, one run, no text. *)
Definition toyDoc : pmnode :=
  ElemNode no_attrs
    [clause1;
     ElemNode (clauseAttrs "c2") [run "Other."];
     ElemNode (clauseAttrs "c3") [ElemNode no_attrs []]].

Definition toyFinalDoc : pmnode :=
  ElemNode no_attrs
    [ElemNode (clauseAttrs "c1") [run "Liability is "; run "capped at fees paid."];
     ElemNode (clauseAttrs "c2") [run "Other."];
     ElemNode (clauseAttrs "c3") [ElemNode no_attrs []]].

Definition proposedText : string := "Liability is capped at fees paid.".

(** The diff of the example of the specification. *)
Definition exampleDiff (original proposed : string) : list diffpart :=
  [{| op := DIFF_EQUAL; text := "Liability is " |};
   {| op := DIFF_DELETE; text := "unlimited." |};
   {| op := DIFF_INSERT; text := "capped at fees paid." |}].

(** A diff that stops short of the original text. *)
Definition shortDiff (original proposed : string) : list diffpart :=
  [{| op := DIFF_EQUAL; text := "Liability" |}].

(** A diff primitive whose first segment is an empty deletion. *)
Definition emptyDeleteDiff (original proposed : string) : list diffpart :=
  [{| op := DIFF_DELETE; text := EmptyString |};
   {| op := DIFF_DELETE; text := "O" |};
   {| op := DIFF_EQUAL; text := "ther." |}].

(** A block whose second run lies one node deeper than the first, and a
    diff whose deletion runs from the one into the other. *)
Definition nestedBlock : pmnode :=
  ElemNode (clauseAttrs "n1") [run "ab"; ElemNode no_attrs [run "cd"]].

Definition nestedDoc : pmnode := ElemNode no_attrs [nestedBlock].

Definition crossingDiff (original proposed : string) : list diffpart :=
  [{| op := DIFF_EQUAL; text := "a" |};
   {| op := DIFF_DELETE; text := "bc" |};
   {| op := DIFF_EQUAL; text := "d" |};
   {| op := DIFF_INSERT; text := "Z" |}].

(** C1 as the specification states it: whenever the block is found, has
    text, and the diff keeps the invariant of its segments, the document
    after [updateClause] holds the block with the proposed text as its
    extracted text. *)
Definition round_trip_law
    (calculateWordDiff : string -> string -> list diffpart)
    (applyTransaction : pmnode -> transaction -> option pmnode)
    (doc : pmnode) (t : tracking) (clauseId newText : string) : Prop :=
  forall clausePos clauseNode,
    locateBlock doc clauseId = Some (clausePos, clauseNode) ->
    fst (buildPositionMap clausePos clauseNode) <> [] ->
    diff_invariant
      (calculateWordDiff (snd (buildPositionMap clausePos clauseNode)) newText)
      (snd (buildPositionMap clausePos clauseNode)) newText ->
    exists finalDoc pos block,
      document (updateClause calculateWordDiff applyTransaction
                  (theEditor doc t) clauseId newText) = Some finalDoc /\
      locateBlock finalDoc clauseId = Some (pos, block) /\
      snd (buildPositionMap pos block) = newText.

(** C6 as the specification states it: a final text index that differs
    from the length of the original text is reported as a warning of its
    own. *)
Definition desync_is_surfaced
    (calculateWordDiff : string -> string -> list diffpart)
    (applyTransaction : pmnode -> transaction -> option pmnode)
    (doc : pmnode) (t : tracking) (clauseId newText : string) : Prop :=
  forall clausePos clauseNode,
    locateBlock doc clauseId = Some (clausePos, clauseNode) ->
    fst (buildPositionMap clausePos clauseNode) <> [] ->
    textIndex (patchOf calculateWordDiff clausePos clauseNode newText)
      <> strlen (snd (buildPositionMap clausePos clauseNode)) ->
    exists msg,
      msg <> "Track changes error:" /\
      In (ConsoleError msg)
         (effects (updateClause calculateWordDiff applyTransaction
                     (theEditor doc t) clauseId newText)).

End SuperdocSpec.

(** ** For the clause list of components/superdoc/SuperdocEditor.tsx *)

Module ClausesSpec.
Import JS Superdoc SuperdocSpec.

(** A node and its descendants with their positions, in document order;
    [pos] is the position of the node. *)
Fixpoint subtree (n : pmnode) (pos : Z) : list (Z * pmnode) :=
  (pos, n) ::
    match n with
    | ElemNode _ cs =>
        (fix each (cs : list pmnode) (p : Z) : list (Z * pmnode) :=
           match cs with
           | [] => []
           | c :: cs' => subtree c p ++ each cs' (p + nodeSize c)
           end) cs (pos + 1)
    | _ => []
    end.

(** The nodes of a fragment that starts at position [p]. *)
Fixpoint placed (cs : list pmnode) (p : Z) : list (Z * pmnode) :=
  match cs with
  | [] => []
  | c :: cs' => subtree c p ++ placed cs' (p + nodeSize c)
  end.

(** The nodes of a document, with their positions. *)
Definition nodesOf (doc : pmnode) : list (Z * pmnode) := placed (node_content doc) 0.

(** The identifiers carried by the nodes of a document, in document
    order. *)
Definition idsOf (doc : pmnode) : list string :=
  omap (fun qn : Z * pmnode => truthy_id (snd qn)) (nodesOf doc).

(** No two nodes carry the same identifier. *)
Definition unique_ids (doc : pmnode) : Prop := NoDup (idsOf doc).

(** The nodes that carry the identifier [clauseId]. *)
Definition occurrences (clauseId : string) (nodes : list (Z * pmnode)) : list (Z * pmnode) :=
  List.filter (fun qn => has_id clauseId (snd qn)) nodes.

(** What the search answers, by the nodes that carry the identifier:
    none leaves the answer as it was, exactly one is found, and an empty
    answer means there is none. *)
Definition search_spec (clauseId : string) (nodes : list (Z * pmnode))
    (found result : option (Z * pmnode)) : Prop :=
  (occurrences clauseId nodes = [] -> result = found) /\
  (forall x, occurrences clauseId nodes = [x] -> result = Some x) /\
  (result = None -> occurrences clauseId nodes = []).

(** The clause is the record of the node [n] at position [q]. *)
Definition records (isBlock : pmnode -> bool) (c : Clause) (q : Z) (n : pmnode) : Prop :=
  truthy_id n = Some (clause_id c) /\
  startPos c = q /\
  clause_nodeSize c = nodeSize n /\
  clause_text c = extractNodeText isBlock n /\
  clause_risk c = attr_risk (node_attrs n).

(** The string without its white space. *)
Fixpoint strip_ws (s : string) : string :=
  match s with
  | String c s' => if is_space c then strip_ws s' else String c (strip_ws s')
  | EmptyString => EmptyString
  end.

(** The loop of [extractNodeText] over the children of a node. *)
Fixpoint childrenText (isBlock : pmnode -> bool) (cs : list pmnode) : string :=
  match cs with
  | [] => EmptyString
  | child :: cs' =>
      extractNodeText isBlock child
        +:+ (if isBlock child then newline else EmptyString)
        +:+ childrenText isBlock cs'
  end.

(** The list of clauses after the nodes [seenNodes]: the identifiers
    seen are those of the clauses, each once, and every clause is the
    record of one of the nodes. *)
Definition clauses_inv (isBlock : pmnode -> bool) (seenNodes : list (Z * pmnode))
    (st : gset string * list Clause) : Prop :=
  (forall i, i ∈ fst st <-> In i (omap (fun qn : Z * pmnode => truthy_id (snd qn)) seenNodes)) /\
  NoDup (map clause_id (snd st)) /\
  (forall i, In i (map clause_id (snd st)) <-> i ∈ fst st) /\
  Forall (fun c => exists q n, In (q, n) seenNodes /\ records isBlock c q n) (snd st).

End ClausesSpec.

(** ** For the context assembly of components/superdoc/SuperdocEditor.tsx *)

Module AssemblySpec.
Import JS Superdoc SuperdocSpec ClausesSpec.

(** What is known of a target that was found: it carries the
    identifier, and it is the child of its parent at its index. *)
Definition target_ok (clauseId : string) (tg : Target) : Prop :=
  has_id clauseId (targetNode tg) = true /\
  exists earlier later,
    node_content (parentNode tg) = earlier ++ targetNode tg :: later /\
    length earlier = targetIndex tg.

Definition found_ok (clauseId : string) (found : option Target) : Prop :=
  match found with
  | Some tg => target_ok clauseId tg
  | None => True
  end.

(** The target as the search of [updateClause] reports it. *)
Definition as_block (found : option Target) : option (Z * pmnode) :=
  option_map (fun tg => (targetPos tg, targetNode tg)) found.

(** The window of an assembled context: the target is the block that
    [updateClause] finds; the context runs over whole siblings of the
    target, the nearest [before] it and the nearest [after] it, no more
    than asked for, and all there are up to that number unless the
    context was truncated. *)
Definition window (doc : pmnode) (clauseId : string) (prevClauses nextClauses : nat)
    (out : ClauseAssemblyOutput) : Prop :=
  exists parent earlier node later before after,
    node_content parent = earlier ++ node :: later /\
    locateBlock doc clauseId = Some (meta_startPos out, node) /\
    meta_id out = clauseId /\
    meta_endPos out = meta_startPos out + nodeSize node /\
    (exists rest, earlier = rest ++ before) /\
    (exists rest, later = after ++ rest) /\
    (length before <= prevClauses)%nat /\
    (length after <= nextClauses)%nat /\
    contextStart out = meta_startPos out - contentSize before /\
    contextEnd out = meta_endPos out + contentSize after /\
    (truncated out = false ->
       length before = Nat.min prevClauses (length earlier) /\
       length after = Nat.min nextClauses (length later)).

End AssemblySpec.

(** * Properties *)

(** ** Strings *)

Module JSFacts.
Import JS.

Lemma append_cons (c : ascii) (s t : string) : String c s +:+ t = String c (s +:+ t).
Proof. reflexivity. Qed.

Lemma append_nil_l (s : string) : EmptyString +:+ s = s.
Proof. reflexivity. Qed.

Lemma append_nil_r (s : string) : s +:+ EmptyString = s.
Proof. induction s as [|c s IH]; [reflexivity|]. now rewrite append_cons, IH. Qed.

Lemma append_assoc (a b c : string) : (a +:+ b) +:+ c = a +:+ (b +:+ c).
Proof. induction a as [|x a IH]; [reflexivity|]. now rewrite !append_cons, IH. Qed.

Lemma length_append (a b : string) :
  String.length (a +:+ b) = (String.length a + String.length b)%nat.
Proof. induction a as [|x a IH]; [reflexivity|]. rewrite append_cons. simpl. now rewrite IH. Qed.

Lemma strlen_append (a b : string) : strlen (a +:+ b) = strlen a + strlen b.
Proof. unfold strlen. rewrite length_append. lia. Qed.

Lemma strlen_nonneg (s : string) : 0 <= strlen s.
Proof. unfold strlen. lia. Qed.

Lemma strlen_pos_iff (s : string) : 0 < strlen s <-> s <> EmptyString.
Proof.
  unfold strlen. destruct s; simpl; split; intros H; try lia; try congruence.
Qed.

End JSFacts.

(** ** The batch chunker *)

Module ChunkerFacts.
Import JS JSFacts Gemini GeminiSpec.

Lemma joinAll_app (l1 l2 : list string) : joinAll (l1 ++ l2) = joinAll l1 +:+ joinAll l2.
Proof.
  induction l1 as [|s l1 IH]; simpl; [reflexivity|].
  now rewrite IH, append_assoc.
Qed.

Lemma serialize_snoc (g : list Paragraph) (p : Paragraph) :
  serialize (g ++ [p]) = serialize g +:+ pText p.
Proof.
  unfold serialize. rewrite map_app, joinAll_app. simpl.
  now rewrite append_nil_r.
Qed.

Lemma pText_pos (p : Paragraph) : 0 < strlen (pText p).
Proof. apply strlen_pos_iff. unfold pText. simpl. discriminate. Qed.

Lemma serialize_pos (g : list Paragraph) : g <> [] -> 0 < strlen (serialize g).
Proof.
  destruct g as [|p g]; [congruence|]. intros _.
  unfold serialize. simpl. rewrite strlen_append.
  pose proof (pText_pos p). pose proof (strlen_nonneg (joinAll (map pText g))). lia.
Qed.

Lemma chunkStep_inv maxClauses st groups cur p :
  1 <= maxClauses ->
  chunk_inv maxClauses st groups cur ->
  exists groups' cur',
    chunk_inv maxClauses (chunkStep maxClauses st p) groups' cur' /\
    concat groups' ++ cur' = (concat groups ++ cur) ++ [p].
Proof.
  intros Hmax [Hch Hcu Hco Hgs Hc].
  unfold chunkStep.
  destruct ((MAX_CHARS_PER_BATCH <? strlen (currentChunk st) + strlen (pText p))
            || (maxClauses <? currentClauseCount st + 1)) eqn:Hex; simpl.
  - destruct (0 <? strlen (currentChunk st)) eqn:Hne; simpl.
    + (* flush, then start a new chunk with p *)
      assert (Hcur : cur <> []).
      { intros ->. rewrite Hcu in Hne. unfold serialize in Hne. simpl in Hne.
        apply Z.ltb_lt in Hne. unfold strlen in Hne. simpl in Hne. lia. }
      destruct Hc as [Hc|Hc]; [congruence|].
      exists (groups ++ [cur]), [p]. split.
      * constructor; simpl.
        -- now rewrite Hch, Hcu, map_app.
        -- unfold serialize. simpl. now rewrite append_nil_r.
        -- reflexivity.
        -- apply Forall_app. split; [assumption | constructor; [assumption | constructor]].
        -- right. repeat split; simpl; [discriminate | lia | now right].
      * rewrite concat_app. simpl. rewrite app_nil_r. now rewrite <- app_assoc.
    + (* the open chunk is empty: p opens it *)
      assert (Hcur : cur = []).
      { destruct cur as [|q cur]; [reflexivity|].
        apply Z.ltb_ge in Hne. rewrite Hcu in Hne.
        pose proof (serialize_pos (q :: cur) ltac:(discriminate)). lia. }
      subst cur. exists groups, [p]. split.
      * constructor; simpl; try assumption.
        -- rewrite Hcu. unfold serialize. simpl. now rewrite append_nil_r.
        -- rewrite Hco. reflexivity.
        -- right. repeat split; simpl; [discriminate | lia | now right].
      * now rewrite app_nil_r.
  - (* p fits: it is appended to the open chunk *)
    apply orb_false_iff in Hex as [Hchars Hcount].
    apply Z.ltb_ge in Hchars, Hcount.
    exists groups, (cur ++ [p]). split.
    + constructor; simpl; try assumption.
      * now rewrite Hcu, serialize_snoc.
      * rewrite Hco, length_app. simpl. lia.
      * right. repeat split.
        -- destruct cur; discriminate.
        -- rewrite length_app. simpl. lia.
        -- left. rewrite serialize_snoc, strlen_append, <- Hcu. lia.
    + now rewrite app_assoc.
Qed.

Lemma chunk_fold_inv maxClauses ps :
  1 <= maxClauses ->
  forall st groups cur,
    chunk_inv maxClauses st groups cur ->
    exists groups' cur',
      chunk_inv maxClauses (fold_left (chunkStep maxClauses) ps st) groups' cur' /\
      concat groups' ++ cur' = (concat groups ++ cur) ++ ps.
Proof.
  intros Hmax. induction ps as [|p ps IH]; intros st groups cur Hinv; simpl.
  - exists groups, cur. split; [assumption | now rewrite app_nil_r].
  - destruct (chunkStep_inv maxClauses st groups cur p Hmax Hinv)
      as (g1 & c1 & Hinv1 & Heq1).
    destruct (IH _ _ _ Hinv1) as (g2 & c2 & Hinv2 & Heq2).
    exists g2, c2. split; [assumption|].
    rewrite Heq2, Heq1. now rewrite <- app_assoc.
Qed.

Lemma dynamicMaxClauses_range (avg : option Q) :
  18 <= dynamicMaxClauses avg <= 50.
Proof.
  unfold dynamicMaxClauses.
  destruct (num_lt avg 200); [lia|]. destruct (num_lt avg 500); lia.
Qed.

(** Shorter average blocks never get a lower ceiling. *)
Lemma dynamicMaxClauses_antitone (a b : Q) :
  (a <= b)%Q -> dynamicMaxClauses (Some b) <= dynamicMaxClauses (Some a).
Proof.
  intros Hab. unfold dynamicMaxClauses, num_lt.
  destruct (Qle_bool 200 b) eqn:Hb2; destruct (Qle_bool 200 a) eqn:Ha2;
    destruct (Qle_bool 500 b) eqn:Hb5; destruct (Qle_bool 500 a) eqn:Ha5;
    simpl; try lia; exfalso;
    repeat match goal with
      | H : Qle_bool _ _ = true |- _ => apply Qle_bool_iff in H
      | H : Qle_bool ?x ?y = false |- _ =>
          assert (~ (x <= y)%Q) by (rewrite <- Qle_bool_iff; congruence); clear H
      end;
    match goal with
    | H : ~ (_ <= _)%Q |- _ => apply H; eapply Qle_trans; eassumption
    end.
Qed.

Lemma createChunks_groups (d : ShadowDocument) :
  exists groups : list (list Paragraph),
    concat groups = paragraphs d /\
    createChunks d = map serialize groups /\
    Forall (good_group (dynamicMaxClauses (avgBlockSize (paragraphs d)))) groups.
Proof.
  unfold createChunks.
  destruct (length (paragraphs d) =? 0)%nat eqn:Hlen.
  - apply Nat.eqb_eq in Hlen. apply length_zero_iff_nil in Hlen.
    exists []. rewrite Hlen. repeat split; constructor.
  - set (maxC := dynamicMaxClauses (avgBlockSize (paragraphs d))).
    assert (Hmax : 1 <= maxC) by (pose proof (dynamicMaxClauses_range (avgBlockSize (paragraphs d))); subst maxC; lia).
    destruct (chunk_fold_inv maxC (paragraphs d) Hmax
                {| chunks := []; currentChunk := EmptyString; currentClauseCount := 0 |}
                [] [])
      as (groups & cur & [Hch Hcu Hco Hgs Hc] & Heq).
    { constructor; simpl; auto. }
    simpl in Heq.
    destruct (0 <? strlen (currentChunk _)) eqn:Hne.
    + assert (Hcur : cur <> []).
      { intros ->. rewrite Hcu in Hne. apply Z.ltb_lt in Hne.
        unfold serialize, strlen in Hne. simpl in Hne. lia. }
      destruct Hc as [Hc|Hc]; [congruence|].
      exists (groups ++ [cur]). repeat split.
      * rewrite concat_app. simpl. now rewrite app_nil_r.
      * now rewrite Hch, Hcu, map_app.
      * apply Forall_app. split; [assumption | constructor; [assumption | constructor]].
    + assert (Hcur : cur = []).
      { destruct cur as [|q cur]; [reflexivity|].
        apply Z.ltb_ge in Hne. rewrite Hcu in Hne.
        pose proof (serialize_pos (q :: cur) ltac:(discriminate)). lia. }
      subst cur. rewrite app_nil_r in Heq.
      exists groups. repeat split; assumption.
Qed.

Lemma joinAll_serialize_groups (groups : list (list Paragraph)) :
  joinAll (map serialize groups) = serialize (concat groups).
Proof.
  induction groups as [|g gs IH]; simpl; [reflexivity|].
  rewrite IH. unfold serialize. now rewrite map_app, joinAll_app.
Qed.

(** The ceiling as the code chooses it, on the totals of the document:
    50 blocks when the average text length is under 200 characters, 30
    when it is under 500, 18 otherwise. *)
Lemma dynamicMaxClauses_values (ps : list Paragraph) (n : positive) :
  Z.of_nat (length ps) = Zpos n ->
  (totalChars ps < 200 * Zpos n -> dynamicMaxClauses (avgBlockSize ps) = 50) /\
  (200 * Zpos n <= totalChars ps < 500 * Zpos n -> dynamicMaxClauses (avgBlockSize ps) = 30) /\
  (500 * Zpos n <= totalChars ps -> dynamicMaxClauses (avgBlockSize ps) = 18).
Proof.
  intros Hn. unfold avgBlockSize. rewrite Hn. unfold dynamicMaxClauses, num_lt.
  assert (H2 : Qle_bool 200 (totalChars ps # n) = (200 * Zpos n <=? totalChars ps)).
  { unfold Qle_bool. cbn [Qnum Qden]. f_equal. lia. }
  assert (H5 : Qle_bool 500 (totalChars ps # n) = (500 * Zpos n <=? totalChars ps)).
  { unfold Qle_bool. cbn [Qnum Qden]. f_equal. lia. }
  rewrite H2, H5.
  destruct (200 * Zpos n <=? totalChars ps) eqn:E2;
    destruct (500 * Zpos n <=? totalChars ps) eqn:E5; cbn [negb];
    try (apply Z.leb_le in E2); try (apply Z.leb_gt in E2);
    try (apply Z.leb_le in E5); try (apply Z.leb_gt in E5);
    repeat split; intros; try reflexivity; lia.
Qed.


End ChunkerFacts.

(** ** Retrying dispatch and cross-batch deduplication *)

Module DispatchFacts.
Import JS JSFacts Gemini GeminiSpec.

Lemma sequential_app (a b : list event) : sequential a -> sequential b -> sequential (a ++ b).
Proof. induction 1; simpl; intros; try constructor; auto. Qed.

Lemma inFlight_app (a b : list event) : inFlight (a ++ b) = inFlight a + inFlight b.
Proof. induction a as [|ev a IH]; simpl; [reflexivity|]. rewrite IH. lia. Qed.

Lemma sequential_inFlight (tr : list event) : sequential tr -> inFlight tr = 0.
Proof. induction 1; simpl in *; lia. Qed.

(** In a sequential trace at most one call is in flight at any time. *)
Lemma sequential_prefix (tr : list event) :
  sequential tr -> forall p q, tr = p ++ q -> 0 <= inFlight p <= 1.
Proof.
  induction 1 as [|params ok tr Hs IH|ev tr Hev Hs IH]; intros p q Heq.
  - destruct p; [simpl; lia | discriminate].
  - destruct p as [|e1 [|e2 p]]; simpl in *; try lia.
    + inversion Heq; subst. simpl. lia.
    + inversion Heq as [[He1 He2 Heq']]. subst e1 e2.
      specialize (IH p q Heq'). simpl. lia.
  - destruct p as [|e1 p]; simpl in *; [lia|].
    inversion Heq as [[He1 Heq']]. subst e1. specialize (IH p q Heq'). lia.
Qed.

(** *** runWithConcurrencyLimit *)

Lemma pool_step_emitted {T} limit (st st' : poolState T) :
  pool_step limit st st' -> exists more, emitted st' = emitted st ++ more.
Proof. intros Hstep. destruct Hstep; simpl; eexists; reflexivity. Qed.

(** While the body of the helper runs, or has been released, a place is
    free in [executing]. *)
Lemma pool_reaches_places {T} limit (tasks : list (PoolTask T)) st :
  pool_reaches limit tasks st ->
  Z.of_nat (length (executing st)) <= Z.max limit 1 /\
  (loop st <> LoopAwaits -> Z.of_nat (length (executing st)) < Z.max limit 1).
Proof.
  induction 1 as [|st st' Hreach [IH1 IH2] Hstep].
  - simpl. split; intros; lia.
  - destruct Hstep as [st task rest Hloop Hpend
                      |st before r after turn more Hwait Hex Hturn Hmore
                      |st before r after Hwait Hex Hlen]; simpl.
    + specialize (IH2 Hloop). rewrite length_app. simpl.
      destruct (Z.leb_spec limit (Z.of_nat (length (executing st) + 1))).
      * split; [lia | congruence].
      * split; intros; lia.
    + rewrite Hex, length_app in *. simpl in *. split; [lia|].
      intros Hl. specialize (IH2 Hl). lia.
    + rewrite Hex, !length_app in *. simpl in *. split; [lia|].
      intros _. lia.
Qed.

(** The values pass from the tasks to [results], none lost and none
    twice. *)
Lemma pool_reaches_values {T} limit (tasks : list (PoolTask T)) st :
  pool_reaches limit tasks st ->
  Permutation (results st ++ map settlesWith (executing st) ++ map resolvesTo (pending st))
              (map resolvesTo tasks).
Proof.
  induction 1 as [|st st' Hreach IH Hstep]; [reflexivity|].
  destruct Hstep as [st task rest Hloop Hpend
                    |st before r after turn more Hwait Hex Hturn Hmore
                    |st before r after Hwait Hex Hlen]; simpl.
  - rewrite Hpend in IH. simpl in IH. rewrite <- IH, map_app. simpl.
    now rewrite <- !app_assoc.
  - rewrite Hex in IH. rewrite <- IH, !map_app. reflexivity.
  - rewrite Hex in IH. rewrite <- IH, !map_app. simpl.
    rewrite <- !app_assoc. apply Permutation_app_head. simpl.
    rewrite (Permutation_middle (map settlesWith before)). reflexivity.
Qed.

(** With a limit of two or more the helper calls its first two tasks
    before anything else happens. *)
Lemma pool_first_two {T} limit (t1 t2 : PoolTask T) rest st :
  2 <= limit ->
  pool_reaches limit (t1 :: t2 :: rest) st ->
  (pending st = t1 :: t2 :: rest /\ executing st = [] /\ loop st = LoopRuns /\
   emitted st = []) \/
  (pending st = t2 :: rest /\ loop st = LoopRuns /\ emitted st = atCall t1) \/
  exists more, emitted st = atCall t1 ++ atCall t2 ++ more.
Proof.
  intros Hlimit. induction 1 as [|st st' Hreach IH Hstep].
  - left. repeat split.
  - destruct IH as [(Hp & He & Hl & Hemit)|[(Hp & Hl & Hemit)|(more & Hemit)]].
    + destruct Hstep as [st task rest' Hloop Hpend
                        |st before r after turn more Hwait Hex Hturn Hmore
                        |st before r after Hwait Hex Hlen]; simpl.
      * right; left. rewrite Hp in Hpend. injection Hpend as <- <-.
        rewrite He, Hemit. simpl. repeat split.
        destruct (Z.leb_spec limit (Z.of_nat 1)); [lia | reflexivity].
      * rewrite He in Hex. now destruct before.
      * rewrite He in Hex. now destruct before.
    + destruct Hstep as [st task rest' Hloop Hpend
                        |st before r after turn more Hwait Hex Hturn Hmore
                        |st before r after Hwait Hex Hlen]; simpl.
      * right; right. rewrite Hp in Hpend. injection Hpend as <- <-.
        exists []. now rewrite app_nil_r, Hemit.
      * destruct Hwait as [Hw|[Hw|Hw]]; congruence.
      * destruct Hwait as [Hw|[Hw|Hw]]; congruence.
    + destruct (pool_step_emitted limit st st' Hstep) as (more' & ->).
      right; right. exists (more ++ more'). now rewrite Hemit, <- !app_assoc.
Qed.

(** With the limit 1 the helper runs its tasks one after the other: a
    task is called when the one before it has settled. *)
Lemma pool_limit_one {T} (tasks0 : list (PoolTask T)) :
  forall tasks st,
    Forall (fun task => (length (resumptions task) <= 1)%nat) tasks ->
    pool_reaches 1 tasks0 st ->
    pending st = tasks -> executing st = [] -> loop st <> LoopAwaits ->
    exists final,
      pool_reaches 1 tasks0 final /\ pending final = [] /\ executing final = [] /\
      emitted final = emitted st ++ concat (map taskEvents tasks).
Proof.
  induction tasks as [|task rest IH]; intros st Hturns Hreach Hpend Hex Hloop.
  - exists st. simpl. now rewrite app_nil_r.
  - inversion Hturns as [|? ? Hone Hrest]; subst.
    pose proof (pool_call 1 st task rest Hloop Hpend) as Hcall.
    rewrite Hex in Hcall. simpl in Hcall.
    match type of Hcall with
    | pool_step _ _ ?s1 =>
        pose proof (pool_settle 1 s1 [] _ [] (or_introl eq_refl) eq_refl Hone) as Hsettle;
        pose proof (reaches_step 1 tasks0 _ _ Hreach Hcall) as Hreach1
    end.
    simpl in Hsettle.
    pose proof (reaches_step 1 tasks0 _ _ Hreach1 Hsettle) as Hreach2.
    destruct (IH _ Hrest Hreach2 eq_refl eq_refl) as (final & Hf & Hp & He & Hemit);
      [simpl; congruence|].
    exists final. repeat split; try assumption.
    rewrite Hemit. simpl. unfold taskEvents. now rewrite <- !app_assoc.
Qed.

(** A call of runWithConcurrencyLimit with a limit of one or more never
    has more than [limit] tasks executing, and it loses no value and
    takes none twice: at every moment the values pushed to [results],
    those of the tasks executing and those of the tasks not yet called
    are, together, the values of the tasks; so what the helper returns
    holds the value of each task once, in the order in which the tasks
    settled. *)
Theorem runWithConcurrencyLimit_bounded {T} (limit : Z) (tasks : list (PoolTask T))
    (st : poolState T) :
  1 <= limit ->
  pool_reaches limit tasks st ->
  Z.of_nat (length (executing st)) <= limit /\
  Permutation (results st ++ map settlesWith (executing st) ++ map resolvesTo (pending st))
              (map resolvesTo tasks) /\
  (pending st = [] -> executing st = [] -> Permutation (results st) (map resolvesTo tasks)).
Proof.
  intros Hlimit Hreach.
  pose proof (pool_reaches_places limit tasks st Hreach) as [Hbound _].
  pose proof (pool_reaches_values limit tasks st Hreach) as Hvalues.
  split; [lia|]. split; [exact Hvalues|].
  intros Hp He. rewrite Hp, He in Hvalues. simpl in Hvalues.
  now rewrite app_nil_r in Hvalues.
Qed.

Lemma runWithConcurrencyLimit_bounded_witness :
  1 <= 2 /\
  exists st : poolState (list AnalysisFinding),
    pool_reaches 2 [taskOf []; taskOf []; taskOf []] st /\
    length (executing st) = 2%nat /\
    loop st = LoopAwaits /\
    Z.of_nat (length (executing st)) <= 2.
Proof.
  split; [lia|].
  pose proof (reaches_start 2 [taskOf []; taskOf []; taskOf []]) as H0.
  assert (C1 : pool_step 2 (poolStart [taskOf []; taskOf []; taskOf []]) _)
    by (apply (pool_call 2 _ (taskOf []) [taskOf []; taskOf []]);
        [discriminate | reflexivity]).
  pose proof (reaches_step 2 _ _ _ H0 C1) as H1.
  match type of C1 with
  | pool_step _ _ ?s1 =>
      assert (C2 : pool_step 2 s1 _)
        by (apply (pool_call 2 s1 (taskOf []) [taskOf []]); [discriminate | reflexivity])
  end.
  pose proof (reaches_step 2 _ _ _ H1 C2) as H2.
  eexists. split; [exact H2|]. split; [reflexivity|]. split; [reflexivity|].
  exact (proj1 (runWithConcurrencyLimit_bounded 2 _ _ ltac:(lia) H2)).
Defined.

Section Dispatch.

Variable Service : Type.
Variable generateContent : Service -> GenParams -> Service * (Response + ApiError).
Variable IRParsedClause : Type.
Variable parseIR : string -> list IRParsedClause.
Variable mapIRToFindings : list IRParsedClause -> list AnalysisFinding.

Abbreviation retry := (generateContentWithRetry Service generateContent).
Abbreviation runState := (runState Service).
Abbreviation outcomes := (outcomes Service generateContent).

(** With [n] retries allowed, the call is attempted [k + 1 <= n + 1]
    times: the first [k] attempts fail transiently and are each followed
    by a delay, the last one decides the result, and a failure is final
    either because it is not transient or because no retry is left. *)
Lemma retry_spec (n : nat) : forall (svc : Service) (params : GenParams),
  exists k : nat,
    (k <= n)%nat /\
    (forall j, (j < k)%nat ->
       exists r, outcomes svc params (S n) !! j = Some r /\ is_transient_failure r) /\
    outcomes svc params (S n) !! k = Some (snd (retry svc params n)) /\
    (forall e, snd (retry svc params n) = inr e -> transient e = false \/ k = n) /\
    delays (snd (fst (retry svc params n))) = map backoff (firstn k (countdown n)) /\
    requests (snd (fst (retry svc params n))) = S k /\
    sequential (snd (fst (retry svc params n))).
Proof.
  induction n as [|n IH]; intros svc params.
  - exists O. simpl.
    destruct (generateContent svc params) as [svc1 [resp|e]]; simpl.
    all: repeat split; try lia; auto.
    all: try (intros; lia).
    all: repeat constructor.
  - simpl outcomes. cbn [generateContentWithRetry].
    destruct (generateContent svc params) as [svc1 [resp|e]] eqn:Hcall.
    + exists O. simpl. repeat split; try lia.
      all: try (intros; lia).
      all: try (intros; discriminate).
      all: repeat constructor.
    + fold (transient e).
      destruct (transient e) eqn:Htr.
      * destruct (IH svc1 params) as (k & Hk & Hpre & Hlast & Hfin & Hdel & Hreq & Hseq).
        destruct (retry svc1 params n) as [[svc2 tr] r] eqn:Hrec.
        simpl in Hlast, Hfin, Hdel, Hreq, Hseq |- *.
        exists (S k). repeat split.
        -- lia.
        -- intros [|j] Hj; simpl.
           ++ exists (inr e). split; [reflexivity | exists e; auto].
           ++ apply Hpre. lia.
        -- exact Hlast.
        -- intros e' He'. destruct (Hfin e' He'); [left | right]; auto.
        -- simpl. now rewrite Hdel.
        -- unfold requests in *. simpl. now rewrite Hreq.
        -- constructor. constructor; [reflexivity|]. constructor; [reflexivity|]. exact Hseq.
      * exists O. simpl. repeat split; try lia.
        all: try (intros; lia).
        all: try (intros e' He'; left; congruence).
        all: repeat constructor.
Qed.

Lemma backoff_values :
  map backoff (countdown 3) = [2000%Q; 4000%Q; 8000%Q].
Proof. vm_compute. reflexivity. Qed.


Lemma num_is_true (x : option Z) (c : Z) : num_is x c = true <-> x = Some c.
Proof.
  destruct x as [v|]; simpl; [|split; discriminate].
  rewrite Z.eqb_eq. split; [now intros -> | now intros [= ->]].
Qed.


(** *** The merge step *)

Lemma core_eq_refl (a : runState) : core_eq a a.
Proof. repeat split. Qed.

Lemma core_eq_sym_aux (a b : runState) : core_eq a b -> core_eq b a.
Proof. intros (?&?&?). repeat split; congruence. Qed.

Lemma core_eq_trans (a b c : runState) : core_eq a b -> core_eq b c -> core_eq a c.
Proof. intros (?&?&?) (?&?&?). repeat split; congruence. Qed.

Lemma core_eq_log (st : runState) (evs : list event) : core_eq (log st evs) st.
Proof. repeat split. Qed.

Lemma core_eq_with_call (st : runState) svc1 tr : core_eq (with_call st svc1 tr) st.
Proof. repeat split. Qed.

Lemma mergeFinding_core (a b : runState) (f : AnalysisFinding) :
  core_eq a b -> core_eq (mergeFinding a f) (mergeFinding b f).
Proof.
  intros (Hf & Hi & Hh). unfold mergeFinding. rewrite Hi, Hh.
  destruct (bool_decide (target_id f ∈ seenIds b)); [repeat split; assumption|].
  destruct (sameContentOtherId _ _); [repeat split; assumption|].
  unfold acceptFinding, core_eq. simpl. now rewrite Hf, Hi, Hh.
Qed.

Lemma fold_mergeFinding_core (fs : list AnalysisFinding) : forall a b : runState,
  core_eq a b ->
  core_eq (fold_left (mergeFinding) fs a) (fold_left (mergeFinding) fs b).
Proof.
  induction fs as [|f fs IH]; intros a b Hab; simpl; [assumption|].
  apply IH. now apply mergeFinding_core.
Qed.

(** A finding is either kept, after everything kept so far, or rejected
    with one warning; nothing kept earlier is dropped or replaced. *)
Lemma mergeFinding_cases (st : runState) (f : AnalysisFinding) :
  (allFindings (mergeFinding st f) = allFindings st ++ [f] /\
   trace (mergeFinding st f) = trace st) \/
  (allFindings (mergeFinding st f) = allFindings st /\
   exists ev, is_rejection ev /\ trace (mergeFinding st f) = trace st ++ [ev]).
Proof.
  unfold mergeFinding.
  destruct (bool_decide (target_id f ∈ seenIds st)).
  - right. split; [reflexivity|]. eexists. split; [|reflexivity]. exact I.
  - destruct (sameContentOtherId _ _).
    + right. split; [reflexivity|]. eexists. split; [|reflexivity]. exact I.
    + left. split; reflexivity.
Qed.

Lemma truthy_false (s : string) : truthy s = false -> s = EmptyString.
Proof. destruct s; [reflexivity | discriminate]. Qed.

Lemma mergeFinding_inv (st : runState) (f : AnalysisFinding) :
  target_id f <> EmptyString ->
  dedup_inv st -> dedup_inv (mergeFinding st f).
Proof.
  intros Hne [Hnd Hseen Hhash Hnon]. unfold mergeFinding.
  case_bool_decide as Hin; [constructor; assumption|].
  destruct (sameContentOtherId _ _) eqn:Hsame; [constructor; assumption|].
  assert (Hfresh : ~ In (target_id f) (map target_id (allFindings st)))
    by (now rewrite <- Hseen).
  constructor; simpl.
  - rewrite map_app. simpl. apply NoDup_app. repeat split.
    + exact Hnd.
    + intros x Hx Hx'. apply list_elem_of_In in Hx, Hx'.
      destruct Hx' as [<-|[]]. contradiction.
    + apply NoDup_singleton.
  - intros id. rewrite map_app, in_app_iff, elem_of_union, elem_of_singleton, Hseen.
    simpl. intuition congruence.
  - intros g Hg. apply in_app_iff in Hg as [Hg|[<-|[]]].
    + destruct (decide (textHash f = textHash g)) as [Heq|Hneq].
      * exfalso. pose proof (Hhash g Hg) as Hl. rewrite <- Heq in Hl.
        rewrite Hl in Hsame. simpl in Hsame.
        apply andb_false_iff in Hsame as [Ht|He].
        -- apply truthy_false in Ht. now apply (Hnon g Hg).
        -- apply negb_false_iff, String.eqb_eq in He.
           apply Hfresh. rewrite <- He. now apply in_map.
      * rewrite lookup_insert_ne by assumption. now apply Hhash.
    + apply lookup_insert_eq.
  - intros g Hg. apply in_app_iff in Hg as [Hg|[<-|[]]]; auto.
Qed.

Lemma fold_mergeFinding_inv (fs : list AnalysisFinding) : forall st : runState,
  (forall f, In f fs -> target_id f <> EmptyString) ->
  dedup_inv st -> dedup_inv (fold_left (mergeFinding) fs st).
Proof.
  induction fs as [|f fs IH]; intros st Hne Hinv; simpl; [assumption|].
  apply IH; [intros g Hg; apply Hne; now right|].
  apply mergeFinding_inv; [apply Hne; now left | assumption].
Qed.

Lemma dedup_inv_core (a b : runState) : core_eq a b -> dedup_inv a -> dedup_inv b.
Proof.
  intros (Hf & Hi & Hh) [H1 H2 H3 H4].
  constructor; rewrite <- ?Hf, <- ?Hi, <- ?Hh; assumption.
Qed.


(** *** The merge keeps the first *)

Lemma existsb_clashes_id (f : AnalysisFinding) (kept : list AnalysisFinding) :
  In (target_id f) (map target_id kept) -> existsb (clashes f) kept = true.
Proof.
  intros Hin. apply in_map_iff in Hin as (g & Hg & Hin).
  apply existsb_exists. exists g. split; [exact Hin|].
  unfold clashes. rewrite Hg, String.eqb_refl. reflexivity.
Qed.

Lemma existsb_clashes_hash (f g : AnalysisFinding) (kept : list AnalysisFinding) :
  In g kept -> textHash g = textHash f -> existsb (clashes f) kept = true.
Proof.
  intros Hin Hh. apply existsb_exists. exists g. split; [exact Hin|].
  unfold clashes. rewrite Hh, String.eqb_refl. apply orb_true_r.
Qed.

(** With non-empty identifiers a step of the merge is a step of
    [keepFirst]. *)
Lemma mergeFinding_keepFirst (st : runState) (f : AnalysisFinding) :
  dedup_inv st -> hash_inv st ->
  allFindings (mergeFinding st f)
  = (if existsb (clashes f) (allFindings st) then allFindings st
     else allFindings st ++ [f]) /\
  hash_inv (mergeFinding st f).
Proof.
  intros [Hnd Hseen Hhash Hnon] Hdom. unfold mergeFinding.
  case_bool_decide as Hin.
  - split; [|exact Hdom]. cbn [log allFindings].
    now rewrite existsb_clashes_id by (now apply Hseen).
  - assert (Hfresh : ~ In (target_id f) (map target_id (allFindings st)))
      by (now rewrite <- Hseen).
    destruct (seenTextHashes st !! textHash f) as [e|] eqn:Hlook.
    + destruct (Hdom _ _ Hlook) as (g & Hg & Hgh & Hge).
      assert (Hsame : sameContentOtherId (Some e) (target_id f) = true).
      { cbn [sameContentOtherId]. apply andb_true_iff. split.
        - pose proof (Hnon g Hg) as Hne. rewrite Hge in Hne.
          destruct e; [congruence | reflexivity].
        - apply negb_true_iff, String.eqb_neq. intros ->.
          apply Hfresh. rewrite <- Hge. now apply in_map. }
      rewrite Hsame. split; [|exact Hdom]. cbn [log allFindings].
      now rewrite (existsb_clashes_hash f g).
    + cbn [sameContentOtherId]. split.
      * cbn [acceptFinding allFindings].
        destruct (existsb (clashes f) (allFindings st)) eqn:Hex; [|reflexivity].
        exfalso. apply existsb_exists in Hex as (g & Hg & Hc).
        unfold clashes in Hc. apply orb_true_iff in Hc as [Hc|Hc].
        -- apply String.eqb_eq in Hc. apply Hfresh. rewrite <- Hc. now apply in_map.
        -- apply String.eqb_eq in Hc. pose proof (Hhash g Hg) as Hl.
           rewrite Hc, Hlook in Hl. discriminate Hl.
      * intros h e. cbn [acceptFinding seenTextHashes allFindings].
        destruct (decide (h = textHash f)) as [->|Hneq].
        -- rewrite lookup_insert_eq. intros [= <-]. exists f.
           split; [apply in_or_app; right; now left | split; reflexivity].
        -- rewrite lookup_insert_ne by congruence. intros Hl.
           destruct (Hdom _ _ Hl) as (g & Hg & Hgh & Hge).
           exists g. split; [apply in_or_app; now left | split; assumption].
Qed.

Lemma fold_mergeFinding_keepFirst (fs : list AnalysisFinding) : forall st : runState,
  (forall f, In f fs -> target_id f <> EmptyString) ->
  dedup_inv st -> hash_inv st ->
  allFindings (fold_left mergeFinding fs st) = keepFirst (allFindings st) fs.
Proof.
  induction fs as [|f fs IH]; intros st Hne Hinv Hdom; [reflexivity|].
  cbn [fold_left keepFirst].
  destruct (mergeFinding_keepFirst st f Hinv Hdom) as [Hstep Hdom'].
  rewrite IH.
  - rewrite Hstep. now destruct (existsb (clashes f) (allFindings st)).
  - intros g Hg. apply Hne. now right.
  - apply mergeFinding_inv; [apply Hne; now left | exact Hinv].
  - exact Hdom'.
Qed.

(** What [keepFirst] keeps stands for everything it was given. *)
Lemma keepFirst_incl (incoming : list AnalysisFinding) : forall kept g,
  In g kept -> In g (keepFirst kept incoming).
Proof.
  induction incoming as [|f rest IH]; intros kept g Hg; [exact Hg|].
  cbn [keepFirst]. destruct (existsb (clashes f) kept); apply IH; [exact Hg|].
  apply in_or_app. now left.
Qed.

Lemma keepFirst_complete (incoming : list AnalysisFinding) : forall kept f,
  In f incoming ->
  exists g, In g (keepFirst kept incoming) /\
            (target_id g = target_id f \/ textHash g = textHash f).
Proof.
  induction incoming as [|x rest IH]; intros kept f Hf; [contradiction|].
  cbn [keepFirst]. destruct Hf as [->|Hf].
  - destruct (existsb (clashes f) kept) eqn:Hex.
    + apply existsb_exists in Hex as (g & Hg & Hc). exists g.
      split; [now apply keepFirst_incl|].
      unfold clashes in Hc. apply orb_true_iff in Hc as [Hc|Hc];
        apply String.eqb_eq in Hc; [now left | now right].
    + exists f. split; [|now left].
      apply keepFirst_incl, in_or_app. right. now left.
  - destruct (existsb (clashes x) kept); now apply IH.
Qed.

Lemma keepFirst_head (f : AnalysisFinding) (rest : list AnalysisFinding) :
  head (keepFirst [] (f :: rest)) = Some f.
Proof.
  cbn [keepFirst existsb app].
  assert (H : forall incoming kept, head (keepFirst (f :: kept) incoming) = Some f).
  { induction incoming as [|x incoming IH]; intros kept; [reflexivity|].
    cbn [keepFirst]. destruct (existsb (clashes x) (f :: kept)); [apply IH|].
    cbn [app]. apply IH. }
  apply H.
Qed.

Lemma retry_first (n : nat) (svc0 : Service) (params : GenParams) :
  exists tr, snd (fst (retry svc0 params n)) = EvRequest params :: tr.
Proof.
  destruct n as [|n]; cbn [generateContentWithRetry].
  - destruct (generateContent svc0 params) as [svc1 [resp|e]]; eexists; reflexivity.
  - destruct (generateContent svc0 params) as [svc1 [resp|e]]; [eexists; reflexivity|].
    destruct (isRateLimit e || isServerError e); [|eexists; reflexivity].
    destruct (retry svc1 params n) as [[svc2 tr] r]. eexists. reflexivity.
Qed.

(** *** The batch loop *)

#[local] Arguments generateContentWithRetry : simpl never.

Abbreviation findingsOf := (findingsOf IRParsedClause parseIR mapIRToFindings).
Abbreviation batchBody :=
  (batchBody Service generateContent IRParsedClause parseIR mapIRToFindings).
Abbreviation batchStep :=
  (batchStep Service generateContent IRParsedClause parseIR mapIRToFindings).
Abbreviation batchOutcomes :=
  (batchOutcomes Service generateContent IRParsedClause parseIR mapIRToFindings).
Abbreviation analyzeChunks :=
  (analyzeChunks Service generateContent IRParsedClause parseIR mapIRToFindings).
Abbreviation analyzeDocumentWithGemini :=
  (analyzeDocumentWithGemini Service generateContent IRParsedClause parseIR mapIRToFindings).

Lemma mergeFinding_svc (st : runState) f : svc (mergeFinding st f) = svc st.
Proof.
  unfold mergeFinding. destruct (bool_decide _); [reflexivity|].
  destruct (sameContentOtherId _ _); reflexivity.
Qed.

Lemma fold_mergeFinding_svc fs : forall st : runState,
  svc (fold_left mergeFinding fs st) = svc st.
Proof.
  induction fs as [|f fs IH]; intros st; simpl; [reflexivity|].
  now rewrite IH, mergeFinding_svc.
Qed.

Lemma fold_mergeFinding_trace fs : forall st : runState,
  exists evs, trace (fold_left mergeFinding fs st) = trace st ++ evs /\ sequential evs.
Proof.
  induction fs as [|f fs IH]; intros st; simpl.
  - exists []. split; [now rewrite app_nil_r | constructor].
  - destruct (IH (mergeFinding st f)) as (evs & Heq & Hseq).
    destruct (mergeFinding_cases st f) as [[_ Ht]|[_ (ev & Hev & Ht)]].
    + exists evs. now rewrite Heq, Ht.
    + exists (ev :: evs). rewrite Heq, Ht, <- app_assoc. split; [reflexivity|].
      constructor; [|assumption]. destruct ev; simpl in *; tauto.
Qed.

(** A batch whose call failed leaves the result set as it was. *)
Lemma batchStep_failed playbook party testConfig (st st1 : runState) i chunk e :
  batchBody playbook party testConfig st i chunk = (st1, Some e) ->
  core_eq (batchStep playbook party testConfig st (i, chunk)) st /\
  trace (batchStep playbook party testConfig st (i, chunk)) = trace st1 ++ [EvBatchFailed i e].
Proof.
  intros Hbody. unfold Gemini.batchStep. simpl. rewrite Hbody. split; [|reflexivity].
  unfold Gemini.batchBody in Hbody.
  destruct (max_lt _ 4); [discriminate|].
  destruct (retry _ _ 3) as [[svc1 tr] [resp|e']]; [discriminate|].
  injection Hbody as <- _. repeat split.
Qed.

(** The result set of a run is the merge, in batch order, of the
    findings of the batches that were answered. *)
Lemma batches_core playbook party testConfig (batches : list (nat * string)) :
  forall st pure : runState,
    core_eq st pure ->
    core_eq (fold_left (batchStep playbook party testConfig) batches st)
            (fold_left mergeFinding
               (delivered (batchOutcomes playbook party testConfig (svc st) batches)) pure).
Proof.
  induction batches as [|[i chunk] rest IH]; intros st pure Hcore; simpl; [assumption|].
  unfold Gemini.batchStep at 2. unfold Gemini.batchBody. simpl.
  destruct (max_lt _ 4).
  - apply (IH (log st _) pure). eapply core_eq_trans; [apply core_eq_log | assumption].
  - destruct (retry _ _ 3) as [[svc1 tr] [resp|e]] eqn:Hcall.
    + simpl. rewrite fold_left_app.
      specialize (IH (fold_left mergeFinding (findingsOf resp) (with_call st svc1 tr))
                     (fold_left mergeFinding (findingsOf resp) pure)).
      rewrite fold_mergeFinding_svc in IH. simpl in IH. apply IH.
      apply fold_mergeFinding_core.
      eapply core_eq_trans; [apply core_eq_with_call | assumption].
    + simpl. apply (IH (log (with_call st svc1 tr) _) pure).
      eapply core_eq_trans; [apply core_eq_log|].
      eapply core_eq_trans; [apply core_eq_with_call | assumption].
Qed.

Lemma batchOutcomes_length playbook party testConfig (batches : list (nat * string)) :
  forall svc0, length (batchOutcomes playbook party testConfig svc0 batches) = length batches.
Proof.
  induction batches as [|[i chunk] rest IH]; intros svc0; simpl; [reflexivity|].
  destruct (max_lt _ 4); simpl; [now rewrite IH|].
  destruct (retry _ _ 3) as [[svc1 tr] [resp|e]]; simpl; now rewrite IH.
Qed.

Lemma batches_sequential playbook party testConfig (batches : list (nat * string)) :
  forall st : runState,
    sequential (trace st) ->
    sequential (trace (fold_left (batchStep playbook party testConfig) batches st)).
Proof.
  induction batches as [|[i chunk] rest IH]; intros st Hseq; simpl; [assumption|].
  apply IH. unfold Gemini.batchStep, Gemini.batchBody. simpl.
  destruct (max_lt _ 4); simpl.
  - apply sequential_app; [assumption | repeat constructor].
  - pose proof (retry_spec 3 (svc st) (batchParams playbook party testConfig chunk))
      as (k & _ & _ & _ & _ & _ & _ & Hs).
    destruct (retry _ _ 3) as [[svc1 tr] [resp|e]]; simpl in Hs |- *.
    + destruct (fold_mergeFinding_trace (findingsOf resp) (with_call st svc1 tr))
        as (evs & -> & Hevs).
      simpl. repeat apply sequential_app; assumption.
    + repeat apply sequential_app; try assumption. repeat constructor.
Qed.

Lemma delivered_nonempty_ids playbook party testConfig (batches : list (nat * string)) :
  (forall text f, In f (mapIRToFindings (parseIR text)) -> target_id f <> EmptyString) ->
  forall svc0 f,
    In f (delivered (batchOutcomes playbook party testConfig svc0 batches)) ->
    target_id f <> EmptyString.
Proof.
  intros Hids. induction batches as [|[i chunk] rest IH]; intros svc0 f; simpl; [tauto|].
  destruct (max_lt _ 4); simpl; [apply IH|].
  destruct (retry _ _ 3) as [[svc1 tr] [resp|e]]; simpl; [|apply IH].
  rewrite in_app_iff. intros [Hf|Hf]; [|eapply IH; eassumption].
  eapply Hids. exact Hf.
Qed.

Lemma emptyRun_hash_inv (svc0 : Service) : hash_inv (emptyRun svc0).
Proof. intros h e Hl. cbn [emptyRun seenTextHashes] in Hl. now rewrite lookup_empty in Hl. Qed.

Lemma emptyRun_inv (svc0 : Service) : dedup_inv (emptyRun svc0).
Proof.
  constructor; simpl.
  - constructor.
  - intros id. split; [intros H; now apply not_elem_of_empty in H | tauto].
  - tauto.
  - tauto.
Qed.


(** *** The run as a call of the pool *)

Lemma taskEvents_taskOf (evs : list event) : taskEvents (taskOf evs) = evs.
Proof.
  unfold taskEvents, taskOf. cbn [atCall resumptions concat].
  rewrite app_nil_r. apply firstn_skipn.
Qed.

(** The events of one batch are those of a task that dispatches it. *)
Lemma batchStep_events playbook party testConfig (st : runState) (ic : nat * string) :
  exists evs,
    trace (batchStep playbook party testConfig st ic) = trace st ++ evs /\
    batch_task playbook party testConfig ic (taskOf evs).
Proof.
  unfold Gemini.batchStep, Gemini.batchBody, batch_task.
  destruct (max_lt _ 4) eqn:Hgate.
  - eexists. split; reflexivity.
  - destruct (retry_first 3 (svc st) (batchParams playbook party testConfig (snd ic)))
      as (tr' & Htr).
    destruct (retry _ _ 3) as [[svc1 tr] [resp|e]]; simpl in Htr; subst tr.
    + destruct (fold_mergeFinding_trace (findingsOf resp)
                  (with_call st svc1
                     (EvRequest (batchParams playbook party testConfig (snd ic)) :: tr')))
        as (evs & Heq & _).
      rewrite Heq. simpl. rewrite <- app_assoc. eexists. split; reflexivity.
    + simpl. rewrite <- app_assoc. eexists. split; reflexivity.
Qed.

Lemma batches_tasks playbook party testConfig (batches : list (nat * string)) :
  forall st : runState,
    exists tasks,
      Forall2 (batch_task playbook party testConfig) batches tasks /\
      Forall (fun task => (length (resumptions task) <= 1)%nat) tasks /\
      trace (fold_left (batchStep playbook party testConfig) batches st)
      = trace st ++ concat (map taskEvents tasks).
Proof.
  induction batches as [|ic rest IH]; intros st.
  - exists []. simpl. rewrite app_nil_r. repeat constructor.
  - destruct (batchStep_events playbook party testConfig st ic) as (evs & Hevs & Htask).
    destruct (IH (batchStep playbook party testConfig st ic)) as (tasks & Hall & Hone & Htr).
    exists (taskOf evs :: tasks). split; [now constructor|]. split.
    + constructor; [simpl; lia | assumption].
    + simpl. rewrite Htr, Hevs, taskEvents_taskOf. now rewrite <- app_assoc.
Qed.

(** *** The run *)

Lemma analyze_core svc0 document playbook party testConfig :
  core_eq (analyzeDocumentWithGemini svc0 document playbook party testConfig)
          (fold_left mergeFinding
             (delivered (batchOutcomes playbook party testConfig svc0
                           (indexed (createChunks document))))
             (emptyRun svc0)).
Proof. apply (batches_core playbook party testConfig _ (emptyRun svc0)), core_eq_refl. Qed.


(** C4. Retry and batch isolation. A call made with the default of three
    retries is attempted at most four times; every attempt but the last
    failed with a rate-limit or server error and was followed by a
    delay, the delays being 2000, 4000 and 8000 ms in this order; the
    result of the call is the outcome of its last attempt, and an error
    is returned only if it is not transient or the three retries are
    used up. In a run every batch gets its outcome; a batch whose call
    fails is logged and leaves the result set untouched, and the
    findings returned are the merge of the findings of the batches that
    were answered, in batch order. *)
Theorem retry_and_batch_isolation :
  (forall svc0 params,
      exists k : nat,
        (k <= 3)%nat /\
        (forall j, (j < k)%nat ->
           exists r, outcomes svc0 params 4 !! j = Some r /\ is_transient_failure r) /\
        outcomes svc0 params 4 !! k = Some (snd (retry svc0 params 3)) /\
        (forall e, snd (retry svc0 params 3) = inr e -> transient e = false \/ k = 3%nat) /\
        delays (snd (fst (retry svc0 params 3))) = firstn k [2000%Q; 4000%Q; 8000%Q] /\
        requests (snd (fst (retry svc0 params 3))) = S k) /\
  (forall playbook party testConfig (st st1 : runState) i chunk e,
      batchBody playbook party testConfig st i chunk = (st1, Some e) ->
      core_eq (batchStep playbook party testConfig st (i, chunk)) st /\
      trace (batchStep playbook party testConfig st (i, chunk))
        = trace st1 ++ [EvBatchFailed i e]) /\
  (forall svc0 document playbook party testConfig,
      let outs := batchOutcomes playbook party testConfig svc0
                    (indexed (createChunks document)) in
      length outs = length (createChunks document) /\
      allFindings (analyzeDocumentWithGemini svc0 document playbook party testConfig)
        = allFindings (fold_left mergeFinding (delivered outs) (emptyRun svc0))).
Proof.
  split; [|split].
  - intros svc0 params.
    destruct (retry_spec 3 svc0 params) as (k & Hk & Hpre & Hlast & Hfin & Hdel & Hreq & _).
    exists k. rewrite <- backoff_values. repeat split; try assumption.
    now rewrite firstn_map.
  - intros. eapply batchStep_failed; eassumption.
  - intros svc0 document playbook party testConfig outs. split.
    + subst outs. rewrite batchOutcomes_length. unfold indexed.
      rewrite length_combine, length_seq. lia.
    + apply analyze_core.
Qed.

(** C9, as the code has it. The batches are dispatched one after the
    other, whatever the document, the playbook, the party, the test
    configuration and the service: in the trace of a run every remote
    call settles before the next event, so at no moment is more than
    one call in flight; and the events of the run are those of a call
    of runWithConcurrencyLimit with the limit 1 on one task per batch,
    in the order of the batches. *)
Theorem dispatch_is_sequential svc0 document playbook party testConfig :
  let tr := trace (analyzeDocumentWithGemini svc0 document playbook party testConfig) in
  sequential tr /\
  (forall p q, tr = p ++ q -> 0 <= inFlight p <= 1) /\
  pool_dispatch 1 document playbook party testConfig tr.
Proof.
  intros tr.
  assert (Hs : sequential tr).
  { subst tr. unfold Gemini.analyzeDocumentWithGemini, Gemini.analyzeChunks.
    apply batches_sequential. constructor. }
  split; [exact Hs|]. split; [now apply sequential_prefix|].
  subst tr. unfold Gemini.analyzeDocumentWithGemini, Gemini.analyzeChunks, pool_dispatch.
  destruct (batches_tasks playbook party testConfig (indexed (createChunks document))
              {| svc := svc0; allFindings := []; seenIds := ∅; seenTextHashes := ∅;
                 trace := [] |}) as (tasks & Hall & Hone & Htr).
  destruct (pool_limit_one tasks tasks (poolStart tasks) Hone
              (reaches_start 1 tasks) eq_refl eq_refl) as (final & Hf & Hp & He & Hemit);
    [discriminate|].
  exists tasks, final. split; [exact Hall|]. split; [now repeat split|].
  rewrite Hemit, Htr. reflexivity.
Qed.

(** C10. For a document without paragraphs the guard of createChunks
    returns the empty list, a run over it makes no remote call and
    returns no finding; and whenever createChunks goes past the guard
    the average block size is a quotient by a non-zero count. *)
Theorem empty_document_no_call :
  createChunks {| paragraphs := [] |} = [] /\
  (forall svc0 playbook party testConfig,
      let st := analyzeDocumentWithGemini svc0 {| paragraphs := [] |}
                  playbook party testConfig in
      trace st = [] /\ allFindings st = [] /\ svc st = svc0) /\
  avgBlockSize [] = None /\
  (forall d : ShadowDocument,
      (length (paragraphs d) =? 0)%nat = false ->
      exists q : Q, avgBlockSize (paragraphs d) = Some q).
Proof.
  split; [reflexivity|]. split; [intros; repeat split|]. split; [reflexivity|].
  intros d Hlen. apply Nat.eqb_neq in Hlen. unfold avgBlockSize.
  destruct (Z.of_nat (length (paragraphs d))) eqn:Hz; try lia.
  eexists. reflexivity.
Qed.


End Dispatch.

(** *** A concrete service, for evaluation *)

Lemma toyParse_ids (text : string) (f : AnalysisFinding) :
  In f (toyParse text) -> target_id f <> EmptyString.
Proof.
  unfold toyParse. destruct (String.eqb text "R"); simpl; [|tauto].
  intros [<-|[<-|[<-|[<-|[]]]]]; discriminate.
Qed.

Example toyRun_findings :
  map target_id (allFindings (toyRun 1)) = ["a"; "c"] /\
  List.filter (fun ev => match ev with EvRequest _ | EvSettled _ => false | _ => true end)
    (trace (toyRun 1))
    = [EvDuplicateId "a"; EvDuplicateContent "a" "b"].
Proof. vm_compute. split; reflexivity. Qed.

Example toyRun_two_batches :
  length (createChunks (toyDocument 51)) = 2%nat /\
  map flightDelta (trace (toyRun 51)) = [1; -1; 0; 0; 1; -1; 0; 0; 0; 0].
Proof. vm_compute. split; reflexivity. Qed.

(** Why C2 is stated for non-empty identifiers: an
    accepted finding with the empty identifier does not protect its
    fingerprint, since the check reads the stored identifier as absent. *)
Example empty_identifier_is_read_as_absent :
  map target_id
    (allFindings
       (fold_left mergeFinding
          [toyFinding EmptyString "Same text."; toyFinding "x" "Same text."]
          (emptyRun 0%nat)))
  = [EmptyString; "x"].
Proof. vm_compute. reflexivity. Qed.




(** C9 as the specification states it fails for every limit of two or
    more. A document of 51 paragraphs makes two batches, both above the
    relevance threshold. The run issues the second request when the
    first call has settled, while a pool with a limit of two or more
    calls its first two tasks, and so issues both requests, before
    anything settles. *)
Lemma two_batches_not_pooled :
  ~ exists N, 2 <= N /\
      pool_dispatch N (toyDocument 51) toyPlaybook "Customer" None (trace (toyRun 51)).
Proof.
  intros (N & HN & tasks & final & Htasks & (Hreach & Hpend & _) & Htr).
  assert (Hchunks : exists c1 c2,
             indexed (createChunks (toyDocument 51)) = [(0%nat, c1); (1%nat, c2)] /\
             max_lt (batchMaxScore toyPlaybook c1) 4 = false /\
             max_lt (batchMaxScore toyPlaybook c2) 4 = false).
  { do 2 eexists. split; [vm_compute; reflexivity|]. split; vm_compute; reflexivity. }
  destruct Hchunks as (c1 & c2 & Hchunks & Hgate1 & Hgate2).
  rewrite Hchunks in Htasks.
  inversion Htasks as [|? t1 ? rest1 Ht1 Hrest1]; subst.
  inversion Hrest1 as [|? t2 ? rest2 Ht2 Hrest2]; subst.
  inversion Hrest2; subst.
  unfold batch_task in Ht1, Ht2. cbn [fst snd] in Ht1, Ht2.
  rewrite Hgate1 in Ht1. rewrite Hgate2 in Ht2.
  destruct (pool_first_two N t1 t2 [] final HN Hreach)
    as [(Hp & _)|[(Hp & _)|(more & Hemit)]]; try congruence.
  rewrite Hemit, Ht1, Ht2 in Htr.
  assert (Hsecond : nth_error (trace (toyRun 51)) 1 = Some (EvSettled true))
    by (vm_compute; reflexivity).
  rewrite <- Htr in Hsecond. discriminate Hsecond.
Qed.

End DispatchFacts.

(** ** Rule update records *)

Module RuleIRFacts.
Import JS JSFacts Gemini GeminiSpec.

Lemma eqb_ci_eq (a b : ascii) : eqb_ci a b = true <-> lower_char a = lower_char b.
Proof. unfold eqb_ci. apply Ascii.eqb_eq. Qed.

Lemma prefix_ci_spec (p : string) : forall s,
  prefix_ci p s = true <->
  exists mid post, s = mid +:+ post /\ toLowerCase mid = toLowerCase p.
Proof.
  induction p as [|a p IH]; intros s.
  - split; [intros _; exists EmptyString, s; split; reflexivity | reflexivity].
  - destruct s as [|b s]; simpl.
    + split; [discriminate|]. intros (mid & post & Heq & Hl).
      destruct mid as [|c mid]; [discriminate Hl | discriminate Heq].
    + rewrite andb_true_iff, eqb_ci_eq, IH. split.
      * intros (Hab & mid & post & -> & Hl).
        exists (String b mid), post. split; [reflexivity|].
        unfold toLowerCase in *. simpl. now rewrite Hab, Hl.
      * intros (mid & post & Heq & Hl).
        destruct mid as [|c mid]; [discriminate Hl|].
        rewrite append_cons in Heq. injection Heq as -> ->.
        unfold toLowerCase in Hl. simpl in Hl. injection Hl as Hc Hl.
        split; [now symmetry|]. exists mid, post. split; [reflexivity | exact Hl].
Qed.

Lemma find_section_unfold (label body : string) :
  find_section label body =
    if prefix_ci label body then Some (until_label (drop (String.length label) body))
    else match body with
         | String _ body' => find_section label body'
         | EmptyString => None
         end.
Proof. destruct body; reflexivity. Qed.

(** [extract] answers [null] exactly when the label does not occur. *)
Lemma find_section_None (label : string) : forall body,
  find_section label body = None <-> ~ occurs_ci label body.
Proof.
  induction body as [|c body IH]; rewrite find_section_unfold.
  - destruct (prefix_ci label EmptyString) eqn:Hp.
    + split; [discriminate|]. intros Hn. exfalso. apply Hn.
      apply prefix_ci_spec in Hp as (mid & post & Heq & Hl).
      exists EmptyString, mid, post. split; [exact Heq | exact Hl].
    + split; [|reflexivity]. intros _ (pre & mid & post & Heq & Hl).
      assert (Hpre : pre = EmptyString) by (destruct pre; [reflexivity | discriminate]).
      subst pre. rewrite append_nil_l in Heq.
      assert (prefix_ci label EmptyString = true) by (apply prefix_ci_spec; eauto).
      congruence.
  - destruct (prefix_ci label (String c body)) eqn:Hp.
    + split; [discriminate|]. intros Hn. exfalso. apply Hn.
      apply prefix_ci_spec in Hp as (mid & post & Heq & Hl).
      exists EmptyString, mid, post. split; [exact Heq | exact Hl].
    + rewrite IH. split; intros Hn (pre & mid & post & Heq & Hl); apply Hn.
      * destruct pre as [|x pre].
        -- rewrite append_nil_l in Heq.
           assert (prefix_ci label (String c body) = true) by (apply prefix_ci_spec; eauto).
           congruence.
        -- rewrite append_cons in Heq. injection Heq as -> ->.
           exists pre, mid, post. split; [reflexivity | exact Hl].
      * exists (String c pre), mid, post. rewrite append_cons, Heq. split; [reflexivity | exact Hl].
Qed.

Lemma extract_absent (body key : string) :
  ~ occurs_ci (sectionLabel key) body -> extract body key = None.
Proof.
  intros Habs. unfold extract. apply find_section_None in Habs. now rewrite Habs.
Qed.

Lemma updated_frame (key body old : string) :
  field_frame key body old (updated (extract body key) old).
Proof.
  split.
  - intros Habs. now rewrite (extract_absent _ _ Habs).
  - destruct (extract body key) as [v|] eqn:He; simpl; [|now left].
    destruct v as [|c v]; simpl; [now left|]. right. split; [reflexivity | discriminate].
Qed.

Lemma updated_opt_frame (key body : string) (old : option string) :
  field_frame_opt key body old (updated_opt (extract body key) old).
Proof.
  split.
  - intros Habs. now rewrite (extract_absent _ _ Habs).
  - destruct (extract body key) as [v|] eqn:He; simpl; [|now left].
    destruct v as [|c v]; simpl; [now left|]. right.
    eexists. repeat split; discriminate.
Qed.

Lemma field_frame_same (key body old : string) : field_frame key body old old.
Proof. split; [reflexivity | now left]. Qed.

Lemma applyRuleBlock_frame (body : string) (r : PlaybookRule) :
  rule_frame body r (applyRuleBlock body r).
Proof.
  constructor; try reflexivity;
    try apply updated_frame; try apply updated_opt_frame.
  all: unfold applyRuleBlock; cbn [risk_criteria].
  all: destruct (is_truthy (extract body "RISK_RED") || is_truthy (extract body "RISK_YELLOW")
                 || is_truthy (extract body "RISK_GREEN"));
    cbn [red yellow green]; try apply updated_frame; apply field_frame_same.
Qed.

Lemma span_pos_nonempty (p : ascii -> bool) (s : string) (k : nat) :
  span p s = k -> k <> O -> substring0 k s <> EmptyString.
Proof.
  destruct s as [|c s]; simpl; [congruence|].
  destruct (p c); [|congruence]. intros <- _. discriminate.
Qed.

Lemma rule_header_id (s id : string) (n : nat) :
  rule_header s = Some (id, n) -> id <> EmptyString.
Proof.
  unfold rule_header.
  destruct (String.prefix "<<RULE" s); [|discriminate].
  destruct (span is_space (drop 6 s) =? 0)%nat; [discriminate|].
  destruct (String.prefix "id=" _); [|discriminate].
  destruct (drop 3 _) as [|q s4]; [discriminate|].
  destruct (is_quote q); [|discriminate].
  destruct (span (fun c => negb (is_quote c)) s4 =? 0)%nat eqn:Hk; [discriminate|].
  destruct (drop _ s4) as [|q' s5]; [discriminate|].
  destruct (is_quote q'); [|discriminate].
  destruct (String.prefix ">>" _); [|discriminate].
  intros [= <- _]. eapply span_pos_nonempty; [reflexivity|].
  now apply Nat.eqb_neq.
Qed.

Lemma ruleBlocks_id (text : string) : forall skip id body,
  In (id, body) (ruleBlocks skip text) -> id <> EmptyString.
Proof.
  induction text as [|c text IH]; intros skip id body; simpl; [tauto|].
  destruct skip as [|k]; [|apply IH].
  destruct (rule_block (String c text)) as [[[id' body'] len]|] eqn:Hb; [|apply IH].
  intros [[= <- <-]|Hin]; [|eapply IH; eassumption].
  unfold rule_block in Hb.
  destruct (rule_header (String c text)) as [[i h]|] eqn:Hh; [|discriminate].
  destruct (indexOf _ _); [|discriminate].
  injection Hb as <- _ _. eapply rule_header_id; eassumption.
Qed.

Lemma findRule_spec (originalRules : list PlaybookRule) (id : string) (r : PlaybookRule) :
  findRule originalRules id = Some r -> In r originalRules /\ rule_id r = Some id.
Proof.
  unfold findRule. intros H. apply find_some in H as [Hin Hid].
  split; [exact Hin|]. destruct (rule_id r) as [i|]; [|discriminate].
  apply String.eqb_eq in Hid. now subst.
Qed.

(** C8. Every rule returned by parseRuleIR comes from a matched
    [<<RULE id=...>>] record whose non-empty id is the [rule_id] of an
    original rule, the first one with that id, and satisfies the frame
    condition against it: identifier, subcategory, synonyms, keywords and
    clause number are the original ones, and each labelled field, the
    three risk criteria separately, keeps its original value when its
    label does not occur in the record and otherwise holds either the
    original value or the non-empty trimmed text extracted for the label.
    Records whose id matches no original rule contribute nothing. *)
Theorem parseRuleIR_frame (text : string) (originalRules : list PlaybookRule) :
  Forall
    (fun newRule =>
       exists id body originalRule,
         In (id, body) (ruleBlocks O text) /\
         id <> EmptyString /\
         findRule originalRules id = Some originalRule /\
         In originalRule originalRules /\
         rule_id originalRule = Some id /\
         newRule = applyRuleBlock body originalRule /\
         rule_frame body originalRule newRule)
    (parseRuleIR text originalRules) /\
  length (parseRuleIR text originalRules)
    = length (List.filter (known_id originalRules) (ruleBlocks O text)).
Proof.
  unfold parseRuleIR. split.
  - apply List.Forall_forall. intros newRule Hin.
    apply in_flat_map in Hin as ([id body] & Hm & Hnew). simpl in Hnew.
    destruct (findRule originalRules id) as [r|] eqn:Hf; [|destruct Hnew].
    destruct Hnew as [<-|[]].
    destruct (findRule_spec _ _ _ Hf) as [Hr Hid].
    exists id, body, r.
    split; [exact Hm|]. split; [eapply ruleBlocks_id; eassumption|].
    split; [exact Hf|]. split; [exact Hr|]. split; [exact Hid|].
    split; [reflexivity | apply applyRuleBlock_frame].
  - induction (ruleBlocks O text) as [|m ms IH]; simpl; [reflexivity|].
    unfold known_id at 1. rewrite length_app, IH.
    destruct (findRule originalRules (fst m)); reflexivity.
Qed.

(** A record that names an existing rule and carries two of the nine
    labels, one of them in lower case. *)
Example parseRuleIR_example :
  parseRuleIR
    ("<<RULE id='LIAB_01'>> [topic] Cap on liability [RISK_YELLOW] over 12 months <<END_RULE>>"
     +:+ "<<RULE id='NOPE'>> [TOPIC] ignored <<END_RULE>>")
    [toyRule]
  = [{| rule_id := Some "LIAB_01"; category := Some "LIABILITY"; subcategory := None;
        topic := "Cap on liability"; synonyms := None;
        signal_keywords := Some ["liability"; "fees"]; clause_number := None;
        preferred_position := "capped"; reasoning := "risk";
        fallback_position := None; suggested_drafting := None;
        risk_criteria := {| green := "g"; yellow := "over 12 months"; red := "r" |} |}].
Proof. vm_compute. reflexivity. Qed.

End RuleIRFacts.

(** ** The patch transaction *)

Module PatchFacts.
Import JS JSFacts Superdoc SuperdocSpec.

(** *** Tokens and their characters *)

Lemma chars_app (a b : list token) : chars (a ++ b) = chars a +:+ chars b.
Proof.
  induction a as [|t a IH]; [reflexivity|].
  destruct t; simpl; rewrite IH; reflexivity.
Qed.

Lemma chars_textTokens (s : string) : chars (textTokens s) = s.
Proof. induction s as [|c s IH]; simpl; [reflexivity | now rewrite IH]. Qed.

Lemma length_textTokens (s : string) : length (textTokens s) = String.length s.
Proof. induction s as [|c s IH]; simpl; [reflexivity | now rewrite IH]. Qed.

Lemma nchars_app (a b : list token) : nchars (a ++ b) = (nchars a + nchars b)%nat.
Proof. unfold nchars. now rewrite chars_app, length_append. Qed.

Lemma nchars_cons_char c ts : nchars (TChar c :: ts) = S (nchars ts).
Proof. reflexivity. Qed.

Lemma nchars_le_length (ts : list token) : (nchars ts <= length ts)%nat.
Proof.
  unfold nchars. induction ts as [|t ts IH]; simpl; [lia|].
  destruct t; simpl; lia.
Qed.

Lemma length_charPositions (ts : list token) : forall base,
  length (charPositions base ts) = nchars ts.
Proof.
  unfold nchars. induction ts as [|t ts IH]; intros base; [reflexivity|].
  destruct t; simpl; now rewrite IH.
Qed.

Lemma charPositions_app (a b : list token) : forall base,
  charPositions base (a ++ b)
  = charPositions base a ++ charPositions (base + Z.of_nat (length a)) b.
Proof.
  induction a as [|t a IH]; intros base.
  - cbn [app charPositions length]. f_equal. lia.
  - destruct t; cbn [app charPositions]; rewrite IH; cbn [length];
      rewrite Nat2Z.inj_succ;
      replace (base + Z.succ (Z.of_nat (length a))) with (base + 1 + Z.of_nat (length a))
        by lia;
      reflexivity.
Qed.

(** The entry of the map for the character that follows [P]. *)
Lemma lookup_charPositions (P Q : list token) (c : ascii) (base : Z) :
  lookupZ (charPositions base (P ++ TChar c :: Q)) (Z.of_nat (nchars P))
  = Some (base + Z.of_nat (length P)).
Proof.
  unfold lookupZ. rewrite (proj2 (Z.ltb_ge _ _)) by lia.
  rewrite Nat2Z.id, charPositions_app. simpl.
  apply list_lookup_middle. now rewrite length_charPositions.
Qed.

(** *** The structural tokens *)

Lemma structure_app (a b : list token) : structure (a ++ b) = structure a ++ structure b.
Proof. unfold structure. apply List.filter_app. Qed.

Lemma structure_textTokens (s : string) : structure (textTokens s) = [].
Proof. induction s as [|c s IH]; [reflexivity | exact IH]. Qed.

Lemma length_structure (ts : list token) :
  length ts = (nchars ts + length (structure ts))%nat.
Proof.
  unfold nchars, structure. induction ts as [|t ts IH]; [reflexivity|].
  destruct t; simpl; lia.
Qed.

(** As many tokens as characters: no structural token. *)
Lemma structure_of_text (ts : list token) : length ts = nchars ts -> structure ts = [].
Proof.
  intros H. pose proof (length_structure ts) as Hl.
  apply length_zero_iff_nil. lia.
Qed.


(** *** Cutting a run of tokens after a number of characters *)

Lemma takeChars_spec (ts : list token) : forall (w rest : string),
  chars ts = w +:+ rest ->
  exists M Rs,
    ts = M ++ Rs /\ chars M = w /\ chars Rs = rest /\
    (w <> EmptyString -> ends_with_char M) /\
    (w = EmptyString -> M = []).
Proof.
  induction ts as [|t ts IH]; intros w rest Hc.
  - destruct w as [|x w]; [|discriminate Hc].
    exists [], []. repeat split; auto. congruence.
  - destruct w as [|x w].
    + exists [], (t :: ts). repeat split; auto. congruence.
    + destruct t as [c| a | | a].
      * simpl in Hc. rewrite append_cons in Hc. injection Hc as <- Hc.
        destruct (IH w rest Hc) as (M & Rs & -> & HM & HR & He & Hn).
        exists (TChar c :: M), Rs. repeat split; simpl; try congruence.
        intros _. destruct w as [|y w].
        -- rewrite (Hn eq_refl). exists [], c. reflexivity.
        -- destruct He as (P & c' & ->); [discriminate|].
           exists (TChar c :: P), c'. reflexivity.
      * simpl in Hc. destruct (IH _ _ Hc) as (M & Rs & -> & HM & HR & He & Hn).
        exists (TOpen a :: M), Rs. repeat split; simpl; try congruence.
        intros _. destruct He as (P & c' & ->); [discriminate|].
        exists (TOpen a :: P), c'. reflexivity.
      * simpl in Hc. destruct (IH _ _ Hc) as (M & Rs & -> & HM & HR & He & Hn).
        exists (TClose :: M), Rs. repeat split; simpl; try congruence.
        intros _. destruct He as (P & c' & ->); [discriminate|].
        exists (TClose :: P), c'. reflexivity.
      * simpl in Hc. destruct (IH _ _ Hc) as (M & Rs & -> & HM & HR & He & Hn).
        exists (TLeaf a :: M), Rs. repeat split; simpl; try congruence.
        intros _. destruct He as (P & c' & ->); [discriminate|].
        exists (TLeaf a :: P), c'. reflexivity.
Qed.

Lemma chars_cons_structure (t : token) (ts : list token) :
  (forall c, t <> TChar c) -> chars (t :: ts) = chars ts.
Proof. destruct t; intros H; try reflexivity. now contradiction (H c). Qed.

(** The tokens in front of the first character. *)
Lemma leading_structure (ts : list token) :
  exists G Rs,
    ts = G ++ Rs /\ chars G = EmptyString /\
    (chars ts <> EmptyString -> starts_with_char Rs) /\
    (chars ts = EmptyString -> G = []).
Proof.
  induction ts as [|t ts (G & Rs & Heq & HG & Hs & He)].
  - exists [], []. repeat split; auto. intros H. now contradiction H.
  - destruct (string_dec (chars (t :: ts)) EmptyString) as [Hemp|Hne].
    + exists [], (t :: ts). repeat split; auto. intros H. contradiction.
    + assert (Hcase : (exists c, t = TChar c) \/ (forall c, t <> TChar c))
        by (destruct t; [left; eauto | right; discriminate ..]).
      destruct Hcase as [[c ->]|Hstruct].
      * exists [], (TChar c :: ts). repeat split; auto. intros _. exists c, ts. reflexivity.
      * exists (t :: G), Rs.
        split; [simpl; f_equal; exact Heq|].
        split; [now rewrite chars_cons_structure|].
        split; [rewrite chars_cons_structure by assumption; exact Hs|].
        intros Hemp. contradiction.
Qed.

Lemma renormalize (Cp Cr : list token) :
  (chars Cr = EmptyString -> ends_with_char Cp) ->
  exists G Cr',
    Cr = G ++ Cr' /\ chars G = EmptyString /\ chars Cr' = chars Cr /\
    at_boundary (Cp ++ G) Cr'.
Proof.
  intros Hend.
  destruct (leading_structure Cr) as (G & Rs & Heq & HG & Hs & He).
  exists G, Rs.
  assert (Hc : chars Rs = chars Cr) by (rewrite Heq, chars_app, HG; reflexivity).
  repeat split; auto.
  - rewrite Hc. exact Hs.
  - rewrite Hc. intros Hemp. rewrite (He Hemp), app_nil_r. now apply Hend.
Qed.

(** *** Steps on the token sequence *)

Lemma applySteps_snoc (t : transaction) (s : step) (ts : list token) :
  applySteps (t ++ [s]) ts = applySteps t ts ≫= (fun ts' => applyStep ts' s).
Proof. unfold applySteps. now rewrite fold_left_app. Qed.

Lemma applyStep_delete (A M B : list token) :
  applyStep (A ++ M ++ B)
    (Delete (Some (Z.of_nat (length A)))
            (Some (Z.of_nat (length A) + Z.of_nat (length M))))
  = Some (A ++ B).
Proof.
  unfold applyStep, in_range. rewrite !length_app.
  rewrite !(proj2 (Z.leb_le _ _)) by lia. simpl.
  rewrite Nat2Z.id, take_app_length.
  rewrite <- Nat2Z.inj_add, Nat2Z.id, drop_app_add, drop_app_length. reflexivity.
Qed.

Lemma applyStep_insert (A B : list token) (w : string) :
  applyStep (A ++ B) (InsertText w (Some (Z.of_nat (length A))))
  = Some (A ++ textTokens w ++ B).
Proof.
  unfold applyStep, in_range. rewrite !length_app.
  rewrite !(proj2 (Z.leb_le _ _)) by lia. simpl.
  now rewrite Nat2Z.id, take_app_length, drop_app_length.
Qed.

#[local] Arguments applyStep : simpl never.

(** *** The invariant of the diff loop *)

Section Patch.

(** The document is [L ++ C ++ R]: [C] are the tokens of the content of
    the block, [L] the tokens before them (up to the opening token of
    the block), [R] the tokens after them. *)
Variables (L C R : list token) (proposed : string) (plain : bool).

Hypothesis Hchars : chars C <> EmptyString.

Abbreviation patch_inv := (patch_inv L C R proposed plain).
Abbreviation base := (Z.of_nat (length L)).
Abbreviation positionMap := (charPositions (Z.of_nat (length L)) C).

Lemma length_positionMap : Z.of_nat (length positionMap) = Z.of_nat (nchars C).
Proof. now rewrite length_charPositions. Qed.

Lemma nchars_pos (ts : list token) : chars ts <> EmptyString -> (0 < nchars ts)%nat.
Proof. unfold nchars. destruct (chars ts); simpl; [congruence | lia]. Qed.

Lemma nchars_zero (ts : list token) : chars ts = EmptyString -> nchars ts = O.
Proof. unfold nchars. now intros ->. Qed.

(** Where an insertion goes: the position of the next character or,
    past the last one, the position after it. *)
Lemma insert_point (Cp Cr : list token) :
  C = Cp ++ Cr -> at_boundary Cp Cr ->
  (if Z.of_nat (nchars Cp) <? Z.of_nat (length positionMap)
   then lookupZ positionMap (Z.of_nat (nchars Cp))
   else jadd (lookupZ positionMap (Z.of_nat (length positionMap) - 1)) (Some 1))
  = Some (base + Z.of_nat (length Cp)).
Proof.
  intros HC [Hs He]. rewrite length_positionMap.
  destruct (string_dec (chars Cr) EmptyString) as [Hemp|Hne].
  - destruct (He Hemp) as (P & c & HP).
    assert (Hn : nchars C = nchars Cp)
      by (rewrite HC, nchars_app, (nchars_zero Cr Hemp); lia).
    rewrite Hn, Z.ltb_irrefl.
    assert (Hp : nchars Cp = S (nchars P))
      by (rewrite HP, nchars_app; unfold nchars at 2; simpl; lia).
    replace (Z.of_nat (nchars Cp) - 1) with (Z.of_nat (nchars P)) by lia.
    rewrite HC, HP, <- app_assoc. simpl.
    rewrite lookup_charPositions. simpl. f_equal. rewrite length_app. simpl. lia.
  - destruct (Hs Hne) as (c & Q & HQ).
    assert (Hlt : Z.of_nat (nchars Cp) < Z.of_nat (nchars C)).
    { rewrite HC, nchars_app. pose proof (nchars_pos Cr Hne). lia. }
    rewrite (proj2 (Z.ltb_lt _ _) Hlt).
    rewrite HC, HQ. apply lookup_charPositions.
Qed.

Lemma patch_inv_init (diffs : list diffpart) :
  diff_ok diffs (chars C) proposed ->
  patch_inv diffs {| tr := []; textIndex := 0; mapOffset := Some 0 |}.
Proof.
  intros (Ho & Hn & _).
  destruct (renormalize [] C) as (G & Cr & HC & HG & HCr & Hb).
  { intros H. contradiction. }
  exists G, G, Cr. simpl in Hb. repeat split; simpl.
  - exact HC.
  - apply Hb.
  - apply Hb.
  - now rewrite (nchars_zero G HG).
  - f_equal. lia.
  - now rewrite HCr.
  - rewrite HG, append_nil_l. exact Hn.
  - rewrite HC at 1. now rewrite <- app_assoc.
Qed.

Lemma textIndex_applyPart (st : patchState) (d : diffpart) :
  textIndex (applyPart positionMap st d)
  = match op d with
    | DIFF_INSERT => textIndex st
    | _ => textIndex st + strlen (text d)
    end.
Proof. unfold applyPart. destruct (op d); reflexivity. Qed.

(** One segment keeps the invariant. *)
Lemma patch_inv_step (d : diffpart) (rest : list diffpart) (st : patchState) :
  (op d = DIFF_DELETE -> text d <> EmptyString) ->
  (plain = true -> op d = DIFF_DELETE ->
   delete_in_text positionMap (textIndex st) (text d) = true) ->
  patch_inv (d :: rest) st ->
  patch_inv rest (applyPart positionMap st d).
Proof.
  intros Hdel Hin (D & Cp & Cr & HC & Hb & Hti & Hoff & Horig & Hnew & Hsteps & Hstr).
  unfold applyPart. destruct d as [o w]. simpl in *.
  destruct o.
  - (* DELETE *)
    specialize (Hdel eq_refl).
    assert (Hin' : plain = true ->
                   delete_in_text positionMap (textIndex st) w = true)
      by (intros Hp; now apply Hin).
    clear Hin.
    destruct (takeChars_spec Cr w (origOf rest) Horig)
      as (M & Cr2 & HCr & HM & HCr2 & Hend & _).
    destruct (Hend Hdel) as (M' & c' & HM').
    destruct (renormalize (Cp ++ M) Cr2) as (G & Cr' & HG1 & HG2 & HG3 & Hb').
    { intros _. exists (Cp ++ M'), c'. now rewrite HM', app_assoc. }
    assert (Hne : chars Cr <> EmptyString).
    { rewrite Horig. destruct w; [congruence | discriminate]. }
    assert (Hw : strlen w = Z.of_nat (nchars M)) by (unfold nchars; now rewrite HM).
    assert (Hstart : lookupZ positionMap (textIndex st) = Some (base + Z.of_nat (length Cp))).
    { destruct Hb as [Hs _]. destruct (Hs Hne) as (c & Q & HQ).
      rewrite Hti, HC, HQ. apply lookup_charPositions. }
    assert (HnM : nchars M = S (nchars M'))
      by (rewrite HM', nchars_app; unfold nchars at 2; simpl; lia).
    assert (Hmin : Z.min (textIndex st + strlen w - 1) (Z.of_nat (length positionMap) - 1)
                   = Z.of_nat (nchars (Cp ++ M'))).
    { rewrite length_positionMap, Hti, Hw, HnM, nchars_app.
      assert (nchars C = (nchars Cp + nchars M + nchars Cr2)%nat)
        by (rewrite HC, HCr, !nchars_app; lia).
      lia. }
    assert (Hend' : lookupZ positionMap (Z.of_nat (nchars (Cp ++ M')))
                    = Some (base + Z.of_nat (length (Cp ++ M')))).
    { rewrite HC, HCr, HM', <- !app_assoc. simpl.
      rewrite (app_assoc Cp M'). apply lookup_charPositions. }
    assert (HstrM : plain = true -> structure M = []).
    { intros Hp. specialize (Hin' Hp). unfold delete_in_text in Hin'.
      assert (Hidx : textIndex st + strlen w - 1 = Z.of_nat (nchars (Cp ++ M')))
        by (rewrite Hti, Hw, HnM, nchars_app; lia).
      rewrite Hidx, Hend', Hstart in Hin'. apply Z.eqb_eq in Hin'.
      rewrite HM', structure_app. cbn [structure List.filter is_char negb app].
      rewrite app_nil_r. apply structure_of_text.
      rewrite length_app in Hin'. lia. }
    rewrite Hmin, Hend', Hstart, Hoff. simpl.
    exists (D ++ G), (Cp ++ M ++ G), Cr'. repeat split; simpl.
    + rewrite HC, HCr, HG1, <- !app_assoc. reflexivity.
    + apply Hb'.
    + rewrite app_assoc. apply Hb'.
    + rewrite Hti, Hw, !nchars_app, (nchars_zero G HG2). lia.
    + f_equal. rewrite !length_app, HM', !length_app. simpl. lia.
    + now rewrite HG3.
    + now rewrite chars_app, HG2, append_nil_r.
    + rewrite applySteps_snoc, Hsteps. simpl.
      rewrite HCr, HG1.
      replace (Some (base + Z.of_nat (length Cp) + (Z.of_nat (length D) - Z.of_nat (length Cp))))
        with (Some (Z.of_nat (length (L ++ D)))) by (f_equal; rewrite length_app; lia).
      replace (Some (base + Z.of_nat (length (Cp ++ M')) + 1
                     + (Z.of_nat (length D) - Z.of_nat (length Cp))))
        with (Some (Z.of_nat (length (L ++ D)) + Z.of_nat (length M)))
        by (f_equal; rewrite HM', !length_app; simpl; lia).
      replace (L ++ D ++ (M ++ G ++ Cr') ++ R) with ((L ++ D) ++ M ++ (G ++ Cr' ++ R))
        by (now rewrite <- !app_assoc).
      rewrite applyStep_delete. now rewrite <- !app_assoc.
    + intros Hp. rewrite !structure_app, (HstrM Hp), (Hstr Hp). reflexivity.
  - (* INSERT *)
    rewrite Hti, (insert_point Cp Cr HC Hb), Hoff. simpl.
    exists (D ++ textTokens w), Cp, Cr. repeat split; simpl; try assumption.
    + apply Hb.
    + apply Hb.
    + f_equal. rewrite length_app, length_textTokens. unfold strlen. lia.
    + now rewrite chars_app, chars_textTokens, append_assoc.
    + rewrite applySteps_snoc, Hsteps. simpl.
      replace (Some (base + Z.of_nat (length Cp) + (Z.of_nat (length D) - Z.of_nat (length Cp))))
        with (Some (Z.of_nat (length (L ++ D)))) by (f_equal; rewrite length_app; lia).
      replace (L ++ D ++ Cr ++ R) with ((L ++ D) ++ Cr ++ R) by (now rewrite <- app_assoc).
      rewrite applyStep_insert. now rewrite <- !app_assoc.
    + intros Hp. rewrite structure_app, structure_textTokens, app_nil_r. now apply Hstr.
  - (* EQUAL *)
    destruct (takeChars_spec Cr w (origOf rest) Horig)
      as (M & Cr2 & HCr & HM & HCr2 & Hend & Hnil).
    destruct (renormalize (Cp ++ M) Cr2) as (G & Cr' & HG1 & HG2 & HG3 & Hb').
    { intros Hemp. destruct (string_dec w EmptyString) as [->|Hw].
      - rewrite (Hnil eq_refl), app_nil_r. apply Hb.
        rewrite Horig. simpl. now rewrite <- HCr2.
      - destruct (Hend Hw) as (M' & c' & ->).
        exists (Cp ++ M'), c'. now rewrite app_assoc. }
    assert (Hw : strlen w = Z.of_nat (nchars M)) by (unfold nchars; now rewrite HM).
    exists (D ++ M ++ G), (Cp ++ M ++ G), Cr'. repeat split; simpl.
    + rewrite HC, HCr, HG1, <- !app_assoc. reflexivity.
    + apply Hb'.
    + rewrite app_assoc. apply Hb'.
    + rewrite Hti, Hw, !nchars_app, (nchars_zero G HG2). lia.
    + rewrite Hoff. f_equal. rewrite !length_app. lia.
    + now rewrite HG3.
    + rewrite !chars_app, HM, HG2, append_nil_r, append_assoc. exact Hnew.
    + rewrite Hsteps, HCr, HG1, <- !app_assoc. reflexivity.
    + intros Hp. rewrite !structure_app, (Hstr Hp). reflexivity.
Qed.

Lemma patch_inv_fold (diffs : list diffpart) : forall st,
  Forall (fun d => op d = DIFF_DELETE -> text d <> EmptyString) diffs ->
  (plain = true -> deletes_in_text positionMap (textIndex st) diffs = true) ->
  patch_inv diffs st ->
  patch_inv [] (fold_left (applyPart positionMap) diffs st).
Proof.
  induction diffs as [|d rest IH]; intros st Hne Hin Hinv; simpl; [assumption|].
  inversion Hne as [|? ? Hd Hrest]; subst.
  apply IH; [assumption | |].
  - intros Hp. specialize (Hin Hp). cbn [deletes_in_text] in Hin.
    rewrite textIndex_applyPart. destruct (op d); [|exact Hin..].
    now apply andb_true_iff in Hin as [_ Hin].
  - apply patch_inv_step; [assumption | | assumption].
    intros Hp Hop. specialize (Hin Hp). cbn [deletes_in_text] in Hin.
    rewrite Hop in Hin. now apply andb_true_iff in Hin as [Hin _].
Qed.

(** The transaction built from a diff of the text of the block rewrites
    the tokens of the block, and nothing else, into tokens whose text is
    the proposed text; the final text index is the length of the
    original text. *)
Lemma buildPatch_correct (diffs : list diffpart) :
  diff_ok diffs (chars C) proposed ->
  (plain = true -> deletes_in_text positionMap 0 diffs = true) ->
  exists C',
    applySteps (tr (buildPatch positionMap diffs)) (L ++ C ++ R) = Some (L ++ C' ++ R) /\
    chars C' = proposed /\
    textIndex (buildPatch positionMap diffs) = strlen (chars C) /\
    (plain = true -> structure C' = structure C).
Proof.
  intros Hok Hin. pose proof Hok as (_ & _ & Hne).
  destruct (patch_inv_fold diffs {| tr := []; textIndex := 0; mapOffset := Some 0 |}
              Hne Hin (patch_inv_init diffs Hok))
    as (D & Cp & Cr & HC & Hb & Hti & Hoff & Horig & Hnew & Hsteps & Hstr).
  simpl in Horig, Hnew. rewrite append_nil_r in Hnew.
  exists (D ++ Cr). split; [|split; [|split]].
  - unfold buildPatch. rewrite Hsteps. now rewrite <- app_assoc.
  - now rewrite chars_app, Horig, append_nil_r.
  - unfold buildPatch. rewrite Hti. unfold strlen. f_equal.
    rewrite HC, chars_app, Horig, append_nil_r. reflexivity.
  - intros Hp. rewrite HC, !structure_app, (Hstr Hp). reflexivity.
Qed.

End Patch.


(** *** Walking the tree *)

(** Induction on a node with the hypothesis for all its children. *)
Lemma pmnode_forall_ind (P : pmnode -> Prop) :
  (forall t, P (TextNode t)) ->
  (forall a, P (LeafNode a)) ->
  (forall a cs, Forall P cs -> P (ElemNode a cs)) ->
  forall n, P n.
Proof.
  intros Ht Hl He.
  fix IH 1. intros [t|a|a cs].
  - apply Ht.
  - apply Hl.
  - apply He. induction cs as [|c cs IHcs]; constructor; [apply IH | exact IHcs].
Qed.

Lemma visit_elem {St} (f : pmnode -> Z -> St -> St * bool) a cs pos st :
  visit f (ElemNode a cs) pos st =
    if snd (f (ElemNode a cs) pos st)
    then walk f cs (pos + 1) (fst (f (ElemNode a cs) pos st))
    else fst (f (ElemNode a cs) pos st).
Proof. reflexivity. Qed.

Lemma tokens_cons (c : pmnode) (cs : list pmnode) : tokens (c :: cs) = flatten c ++ tokens cs.
Proof. reflexivity. Qed.

Lemma contentSize_cons (c : pmnode) (cs : list pmnode) :
  contentSize (c :: cs) = nodeSize c + contentSize cs.
Proof. reflexivity. Qed.

Lemma nodeSize_elem a cs : nodeSize (ElemNode a cs) = 2 + contentSize cs.
Proof. reflexivity. Qed.

(** The size of a node is the number of its tokens. *)
Lemma nodeSize_flatten (n : pmnode) : nodeSize n = Z.of_nat (length (flatten n)).
Proof.
  induction n as [t|a|a cs IH] using pmnode_forall_ind.
  - simpl. now rewrite length_textTokens.
  - reflexivity.
  - rewrite nodeSize_elem. cbn [flatten length]. rewrite length_app. cbn [length].
    assert (Hcs : contentSize cs = Z.of_nat (length (flat_map flatten cs))).
    { induction IH as [|c cs Hc _ IHcs]; [reflexivity|].
      rewrite contentSize_cons. cbn [flat_map]. rewrite length_app, Hc, IHcs. lia. }
    rewrite Hcs. lia.
Qed.

Lemma charPositions_textTokens (t : string) : forall base,
  charPositions base (textTokens t)
  = map (fun i => base + Z.of_nat i) (seq 0 (String.length t)).
Proof.
  induction t as [|c t IH]; intros base; [reflexivity|].
  cbn [textTokens charPositions String.length seq map]. rewrite IH. f_equal; [lia|].
  rewrite <- seq_shift, map_map. apply map_ext. intros i. lia.
Qed.

(** The position map and the text buffer are the character positions and
    the characters of the tokens walked. *)
Lemma visit_mapText (clausePos : Z) (n : pmnode) : forall pos acc,
  visit (mapText clausePos) n pos acc
  = (fst acc ++ charPositions (clausePos + 1 + pos) (flatten n),
     snd acc +:+ chars (flatten n)).
Proof.
  induction n as [t|a|a cs IH] using pmnode_forall_ind; intros pos [pm buf].
  - simpl. now rewrite charPositions_textTokens, chars_textTokens.
  - simpl. now rewrite app_nil_r, append_nil_r.
  - rewrite visit_elem. cbn [mapText fst snd flatten charPositions chars].
    assert (Hw : forall p acc,
               walk (mapText clausePos) cs p acc
               = (fst acc ++ charPositions (clausePos + 1 + p) (flat_map flatten cs),
                  snd acc +:+ chars (flat_map flatten cs))).
    { induction IH as [|c cs Hc _ IHcs]; intros p [pm' buf'].
      - simpl. now rewrite app_nil_r, append_nil_r.
      - cbn [walk flat_map]. rewrite Hc, IHcs. cbn [fst snd].
        rewrite charPositions_app, chars_app, <- app_assoc, append_assoc.
        replace (clausePos + 1 + (p + nodeSize c))
          with (clausePos + 1 + p + Z.of_nat (length (flatten c)))
          by (rewrite nodeSize_flatten; lia).
        reflexivity. }
    rewrite Hw. cbn [fst snd].
    rewrite charPositions_app, chars_app. cbn [charPositions chars].
    rewrite app_nil_r, append_nil_r.
    replace (clausePos + 1 + (pos + 1)) with (clausePos + 1 + pos + 1) by lia.
    reflexivity.
Qed.

Lemma walk_mapText (clausePos : Z) (cs : list pmnode) : forall p acc,
  walk (mapText clausePos) cs p acc
  = (fst acc ++ charPositions (clausePos + 1 + p) (tokens cs),
     snd acc +:+ chars (tokens cs)).
Proof.
  induction cs as [|c cs IH]; intros p [pm buf].
  - simpl. now rewrite app_nil_r, append_nil_r.
  - cbn [walk]. rewrite visit_mapText, IH, tokens_cons. cbn [fst snd].
    rewrite charPositions_app, chars_app, <- app_assoc, append_assoc.
    replace (clausePos + 1 + (p + nodeSize c))
      with (clausePos + 1 + p + Z.of_nat (length (flatten c)))
      by (rewrite nodeSize_flatten; lia).
    reflexivity.
Qed.

Lemma buildPositionMap_tokens (clausePos : Z) (clauseNode : pmnode) :
  buildPositionMap clausePos clauseNode
  = (charPositions (clausePos + 1) (tokens (node_content clauseNode)),
     chars (tokens (node_content clauseNode))).
Proof.
  unfold buildPositionMap, descendants. rewrite walk_mapText. cbn [fst snd].
  rewrite append_nil_l. replace (clausePos + 1 + 0) with (clausePos + 1) by lia.
  reflexivity.
Qed.

Lemma findBlock_hit clauseId n pos found :
  has_id clauseId n = true -> findBlock clauseId n pos found = (Some (pos, n), false).
Proof. unfold findBlock. now intros ->. Qed.

Lemma findBlock_miss clauseId n pos found :
  has_id clauseId n = false -> findBlock clauseId n pos found = (found, true).
Proof. unfold findBlock. now intros ->. Qed.

Lemma walk_findBlock_of (clauseId : string) (cs : list pmnode) :
  Forall (fun n => forall pos found,
            visit (findBlock clauseId) n pos found = found \/
            located_in [n] pos clauseId (visit (findBlock clauseId) n pos found)) cs ->
  forall p found,
    walk (findBlock clauseId) cs p found = found \/
    located_in cs p clauseId (walk (findBlock clauseId) cs p found).
Proof.
  induction 1 as [|c cs Hc _ IH]; intros p found; [now left|].
  cbn [walk].
  destruct (IH (p + nodeSize c) (visit (findBlock clauseId) c p found))
    as [Heq|(q & n & pre & post & Hr & Ht & Hq & Hn)].
  - rewrite Heq.
    destruct (Hc p found) as [Heq'|(q & n & pre & post & Hr & Ht & Hq & Hn)].
    + left. exact Heq'.
    + right. exists q, n, pre, (post ++ tokens cs). repeat split; auto.
      rewrite tokens_cons. unfold tokens in Ht. cbn [flat_map] in Ht.
      rewrite app_nil_r in Ht. rewrite Ht. now rewrite <- !app_assoc.
  - right. exists q, n, (flatten c ++ pre), post. repeat split; auto.
    + rewrite tokens_cons, Ht. now rewrite <- app_assoc.
    + rewrite Hq, nodeSize_flatten, length_app. lia.
Qed.

Lemma visit_findBlock (clauseId : string) (n : pmnode) : forall pos found,
  visit (findBlock clauseId) n pos found = found \/
  located_in [n] pos clauseId (visit (findBlock clauseId) n pos found).
Proof.
  induction n as [t|a|a cs IH] using pmnode_forall_ind; intros pos found.
  - left. reflexivity.
  - cbn [visit]. destruct (has_id clauseId (LeafNode a)) eqn:Hid.
    + rewrite findBlock_hit by exact Hid. cbn [fst].
      right. exists pos, (LeafNode a), [], []. repeat split; auto.
      simpl. lia.
    + rewrite findBlock_miss by exact Hid. now left.
  - rewrite visit_elem.
    destruct (has_id clauseId (ElemNode a cs)) eqn:Hid.
    + rewrite !findBlock_hit by exact Hid. cbn [fst snd].
      right. exists pos, (ElemNode a cs), [], []. repeat split; auto.
      all: try (simpl; lia).
      all: unfold tokens; cbn [flat_map]; now rewrite !app_nil_r.
    + rewrite !findBlock_miss by exact Hid. cbn [fst snd].
      destruct (walk_findBlock_of clauseId cs IH (pos + 1) found)
        as [Heq|(q & n & pre & post & Hr & Ht & Hq & Hn)].
      * left. exact Heq.
      * right. exists q, n, (TOpen a :: pre), (post ++ [TClose]). repeat split; auto.
        -- unfold tokens. cbn [flat_map flatten]. rewrite app_nil_r.
           unfold tokens in Ht. rewrite Ht. simpl. now rewrite <- !app_assoc.
        -- rewrite Hq. cbn [length]. lia.
Qed.

Lemma walk_findBlock (clauseId : string) (cs : list pmnode) : forall p found,
  walk (findBlock clauseId) cs p found = found \/
  located_in cs p clauseId (walk (findBlock clauseId) cs p found).
Proof.
  apply walk_findBlock_of, List.Forall_forall. intros n _. apply visit_findBlock.
Qed.

Lemma locateBlock_tokens (doc : pmnode) (clauseId : string) clausePos clauseNode :
  locateBlock doc clauseId = Some (clausePos, clauseNode) ->
  exists pre post,
    tokens (node_content doc) = pre ++ flatten clauseNode ++ post /\
    clausePos = Z.of_nat (length pre) /\
    has_id clauseId clauseNode = true.
Proof.
  unfold locateBlock, descendants. intros Hloc.
  destruct (walk_findBlock clauseId (node_content doc) 0 None)
    as [Heq|(q & n & pre & post & Hr & Ht & Hq & Hn)].
  - congruence.
  - rewrite Hloc in Hr. injection Hr as -> ->.
    exists pre, post. repeat split; auto.
Qed.


(** *** nodeAt finds what the search by id reports *)

Lemma nodeAt_elem a cs pos : nodeAt (ElemNode a cs) pos = nodeAtIn cs pos.
Proof. destruct cs; reflexivity. Qed.

Lemma nodeSize_pos (n : pmnode) : well_formed n = true -> 0 < nodeSize n.
Proof.
  destruct n as [t|a|a cs]; intros Hwf.
  - simpl in *. apply strlen_pos_iff. destruct t; [discriminate | discriminate].
  - simpl. lia.
  - rewrite nodeSize_flatten. simpl. lia.
Qed.

Lemma contentSize_nonneg (cs : list pmnode) : 0 <= contentSize cs.
Proof.
  induction cs as [|c cs IH]; [simpl; lia|].
  rewrite contentSize_cons, nodeSize_flatten. lia.
Qed.

Lemma walk_nodeAt_of (clauseId : string) (cs : list pmnode) :
  Forall (fun c => well_formed c = true /\
            forall pos found,
              visit (findBlock clauseId) c pos found = found \/
              reported_at [c] pos (visit (findBlock clauseId) c pos found)) cs ->
  forall p found,
    walk (findBlock clauseId) cs p found = found \/
    reported_at cs p (walk (findBlock clauseId) cs p found).
Proof.
  induction 1 as [|c cs [Hwf Hc] _ IH]; intros p found; [now left|].
  cbn [walk]. pose proof (nodeSize_pos c Hwf) as Hsz.
  pose proof (contentSize_nonneg cs) as Hcs.
  destruct (IH (p + nodeSize c) (visit (findBlock clauseId) c p found))
    as [Heq|(q & n & Hr & Hq & Hn)].
  - rewrite Heq. destruct (Hc p found) as [Heq'|(q & n & Hr & Hq & Hn)]; [now left|].
    right. exists q, n. rewrite contentSize_cons in *. simpl in Hq.
    split; [exact Hr|]. split; [lia|].
    cbn [nodeAtIn] in Hn |- *.
    destruct (q - p <? 0); [discriminate|].
    destruct (q - p =? 0); [exact Hn|].
    destruct (q - p <? nodeSize c) eqn:Hlt; [exact Hn|].
    apply Z.ltb_ge in Hlt. lia.
  - right. exists q, n. rewrite contentSize_cons.
    split; [exact Hr|]. split; [lia|].
    cbn [nodeAtIn].
    rewrite (proj2 (Z.ltb_ge _ _)) by lia.
    rewrite (proj2 (Z.eqb_neq _ _)) by lia.
    rewrite (proj2 (Z.ltb_ge _ _)) by lia.
    rewrite <- Hn. f_equal. lia.
Qed.

Lemma visit_nodeAt (clauseId : string) (n : pmnode) :
  well_formed n = true ->
  forall pos found,
    visit (findBlock clauseId) n pos found = found \/
    reported_at [n] pos (visit (findBlock clauseId) n pos found).
Proof.
  induction n as [t|a|a cs IH] using pmnode_forall_ind; intros Hwf pos found.
  - now left.
  - cbn [visit]. destruct (has_id clauseId (LeafNode a)) eqn:Hid.
    + rewrite findBlock_hit by exact Hid. cbn [fst].
      right. exists pos, (LeafNode a). split; [reflexivity|].
      split; [simpl; lia|]. cbn [nodeAtIn].
      now rewrite Z.sub_diag.
    + rewrite findBlock_miss by exact Hid. now left.
  - rewrite visit_elem. pose proof (contentSize_nonneg cs) as Hcs.
    destruct (has_id clauseId (ElemNode a cs)) eqn:Hid.
    + rewrite !findBlock_hit by exact Hid. cbn [fst snd].
      right. exists pos, (ElemNode a cs). split; [reflexivity|].
      split; [rewrite contentSize_cons, nodeSize_elem; simpl; lia|].
      cbn [nodeAtIn]. now rewrite Z.sub_diag.
    + rewrite !findBlock_miss by exact Hid. cbn [fst snd].
      assert (Hall : Forall (fun c => well_formed c = true /\
                        forall pos found,
                          visit (findBlock clauseId) c pos found = found \/
                          reported_at [c] pos (visit (findBlock clauseId) c pos found)) cs).
      { cbn [well_formed] in Hwf. rewrite forallb_forall in Hwf.
        apply List.Forall_forall. intros c Hin.
        rewrite List.Forall_forall in IH. split; [now apply Hwf|].
        apply IH; [exact Hin | now apply Hwf]. }
      destruct (walk_nodeAt_of clauseId cs Hall (pos + 1) found)
        as [Heq|(q & n & Hr & Hq & Hn)]; [now left|].
      right. exists q, n. split; [exact Hr|].
      split; [rewrite contentSize_cons, nodeSize_elem; simpl; lia|].
      cbn [nodeAtIn].
      rewrite (proj2 (Z.ltb_ge _ _)) by lia.
      rewrite (proj2 (Z.eqb_neq _ _)) by lia.
      rewrite nodeSize_elem, (proj2 (Z.ltb_lt _ _)) by lia.
      rewrite nodeAt_elem, <- Hn. f_equal. lia.
Qed.

Lemma locateBlock_nodeAt (doc : pmnode) (clauseId : string) newPos target :
  well_formed doc = true ->
  locateBlock doc clauseId = Some (newPos, target) ->
  nodeAt doc newPos = Some target.
Proof.
  intros Hwf Hloc. unfold locateBlock, descendants in Hloc.
  destruct doc as [t|a|a cs]; [discriminate Hloc ..|].
  cbn [node_content] in Hloc. rewrite nodeAt_elem.
  assert (Hall : Forall (fun c => well_formed c = true /\
                    forall pos found,
                      visit (findBlock clauseId) c pos found = found \/
                      reported_at [c] pos (visit (findBlock clauseId) c pos found)) cs).
  { cbn [well_formed] in Hwf. rewrite forallb_forall in Hwf.
    apply List.Forall_forall. intros c Hin. split; [now apply Hwf|].
    intros pos found. apply visit_nodeAt. now apply Hwf. }
  destruct (walk_nodeAt_of clauseId cs Hall 0 None) as [Heq|(q & n & Hr & Hq & Hn)].
  - congruence.
  - rewrite Hloc in Hr. injection Hr as -> ->. rewrite <- Hn. f_equal. lia.
Qed.


(** *** Tokens that close as a tree *)

Lemma closes_app d (a b : list token) :
  closes d (a ++ b) = closes d a ≫= (fun d' => closes d' b).
Proof.
  revert d. induction a as [|t a IH]; intros d; [reflexivity|].
  destruct t as [c|x| |x]; cbn [app closes]; try apply IH.
  destruct d; [reflexivity | apply IH].
Qed.

Lemma closes_structure d (ts : list token) : closes d (structure ts) = closes d ts.
Proof.
  revert d. induction ts as [|t ts IH]; intros d; [reflexivity|].
  destruct t as [c|x| |x]; cbn [structure List.filter is_char negb closes];
    try exact (IH _).
  destruct d; [reflexivity | exact (IH _)].
Qed.

Lemma closes_textTokens d (s : string) : closes d (textTokens s) = Some d.
Proof. induction s as [|c s IH]; [reflexivity | exact IH]. Qed.

Lemma closes_flat_map_of (cs : list pmnode) :
  Forall (fun n => forall d, closes d (flatten n) = Some d) cs ->
  forall d, closes d (flat_map flatten cs) = Some d.
Proof.
  induction 1 as [|c cs Hc _ IH]; intros d; [reflexivity|].
  cbn [flat_map]. rewrite closes_app, Hc. apply IH.
Qed.

Lemma closes_flatten (n : pmnode) : forall d, closes d (flatten n) = Some d.
Proof.
  induction n as [t|a|a cs IH] using pmnode_forall_ind; intros d.
  - apply closes_textTokens.
  - reflexivity.
  - cbn [flatten closes]. rewrite closes_app, (closes_flat_map_of cs IH). reflexivity.
Qed.

Lemma closes_tokens (cs : list pmnode) : forall d, closes d (tokens cs) = Some d.
Proof.
  apply closes_flat_map_of, List.Forall_forall. intros n _. apply closes_flatten.
Qed.

(** Tokens that close are read back as nodes. *)
Lemma parse_exists (ts : list token) : forall cur stack,
  closes (length stack) ts = Some O -> exists cs, parse ts cur stack = Some cs.
Proof.
  induction ts as [|t ts IH]; intros cur stack Hc.
  - cbn [closes] in Hc. destruct stack; [|discriminate]. eexists. reflexivity.
  - destruct t as [c|a| |a]; cbn [closes parse] in *.
    + now apply IH.
    + apply IH. exact Hc.
    + destruct stack as [|[a outer] stack]; [discriminate|]. cbn [length] in Hc.
      now apply IH.
    + now apply IH.
Qed.

Lemma textTokens_app (a b : string) : textTokens (a +:+ b) = textTokens a ++ textTokens b.
Proof.
  induction a as [|c a IH]; [now rewrite append_nil_l|].
  rewrite append_cons. cbn [textTokens app]. now rewrite IH.
Qed.

Lemma tokens_app (a b : list pmnode) : tokens (a ++ b) = tokens a ++ tokens b.
Proof. unfold tokens. apply flat_map_app. Qed.

Lemma tokens_rev_push_char c (cur : list pmnode) :
  tokens (rev (push_char c cur)) = tokens (rev cur) ++ [TChar c].
Proof.
  unfold push_char. destruct cur as [|[t|a|a cs] r]; cbn [rev]; rewrite ?tokens_app.
  - reflexivity.
  - unfold tokens at 2 4. cbn [flat_map flatten]. rewrite !app_nil_r, textTokens_app.
    now rewrite <- app_assoc.
  - now rewrite <- !app_assoc.
  - now rewrite <- !app_assoc.
Qed.

Lemma consumed_snoc stack (cur : list pmnode) (n : pmnode) :
  consumed stack (n :: cur) = consumed stack cur ++ flatten n.
Proof.
  destruct stack as [|[a outer] stack]; cbn [consumed rev]; rewrite tokens_app;
    unfold tokens at 2; cbn [flat_map]; rewrite app_nil_r.
  - reflexivity.
  - now rewrite <- app_assoc.
Qed.

Lemma consumed_push_char stack c (cur : list pmnode) :
  consumed stack (push_char c cur) = consumed stack cur ++ [TChar c].
Proof.
  destruct stack as [|[a outer] stack]; cbn [consumed]; rewrite tokens_rev_push_char.
  - reflexivity.
  - now rewrite <- app_assoc.
Qed.

(** The nodes read back have the tokens that were read. *)
Lemma tokens_parse (ts : list token) : forall cur stack cs,
  parse ts cur stack = Some cs -> tokens cs = consumed stack cur ++ ts.
Proof.
  induction ts as [|t ts IH]; intros cur stack cs Hp.
  - cbn [parse] in Hp. destruct stack; [|discriminate]. injection Hp as <-.
    cbn [consumed]. now rewrite app_nil_r.
  - destruct t as [c|a| |a]; cbn [parse] in Hp.
    + rewrite (IH _ _ _ Hp), consumed_push_char. now rewrite <- app_assoc.
    + rewrite (IH _ _ _ Hp). cbn [consumed rev]. unfold tokens at 1. cbn [flat_map].
      now rewrite <- app_assoc.
    + destruct stack as [|[a outer] stack]; [discriminate|].
      rewrite (IH _ _ _ Hp), consumed_snoc. cbn [consumed flatten].
      rewrite <- !app_assoc. cbn [app]. rewrite <- !app_assoc. reflexivity.
    + rewrite (IH _ _ _ Hp), consumed_snoc. cbn [flatten]. now rewrite <- app_assoc.
Qed.

Lemma forallb_rev {A} (f : A -> bool) (l : list A) : forallb f (rev l) = forallb f l.
Proof.
  induction l as [|x l IH]; [reflexivity|].
  cbn [rev forallb]. rewrite forallb_app, IH. cbn [forallb]. now rewrite andb_true_r, andb_comm.
Qed.

Lemma well_formed_push_char c (cur : list pmnode) :
  forallb well_formed cur = true -> forallb well_formed (push_char c cur) = true.
Proof.
  unfold push_char. destruct cur as [|[t|a|a cs] r]; cbn [forallb well_formed]; intros H;
    try exact H.
  apply andb_true_iff in H as [_ H]. rewrite H.
  destruct t as [|x t]; [reflexivity|]. now rewrite append_cons.
Qed.

(** The nodes read back hold no empty text node. *)
Lemma parse_well_formed (ts : list token) : forall cur stack cs,
  parse ts cur stack = Some cs ->
  forallb well_formed cur = true ->
  Forall (fun frame => forallb well_formed (snd frame) = true) stack ->
  forallb well_formed cs = true.
Proof.
  induction ts as [|t ts IH]; intros cur stack cs Hp Hcur Hstack.
  - cbn [parse] in Hp. destruct stack; [|discriminate]. injection Hp as <-.
    now rewrite forallb_rev.
  - destruct t as [c|a| |a]; cbn [parse] in Hp.
    + eapply IH; [exact Hp | now apply well_formed_push_char | exact Hstack].
    + eapply IH; [exact Hp | reflexivity |]. constructor; assumption.
    + destruct stack as [|[a outer] stack]; [discriminate|].
      inversion Hstack as [|? ? Houter Hrest]; subst. cbn [snd] in Houter.
      eapply IH; [exact Hp | | exact Hrest].
      cbn [forallb well_formed]. now rewrite forallb_rev, Hcur, Houter.
    + eapply IH; [exact Hp | exact Hcur | exact Hstack].
Qed.

(** *** The search by id on the tokens *)

Lemma scanTokens_app id (a b : list token) : forall i st,
  scanTokens id (a ++ b) i st
  = scanTokens id b (i + Z.of_nat (length a)) (scanTokens id a i st).
Proof.
  induction a as [|t a IH]; intros i st.
  - cbn [app scanTokens length]. f_equal. lia.
  - cbn [app scanTokens length]. rewrite IH. f_equal. lia.
Qed.

Lemma scan_text id (s : string) : forall i st,
  scanTokens id (textTokens s) i st = st.
Proof.
  induction s as [|c s IH]; intros i [k f]; [reflexivity|].
  cbn [textTokens scanTokens]. rewrite <- (IH (i + 1) (k, f)) at 2. f_equal.
  unfold scanToken. cbn [fst]. now destruct k.
Qed.

(** Inside a node that matched nothing is recorded: the depth follows
    the opening and closing tokens. *)
Lemma scan_inside id (ts : list token) : forall i k j j' f,
  closes j ts = Some j' ->
  scanTokens id ts i (S (k + j), f) = (S (k + j'), f).
Proof.
  induction ts as [|t ts IH]; intros i k j j' f Hc.
  - cbn [closes] in Hc. injection Hc as <-. reflexivity.
  - destruct t as [c|a| |a]; cbn [closes scanTokens] in *.
    + exact (IH _ _ _ _ _ Hc).
    + unfold scanToken. cbn [fst snd].
      replace (S (S (k + j))) with (S (k + S j)) by lia. exact (IH _ _ _ _ _ Hc).
    + destruct j as [|j0]; [discriminate|]. unfold scanToken. cbn [fst snd].
      replace (k + S j0)%nat with (S (k + j0)) by lia. exact (IH _ _ _ _ _ Hc).
    + exact (IH _ _ _ _ _ Hc).
Qed.

Lemma has_id_attrs id (n : pmnode) : has_id id n = attrs_have_id id (node_attrs n).
Proof. reflexivity. Qed.

Lemma scan_walk_of id (cs : list pmnode) :
  Forall (fun n => forall pos F,
            scanTokens id (flatten n) pos (O, option_map fst F)
            = (O, option_map fst (visit (findBlock id) n pos F))) cs ->
  forall p F,
    scanTokens id (flat_map flatten cs) p (O, option_map fst F)
    = (O, option_map fst (walk (findBlock id) cs p F)).
Proof.
  induction 1 as [|c cs Hc _ IH]; intros p F; [reflexivity|].
  cbn [flat_map walk]. rewrite scanTokens_app, Hc, <- nodeSize_flatten. apply IH.
Qed.

Lemma scan_visit id (n : pmnode) : forall pos F,
  scanTokens id (flatten n) pos (O, option_map fst F)
  = (O, option_map fst (visit (findBlock id) n pos F)).
Proof.
  induction n as [t|a|a cs IH] using pmnode_forall_ind; intros pos F.
  - cbn [flatten]. rewrite scan_text. reflexivity.
  - cbn [flatten scanTokens visit]. unfold scanToken, findBlock. cbn [fst snd].
    rewrite has_id_attrs. cbn [node_attrs].
    destruct (attrs_have_id id a); reflexivity.
  - rewrite visit_elem. cbn [flatten scanTokens]. unfold scanToken at 1, findBlock.
    cbn [fst snd]. rewrite has_id_attrs. cbn [node_attrs].
    destruct (attrs_have_id id a); cbn [fst snd].
    + rewrite scanTokens_app.
      pose proof (scan_inside id (flat_map flatten cs) (pos + 1) O O O (Some pos)
                    (closes_tokens cs O)) as Hin.
      cbn [Nat.add] in Hin. rewrite Hin. reflexivity.
    + rewrite scanTokens_app, (scan_walk_of id cs IH). reflexivity.
Qed.

Lemma locateBlock_scan (doc : pmnode) id :
  option_map fst (locateBlock doc id)
  = snd (scanTokens id (tokens (node_content doc)) 0 (O, None)).
Proof.
  unfold locateBlock, descendants, tokens.
  assert (Hall : Forall (fun n => forall pos F,
                   scanTokens id (flatten n) pos (O, option_map fst F)
                   = (O, option_map fst (visit (findBlock id) n pos F)))
                 (node_content doc))
    by (apply List.Forall_forall; intros n _; apply scan_visit).
  pose proof (scan_walk_of id (node_content doc) Hall 0 None) as Hscan.
  cbn [option_map] in Hscan. rewrite Hscan. reflexivity.
Qed.

(** A token either leaves the last match alone or records its own
    position, whatever the position and the last match are. *)
Lemma scanToken_cases id (t : token) (k : nat) :
  exists next,
    (forall i f, scanToken id t i (k, f) = (next, f)) \/
    (forall i f, scanToken id t i (k, f) = (next, Some i)).
Proof.
  unfold scanToken. cbn [fst snd].
  destruct k as [|k], t as [c|a| |a]; try (eexists; left; reflexivity).
  - destruct (attrs_have_id id a); eexists; [right | left]; reflexivity.
  - destruct (attrs_have_id id a); eexists; [right | left]; reflexivity.
Qed.

Lemma scan_range id (ts : list token) : forall i k f k' j,
  scanTokens id ts i (k, f) = (k', Some j) ->
  f = Some j \/ i <= j < i + Z.of_nat (length ts).
Proof.
  induction ts as [|t ts IH]; intros i k f k' j Hs.
  - cbn [scanTokens] in Hs. left. congruence.
  - cbn [scanTokens] in Hs. cbn [length]. rewrite Nat2Z.inj_succ.
    destruct (scanToken_cases id t k) as (next & [Hq|Hm]).
    + rewrite Hq in Hs. destruct (IH _ _ _ _ _ Hs) as [H|H]; [now left | right; lia].
    + rewrite Hm in Hs. destruct (IH _ _ _ _ _ Hs) as [H|H]; right; [|lia].
      injection H as <-. lia.
Qed.

(** Tokens that left a match alone record nothing, wherever they stand. *)
Lemma scan_quiet id (ts : list token) : forall i k P,
  P < i ->
  snd (scanTokens id ts i (k, Some P)) = Some P ->
  forall i' f, snd (scanTokens id ts i' (k, f)) = f.
Proof.
  induction ts as [|t ts IH]; intros i k P HP Hs i' f; [reflexivity|].
  cbn [scanTokens] in *.
  destruct (scanToken_cases id t k) as (next & [Hq|Hm]).
  - rewrite Hq in *. apply (IH (i + 1) next P); [lia | exact Hs].
  - rewrite Hm in Hs. exfalso.
    destruct (scanTokens id ts (i + 1) (next, Some i)) as [k' r] eqn:Hr.
    cbn [snd] in Hs. subst r.
    destruct (scan_range id ts _ _ _ _ _ Hr) as [H|H]; [injection H as ->; lia | lia].
Qed.

(** The search finds a block again after its content and its attributes
    changed, when it still carries the identifier. *)
Lemma scan_same_block id (pre post C1 C2 : list token) (a1 a2 : attrs) :
  attrs_have_id id a1 = true ->
  attrs_have_id id a2 = true ->
  closes O C1 = Some O ->
  closes O C2 = Some O ->
  snd (scanTokens id (pre ++ TOpen a1 :: C1 ++ TClose :: post) 0 (O, None))
  = Some (Z.of_nat (length pre)) ->
  snd (scanTokens id (pre ++ TOpen a2 :: C2 ++ TClose :: post) 0 (O, None))
  = Some (Z.of_nat (length pre)).
Proof.
  intros Ha1 Ha2 Hc1 Hc2. rewrite !scanTokens_app.
  destruct (scanTokens id pre 0 (O, None)) as [k0 f0] eqn:Hpre.
  cbn [scanTokens]. rewrite Z.add_0_l.
  change (TClose :: post) with ([TClose] ++ post). rewrite !app_assoc, !scanTokens_app.
  set (P := Z.of_nat (length pre)) in *.
  destruct k0 as [|k0].
  - assert (E1 : scanToken id (TOpen a1) P (O, f0) = (1%nat, Some P))
      by (unfold scanToken; cbn [fst snd]; now rewrite Ha1).
    assert (E2 : scanToken id (TOpen a2) P (O, f0) = (1%nat, Some P))
      by (unfold scanToken; cbn [fst snd]; now rewrite Ha2).
    pose proof (scan_inside id C1 (P + 1) O O O (Some P) Hc1) as H1.
    pose proof (scan_inside id C2 (P + 1) O O O (Some P) Hc2) as H2.
    cbn [Nat.add] in H1, H2. rewrite E1, E2, H1, H2. cbn [scanTokens].
    change (scanToken id TClose (P + 1 + Z.of_nat (length C1)) (1%nat, Some P))
      with (O, Some P).
    change (scanToken id TClose (P + 1 + Z.of_nat (length C2)) (1%nat, Some P))
      with (O, Some P).
    intros Hs. eapply scan_quiet; [|exact Hs]. rewrite !length_app. cbn [length]. lia.
  - change (scanToken id (TOpen a1) P (S k0, f0)) with (S (S k0), f0).
    pose proof (scan_inside id C1 (P + 1) (S k0) O O f0 Hc1) as H1.
    replace (S (S k0 + 0)) with (S (S k0)) in H1 by lia.
    rewrite H1. cbn [scanTokens].
    change (scanToken id TClose (P + 1 + Z.of_nat (length C1)) (S (S k0), f0))
      with (S k0, f0).
    intros Hs. exfalso.
    destruct (scanTokens id post (P + 1 + Z.of_nat (length (C1 ++ [TClose]))) (S k0, f0))
      as [k' r] eqn:Hr.
    cbn [snd] in Hs. subst r.
    destruct (scan_range id post _ _ _ _ _ Hr) as [H|H].
    + subst f0. destruct (scan_range id pre _ _ _ _ _ Hpre) as [H|H]; [discriminate|].
      subst P. lia.
    + rewrite !length_app in H. cbn [length] in H. subst P. lia.
Qed.

(** *** Reading the block off the tokens *)

Lemma closes_prefix_unique (A B X Y : list token) :
  closes O A = Some O ->
  closes O B = Some O ->
  A ++ TClose :: X = B ++ TClose :: Y ->
  A = B /\ X = Y.
Proof.
  intros HA HB Heq.
  apply List.app_eq_app in Heq as (l & [[H1 H2]|[H1 H2]]).
  - destruct l as [|t l].
    + rewrite app_nil_r in H1. cbn [app] in H2. split; [exact H1 | congruence].
    + cbn [app] in H2. injection H2 as <- H2. exfalso.
      rewrite H1, closes_app, HB in HA. discriminate HA.
  - destruct l as [|t l].
    + rewrite app_nil_r in H1. cbn [app] in H2. split; [now symmetry | congruence].
    + cbn [app] in H2. injection H2 as <- H2. exfalso.
      rewrite H1, closes_app, HA in HB. discriminate HB.
Qed.

(** A node found at the place of a block with the identifier is a node
    with content that has the attributes and the content tokens standing
    there. *)
Lemma block_of_tokens id (ts pre post C pre' post' : list token) (a : attrs) (n : pmnode) :
  ts = pre ++ TOpen a :: C ++ TClose :: post ->
  closes O C = Some O ->
  ts = pre' ++ flatten n ++ post' ->
  length pre' = length pre ->
  has_id id n = true ->
  exists cs, n = ElemNode a cs /\ tokens cs = C /\ post' = post.
Proof.
  intros Hts HC Hts' Hlen Hid. rewrite Hts in Hts'.
  apply app_inj_1 in Hts' as [_ Hrest]; [|now symmetry].
  destruct n as [t|a'|a' cs]; [discriminate Hid | discriminate Hrest |].
  cbn [flatten app] in Hrest. injection Hrest as <- Hrest.
  rewrite <- app_assoc in Hrest. cbn [app] in Hrest.
  destruct (closes_prefix_unique C (flat_map flatten cs) post post' HC
              (closes_tokens cs O) Hrest) as [-> ->].
  exists cs. repeat split; reflexivity.
Qed.

(** *** updateClause *)

Lemma dispatched_app (a b : list effect) : dispatched (a ++ b) = dispatched a ++ dispatched b.
Proof. unfold dispatched. now rewrite flat_map_app. Qed.

Lemma dispatched_prologue clauseId t : dispatched (prologue clauseId t) = [].
Proof. destruct t as [[]|[]|]; reflexivity. Qed.

Lemma textLeaves_none (n : pmnode) :
  textLeaves n = [] -> forall base, charPositions base (flatten n) = [] /\ chars (flatten n) = EmptyString.
Proof.
  induction n as [t|a|a cs IH] using pmnode_forall_ind; intros Hnone base.
  - discriminate.
  - split; reflexivity.
  - cbn [textLeaves] in Hnone. cbn [flatten charPositions chars].
    assert (Hcs : forall b, charPositions b (flat_map flatten cs) = [] /\
                            chars (flat_map flatten cs) = EmptyString).
    { induction IH as [|c cs Hc _ IHcs]; intros b; [split; reflexivity|].
      cbn [flat_map] in Hnone |- *. apply app_eq_nil in Hnone as [H1 H2].
      rewrite charPositions_app, chars_app.
      destruct (Hc H1 b) as [-> ->].
      destruct (IHcs H2 (b + Z.of_nat (length (flatten c)))) as [-> ->].
      split; reflexivity. }
    rewrite charPositions_app, chars_app.
    destruct (Hcs (base + 1)) as [-> ->]. split; reflexivity.
Qed.

Section UpdateClauseFacts.

Variable calculateWordDiff : string -> string -> list diffpart.
Variable applyTransaction : pmnode -> transaction -> option pmnode.

Abbreviation updateClause := (Superdoc.updateClause calculateWordDiff applyTransaction).
Abbreviation patchOf := (patchOf calculateWordDiff).

(** What [updateClause] does once the block is found and has text. When
    a step of the edit throws, the call rejects with nothing dispatched
    and the document as it was. Otherwise the edit transaction is
    dispatched, then at most one transaction that only sets attributes,
    and nothing is reported. *)
Lemma updateClause_effects doc t clauseId newText clausePos clauseNode :
  locateBlock doc clauseId = Some (clausePos, clauseNode) ->
  fst (buildPositionMap clausePos clauseNode) <> [] ->
  match applyTransaction doc (tr (patchOf clausePos clauseNode newText)) with
  | None =>
      updateClause (theEditor doc t) clauseId newText
      = {| returned := None; effects := prologue clauseId t; document := Some doc |}
  | Some finalDoc =>
      exists rest,
        effects (updateClause (theEditor doc t) clauseId newText)
        = prologue clauseId t
            ++ [Dispatch (tr (patchOf clausePos clauseNode newText))] ++ rest /\
        Forall (fun t => forallb is_edit t = false \/ t = []) (dispatched rest) /\
        (forall msg, ~ In (ConsoleError msg) rest)
  end.
Proof.
  intros Hloc Hmap. unfold Superdoc.updateClause, theEditor, patchOf, prologue.
  cbn [activeEditor]. rewrite Hloc.
  destruct (buildPositionMap clausePos clauseNode) as [positionMap textBuffer] eqn:Hpm.
  cbn [fst snd] in *.
  destruct (length positionMap =? 0)%nat eqn:Hlen.
  { apply Nat.eqb_eq, length_zero_iff_nil in Hlen. contradiction. }
  change (enableTrackChanges {| activeEditor := Some doc; trackChanges := t |})
    with (enableTrackChanges {| activeEditor := None; trackChanges := t |}).
  destruct (applyTransaction doc _) as [finalDoc|]; [|reflexivity].
  destruct (locateBlock finalDoc clauseId) as [[newPos target]|].
  - destruct (nodeAt finalDoc newPos) as [n|].
    + destruct (applyTransaction finalDoc _) as [lastDoc|]; cbn [effects].
      * eexists [_; _]. split; [reflexivity|]. split.
        -- simpl. constructor; [left; reflexivity | constructor].
        -- intros msg [H|[H|[]]]; discriminate.
      * exists []. split; [reflexivity|]. split; [constructor | intros msg []].
    + exists []. cbn [effects]. split; [reflexivity|]. split; [constructor | intros msg []].
  - eexists [_]. cbn [effects]. split; [reflexivity|]. split; [constructor|].
    intros msg [H|[]]; discriminate.
Qed.

Lemma prologue_errors clauseId t msg :
  In (ConsoleError msg) (prologue clauseId t) -> msg = "Track changes error:".
Proof.
  intros Hin.
  destruct t as [[]|[]|]; simpl in Hin;
    repeat (destruct Hin as [Hin|Hin]; try discriminate; try contradiction);
    now injection Hin as <-.
Qed.

(** C5. Empty position map refusal. For a block without text leaves the
    position map is empty and [updateClause] stops there: after the
    switch to track changes it reports 'No text in block' on the
    console, dispatches nothing, leaves the document as it was and
    resolves to [false]. *)
Theorem updateClause_refuses_empty_block doc t clauseId newText clausePos clauseNode :
  locateBlock doc clauseId = Some (clausePos, clauseNode) ->
  textLeaves clauseNode = [] ->
  buildPositionMap clausePos clauseNode = ([], EmptyString) /\
  updateClause (theEditor doc t) clauseId newText
  = {| returned := Some false;
       effects := prologue clauseId t ++ [ConsoleError "No text in block"; ConsoleGroupEnd];
       document := Some doc |} /\
  dispatched (effects (updateClause (theEditor doc t) clauseId newText)) = [].
Proof.
  intros Hloc Hnone.
  assert (Hpm : buildPositionMap clausePos clauseNode = ([], EmptyString)).
  { rewrite buildPositionMap_tokens.
    destruct clauseNode as [tx|a|a cs]; [discriminate | reflexivity |].
    cbn [node_content].
    destruct (textLeaves_none (ElemNode a cs) Hnone clausePos) as [H1 H2].
    cbn [flatten charPositions chars] in H1, H2.
    rewrite charPositions_app in H1. rewrite chars_app in H2.
    apply app_eq_nil in H1 as [H1 _]. unfold tokens. rewrite H1.
    f_equal. destruct (chars (flat_map flatten cs)); [reflexivity | discriminate]. }
  assert (Hres : updateClause (theEditor doc t) clauseId newText
                 = {| returned := Some false;
                      effects := prologue clauseId t
                                   ++ [ConsoleError "No text in block"; ConsoleGroupEnd];
                      document := Some doc |}).
  { unfold Superdoc.updateClause, theEditor. cbn [activeEditor].
    rewrite Hloc, Hpm. reflexivity. }
  split; [exact Hpm|]. split; [exact Hres|].
  rewrite Hres. cbn [effects]. now rewrite dispatched_app, dispatched_prologue.
Qed.

(** C6, as the code has it. [updateClause] does not compare the final
    text index with the length of the original text and reports no
    desynchronization: once the block is found and has text, whatever
    the diff and the final text index, the only thing it may report on
    the console is a failure to switch track changes on. The
    transaction is built from the diff as it is: when the engine
    accepts its steps it is dispatched, and when a step throws the call
    rejects with nothing dispatched and the document as it was. *)
Theorem updateClause_reports_no_desync doc t clauseId newText clausePos clauseNode :
  locateBlock doc clauseId = Some (clausePos, clauseNode) ->
  fst (buildPositionMap clausePos clauseNode) <> [] ->
  (forall msg,
      In (ConsoleError msg) (effects (updateClause (theEditor doc t) clauseId newText)) ->
      msg = "Track changes error:") /\
  (forall finalDoc,
      applyTransaction doc (tr (patchOf clausePos clauseNode newText)) = Some finalDoc ->
      In (Dispatch (tr (patchOf clausePos clauseNode newText)))
         (effects (updateClause (theEditor doc t) clauseId newText))) /\
  (applyTransaction doc (tr (patchOf clausePos clauseNode newText)) = None ->
      updateClause (theEditor doc t) clauseId newText
      = {| returned := None; effects := prologue clauseId t; document := Some doc |}).
Proof.
  intros Hloc Hmap.
  pose proof (updateClause_effects doc t clauseId newText clausePos clauseNode Hloc Hmap)
    as Heff.
  destruct (applyTransaction doc (tr (patchOf clausePos clauseNode newText)))
    as [finalDoc|].
  - destruct Heff as (rest & Heff & _ & Hno). split; [|split].
    + intros msg Hin. rewrite Heff in Hin. apply in_app_or in Hin as [Hin|[Hin|Hin]].
      * now apply prologue_errors in Hin.
      * discriminate.
      * now contradiction (Hno msg).
    + intros _ _. rewrite Heff. apply in_or_app. right. now left.
    + discriminate.
  - split; [|split].
    + intros msg Hin. rewrite Heff in Hin. cbn [effects] in Hin.
      now apply prologue_errors in Hin.
    + discriminate.
    + intros _. exact Heff.
Qed.

(** C7. Status update by identity. After the edit transaction is
    applied, giving the document [finalDoc], the block is looked up
    again by its id in [finalDoc]; when it is found there, at [newPos],
    the node at [newPos] is that block and a second transaction of one
    step sets its attributes: the status becomes 'pending', the
    identifier and the risk are those the block has in [finalDoc]. The
    position found before the edit is not used. The second transaction
    is dispatched after the edit transaction, as a transaction of its
    own, when the engine accepts the step, and the call resolves to
    [true] with the document the engine gives; when the step throws
    only the edit transaction was dispatched. When the id is no longer
    found, no second transaction is sent. *)
Theorem status_update_by_identity doc t clauseId newText clausePos clauseNode finalDoc :
  locateBlock doc clauseId = Some (clausePos, clauseNode) ->
  fst (buildPositionMap clausePos clauseNode) <> [] ->
  applyTransaction doc (tr (patchOf clausePos clauseNode newText)) = Some finalDoc ->
  well_formed finalDoc = true ->
  (forall newPos target,
      locateBlock finalDoc clauseId = Some (newPos, target) ->
      let pending := set_status (node_attrs target) "pending" in
      has_id clauseId target = true /\
      nodeAt finalDoc newPos = Some target /\
      attr_status pending = Some "pending" /\
      attr_id pending = attr_id (node_attrs target) /\
      attr_risk pending = attr_risk (node_attrs target) /\
      (forall lastDoc,
          applyTransaction finalDoc [SetNodeMarkup newPos pending] = Some lastDoc ->
          dispatched (effects (updateClause (theEditor doc t) clauseId newText))
          = [tr (patchOf clausePos clauseNode newText); [SetNodeMarkup newPos pending]] /\
          returned (updateClause (theEditor doc t) clauseId newText) = Some true /\
          document (updateClause (theEditor doc t) clauseId newText) = Some lastDoc) /\
      (applyTransaction finalDoc [SetNodeMarkup newPos pending] = None ->
          dispatched (effects (updateClause (theEditor doc t) clauseId newText))
          = [tr (patchOf clausePos clauseNode newText)] /\
          returned (updateClause (theEditor doc t) clauseId newText) = None)) /\
  (locateBlock finalDoc clauseId = None ->
      dispatched (effects (updateClause (theEditor doc t) clauseId newText))
      = [tr (patchOf clausePos clauseNode newText)]).
Proof.
  intros Hloc Hmap Happly Hwf.
  assert (Hlen : (length (fst (buildPositionMap clausePos clauseNode)) =? 0)%nat = false).
  { apply Nat.eqb_neq. intros H. apply length_zero_iff_nil in H. contradiction. }
  unfold Superdoc.updateClause, theEditor, patchOf in *.
  cbn [activeEditor]. rewrite Hloc.
  destruct (buildPositionMap clausePos clauseNode) as [positionMap textBuffer].
  cbn [fst snd] in *. rewrite Hlen, Happly.
  change (ConsoleGroup ("[Diffing] Update Block " +:+ clauseId)
            :: enableTrackChanges {| activeEditor := Some doc; trackChanges := t |})
    with (prologue clauseId t).
  split.
  - intros newPos target Hfinal.
    destruct (locateBlock_tokens finalDoc clauseId newPos target Hfinal) as (_ & _ & _ & _ & Hid).
    pose proof (locateBlock_nodeAt finalDoc clauseId newPos target Hwf Hfinal) as Hat.
    rewrite Hfinal, Hat.
    set (pending := set_status (node_attrs target) "pending").
    split; [exact Hid|]. split; [reflexivity|].
    split; [reflexivity|]. split; [reflexivity|]. split; [reflexivity|]. split.
    + intros lastDoc Hlast. rewrite Hlast. cbn [effects returned document].
      rewrite dispatched_app, dispatched_prologue. repeat split; reflexivity.
    + intros Hlast. rewrite Hlast. cbn [effects returned document].
      rewrite dispatched_app, dispatched_prologue. split; reflexivity.
  - intros Hnone. rewrite Hnone. cbn [effects].
    now rewrite dispatched_app, dispatched_prologue.
Qed.

End UpdateClauseFacts.


(** *** The document after the edit *)

(** The engine on tokens accepts a transaction whose steps apply and
    leave tokens that close. *)
Lemma tokenEngine_accepts (a0 : attrs) (cs0 : list pmnode) (t : transaction)
    (ts : list token) :
  applySteps t (tokens cs0) = Some ts ->
  closes O ts = Some O ->
  exists cs,
    tokenEngine (ElemNode a0 cs0) t = Some (ElemNode a0 cs) /\
    tokens cs = ts /\
    well_formed (ElemNode a0 cs) = true.
Proof.
  intros Happly Hclose.
  destruct (parse_exists ts [] [] Hclose) as (cs & Hparse).
  exists cs. split; [|split].
  - unfold tokenEngine. rewrite Happly. cbn. rewrite Hparse. reflexivity.
  - now rewrite (tokens_parse ts [] [] cs Hparse).
  - cbn [well_formed]. apply (parse_well_formed ts [] [] cs Hparse); [reflexivity|].
    constructor.
Qed.

(** Where the search finds the block in a document read off tokens. *)
Lemma locateBlock_of_tokens id (a0 : attrs) (cs : list pmnode)
    (pre post C : list token) (a : attrs) :
  tokens cs = pre ++ TOpen a :: C ++ TClose :: post ->
  closes O C = Some O ->
  snd (scanTokens id (tokens cs) 0 (O, None)) = Some (Z.of_nat (length pre)) ->
  exists content,
    locateBlock (ElemNode a0 cs) id = Some (Z.of_nat (length pre), ElemNode a content) /\
    tokens content = C.
Proof.
  intros Htok HC Hscan.
  pose proof (locateBlock_scan (ElemNode a0 cs) id) as Hls. cbn [node_content] in Hls.
  rewrite Hscan in Hls.
  destruct (locateBlock (ElemNode a0 cs) id) as [[q n]|] eqn:Hloc; [|discriminate Hls].
  cbn [option_map fst] in Hls. injection Hls as ->.
  destruct (locateBlock_tokens _ _ _ _ Hloc) as (pre' & post' & Htok' & Hq & Hid).
  cbn [node_content] in Htok'.
  destruct (block_of_tokens id (tokens cs) pre post C pre' post' a n Htok HC Htok'
              ltac:(lia) Hid) as (content & -> & Hc & _).
  exists content. split; [reflexivity | exact Hc].
Qed.

Lemma closes_markup (pre rest : list token) (a a' : attrs) :
  closes O (pre ++ TOpen a :: rest) = closes O (pre ++ TOpen a' :: rest).
Proof. now rewrite !closes_app. Qed.

Lemma applySteps_markup (pre rest : list token) (a a' : attrs) :
  applySteps [SetNodeMarkup (Z.of_nat (length pre)) a'] (pre ++ TOpen a :: rest)
  = Some (pre ++ TOpen a' :: rest).
Proof.
  unfold applySteps. cbn [fold_left]. cbn. unfold applyStep.
  rewrite (proj2 (Z.ltb_ge _ _)) by lia.
  rewrite Nat2Z.id, list_lookup_middle by reflexivity.
  rewrite insert_app_r_alt by lia. rewrite Nat.sub_diag. reflexivity.
Qed.

Section RoundTrip.

Variable calculateWordDiff : string -> string -> list diffpart.

Abbreviation patchOf := (patchOf calculateWordDiff).

(** When the steps of the edit apply to the tokens of the document and
    change no structural token of the block, the engine accepts the
    edit and the status update, and the block is found again at its
    place with the new content and the status 'pending'. *)
Lemma updateClause_on_tokens (a0 : attrs) (cs0 : list pmnode) (t : tracking)
    (clauseId newText : string) (pre post C' : list token) (a : attrs)
    (cs : list pmnode) :
  locateBlock (ElemNode a0 cs0) clauseId = Some (Z.of_nat (length pre), ElemNode a cs) ->
  tokens cs0 = pre ++ TOpen a :: tokens cs ++ TClose :: post ->
  chars (tokens cs) <> EmptyString ->
  applySteps (tr (patchOf (Z.of_nat (length pre)) (ElemNode a cs) newText)) (tokens cs0)
  = Some (pre ++ TOpen a :: C' ++ TClose :: post) ->
  structure C' = structure (tokens cs) ->
  exists lastDoc content,
    updateClause calculateWordDiff tokenEngine
      (theEditor (ElemNode a0 cs0) t) clauseId newText
    = {| returned := Some true;
         effects :=
           prologue clauseId t
             ++ [Dispatch (tr (patchOf (Z.of_nat (length pre)) (ElemNode a cs) newText));
                 Dispatch [SetNodeMarkup (Z.of_nat (length pre))
                             (set_status a "pending")];
                 ConsoleGroupEnd];
         document := Some lastDoc |} /\
    locateBlock lastDoc clauseId
    = Some (Z.of_nat (length pre), ElemNode (set_status a "pending") content) /\
    tokens content = C' /\
    tokens (node_content lastDoc)
    = pre ++ TOpen (set_status a "pending") :: C' ++ TClose :: post.
Proof.
  intros Hloc Htok Hchars Happly Hstr.
  set (P := Z.of_nat (length pre)) in *.
  set (patch := patchOf P (ElemNode a cs) newText) in *.
  assert (Hid : attrs_have_id clauseId a = true).
  { destruct (locateBlock_tokens _ _ _ _ Hloc) as (_ & _ & _ & _ & Hid). exact Hid. }
  assert (HC' : closes O C' = Some O).
  { rewrite <- closes_structure, Hstr, closes_structure. apply closes_tokens. }
  assert (Hclose1 : closes O (pre ++ TOpen a :: C' ++ TClose :: post) = Some O).
  { rewrite <- closes_structure.
    change (TOpen a :: C' ++ TClose :: post) with ([TOpen a] ++ C' ++ TClose :: post).
    rewrite !structure_app, Hstr, <- !structure_app, closes_structure.
    cbn [app]. rewrite <- Htok. apply closes_tokens. }
  destruct (tokenEngine_accepts a0 cs0 (tr patch) _ Happly Hclose1)
    as (cs1 & Hengine1 & Htok1 & Hwf1).
  assert (Hscan0 : snd (scanTokens clauseId (tokens cs0) 0 (O, None)) = Some P).
  { pose proof (locateBlock_scan (ElemNode a0 cs0) clauseId) as Hls.
    rewrite Hloc in Hls. cbn [option_map fst node_content] in Hls. now symmetry. }
  assert (Hscan1 : snd (scanTokens clauseId (tokens cs1) 0 (O, None)) = Some P).
  { rewrite Htok1. rewrite Htok in Hscan0.
    exact (scan_same_block clauseId pre post (tokens cs) C' a a Hid Hid
             (closes_tokens cs O) HC' Hscan0). }
  destruct (locateBlock_of_tokens clauseId a0 cs1 pre post C' a Htok1 HC' Hscan1)
    as (content1 & Hloc1 & Hcontent1).
  fold P in Hloc1.
  pose proof (locateBlock_nodeAt _ _ _ _ Hwf1 Hloc1) as Hat1.
  set (pending := set_status a "pending").
  assert (Hclose2 : closes O (pre ++ TOpen pending :: C' ++ TClose :: post) = Some O)
    by (rewrite <- Hclose1; apply closes_markup).
  assert (Happly2 : applySteps [SetNodeMarkup P pending] (tokens cs1)
                    = Some (pre ++ TOpen pending :: C' ++ TClose :: post))
    by (rewrite Htok1; apply applySteps_markup).
  destruct (tokenEngine_accepts a0 cs1 _ _ Happly2 Hclose2)
    as (cs2 & Hengine2 & Htok2 & Hwf2).
  assert (Hscan2 : snd (scanTokens clauseId (tokens cs2) 0 (O, None)) = Some P).
  { rewrite Htok2. rewrite Htok1 in Hscan1.
    exact (scan_same_block clauseId pre post C' C' a pending Hid Hid HC' HC' Hscan1). }
  destruct (locateBlock_of_tokens clauseId a0 cs2 pre post C' pending Htok2 HC' Hscan2)
    as (content2 & Hloc2 & Hcontent2).
  exists (ElemNode a0 cs2), content2.
  split; [|split; [exact Hloc2 | split; [exact Hcontent2 | exact Htok2]]].
  assert (Hmap : (length (fst (buildPositionMap P (ElemNode a cs))) =? 0)%nat = false).
  { apply Nat.eqb_neq. rewrite buildPositionMap_tokens. cbn [fst node_content].
    rewrite length_charPositions. unfold nchars.
    destruct (chars (tokens cs)); [congruence | discriminate]. }
  unfold Superdoc.updateClause, theEditor. cbn [activeEditor]. rewrite Hloc.
  subst patch. unfold SuperdocSpec.patchOf in *.
  destruct (buildPositionMap P (ElemNode a cs)) as [positionMap textBuffer].
  cbn [fst snd] in *. rewrite Hmap, Hengine1, Hloc1, Hat1.
  cbn [node_attrs]. fold pending. rewrite Hengine2. reflexivity.
Qed.


End RoundTrip.

(** *** An engine on tokens, for evaluation *)

Example buildPositionMap_example :
  buildPositionMap 0 clause1
  = ([2; 3; 4; 5; 6; 7; 8; 9; 10; 11; 12; 13; 14;
      17; 18; 19; 20; 21; 22; 23; 24; 25; 26],
     "Liability is unlimited.").
Proof. vm_compute. reflexivity. Qed.

Example buildPatch_example :
  tr (patchOf exampleDiff 0 clause1 proposedText)
  = [Delete (Some 17) (Some 27); InsertText "capped at fees paid." (Some 17)].
Proof. vm_compute. reflexivity. Qed.

Example updateClause_example :
  let r := updateClause exampleDiff tokenEngine (theEditor toyDoc (BySetDocumentMode false)) "c1" proposedText in
  returned r = Some true /\
  document r
  = Some (ElemNode no_attrs
            [ElemNode (set_status (clauseAttrs "c1") "pending")
               [run "Liability is "; run "capped at fees paid."];
             ElemNode (clauseAttrs "c2") [run "Other."];
             ElemNode (clauseAttrs "c3") [ElemNode no_attrs []]]) /\
  dispatched (effects r)
  = [[Delete (Some 17) (Some 27); InsertText "capped at fees paid." (Some 17)];
     [SetNodeMarkup 0 (set_status (clauseAttrs "c1") "pending")]].
Proof. vm_compute. repeat split; reflexivity. Qed.


(** A diff primitive may keep the invariant of the specification and
    yet open with an empty deletion: the end of that deletion is read at
    index -1 of the position map, the step has no position and throws,
    and the block keeps its text. *)
Example emptyDeleteDiff_rejects :
  diff_invariant (emptyDeleteDiff "Other." "ther.") "Other." "ther." /\
  tr (patchOf emptyDeleteDiff 29 (ElemNode (clauseAttrs "c2") [run "Other."]) "ther.")
  = [Delete (Some 31) None; Delete None None] /\
  updateClause emptyDeleteDiff tokenEngine (theEditor toyDoc (BySetDocumentMode false))
    "c2" "ther."
  = {| returned := None;
       effects := [ConsoleGroup "[Diffing] Update Block c2"; SetDocumentMode "suggesting"];
       document := Some toyDoc |}.
Proof. vm_compute. repeat split; reflexivity. Qed.

(** A deletion that runs from a run into a deeper one takes a closing
    token without its opening one: the engine on tokens does not accept
    the transaction, and the block keeps its text. *)
Example crossingDiff_rejects :
  diff_ok (crossingDiff "abcd" "adZ") "abcd" "adZ" /\
  buildPositionMap 0 nestedBlock = ([2; 3; 7; 8], "abcd") /\
  deletes_in_text [2; 3; 7; 8] 0 (crossingDiff "abcd" "adZ") = false /\
  tr (patchOf crossingDiff 0 nestedBlock "adZ")
  = [Delete (Some 3) (Some 8); InsertText "Z" (Some 4)] /\
  updateClause crossingDiff tokenEngine (theEditor nestedDoc (BySetDocumentMode false))
    "n1" "adZ"
  = {| returned := None;
       effects := [ConsoleGroup "[Diffing] Update Block n1"; SetDocumentMode "suggesting"];
       document := Some nestedDoc |}.
Proof.
  split.
  - split; [reflexivity|]. split; [reflexivity|]. repeat constructor; simpl; discriminate.
  - vm_compute. repeat split; reflexivity.
Qed.


Lemma updateClause_refuses_empty_block_witness :
  locateBlock toyDoc "c3" = Some (39, ElemNode (clauseAttrs "c3") [ElemNode no_attrs []]) /\
  textLeaves (ElemNode (clauseAttrs "c3") [ElemNode no_attrs []]) = [] /\
  returned (updateClause exampleDiff tokenEngine (theEditor toyDoc (BySetDocumentMode false)) "c3" proposedText)
    = Some false.
Proof.
  assert (H1 : locateBlock toyDoc "c3"
               = Some (39, ElemNode (clauseAttrs "c3") [ElemNode no_attrs []]))
    by reflexivity.
  assert (H2 : textLeaves (ElemNode (clauseAttrs "c3") [ElemNode no_attrs []]) = [])
    by reflexivity.
  split; [exact H1|]. split; [exact H2|].
  destruct (updateClause_refuses_empty_block exampleDiff tokenEngine toyDoc (BySetDocumentMode false) "c3"
              proposedText 39 _ H1 H2) as (_ & -> & _).
  reflexivity.
Defined.

Example shortDiff_desynchronized :
  textIndex (patchOf shortDiff 0 clause1 "Liability") = 9 /\
  strlen (snd (buildPositionMap 0 clause1)) = 23 /\
  updateClause shortDiff tokenEngine (theEditor toyDoc (BySetDocumentMode false)) "c1" "Liability"
  = {| returned := Some true;
       effects := [ConsoleGroup "[Diffing] Update Block c1"; SetDocumentMode "suggesting";
                   Dispatch [];
                   Dispatch [SetNodeMarkup 0 (set_status (clauseAttrs "c1") "pending")];
                   ConsoleGroupEnd];
       document :=
         Some (ElemNode no_attrs
                 [ElemNode (set_status (clauseAttrs "c1") "pending")
                    [run "Liability is "; run "unlimited."];
                  ElemNode (clauseAttrs "c2") [run "Other."];
                  ElemNode (clauseAttrs "c3") [ElemNode no_attrs []]]) |}.
Proof. vm_compute. repeat split; reflexivity. Qed.

(** C6 as the specification states it fails for a diff that stops
    short of the original text: the final text index is 9, the text has
    23 characters, and the call reports nothing. *)
Lemma desync_not_surfaced :
  ~ desync_is_surfaced shortDiff tokenEngine toyDoc (BySetDocumentMode false)
      "c1" "Liability".
Proof.
  intros Hclaim.
  destruct (Hclaim 0 clause1) as (msg & _ & Hin).
  - reflexivity.
  - vm_compute. discriminate.
  - vm_compute. discriminate.
  - destruct shortDiff_desynchronized as (_ & _ & Hres). rewrite Hres in Hin.
    simpl in Hin. destruct Hin as [H|[H|[H|[H|[H|[]]]]]]; discriminate.
Qed.

Lemma updateClause_reports_no_desync_witness :
  locateBlock toyDoc "c1" = Some (0, clause1) /\
  fst (buildPositionMap 0 clause1) <> [] /\
  forall msg,
    In (ConsoleError msg)
       (effects (updateClause shortDiff tokenEngine
                   (theEditor toyDoc (BySetDocumentMode false)) "c1" "Liability")) ->
    msg = "Track changes error:".
Proof.
  assert (H1 : locateBlock toyDoc "c1" = Some (0, clause1)) by reflexivity.
  assert (H2 : fst (buildPositionMap 0 clause1) <> []) by (vm_compute; discriminate).
  split; [exact H1|]. split; [exact H2|].
  exact (proj1 (updateClause_reports_no_desync shortDiff tokenEngine toyDoc (BySetDocumentMode false) "c1" "Liability"
                  0 clause1 H1 H2)).
Defined.

Lemma status_update_by_identity_witness :
  locateBlock toyDoc "c1" = Some (0, clause1) /\
  fst (buildPositionMap 0 clause1) <> [] /\
  tokenEngine toyDoc (tr (patchOf exampleDiff 0 clause1 proposedText)) = Some toyFinalDoc /\
  well_formed toyFinalDoc = true /\
  attr_status (set_status (clauseAttrs "c1") "pending") = Some "pending" /\
  dispatched (effects (updateClause exampleDiff tokenEngine (theEditor toyDoc (BySetDocumentMode false)) "c1" proposedText))
  = [tr (patchOf exampleDiff 0 clause1 proposedText);
     [SetNodeMarkup 0 (set_status (clauseAttrs "c1") "pending")]] /\
  document (updateClause exampleDiff tokenEngine (theEditor toyDoc (BySetDocumentMode false)) "c1" proposedText)
  = Some (ElemNode no_attrs
            [ElemNode {| attr_id := Some "c1"; attr_status := Some "pending";
                         attr_risk := None |}
               [run "Liability is "; run "capped at fees paid."];
             ElemNode (clauseAttrs "c2") [run "Other."];
             ElemNode (clauseAttrs "c3") [ElemNode no_attrs []]]).
Proof.
  assert (H1 : locateBlock toyDoc "c1" = Some (0, clause1)) by reflexivity.
  assert (H2 : fst (buildPositionMap 0 clause1) <> []) by (vm_compute; discriminate).
  assert (H3 : tokenEngine toyDoc (tr (patchOf exampleDiff 0 clause1 proposedText))
               = Some toyFinalDoc) by (vm_compute; reflexivity).
  assert (H4 : well_formed toyFinalDoc = true) by reflexivity.
  split; [exact H1|]. split; [exact H2|]. split; [exact H3|]. split; [exact H4|].
  destruct (status_update_by_identity exampleDiff tokenEngine toyDoc (BySetDocumentMode false) "c1" proposedText
              0 clause1 toyFinalDoc H1 H2 H3 H4) as [Hfound _].
  destruct (Hfound 0 (ElemNode (clauseAttrs "c1") [run "Liability is "; run "capped at fees paid."])
              eq_refl) as (_ & _ & Hst & _ & _ & Hok & _).
  split; [exact Hst|].
  destruct (Hok _ eq_refl) as (Hd & _ & Hdoc).
  split; [exact Hd | exact Hdoc].
Defined.

End PatchFacts.

(** ** Categories, rule identifiers and the playbook clean-up *)

Module PlaybookFacts.
Import JS JSFacts Gemini GeminiSpec PlaybookSpec.

(** *** normalizeCategory *)

Lemma string_in_In s l : string_in s l = true -> In s l.
Proof.
  unfold string_in. rewrite existsb_exists. intros (x & Hx & Heq).
  apply String.eqb_eq in Heq. now subst.
Qed.

Lemma upper_not_lower c : is_upper c = true -> is_lower c = false.
Proof.
  unfold is_upper, is_lower. intros H. apply andb_true_iff in H as [H1 H2].
  apply Nat.leb_le in H1, H2. apply andb_false_iff. left. apply Nat.leb_gt. lia.
Qed.

Lemma name_char_upper c :
  is_upper c || (nat_of_ascii c =? 95)%nat = true -> upper_char c = c.
Proof.
  unfold upper_char. intros H. apply orb_true_iff in H as [H|H].
  - now rewrite (upper_not_lower c H).
  - apply Nat.eqb_eq in H. unfold is_lower. rewrite H. reflexivity.
Qed.

Lemma name_char_not_space c :
  is_upper c || (nat_of_ascii c =? 95)%nat = true -> is_space c = false.
Proof.
  unfold is_space, is_upper. intros H. apply orb_true_iff in H as [H|H].
  - apply andb_true_iff in H as [H1 H2]. apply Nat.leb_le in H1, H2.
    repeat (apply orb_false_iff; split).
    + apply andb_false_iff. right. apply Nat.leb_gt. lia.
    + apply Nat.eqb_neq. lia.
    + apply Nat.eqb_neq. lia.
  - apply Nat.eqb_eq in H. rewrite H. reflexivity.
Qed.

Lemma toUpperCase_name s : all_upper_or_underscore s = true -> toUpperCase s = s.
Proof.
  unfold toUpperCase. induction s as [|c s IH]; simpl; [reflexivity|].
  intros H. apply andb_true_iff in H as [Hc Hs].
  now rewrite (name_char_upper c Hc), IH.
Qed.

Lemma trimEnd_name s : all_upper_or_underscore s = true -> trimEnd s = s.
Proof.
  induction s as [|c s IH]; simpl; [reflexivity|].
  intros H. apply andb_true_iff in H as [Hc Hs].
  rewrite (IH Hs). destruct s; [|reflexivity].
  now rewrite (name_char_not_space c Hc).
Qed.

Lemma trim_name s : all_upper_or_underscore s = true -> trim s = s.
Proof.
  intros H. unfold trim.
  assert (Hstart : trimStart s = s).
  { destruct s as [|c s]; simpl; [reflexivity|].
    simpl in H. apply andb_true_iff in H as [Hc _].
    now rewrite (name_char_not_space c Hc). }
  rewrite Hstart. now apply trimEnd_name.
Qed.

(** The three ways [normalizeCategory] answers. *)
Lemma normalizeCategory_cases raw :
  In (normalizeCategory raw) DEFAULT_CATEGORIES
  \/ In (normalizeCategory raw) (map snd mappings)
  \/ normalizeCategory raw = "GENERAL"
  \/ (normalizeCategory raw = trim (toUpperCase raw)
      /\ string_in (normalizeCategory raw) DEFAULT_CATEGORIES = false
      /\ find (fun pc => includes (normalizeCategory raw) (fst pc)) mappings = None
      /\ (2 <? strlen (normalizeCategory raw)) && (strlen (normalizeCategory raw) <? 30)
         && is_category_name (normalizeCategory raw) = true).
Proof.
  unfold normalizeCategory.
  destruct (string_in (trim (toUpperCase raw)) DEFAULT_CATEGORIES) eqn:Hd.
  - left. now apply string_in_In.
  - destruct (find _ mappings) as [pc|] eqn:Hf.
    + right. left. apply find_some in Hf as [Hin _]. now apply in_map.
    + destruct (_ && _ && _) eqn:Hc.
      * right. right. right. repeat split; assumption.
      * right. right. left. reflexivity.
Qed.

Lemma normalizeCategory_name raw :
  is_category_name (normalizeCategory raw) = true /\
  2 <= strlen (normalizeCategory raw) < 30.
Proof.
  destruct (normalizeCategory_cases raw) as [H|[H|[H|(_ & _ & _ & H)]]];
    revert H; generalize (normalizeCategory raw); intros c H.
  - cbn [In DEFAULT_CATEGORIES] in H.
    repeat (destruct H as [<-|H]; [vm_compute; intuition congruence|]). contradiction.
  - cbn [In map snd mappings] in H.
    repeat (destruct H as [<-|H]; [vm_compute; intuition congruence|]). contradiction.
  - rewrite H. vm_compute. intuition congruence.
  - apply andb_true_iff in H as [H Hn]. apply andb_true_iff in H as [H1 H2].
    apply Z.ltb_lt in H1, H2. split; [assumption|lia].
Qed.

Lemma normalizeCategory_fixed raw :
  normalizeCategory (normalizeCategory raw) = normalizeCategory raw.
Proof.
  destruct (normalizeCategory_cases raw) as [H|[H|[H|(_ & Hd & Hf & Hc)]]];
    revert H || revert Hd Hf Hc; generalize (normalizeCategory raw); intros c.
  - intros H. cbn [In DEFAULT_CATEGORIES] in H.
    repeat (destruct H as [<-|H]; [vm_compute; reflexivity|]). contradiction.
  - intros H. cbn [In map snd mappings] in H.
    repeat (destruct H as [<-|H]; [vm_compute; reflexivity|]). contradiction.
  - intros ->. vm_compute. reflexivity.
  - intros Hd Hf Hc.
    assert (Hname : all_upper_or_underscore c = true).
    { apply andb_true_iff in Hc as [_ Hc]. unfold is_category_name in Hc.
      now apply andb_true_iff in Hc as [_ Hc]. }
    unfold normalizeCategory at 1.
    rewrite (toUpperCase_name c Hname), (trim_name c Hname), Hd, Hf, Hc. reflexivity.
Qed.

(** Whatever the input, the category returned is a name of two to
    twenty-nine capitals and underscores; in particular it is never
    empty. *)
Theorem normalizeCategory_is_name raw :
  is_category_name (normalizeCategory raw) = true /\
  2 <= strlen (normalizeCategory raw) < 30.
Proof. apply normalizeCategory_name. Qed.

(** Normalizing twice is normalizing once. *)
Theorem normalizeCategory_idempotent raw :
  normalizeCategory (normalizeCategory raw) = normalizeCategory raw.
Proof. apply normalizeCategory_fixed. Qed.

(** *** generateRuleId *)

Lemma all_chars_app p a b :
  all_chars p (a +:+ b) = all_chars p a && all_chars p b.
Proof.
  induction a as [|c a IH]; [now rewrite append_nil_l|].
  rewrite append_cons. simpl. now rewrite IH, andb_assoc.
Qed.

Lemma all_chars_impl (p q : ascii -> bool) s :
  (forall c, p c = true -> q c = true) -> all_chars p s = true -> all_chars q s = true.
Proof.
  intros Hpq. induction s as [|c s IH]; simpl; [reflexivity|].
  intros H. apply andb_true_iff in H as [Hc Hs]. now rewrite (Hpq c Hc), IH.
Qed.

Lemma all_chars_substring0 p n s :
  all_chars p s = true -> all_chars p (substring0 n s) = true.
Proof.
  unfold substring0. revert n. induction s as [|c s IH]; intros [|n] H; simpl; try reflexivity.
  simpl in H. apply andb_true_iff in H as [Hc Hs]. now rewrite Hc, IH.
Qed.

Lemma length_substring0 n s : (String.length (substring0 n s) <= n)%nat.
Proof.
  unfold substring0. revert n. induction s as [|c s IH]; intros [|n]; simpl; try lia.
  specialize (IH n). lia.
Qed.

Lemma replace_spaces_no_space b s :
  all_chars not_space (replace_spaces "_" b s) = true.
Proof.
  revert b. induction s as [|c s IH]; intros b; simpl; [reflexivity|].
  destruct (is_space c) eqn:Hc.
  - destruct b; [apply IH|]. rewrite append_cons, append_nil_l. simpl. apply IH.
  - simpl. unfold not_space at 1. rewrite Hc. apply IH.
Qed.

Lemma digits_of_uint d : all_chars is_digit (NilEmpty.string_of_uint d) = true.
Proof. induction d; simpl; auto. Qed.

Lemma digits_of_nat n : all_chars is_digit (string_of_nat n) = true.
Proof.
  unfold string_of_nat, NilZero.string_of_uint.
  destruct (Nat.to_uint n); try apply (digits_of_uint (Decimal.D0 Decimal.Nil));
    match goal with |- all_chars _ (NilEmpty.string_of_uint ?d) = _ => apply (digits_of_uint d) end.
Qed.

Lemma string_of_nat_nonempty n : string_of_nat n <> EmptyString.
Proof.
  unfold string_of_nat, NilZero.string_of_uint. destruct (Nat.to_uint n); discriminate.
Qed.

Lemma padStart2_digits s : all_chars is_digit s = true -> all_chars is_digit (padStart2 s) = true.
Proof.
  intros H. unfold padStart2. destruct (String.length s) as [|[|k]]; try assumption.
  reflexivity.
Qed.

Lemma length_padStart2 s :
  String.length (padStart2 s) = Nat.max 2 (String.length s).
Proof.
  unfold padStart2. destruct (String.length s) as [|[|k]] eqn:Hl.
  - reflexivity.
  - rewrite length_append, Hl. reflexivity.
  - rewrite Hl. lia.
Qed.

Lemma decimal_value_of_uint d :
  decimal_value (NilZero.string_of_uint d) = Some (Nat.of_uint d).
Proof.
  unfold decimal_value.
  destruct d; [reflexivity|..];
    match goal with
    | |- context [NilZero.string_of_uint ?d] =>
        change (NilZero.string_of_uint d) with (NilEmpty.string_of_uint d);
        now rewrite NilEmpty.usu
    end.
Qed.

Lemma decimal_value_of_nat n : decimal_value (string_of_nat n) = Some n.
Proof.
  unfold string_of_nat. now rewrite decimal_value_of_uint, Unsigned.of_to.
Qed.

(** The number of the identifier reads back as the counter. *)
Lemma decimal_value_num n : decimal_value (padStart2 (string_of_nat n)) = Some n.
Proof.
  unfold padStart2.
  destruct (String.length (string_of_nat n)) as [|[|k]] eqn:Hl.
  - destruct (string_of_nat n) eqn:Hs; [|discriminate].
    now destruct (string_of_nat_nonempty n).
  - rewrite append_cons, append_nil_l.
    pose proof (decimal_value_of_nat n) as Hv. unfold decimal_value in *.
    simpl. destruct (NilEmpty.uint_of_string (string_of_nat n)) as [d|]; [|discriminate].
    simpl in *. exact Hv.
  - apply decimal_value_of_nat.
Qed.

Lemma digit_chars c : is_digit c = true -> not_space c = true /\ not_underscore c = true.
Proof.
  unfold is_digit, not_space, not_underscore, is_space. intros H.
  apply andb_true_iff in H as [H1 H2]. apply Nat.leb_le in H1, H2. split.
  - apply negb_true_iff. repeat (apply orb_false_iff; split).
    + apply andb_false_iff. right. apply Nat.leb_gt. lia.
    + apply Nat.eqb_neq. lia.
    + apply Nat.eqb_neq. lia.
  - apply negb_true_iff. apply Nat.eqb_neq. lia.
Qed.

(** The text after the last underscore is determined by the whole. *)
Lemma last_field x1 x2 d1 d2 :
  all_chars not_underscore d1 = true ->
  all_chars not_underscore d2 = true ->
  x1 +:+ String "_" d1 = x2 +:+ String "_" d2 ->
  d1 = d2.
Proof.
  intros H1 H2. revert x2.
  induction x1 as [|c x1 IH]; intros [|c2 x2] Heq;
    rewrite ?append_nil_l, ?append_cons in Heq.
  - now inversion Heq.
  - inversion Heq as [[Hc Hd]]. rewrite Hd, all_chars_app in H1.
    apply andb_true_iff in H1 as [_ H1]. simpl in H1. discriminate.
  - inversion Heq as [[Hc Hd]]. rewrite <- Hd, all_chars_app in H2.
    apply andb_true_iff in H2 as [_ H2]. simpl in H2. discriminate.
  - inversion Heq as [[Hc Hd]]. now apply (IH x2).
Qed.

Lemma generateRuleId_split cat sub num :
  cat +:+ sub +:+ "_" +:+ num = (cat +:+ sub) +:+ String "_" num.
Proof. now rewrite append_assoc. Qed.

Lemma generateRuleId_counter_aux c1 s1 c2 s2 (n m : nat) :
  n <> m -> generateRuleId c1 s1 n <> generateRuleId c2 s2 m.
Proof.
  intros Hnm Heq. apply Hnm. unfold generateRuleId in Heq.
  rewrite !generateRuleId_split in Heq.
  apply last_field in Heq.
  - pose proof (decimal_value_num n) as Hn. rewrite Heq, decimal_value_num in Hn.
    now inversion Hn.
  - eapply all_chars_impl; [|apply padStart2_digits, digits_of_nat]. apply digit_chars.
  - eapply all_chars_impl; [|apply padStart2_digits, digits_of_nat]. apply digit_chars.
Qed.

(** Identifiers made with different counters differ, whatever the
    categories and subcategories they are made for. *)
Theorem generateRuleId_counter c1 s1 c2 s2 (n m : nat) :
  n <> m -> generateRuleId c1 s1 n <> generateRuleId c2 s2 m.
Proof. apply generateRuleId_counter_aux. Qed.

Lemma generateRuleId_counter_witness :
  generateRuleId "LIABILITY" (Some "CAP") 1 <> generateRuleId "LIABILITY" (Some "CAP_01") 2.
Proof. apply generateRuleId_counter. discriminate. Defined.

(** An identifier holds no white space and is never empty: at most
    twelve characters of the category, at most nine more for the
    subcategory, an underscore and the counter on two digits or more. *)
Theorem generateRuleId_shape category subcategory (index : nat) :
  all_chars not_space (generateRuleId category subcategory index) = true /\
  3 <= strlen (generateRuleId category subcategory index)
    <= 22 + Z.max 2 (strlen (string_of_nat index)).
Proof.
  unfold generateRuleId.
  set (cat := substring0 12 _).
  set (sub := match subcategory with Some _ => _ | None => _ end).
  assert (Hcat : all_chars not_space cat = true /\ (String.length cat <= 12)%nat).
  { split; [apply all_chars_substring0, replace_spaces_no_space | apply length_substring0]. }
  assert (Hsub : all_chars not_space sub = true /\ (String.length sub <= 9)%nat).
  { unfold sub. destruct subcategory as [s|]; [|split; [reflexivity|simpl; lia]].
    destruct (truthy s); [|split; [reflexivity|simpl; lia]].
    rewrite append_cons, append_nil_l. simpl. split.
    - apply all_chars_substring0, replace_spaces_no_space.
    - pose proof (length_substring0 8 (replace_spaces "_" false (toUpperCase s))). lia. }
  destruct Hcat as [Hc1 Hc2], Hsub as [Hs1 Hs2].
  split.
  - rewrite !all_chars_app, Hc1, Hs1. simpl.
    eapply all_chars_impl; [|apply padStart2_digits, digits_of_nat]. apply digit_chars.
  - unfold strlen. rewrite !length_append, length_padStart2. simpl. lia.
Qed.

(** *** The keywords generated for a rule *)

Lemma string_in_false s l : string_in s l = false -> ~ In s l.
Proof.
  unfold string_in. intros H Hin.
  assert (Ht : existsb (String.eqb s) l = true).
  { apply existsb_exists. exists s. split; [assumption | apply String.eqb_refl]. }
  congruence.
Qed.

Lemma span_substring p s :
  all_chars p (substring0 (span p s) s) = true /\
  String.length (substring0 (span p s) s) = span p s.
Proof.
  unfold substring0. induction s as [|c s IH]; simpl; [split; reflexivity|].
  destruct (p c) eqn:Hc; simpl; [|split; reflexivity].
  destruct IH as [IH1 IH2]. rewrite Hc, IH1, IH2. split; reflexivity.
Qed.

Lemma keyword_matches_words skip prev s w :
  In w (keyword_matches skip prev s) ->
  (4 <= String.length w)%nat /\ all_chars is_lower w = true.
Proof.
  revert skip prev. induction s as [|c s IH]; intros skip prev; [intros []|].
  cbn [keyword_matches]. destruct skip as [|k]; [|apply IH].
  destruct (_ && _ && _) eqn:Hm; [|apply IH].
  intros [<-|Hin]; [|eapply IH; eassumption].
  apply andb_true_iff in Hm as [Hm _]. apply andb_true_iff in Hm as [_ Hn].
  apply Nat.leb_le in Hn.
  destruct (span_substring is_lower (String c s)) as [H1 H2].
  rewrite H2. split; assumption.
Qed.

Lemma set_of_spec seen words :
  NoDup (set_of seen words) /\
  forall w, In w (set_of seen words) -> In w words /\ ~ In w seen.
Proof.
  revert seen. induction words as [|x words IH]; intros seen; simpl.
  - split; [constructor | intros w []].
  - destruct (string_in x seen) eqn:Hx.
    + destruct (IH seen) as [IH1 IH2]. split; [assumption|].
      intros w Hw. destruct (IH2 w Hw). split; [now right | assumption].
    + destruct (IH (x :: seen)) as [IH1 IH2]. split.
      * constructor; [|assumption]. intros Hin. apply list_elem_of_In in Hin.
        destruct (IH2 x Hin) as [_ Hn].
        apply Hn. now left.
      * intros w [<-|Hw].
        -- split; [now left | now apply string_in_false].
        -- destruct (IH2 w Hw) as [Ha Hb]. split; [now right|].
           intros Hs. apply Hb. now right.
Qed.

Lemma NoDup_firstn {A} n (l : list A) : NoDup l -> NoDup (firstn n l).
Proof. intros H. eapply sublist_NoDup; [exact H | apply sublist_take]. Qed.

Lemma In_firstn {A} n (l : list A) x : In x (firstn n l) -> In x l.
Proof.
  intros H. rewrite <- (firstn_skipn n l). apply in_or_app. now left.
Qed.

(** At most five keywords are generated, no two alike, each a word of
    four or more lower-case letters that is not a stop word. *)
Lemma extractKeywords_spec rule :
  (length (extractKeywords rule) <= 5)%nat /\
  NoDup (extractKeywords rule) /\
  Forall is_keyword (extractKeywords rule).
Proof.
  unfold extractKeywords.
  set (words := keyword_matches O false _).
  destruct (set_of_spec [] words) as [Hnd Hin].
  split; [apply firstn_le_length|]. split.
  - apply NoDup_firstn, NoDup_ListNoDup, List.NoDup_filter, NoDup_ListNoDup, Hnd.
  - apply List.Forall_forall. intros w Hw. apply In_firstn in Hw.
    apply filter_In in Hw as [Hw Hstop].
    destruct (Hin w Hw) as [Hword _].
    destruct (keyword_matches_words _ _ _ _ Hword) as [H4 Hlow].
    repeat split; try assumption.
    apply string_in_false. now apply negb_true_iff.
Qed.

(** *** One rule *)

Lemma or_else_truthy x d : truthy d = true -> truthy (or_else x d) = true.
Proof. unfold or_else. destruct (truthy x) eqn:Hx; auto. Qed.

Lemma or_else_keep x d : truthy x = true -> or_else x d = x.
Proof. unfold or_else. now intros ->. Qed.

Lemma unique_cons x l : unique (x :: l) <> [].
Proof.
  unfold unique, indexed. cbn [length seq combine List.filter array_indexOf snd fst].
  rewrite String.eqb_refl. simpl. discriminate.
Qed.

Lemma length_zero_nil {A} (l : list A) : (length l =? 0)%nat = true <-> l = [].
Proof. destruct l; simpl; split; congruence. Qed.

Lemma postProcessRule_cleaned counters rule :
  cleaned rule (snd (postProcessRule counters rule)).
Proof.
  unfold postProcessRule. cbn [snd].
  constructor; cbn [topic subcategory clause_number preferred_position reasoning
    fallback_position suggested_drafting category rule_id synonyms signal_keywords
    risk_criteria red yellow green]; try reflexivity.
  - eexists. split; [|reflexivity]. lia.
  - eexists. split; [reflexivity|]. split.
    + intros l0 Hl0 Hne. rewrite Hl0. cbn [default].
      destruct l0; [contradiction|]. reflexivity.
    + intros Htopic. rewrite Htopic.
      destruct (length (default [] (synonyms rule)) =? 0)%nat eqn:Hl; cbn [andb].
      * apply unique_cons.
      * intros Heq. rewrite Heq in Hl. discriminate.
  - eexists. split; [reflexivity|]. split.
    + intros l0 Hl0 Hne. rewrite Hl0. cbn [default].
      destruct l0; [contradiction|]. reflexivity.
    + intros Hnone.
      assert (Hd : default [] (signal_keywords rule) = []) by (destruct Hnone as [-> | ->]; reflexivity).
      rewrite Hd. cbn [length Nat.eqb]. apply extractKeywords_spec.
  - split; [now apply or_else_truthy | apply or_else_keep].
  - split; [now apply or_else_truthy | apply or_else_keep].
  - split; [now apply or_else_truthy | apply or_else_keep].
Qed.

Lemma postProcessFrom_cons counters rule rest :
  postProcessFrom counters (rule :: rest)
  = snd (postProcessRule counters rule)
      :: postProcessFrom (fst (postProcessRule counters rule)) rest.
Proof. reflexivity. Qed.

Lemma postProcessFrom_cleaned counters rules :
  Forall2 cleaned rules (postProcessFrom counters rules).
Proof.
  revert counters. induction rules as [|rule rest IH]; intros counters.
  - constructor.
  - rewrite postProcessFrom_cons. constructor; [apply postProcessRule_cleaned | apply IH].
Qed.

(** The clean-up answers with one rule for each rule given, in the same
    order. Each keeps its topic, subcategory, clause number, positions,
    reasoning and drafting; its category is the normalized one; it has a
    generated identifier, synonyms whenever it has a topic, keywords
    (its own, or at most five generated ones) and three risk texts that
    are not empty (its own where it had them). *)
Theorem postProcessPlaybookRules_cleans rules :
  Forall2 cleaned rules (postProcessPlaybookRules rules).
Proof. apply postProcessFrom_cleaned. Qed.

(** *** Counters and identifiers *)

#[local] Arguments postProcessRule : simpl never.

Lemma postProcessRule_counters counters rule :
  fst (postProcessRule counters rule)
  = <[categoryOf rule := (default 0%nat (counters !! categoryOf rule) + 1)%nat]> counters.
Proof. reflexivity. Qed.

Lemma postProcessRule_id counters rule :
  rule_id (snd (postProcessRule counters rule))
  = Some (generateRuleId (categoryOf rule) (subcategory rule)
            (default 0%nat (counters !! categoryOf rule) + 1)%nat)
  /\ category (snd (postProcessRule counters rule)) = Some (categoryOf rule).
Proof. split; reflexivity. Qed.

(** Every rule made from the counters [counters] carries a counter
    above the one recorded for its category. *)
Lemma postProcessFrom_above counters rules r :
  In r (postProcessFrom counters rules) ->
  exists cat sub k,
    category r = Some cat /\
    rule_id r = Some (generateRuleId cat sub k) /\
    (default 0%nat (counters !! cat) < k)%nat.
Proof.
  revert counters. induction rules as [|rule rest IH]; intros counters; [intros []|].
  rewrite postProcessFrom_cons. intros [<-|Hin].
  - destruct (postProcessRule_id counters rule) as [Hid Hcat].
    exists (categoryOf rule), (subcategory rule), (default 0 (counters !! categoryOf rule) + 1)%nat.
    repeat split; try assumption. lia.
  - destruct (IH _ Hin) as (cat & sub & k & Hcat & Hid & Hk).
    exists cat, sub, k. repeat split; try assumption.
    rewrite postProcessRule_counters in Hk.
    destruct (decide (categoryOf rule = cat)) as [<-|Hne].
    + rewrite lookup_insert_eq in Hk. simpl in Hk. lia.
    + now rewrite lookup_insert_ne in Hk.
Qed.

Lemma postProcessFrom_distinct counters rules (i j : nat) ri rj :
  (i < j)%nat ->
  postProcessFrom counters rules !! i = Some ri ->
  postProcessFrom counters rules !! j = Some rj ->
  category ri = category rj ->
  rule_id ri <> rule_id rj.
Proof.
  revert counters i j. induction rules as [|rule rest IH]; intros counters i j Hij Hi Hj Hcat.
  - discriminate.
  - rewrite postProcessFrom_cons in Hi, Hj.
    destruct j as [|j]; [lia|].
    change (postProcessFrom (fst (postProcessRule counters rule)) rest !! j = Some rj) in Hj.
    destruct i as [|i].
    + change (Some (snd (postProcessRule counters rule)) = Some ri) in Hi.
      assert (Hri : ri = snd (postProcessRule counters rule)) by congruence.
      subst ri. clear Hi.
      destruct (postProcessRule_id counters rule) as [Hid Hc].
      apply list_elem_of_lookup_2, list_elem_of_In in Hj.
      destruct (postProcessFrom_above _ _ _ Hj) as (cat & sub & k & Hcj & Hidj & Hk).
      rewrite Hc, Hcj in Hcat.
      assert (Hcc : cat = categoryOf rule) by congruence. subst cat. clear Hcat.
      rewrite postProcessRule_counters, lookup_insert_eq in Hk.
      assert (Hk' : (default 0 (counters !! categoryOf rule) + 1 < k)%nat) by exact Hk.
      rewrite Hid, Hidj. intros Heq.
      assert (Hg : generateRuleId (categoryOf rule) (subcategory rule)
                     (default 0 (counters !! categoryOf rule) + 1)%nat
                   = generateRuleId (categoryOf rule) sub k) by congruence.
      revert Hg. apply generateRuleId_counter_aux. lia.
    + change (postProcessFrom (fst (postProcessRule counters rule)) rest !! i = Some ri) in Hi.
      apply (IH (fst (postProcessRule counters rule)) i j); try assumption. lia.
Qed.

(** After the clean-up no two rules of the same category carry the same
    identifier. *)
Theorem postProcessPlaybookRules_distinct_ids rules (i j : nat) ri rj :
  i <> j ->
  postProcessPlaybookRules rules !! i = Some ri ->
  postProcessPlaybookRules rules !! j = Some rj ->
  category ri = category rj ->
  rule_id ri <> rule_id rj.
Proof.
  intros Hij Hi Hj Hcat. unfold postProcessPlaybookRules in *.
  destruct (Nat.lt_total i j) as [Hlt|[Heq|Hgt]].
  - now apply (postProcessFrom_distinct ∅ rules i j).
  - contradiction.
  - intros Heq. symmetry in Heq. revert Heq.
    now apply (postProcessFrom_distinct ∅ rules j i).
Qed.

(** *** Running the clean-up again *)

Lemma or_default_name c : is_category_name c = true -> or_default (Some c) "GENERAL" = c.
Proof.
  unfold is_category_name, or_default. intros H. apply andb_true_iff in H as [-> _].
  reflexivity.
Qed.

Lemma categoryOf_cleaned counters rule :
  categoryOf (snd (postProcessRule counters rule)) = categoryOf rule.
Proof.
  unfold categoryOf at 1. unfold postProcessRule. cbn [snd category].
  rewrite or_default_name by apply normalizeCategory_name.
  apply normalizeCategory_fixed.
Qed.

Lemma or_else_twice x d : truthy d = true -> or_else (or_else x d) d = or_else x d.
Proof.
  intros Hd. unfold or_else at 2 3. destruct (truthy x) eqn:Hx.
  - now apply or_else_keep.
  - now apply or_else_keep.
Qed.

Lemma extractKeywords_cleaned counters rule :
  extractKeywords (snd (postProcessRule counters rule)) = extractKeywords rule.
Proof. reflexivity. Qed.

Lemma default_Some {A} (d x : A) : default d (Some x) = x.
Proof. reflexivity. Qed.

Lemma postProcessRule_twice counters rule :
  postProcessRule counters (snd (postProcessRule counters rule))
  = postProcessRule counters rule.
Proof.
  pose proof (categoryOf_cleaned counters rule) as Hcat.
  set (rule1 := snd (postProcessRule counters rule)) in *.
  unfold postProcessRule at 1. fold (categoryOf rule1). rewrite Hcat.
  unfold postProcessRule. fold (categoryOf rule).
  subst rule1. unfold postProcessRule. fold (categoryOf rule).
  cbn [snd subcategory topic synonyms signal_keywords clause_number preferred_position
       reasoning fallback_position suggested_drafting risk_criteria red yellow green].
  rewrite !default_Some.
  f_equal. f_equal.
  - f_equal.
    destruct (length (default [] (synonyms rule)) =? 0)%nat eqn:Hl; cbn [andb].
    + destruct (truthy (topic rule)) eqn:Ht.
      * destruct (unique _) as [|x l] eqn:Hu; [now apply unique_cons in Hu|].
        reflexivity.
      * apply length_zero_nil in Hl. rewrite Hl. reflexivity.
    + rewrite Hl. reflexivity.
  - f_equal.
    destruct (length (default [] (signal_keywords rule)) =? 0)%nat eqn:Hl.
    + change (extractKeywords _) with (extractKeywords rule) at 1.
      destruct (extractKeywords rule) as [|w l] eqn:Hk; [|reflexivity].
      cbn [length Nat.eqb]. exact Hk.
    + rewrite Hl. reflexivity.
  - f_equal; now apply or_else_twice.
Qed.

Lemma postProcessFrom_twice counters rules :
  postProcessFrom counters (postProcessFrom counters rules) = postProcessFrom counters rules.
Proof.
  revert counters. induction rules as [|rule rest IH]; intros counters; [reflexivity|].
  rewrite (postProcessFrom_cons counters rule rest).
  rewrite postProcessFrom_cons, postProcessRule_twice. f_equal. apply IH.
Qed.

(** The clean-up is idempotent: a playbook that went through it comes
    out of a second pass unchanged. *)
Theorem enrichPlaybookWithEmbeddings_idempotent playbook :
  enrichPlaybookWithEmbeddings (enrichPlaybookWithEmbeddings playbook)
  = enrichPlaybookWithEmbeddings playbook.
Proof.
  unfold enrichPlaybookWithEmbeddings. cbn [playbook_name playbook_party rules].
  f_equal. apply postProcessFrom_twice.
Qed.

Lemma postProcessPlaybookRules_distinct_ids_witness :
  exists ri rj,
    postProcessPlaybookRules [toyRule; toyRule] !! 0%nat = Some ri /\
    postProcessPlaybookRules [toyRule; toyRule] !! 1%nat = Some rj /\
    category ri = category rj /\
    rule_id ri <> rule_id rj.
Proof.
  eexists. eexists.
  split; [reflexivity|]. split; [reflexivity|]. split; [reflexivity|].
  apply (postProcessPlaybookRules_distinct_ids [toyRule; toyRule] 0 1);
    [discriminate | reflexivity | reflexivity | reflexivity].
Defined.

End PlaybookFacts.

(** ** The local classification and the rules sent with a batch *)

Module ClassifyFacts.
Import JS JSFacts Gemini GeminiSpec PlaybookSpec ClassifySpec.

(** *** The score table *)

Lemma count_hits_nonneg textLower ws : 0 <= count_hits textLower ws.
Proof. unfold count_hits. destruct ws; lia. Qed.

Lemma ruleScore_pos textLower r : 0 < ruleScore textLower r -> 2 <= ruleScore textLower r.
Proof.
  unfold ruleScore.
  pose proof (count_hits_nonneg textLower (signal_keywords r)).
  pose proof (count_hits_nonneg textLower (synonyms r)). lia.
Qed.

Lemma hits_snoc textLower cat rules r :
  hits textLower cat (rules ++ [r])
  = hits textLower cat rules
      ++ (if String.eqb (categoryOf r) cat && (0 <? ruleScore textLower r) then [r] else []).
Proof. unfold hits. now rewrite List.filter_app. Qed.

Lemma total_snoc textLower rules r :
  total textLower (rules ++ [r]) = total textLower rules + ruleScore textLower r.
Proof.
  unfold total. induction rules as [|x rules IH]; simpl; [lia|]. rewrite IH. lia.
Qed.

Lemma hits_other textLower cat rules r :
  categoryOf r <> cat -> hits textLower cat (rules ++ [r]) = hits textLower cat rules.
Proof.
  intros Hne. rewrite hits_snoc.
  destruct (String.eqb (categoryOf r) cat) eqn:He.
  - apply String.eqb_eq in He. contradiction.
  - simpl. apply app_nil_r.
Qed.

Lemma hits_miss textLower cat rules r :
  (0 <? ruleScore textLower r) = false ->
  hits textLower cat (rules ++ [r]) = hits textLower cat rules.
Proof. intros Hs. rewrite hits_snoc, Hs, andb_false_r. apply app_nil_r. Qed.

Lemma hits_same textLower rules r :
  0 < ruleScore textLower r ->
  hits textLower (categoryOf r) (rules ++ [r]) = hits textLower (categoryOf r) rules ++ [r].
Proof.
  intros Hs. rewrite hits_snoc, String.eqb_refl.
  apply Z.ltb_lt in Hs. now rewrite Hs.
Qed.

(** What [scores_add] does to the table: the entry of the category is
    extended, or a new entry is put at the end. *)
Lemma scores_add_spec scores cat r s :
  NoDup (map cs_category scores) ->
  (In cat (map cs_category scores) ->
     map cs_category (scores_add scores cat r s) = map cs_category scores) /\
  (~ In cat (map cs_category scores) ->
     map cs_category (scores_add scores cat r s) = map cs_category scores ++ [cat]) /\
  (forall e', In e' (scores_add scores cat r s) ->
     (In e' scores /\ cs_category e' <> cat) \/
     (cs_category e' = cat /\
      ((exists e, In e scores /\ cs_category e = cat /\
                  matchingRules e' = matchingRules e ++ [r] /\ score e' = score e + s) \/
       (~ In cat (map cs_category scores) /\ matchingRules e' = [r] /\ score e' = s)))).
Proof.
  induction scores as [|e rest IH]; intros Hnd; simpl.
  - repeat split; try tauto.
    intros e' [<-|[]]. right. simpl. split; [reflexivity|]. right. tauto.
  - apply NoDup_cons in Hnd as [Hhead Hnd]. rewrite list_elem_of_In in Hhead.
    destruct (String.eqb (cs_category e) cat) eqn:He.
    + apply String.eqb_eq in He. simpl. repeat split.
      * intros _. now rewrite He.
      * intros Hn. exfalso. apply Hn. now left.
      * intros e' [<-|Hin].
        -- right. simpl. split; [reflexivity|]. left. exists e. tauto.
        -- left. split; [now right|]. intros Heq. apply Hhead.
           rewrite He, <- Heq. now apply in_map.
    + apply String.eqb_neq in He. destruct (IH Hnd) as (IH1 & IH2 & IH3).
      simpl. repeat split.
      * intros [Heq|Hin]; [contradiction|]. now rewrite IH1.
      * intros Hn. rewrite IH2; [reflexivity|]. tauto.
      * intros e' [<-|Hin]; [left; tauto|].
        destruct (IH3 e' Hin) as [[Ha Hb]|[Ha [(e0 & Hc & Hd & Hf)|(Hc & Hd)]]].
        -- left. tauto.
        -- right. split; [assumption|]. left. exists e0. tauto.
        -- right. split; [assumption|]. right. split; [|assumption]. tauto.
Qed.

Lemma hits_nil_or textLower cat seen scores :
  table_inv textLower seen scores ->
  ~ In cat (map cs_category scores) -> hits textLower cat seen = [].
Proof.
  intros (_ & _ & Hall) Hn. destruct (hits textLower cat seen) eqn:Hh; [reflexivity|].
  exfalso. apply Hn, Hall. rewrite Hh. discriminate.
Qed.

Lemma table_inv_hit textLower seen scores r :
  table_inv textLower seen scores ->
  0 < ruleScore textLower r ->
  table_inv textLower (seen ++ [r])
    (scores_add scores (categoryOf r) r (ruleScore textLower r)).
Proof.
  intros Hinv Hs. pose proof Hinv as (Hnd & Hws & Hall).
  destruct (scores_add_spec scores (categoryOf r) r (ruleScore textLower r) Hnd)
    as (Hin & Hout & Hel).
  assert (Hdec : In (categoryOf r) (map cs_category scores)
                 \/ ~ In (categoryOf r) (map cs_category scores)).
  { destruct (string_in (categoryOf r) (map cs_category scores)) eqn:Hd.
    - left. now apply PlaybookFacts.string_in_In.
    - right. now apply PlaybookFacts.string_in_false. }
  split; [|split].
  - destruct Hdec as [Hd|Hd]; [now rewrite Hin|].
    rewrite (Hout Hd). apply NoDup_app. split; [assumption|]. split.
    + intros x Hx Hr. apply list_elem_of_In in Hr as [Hr|[]]. subst x.
      apply Hd. now apply list_elem_of_In.
    + apply NoDup_singleton.
  - apply List.Forall_forall. intros e' He'.
    rewrite List.Forall_forall in Hws.
    destruct (Hel e' He') as [[Ha Hb]|[Ha [(e0 & Hc & Hd & Hf & Hg)|(Hc & Hd & Hf)]]].
    + destruct (Hws e' Ha) as (H1 & H2 & H3 & H4).
      unfold well_scored. rewrite hits_other by congruence. tauto.
    + destruct (Hws e0 Hc) as (H1 & H2 & H3 & H4).
      unfold well_scored. rewrite Ha, hits_same, <- Hd, <- H1, Hf, Hg by assumption.
      rewrite total_snoc, H3. repeat split; try lia.
      destruct (matchingRules e0); discriminate.
    + unfold well_scored. rewrite Ha, hits_same by assumption.
      rewrite (hits_nil_or _ _ _ _ Hinv Hc), Hd, Hf. simpl.
      pose proof (ruleScore_pos _ _ Hs). repeat split; try lia. discriminate.
  - intros cat Hcat. rewrite hits_snoc in Hcat.
    destruct (String.eqb (categoryOf r) cat) eqn:He.
    + apply String.eqb_eq in He. subst cat.
      destruct Hdec as [Hd|Hd]; [now rewrite Hin|].
      rewrite (Hout Hd). apply in_or_app. right. now left.
    + simpl in Hcat. rewrite app_nil_r in Hcat. specialize (Hall cat Hcat).
      destruct Hdec as [Hd|Hd]; [now rewrite Hin|].
      rewrite (Hout Hd). apply in_or_app. now left.
Qed.

Lemma table_inv_miss textLower seen scores r :
  table_inv textLower seen scores ->
  (0 <? ruleScore textLower r) = false ->
  table_inv textLower (seen ++ [r]) scores.
Proof.
  intros (Hnd & Hws & Hall) Hs. split; [assumption|]. split.
  - eapply List.Forall_impl; [|exact Hws]. intros e (H1 & H2 & H3 & H4).
    unfold well_scored. rewrite hits_miss by assumption. tauto.
  - intros cat. rewrite hits_miss by assumption. apply Hall.
Qed.

Lemma table_inv_fold textLower rules : forall seen scores,
  table_inv textLower seen scores ->
  table_inv textLower (seen ++ rules)
    (fold_left
       (fun scores rule =>
          let cat := normalizeCategory (or_default (category rule) "GENERAL") in
          let s := ruleScore textLower rule in
          if 0 <? s then scores_add scores cat rule s else scores)
       rules scores).
Proof.
  induction rules as [|r rules IH]; intros seen scores Hinv; simpl.
  - now rewrite app_nil_r.
  - replace (seen ++ r :: rules) with ((seen ++ [r]) ++ rules) by now rewrite <- app_assoc.
    apply IH. destruct (0 <? ruleScore textLower r) eqn:Hs.
    + apply Z.ltb_lt in Hs. now apply (table_inv_hit textLower seen scores r).
    + now apply table_inv_miss.
Qed.

(** *** The ranking *)

Lemma insert_by_score_perm x l : Permutation (insert_by_score x l) (x :: l).
Proof.
  induction l as [|y l IH]; simpl; [reflexivity|].
  destruct (score y <=? score x); [reflexivity|].
  rewrite IH. apply perm_swap.
Qed.

Lemma sort_by_score_perm l : Permutation (sort_by_score l) l.
Proof.
  unfold sort_by_score. induction l as [|x l IH]; simpl; [reflexivity|].
  now rewrite insert_by_score_perm, IH.
Qed.

Lemma descending_cons x l :
  descending (x :: l) <-> (forall y, head l = Some y -> y <= x) /\ descending l.
Proof.
  destruct l as [|y l]; simpl; split.
  - intros _. split; [discriminate | exact I].
  - tauto.
  - intros [H1 H2]. split; [|assumption]. intros y' Hy. now inversion Hy; subst.
  - intros [H1 H2]. split; [|assumption]. now apply H1.
Qed.

Lemma insert_by_score_descending x l :
  descending (map score l) -> descending (map score (insert_by_score x l)).
Proof.
  induction l as [|y l IH]; intros Hd; [exact I|].
  cbn [insert_by_score]. destruct (score y <=? score x) eqn:Hc.
  - apply Z.leb_le in Hc. cbn [map]. apply descending_cons. split; [|assumption].
    intros z Hz. simpl in Hz. now inversion Hz; subst.
  - apply Z.leb_gt in Hc. cbn [map] in *. apply descending_cons in Hd as [Hhd Hd].
    apply descending_cons. split; [|now apply IH].
    intros z Hz. destruct l as [|y' l'].
    + simpl in Hz. inversion Hz; subst. lia.
    + cbn [insert_by_score] in Hz. destruct (score y' <=? score x).
      * simpl in Hz. inversion Hz; subst. lia.
      * simpl in Hz. inversion Hz; subst. apply Hhd. reflexivity.
Qed.

Lemma sort_by_score_descending l : descending (map score (sort_by_score l)).
Proof.
  unfold sort_by_score. induction l as [|x l IH]; simpl; [exact I|].
  now apply insert_by_score_descending.
Qed.

Lemma descending_firstn n l : descending l -> descending (firstn n l).
Proof.
  revert n. induction l as [|x l IH]; intros [|n] Hd; try exact I.
  cbn [firstn]. apply descending_cons in Hd as [Hhd Hd]. apply descending_cons.
  split; [|now apply IH]. intros y Hy. apply Hhd.
  destruct l as [|z l], n as [|n]; simpl in *; congruence.
Qed.

Lemma classifyClauseLocally_ranked clauseText rules :
  (length (classifyClauseLocally clauseText rules) <= 5)%nat /\
  descending (map score (classifyClauseLocally clauseText rules)) /\
  NoDup (map cs_category (classifyClauseLocally clauseText rules)) /\
  Forall (well_scored (toLowerCase clauseText) rules) (classifyClauseLocally clauseText rules).
Proof.
  unfold classifyClauseLocally.
  set (scores := fold_left _ rules []).
  assert (Hinv : table_inv (toLowerCase clauseText) rules scores).
  { apply (table_inv_fold (toLowerCase clauseText) rules [] []).
    split; [constructor|]. split; [constructor|]. intros cat H. now contradiction H. }
  destruct Hinv as (Hnd & Hws & _).
  split; [apply firstn_le_length|]. split; [|split].
  - rewrite <- firstn_map. apply descending_firstn, sort_by_score_descending.
  - rewrite <- firstn_map. apply PlaybookFacts.NoDup_firstn.
    assert (Hp : Permutation (map cs_category (sort_by_score scores))
                             (map cs_category scores))
      by apply Permutation_map, sort_by_score_perm.
    rewrite Hp. exact Hnd.
  - apply List.Forall_forall. intros e He. apply PlaybookFacts.In_firstn in He.
    rewrite List.Forall_forall in Hws. apply Hws.
    eapply Permutation_in; [apply sort_by_score_perm | exact He].
Qed.

(** The ranking holds at most five entries, in descending order of
    score and for pairwise distinct categories; every entry holds
    exactly the rules of its category, as normalized, that the
    lower-cased text hits, at least one, and its score is their total,
    two or more. *)
Theorem classifyClauseLocally_ranking clauseText rules :
  (length (classifyClauseLocally clauseText rules) <= 5)%nat /\
  descending (map score (classifyClauseLocally clauseText rules)) /\
  NoDup (map cs_category (classifyClauseLocally clauseText rules)) /\
  Forall (well_scored (toLowerCase clauseText) rules) (classifyClauseLocally clauseText rules).
Proof. apply classifyClauseLocally_ranked. Qed.

(** *** The rules sent with a batch *)

Lemma maxOf_nil_only (xs : list Z) : max_lt (maxOf xs) 4 = false -> xs <> [].
Proof. intros H ->. discriminate. Qed.

Lemma In_hits textLower cat rules r :
  In r (hits textLower cat rules) -> In r rules /\ 0 < ruleScore textLower r.
Proof.
  unfold hits. intros H. apply filter_In in H as [Hin Hc].
  apply andb_true_iff in Hc as [_ Hs]. apply Z.ltb_lt in Hs. tauto.
Qed.

(** A batch that passes the relevance threshold is sent with between
    one and five rules, each of them a rule of the playbook that the text
    of the batch hits: the fall-back to the first five rules of the
    playbook is never taken for a batch that is sent. *)
Lemma batchParams_selected playbook party testConfig chunk :
  max_lt (batchMaxScore playbook chunk) 4 = false ->
  selected_rules playbook party (batchParams playbook party testConfig chunk).
Proof.
  unfold batchMaxScore, batchParams, selected_rules. cbn [gp_party gp_rules gp_segment].
  set (cats := classifyClauseLocally (stripClauseTags chunk) (rules playbook)).
  intros Hmax.
  destruct (classifyClauseLocally_ranked (stripClauseTags chunk) (rules playbook))
    as (_ & _ & _ & Hws).
  fold cats in Hws. rewrite List.Forall_forall in Hws.
  apply maxOf_nil_only in Hmax.
  destruct cats as [|e cats'] eqn:Hcats; [contradiction|].
  destruct (Hws e (or_introl eq_refl)) as (_ & Hne & _ & _).
  set (relevantRules := firstn 5 (flat_map matchingRules (e :: cats'))).
  assert (Hlen : (1 <= length relevantRules <= 5)%nat).
  { unfold relevantRules. split; [|apply firstn_le_length].
    cbn [flat_map]. destruct (matchingRules e) as [|r rs]; [contradiction|].
    simpl. lia. }
  assert (Hpos : (0 <? length relevantRules)%nat = true) by (apply Nat.ltb_lt; lia).
  rewrite Hpos. split; [reflexivity|]. split; [assumption|].
  apply List.Forall_forall. intros r Hr. unfold relevantRules in Hr.
  apply PlaybookFacts.In_firstn, in_flat_map in Hr as (e' & He' & Hr).
  destruct (Hws e' He') as (Hm & _).
  rewrite Hm in Hr. now apply In_hits in Hr.
Qed.

Section Requests.

Variable Service : Type.
Variable generateContent : Service -> GenParams -> Service * (Response + ApiError).
Variable IRParsedClause : Type.
Variable parseIR : string -> list IRParsedClause.
Variable mapIRToFindings : list IRParsedClause -> list AnalysisFinding.

Abbreviation retry := (generateContentWithRetry Service generateContent).
Abbreviation batchStep :=
  (batchStep Service generateContent IRParsedClause parseIR mapIRToFindings).
Abbreviation analyzeDocumentWithGemini :=
  (analyzeDocumentWithGemini Service generateContent IRParsedClause parseIR mapIRToFindings).

(** Every attempt of a retried call sends the same request. *)
Lemma retry_requests (n : nat) : forall svc params p,
  In (EvRequest p) (snd (fst (retry svc params n))) -> p = params.
Proof.
  induction n as [|n IH]; intros svc params p; cbn [generateContentWithRetry].
  - destruct (generateContent svc params) as [svc1 [resp|e]]; simpl;
      intros [H|[H|[]]]; congruence.
  - destruct (generateContent svc params) as [svc1 [resp|e]] eqn:Hcall.
    + simpl. intros [H|[H|[]]]; congruence.
    + destruct (isRateLimit e || isServerError e).
      * specialize (IH svc1 params p).
        destruct (retry svc1 params n) as [[svc2 tr] r]. simpl in *.
        intros [H|[H|[H|[H|H]]]]; try congruence. now apply IH.
      * simpl. intros [H|[H|[]]]; congruence.
Qed.

#[local] Arguments generateContentWithRetry : simpl never.

Lemma mergeFinding_requests (fs : list AnalysisFinding) : forall (st : runState Service) p,
  In (EvRequest p) (trace (fold_left mergeFinding fs st)) -> In (EvRequest p) (trace st).
Proof.
  induction fs as [|f fs IH]; intros st p; simpl; [tauto|].
  intros H. apply IH in H.
  destruct (DispatchFacts.mergeFinding_cases Service st f) as [[_ Ht]|[_ (ev & Hev & Ht)]];
    rewrite Ht in H; [assumption|].
  apply in_app_or in H as [H|[H|[]]]; [assumption|].
  subst ev. contradiction.
Qed.

Lemma batchStep_requests playbook party testConfig (st : runState Service) ic p :
  In (EvRequest p) (trace (batchStep playbook party testConfig st ic)) ->
  In (EvRequest p) (trace st) \/ selected_rules playbook party p.
Proof.
  unfold Gemini.batchStep, batchBody.
  destruct (max_lt (batchMaxScore playbook (snd ic)) 4) eqn:Hmax.
  - simpl. intros H. apply in_app_or in H as [H|[H|[]]]; [now left | discriminate].
  - pose proof (retry_requests 3 (svc st)
                  (batchParams playbook party testConfig (snd ic)) p) as Hreq.
    destruct (retry (svc st) (batchParams playbook party testConfig (snd ic)) 3)
      as [[svc1 tr] [response|e]]; cbn [fst snd] in Hreq.
    + intros H. apply mergeFinding_requests in H. simpl in H.
      apply in_app_or in H as [H|H]; [now left|]. right.
      rewrite (Hreq H). now apply batchParams_selected.
    + simpl. intros H. apply in_app_or in H as [H|[H|[]]]; [|discriminate].
      apply in_app_or in H as [H|H]; [now left|]. right.
      rewrite (Hreq H). now apply batchParams_selected.
Qed.

Lemma batches_requests playbook party testConfig (batches : list (nat * string)) :
  forall (st : runState Service) p,
    In (EvRequest p) (trace (fold_left (batchStep playbook party testConfig) batches st)) ->
    In (EvRequest p) (trace st) \/ selected_rules playbook party p.
Proof.
  induction batches as [|ic rest IH]; intros st p; simpl; [tauto|].
  intros H. apply IH in H as [H|H]; [|now right].
  now apply batchStep_requests in H.
Qed.

(** Whatever the service answers, every request of a run is made for
    the party of the run and carries between one and five rules of the
    playbook, each hit by the text of the batch it is sent with. *)
Theorem requests_carry_selected_rules svc0 document playbook party testConfig p :
  In (EvRequest p)
     (trace (analyzeDocumentWithGemini svc0 document playbook party testConfig)) ->
  selected_rules playbook party p.
Proof.
  unfold Gemini.analyzeDocumentWithGemini, analyzeChunks. intros H.
  apply batches_requests in H as [[]|H]. exact H.
Qed.

(** *** The number of requests *)

Lemma requests_app (a b : list event) : requests (a ++ b) = (requests a + requests b)%nat.
Proof. unfold requests. now rewrite List.filter_app, length_app. Qed.

Lemma requests_single ev :
  requests [ev] = if is_request ev then 1%nat else 0%nat.
Proof. unfold requests. simpl. now destruct (is_request ev). Qed.

Lemma mergeFinding_request_count (fs : list AnalysisFinding) : forall st : runState Service,
  requests (trace (fold_left mergeFinding fs st)) = requests (trace st).
Proof.
  induction fs as [|f fs IH]; intros st; simpl; [reflexivity|].
  rewrite IH.
  destruct (DispatchFacts.mergeFinding_cases Service st f) as [[_ Ht]|[_ (ev & Hev & Ht)]];
    rewrite Ht; [reflexivity|].
  rewrite requests_app, requests_single.
  destruct ev; simpl in Hev; try contradiction; simpl; lia.
Qed.

Lemma batchStep_request_count playbook party testConfig (st : runState Service) ic :
  (requests (trace (batchStep playbook party testConfig st ic))
   <= requests (trace st) + 4)%nat.
Proof.
  unfold Gemini.batchStep, batchBody.
  destruct (max_lt (batchMaxScore playbook (snd ic)) 4) eqn:Hmax.
  - cbn [log trace]. rewrite requests_app, requests_single. simpl. lia.
  - destruct (DispatchFacts.retry_spec Service generateContent 3 (svc st)
                (batchParams playbook party testConfig (snd ic)))
      as (k & Hk & _ & _ & _ & _ & Hreq & _).
    destruct (retry (svc st) (batchParams playbook party testConfig (snd ic)) 3)
      as [[svc1 tr] [response|e]]; cbn [fst snd] in Hreq.
    + rewrite mergeFinding_request_count. cbn [with_call trace].
      rewrite requests_app, Hreq. lia.
    + cbn [log with_call trace]. rewrite !requests_app, requests_single, Hreq.
      simpl. lia.
Qed.

Lemma batches_request_count playbook party testConfig (batches : list (nat * string)) :
  forall st : runState Service,
    (requests (trace (fold_left (batchStep playbook party testConfig) batches st))
     <= requests (trace st) + 4 * length batches)%nat.
Proof.
  induction batches as [|ic rest IH]; intros st; simpl; [lia|].
  specialize (IH (batchStep playbook party testConfig st ic)).
  pose proof (batchStep_request_count playbook party testConfig st ic). lia.
Qed.

Lemma length_concat_nonempty {A} (groups : list (list A)) :
  Forall (fun g => g <> []) groups -> (length groups <= length (concat groups))%nat.
Proof.
  induction groups as [|g gs IH]; intros H; simpl; [lia|].
  inversion H as [|? ? Hg Hgs]; subst. rewrite length_app.
  specialize (IH Hgs). destruct g; [contradiction|]. simpl. lia.
Qed.

(** A run makes at most four requests for each batch, and there are at
    most as many batches as blocks: the number of remote calls never
    exceeds four times the number of blocks of the document. *)
Theorem requests_bounded_by_blocks svc0 document playbook party testConfig :
  (requests (trace (analyzeDocumentWithGemini svc0 document playbook party testConfig))
   <= 4 * length (createChunks document))%nat /\
  (length (createChunks document) <= length (paragraphs document))%nat.
Proof.
  split.
  - unfold Gemini.analyzeDocumentWithGemini, analyzeChunks.
    pose proof (batches_request_count playbook party testConfig
                  (indexed (createChunks document))
                  {| svc := svc0; allFindings := []; seenIds := ∅;
                     seenTextHashes := ∅; trace := [] |}) as H.
    unfold indexed in H at 2. rewrite length_combine, length_seq, Nat.min_id in H.
    exact H.
  - destruct (ChunkerFacts.createChunks_groups document) as (groups & Hcat & Hch & Hgood).
    rewrite Hch, length_map, <- Hcat. apply length_concat_nonempty.
    eapply List.Forall_impl; [|exact Hgood]. intros g Hg. apply Hg.
Qed.

End Requests.

Lemma requests_carry_selected_rules_witness :
  selected_rules toyPlaybook "Customer"
    (batchParams toyPlaybook "Customer" None
       (nth 0 (createChunks (toyDocument 1)) EmptyString)).
Proof.
  apply (requests_carry_selected_rules nat toyService AnalysisFinding toyParse (fun l => l)
           0%nat (toyDocument 1) toyPlaybook "Customer" None).
  vm_compute. left. reflexivity.
Defined.

(** *** The relevance threshold *)

Lemma max_lt_fold (xs : list Z) : forall acc : option Z,
  max_lt (fold_left (fun m x => match m with Some y => Some (Z.max y x) | None => Some x end)
            xs acc) 4 = false
  <-> max_lt acc 4 = false \/ exists x, In x xs /\ 4 <= x.
Proof.
  induction xs as [|x xs IH]; intros acc; cbn [fold_left].
  - split; [now left | intros [H|(x & [] & _)]; exact H].
  - rewrite IH. split.
    + intros [H|(y & Hy & Hge)].
      * destruct acc as [a|]; cbn [max_lt] in *.
        -- apply Z.ltb_ge in H. destruct (Z.max_spec a x) as [[_ Hm]|[_ Hm]]; rewrite Hm in H.
           ++ right. exists x. split; [now left | exact H].
           ++ left. now apply Z.ltb_ge.
        -- apply Z.ltb_ge in H. right. exists x. split; [now left | exact H].
      * right. exists y. split; [now right | exact Hge].
    + intros [H|(y & [<-|Hy] & Hge)].
      * left. destruct acc as [a|]; cbn [max_lt] in *; [|discriminate].
        apply Z.ltb_ge in H. apply Z.ltb_ge. lia.
      * left. destruct acc as [a|]; cbn [max_lt]; apply Z.ltb_ge; lia.
      * right. exists y. split; assumption.
Qed.

Lemma max_lt_maxOf (xs : list Z) :
  max_lt (maxOf xs) 4 = false <-> exists x, In x xs /\ 4 <= x.
Proof.
  unfold maxOf. rewrite max_lt_fold. cbn [max_lt]. split; [|now right].
  intros [H|H]; [discriminate | exact H].
Qed.

Lemma descending_head (h : Z) (l : list Z) :
  descending (h :: l) -> forall x, In x (h :: l) -> x <= h.
Proof.
  revert h. induction l as [|y l IH]; intros h Hd x [<-|Hx]; try lia; try contradiction.
  apply descending_cons in Hd as [Hhd Hd].
  specialize (Hhd y eq_refl). specialize (IH y Hd x Hx). lia.
Qed.

Lemma total_nil textLower : total textLower [] = 0.
Proof. reflexivity. Qed.

Lemma batchMaxScore_relevant playbook chunk :
  max_lt (batchMaxScore playbook chunk) 4 = false <-> relevant playbook chunk.
Proof.
  unfold batchMaxScore, relevant. rewrite max_lt_maxOf.
  set (text := stripClauseTags chunk). split.
  - intros (x & Hx & Hge). apply in_map_iff in Hx as (e & <- & He).
    destruct (classifyClauseLocally_ranked text (rules playbook)) as (_ & _ & _ & Hws).
    rewrite List.Forall_forall in Hws. destruct (Hws e He) as (Hm & _ & Hs & _).
    exists (cs_category e). now rewrite <- Hm, <- Hs.
  - intros (cat & Hge). unfold classifyClauseLocally.
    set (scores := fold_left _ (rules playbook) []).
    assert (Hinv : table_inv (toLowerCase text) (rules playbook) scores).
    { apply (table_inv_fold (toLowerCase text) (rules playbook) [] []).
      split; [constructor|]. split; [constructor|]. intros c H. now contradiction H. }
    destruct Hinv as (_ & Hws & Hall).
    assert (Hne : hits (toLowerCase text) cat (rules playbook) <> []).
    { intros Hnil. rewrite Hnil, total_nil in Hge. lia. }
    apply Hall, in_map_iff in Hne as (e & Hcat & He).
    rewrite List.Forall_forall in Hws. destruct (Hws e He) as (Hm & _ & Hs & _).
    assert (Hscore : 4 <= score e) by (rewrite Hs, Hm, Hcat; exact Hge).
    assert (Hsorted : In e (sort_by_score scores))
      by (eapply Permutation_in; [symmetry; apply sort_by_score_perm | exact He]).
    pose proof (sort_by_score_descending scores) as Hd.
    destruct (sort_by_score scores) as [|h l]; [contradiction|].
    exists (score h). split; [cbn [firstn map]; now left|].
    pose proof (descending_head (score h) (map score l) Hd (score e)
                  (in_map score (h :: l) e Hsorted)). lia.
Qed.

(** A batch passes the relevance threshold exactly when the rules
    of one category that its text hits, tags removed and lower-cased,
    total four points or more; the cut of the ranking to five entries
    never hides such a category. *)
Theorem relevance_threshold (playbook : Playbook) (chunk : string) :
  max_lt (batchMaxScore playbook chunk) 4 = false <-> relevant playbook chunk.
Proof. apply batchMaxScore_relevant. Qed.

Section Gate.

Variable Service : Type.
Variable generateContent : Service -> GenParams -> Service * (Response + ApiError).
Variable IRParsedClause : Type.
Variable parseIR : string -> list IRParsedClause.
Variable mapIRToFindings : list IRParsedClause -> list AnalysisFinding.

Lemma skipped_batches playbook party testConfig (batches : list (nat * string)) :
  forall st : runState Service,
    (forall ic, In ic batches -> ~ relevant playbook (snd ic)) ->
    let st' := fold_left
                 (Gemini.batchStep Service generateContent IRParsedClause parseIR
                    mapIRToFindings playbook party testConfig) batches st in
    svc st' = svc st /\
    allFindings st' = allFindings st /\
    trace st' = trace st
                  ++ map (fun ic => EvSkipBatch (fst ic) (batchMaxScore playbook (snd ic)))
                       batches.
Proof.
  induction batches as [|ic rest IH]; intros st Hirr; cbn [fold_left map].
  - now rewrite app_nil_r.
  - assert (Hskip : max_lt (batchMaxScore playbook (snd ic)) 4 = true).
    { destruct (max_lt (batchMaxScore playbook (snd ic)) 4) eqn:Hm; [reflexivity|].
      apply batchMaxScore_relevant in Hm. exfalso. apply (Hirr ic); [now left | exact Hm]. }
    assert (Hstep : Gemini.batchStep Service generateContent IRParsedClause parseIR
                      mapIRToFindings playbook party testConfig st ic
                    = log st [EvSkipBatch (fst ic) (batchMaxScore playbook (snd ic))]).
    { unfold Gemini.batchStep, batchBody. now rewrite Hskip. }
    rewrite Hstep.
    destruct (IH (log st [EvSkipBatch (fst ic) (batchMaxScore playbook (snd ic))]))
      as (Hsvc & Hfind & Htrace).
    { intros ic' Hin. apply Hirr. now right. }
    split; [exact Hsvc|]. split; [exact Hfind|].
    rewrite Htrace. cbn [log trace]. now rewrite <- app_assoc.
Qed.

(** A document without relevant text costs nothing: when no
    chunk of the document is relevant for the playbook (as for a
    playbook without rules), the run sends no request, leaves the
    service as it was, returns no finding, and logs one skipped batch
    per chunk, in order, with its score. *)
Theorem irrelevant_document_no_call svc0 document playbook party testConfig :
  (forall chunk, In chunk (createChunks document) -> ~ relevant playbook chunk) ->
  let run := Gemini.analyzeDocumentWithGemini Service generateContent IRParsedClause
               parseIR mapIRToFindings svc0 document playbook party testConfig in
  svc run = svc0 /\
  allFindings run = [] /\
  trace run = map (fun ic => EvSkipBatch (fst ic) (batchMaxScore playbook (snd ic)))
                (indexed (createChunks document)).
Proof.
  intros Hirr. unfold Gemini.analyzeDocumentWithGemini, analyzeChunks.
  apply (skipped_batches playbook party testConfig (indexed (createChunks document))
           {| svc := svc0; allFindings := []; seenIds := ∅; seenTextHashes := ∅;
              trace := [] |}).
  intros [i chunk] Hin. apply Hirr. unfold indexed in Hin.
  now apply in_combine_r in Hin.
Qed.

End Gate.

Lemma irrelevant_document_no_call_witness :
  let playbook := {| playbook_name := "P"; playbook_party := "Customer"; rules := [] |} in
  let run := Gemini.analyzeDocumentWithGemini nat toyService AnalysisFinding toyParse
               (fun l => l) 0%nat (toyDocument 1) playbook "Customer" None in
  (forall chunk, In chunk (createChunks (toyDocument 1)) -> ~ relevant playbook chunk) /\
  svc run = 0%nat /\
  allFindings run = [] /\
  trace run = map (fun ic => EvSkipBatch (fst ic) (batchMaxScore playbook (snd ic)))
                (indexed (createChunks (toyDocument 1))).
Proof.
  intros playbook run.
  assert (H : forall chunk, In chunk (createChunks (toyDocument 1)) ->
                            ~ relevant playbook chunk).
  { intros chunk _ (cat & Hge). cbn [rules playbook hits List.filter] in Hge.
    rewrite total_nil in Hge. lia. }
  split; [exact H|].
  exact (irrelevant_document_no_call nat toyService AnalysisFinding toyParse (fun l => l)
           0%nat (toyDocument 1) playbook "Customer" None H).
Defined.

(** *** The order of the requests *)

Lemma segments_app (a b : list event) : segments (a ++ b) = segments a ++ segments b.
Proof. unfold segments. apply flat_map_app. Qed.

Lemma map_snd_indexed {A} (l : list A) : map snd (indexed l) = l.
Proof.
  unfold indexed. generalize 0%nat. induction l as [|x l IH]; intros n; [reflexivity|].
  cbn [length seq combine map snd]. now rewrite IH.
Qed.

Section Order.

Variable Service : Type.
Variable generateContent : Service -> GenParams -> Service * (Response + ApiError).
Variable IRParsedClause : Type.
Variable parseIR : string -> list IRParsedClause.
Variable mapIRToFindings : list IRParsedClause -> list AnalysisFinding.

Lemma retry_segments (n : nat) : forall svc params,
  exists k, (1 <= k <= S n)%nat /\
    segments (snd (fst (generateContentWithRetry Service generateContent svc params n)))
    = repeat (gp_segment params) k.
Proof.
  induction n as [|n IH]; intros svc params; cbn [generateContentWithRetry].
  - exists 1%nat. split; [lia|].
    destruct (generateContent svc params) as [svc1 [resp|e]]; reflexivity.
  - destruct (generateContent svc params) as [svc1 [resp|e]].
    + exists 1%nat. split; [lia | reflexivity].
    + destruct (isRateLimit e || isServerError e).
      * destruct (IH svc1 params) as (k & Hk & Hseg).
        destruct (generateContentWithRetry Service generateContent svc1 params n)
          as [[svc2 tr] r].
        cbn [fst snd] in Hseg |- *. exists (S k). split; [lia|].
        change (segments ([EvRequest params; EvSettled false;
                           EvRetryWarning (err_status e) (backoff (S n));
                           EvDelay (backoff (S n))] ++ tr))
          with (gp_segment params :: segments tr).
        now rewrite Hseg.
      * exists 1%nat. split; [lia | reflexivity].
Qed.

Lemma mergeFinding_segments (fs : list AnalysisFinding) : forall st : runState Service,
  segments (trace (fold_left mergeFinding fs st)) = segments (trace st).
Proof.
  induction fs as [|f fs IH]; intros st; simpl; [reflexivity|].
  rewrite IH.
  destruct (DispatchFacts.mergeFinding_cases Service st f) as [[_ Ht]|[_ (ev & Hev & Ht)]];
    rewrite Ht; [reflexivity|].
  rewrite segments_app.
  destruct ev; simpl in Hev; try contradiction; simpl; now rewrite app_nil_r.
Qed.

Lemma batchStep_segments playbook party testConfig (st : runState Service) i chunk :
  exists k,
    (k <= 4)%nat /\
    (k = 0%nat <-> ~ relevant playbook chunk) /\
    segments (trace (Gemini.batchStep Service generateContent IRParsedClause parseIR
                       mapIRToFindings playbook party testConfig st (i, chunk)))
    = segments (trace st) ++ repeat chunk k.
Proof.
  unfold Gemini.batchStep, batchBody. cbn [fst snd].
  destruct (max_lt (batchMaxScore playbook chunk) 4) eqn:Hmax.
  - exists 0%nat. split; [lia|]. split.
    + split; [|reflexivity]. intros _ Hrel.
      apply batchMaxScore_relevant in Hrel. congruence.
    + cbn [log trace repeat]. now rewrite segments_app.
  - destruct (retry_segments 3 (svc st) (batchParams playbook party testConfig chunk))
      as (k & Hk & Hseg).
    exists k. split; [lia|]. split.
    + split; [lia|]. intros Hirr. exfalso. apply Hirr.
      now apply batchMaxScore_relevant.
    + destruct (generateContentWithRetry Service generateContent (svc st)
                  (batchParams playbook party testConfig chunk) 3)
        as [[svc1 tr] [response|e]]; cbn [fst snd] in Hseg.
      * rewrite mergeFinding_segments. cbn [with_call trace].
        now rewrite segments_app, Hseg.
      * cbn [log with_call trace]. rewrite !segments_app, Hseg.
        cbn [segments flat_map]. now rewrite !app_nil_r.
Qed.

Lemma batches_segments playbook party testConfig (batches : list (nat * string)) :
  forall st : runState Service,
    exists ks,
      Forall2 (fun k chunk => (k <= 4)%nat /\ (k = 0%nat <-> ~ relevant playbook chunk))
              ks (map snd batches) /\
      segments (trace (fold_left
                         (Gemini.batchStep Service generateContent IRParsedClause parseIR
                            mapIRToFindings playbook party testConfig) batches st))
      = segments (trace st) ++ attempted ks (map snd batches).
Proof.
  induction batches as [|[i chunk] rest IH]; intros st; cbn [fold_left map snd].
  - exists []. split; [constructor|]. unfold attempted. cbn. now rewrite app_nil_r.
  - destruct (batchStep_segments playbook party testConfig st i chunk)
      as (k & Hk & Hrel & Hseg).
    destruct (IH (Gemini.batchStep Service generateContent IRParsedClause parseIR
                    mapIRToFindings playbook party testConfig st (i, chunk)))
      as (ks & Hks & Hrest).
    exists (k :: ks). split; [constructor; [split; assumption | exact Hks]|].
    rewrite Hrest, Hseg. unfold attempted. cbn [combine flat_map fst snd].
    now rewrite <- app_assoc.
Qed.

(** The requests of a run follow the document: their document
    segments, in the order sent, are the chunks of [createChunks] in
    order, each one as many times as it was attempted; a chunk that is
    not relevant is never sent, a relevant one is sent at least once
    and at most four times, whatever the service answers. *)
Theorem requests_follow_chunks svc0 document playbook party testConfig :
  exists ks : list nat,
    Forall2 (fun k chunk => (k <= 4)%nat /\ (k = 0%nat <-> ~ relevant playbook chunk))
            ks (createChunks document) /\
    segments (trace (Gemini.analyzeDocumentWithGemini Service generateContent
                       IRParsedClause parseIR mapIRToFindings
                       svc0 document playbook party testConfig))
    = attempted ks (createChunks document).
Proof.
  unfold Gemini.analyzeDocumentWithGemini, analyzeChunks.
  destruct (batches_segments playbook party testConfig (indexed (createChunks document))
              {| svc := svc0; allFindings := []; seenIds := ∅; seenTextHashes := ∅;
                 trace := [] |}) as (ks & Hks & Hseg).
  rewrite map_snd_indexed in Hks, Hseg. exists ks. split; [exact Hks | exact Hseg].
Qed.

End Order.

(** *** The text that is classified *)

Lemma remove_matches_skip_ne m (a b : string) :
  remove_matches m (String.length a) (a +:+ b) = remove_matches m O b.
Proof.
  induction a as [|c a IH]; [now rewrite append_nil_l|].
  rewrite append_cons. cbn [String.length remove_matches]. exact IH.
Qed.

Lemma clause_tag_other c s :
  (nat_of_ascii c =? 60)%nat = false -> clause_tag_length (String c s) = None.
Proof.
  intros Hc. unfold clause_tag_length. cbn [String.prefix].
  destruct (ascii_dec "<" c) as [<-|_]; [discriminate | reflexivity].
Qed.

Lemma end_tag_other c s :
  (nat_of_ascii c =? 60)%nat = false -> end_tag_length (String c s) = None.
Proof.
  intros Hc. unfold end_tag_length. cbn [String.prefix].
  destruct (ascii_dec "<" c) as [<-|_]; [discriminate | reflexivity].
Qed.

(** Text without [<] passes through untouched. *)
Lemma remove_matches_plain m (a b : string) :
  (forall c s, (nat_of_ascii c =? 60)%nat = false -> m (String c s) = None) ->
  all_chars (fun c => negb (nat_of_ascii c =? 60)%nat) a = true ->
  remove_matches m O (a +:+ b) = a +:+ remove_matches m O b.
Proof.
  intros Hm. induction a as [|c a IH]; intros Ha; [now rewrite !append_nil_l|].
  cbn [all_chars] in Ha. apply andb_true_iff in Ha as [Hc Ha].
  apply negb_true_iff in Hc.
  rewrite !append_cons. cbn [remove_matches]. rewrite (Hm c _ Hc).
  now rewrite IH.
Qed.

Lemma span_not_gt_app a b :
  all_chars (fun c => negb (nat_of_ascii c =? 62)%nat) a = true ->
  span_not_gt (a +:+ b) = (String.length a + span_not_gt b)%nat.
Proof.
  induction a as [|c a IH]; intros Ha; [now rewrite append_nil_l|].
  cbn [all_chars] in Ha. apply andb_true_iff in Ha as [Hc Ha].
  apply negb_true_iff in Hc.
  rewrite append_cons. cbn [span_not_gt String.length]. rewrite Hc, (IH Ha). reflexivity.
Qed.

Lemma drop_length_app a b : drop (String.length a) (a +:+ b) = b.
Proof.
  induction a as [|c a IH]; [now rewrite append_nil_l|].
  rewrite append_cons. cbn [String.length drop]. exact IH.
Qed.

Lemma prefix_empty s : String.prefix EmptyString s = true.
Proof. destruct s; reflexivity. Qed.

(** The opening tag is one match of [<<CLAUSE[^>]*>>]. *)
Lemma clause_tag_length_tag (mid rest : string) :
  all_chars (fun c => negb (nat_of_ascii c =? 62)%nat) mid = true ->
  clause_tag_length ("<<CLAUSE" +:+ mid +:+ ">>" +:+ rest)
  = Some (8 + String.length mid + 2)%nat.
Proof.
  intros Hmid. unfold clause_tag_length.
  change ("<<CLAUSE" +:+ mid +:+ ">>" +:+ rest)
    with (String "<" (String "<" (String "C" (String "L" (String "A" (String "U"
            (String "S" (String "E" (mid +:+ ">>" +:+ rest))))))))).
  cbn [String.prefix]. repeat (destruct (ascii_dec _ _); [|congruence]).
  rewrite prefix_empty. cbn [drop Nat.add].
  rewrite (span_not_gt_app mid _ Hmid).
  change (span_not_gt (">>" +:+ rest)) with O.
  rewrite Nat.add_0_r, drop_length_app.
  change (">>" +:+ rest) with (String ">" (String ">" rest)).
  cbn [String.prefix]. repeat (destruct (ascii_dec _ _); [|congruence]).
  rewrite prefix_empty. reflexivity.
Qed.

Lemma remove_matches_tag m (c : ascii) (a rest : string) :
  m (String c a +:+ rest) = Some (S (String.length a)) ->
  remove_matches m O (String c a +:+ rest) = remove_matches m O rest.
Proof.
  intros Hm. revert Hm. rewrite append_cons. intros Hm.
  cbn [remove_matches]. rewrite Hm. apply remove_matches_skip_ne.
Qed.

(** The first replacement leaves the closing tag alone. *)
Lemma clause_pass_end_tag rest :
  remove_matches clause_tag_length O ("<<END_CLAUSE>>" +:+ rest)
  = "<<END_CLAUSE>>" +:+ remove_matches clause_tag_length O rest.
Proof.
  reflexivity.
Qed.

Lemma end_tag_length_tag rest :
  end_tag_length ("<<END_CLAUSE>>" +:+ rest) = Some 14%nat.
Proof.
  unfold end_tag_length.
  change ("<<END_CLAUSE>>" +:+ rest)
    with (String "<" (String "<" (String "E" (String "N" (String "D" (String "_"
           (String "C" (String "L" (String "A" (String "U" (String "S" (String "E"
           (String ">" (String ">" rest)))))))))))))).
  cbn [String.prefix]. repeat (destruct (ascii_dec _ _); [|congruence]).
  now rewrite prefix_empty.
Qed.

Lemma not_gt_tag_middle (id : string) :
  all_chars (fun c => negb (nat_of_ascii c =? 62)%nat) id = true ->
  all_chars (fun c => negb (nat_of_ascii c =? 62)%nat) (" id=" +:+ dquote +:+ id +:+ dquote)
  = true.
Proof.
  intros Hid. rewrite !PlaybookFacts.all_chars_app, Hid. reflexivity.
Qed.

Lemma pText_shape p :
  pText p
  = ("<<CLAUSE" +:+ (" id=" +:+ dquote +:+ para_id p +:+ dquote) +:+ ">>"
       +:+ newline +:+ para_text p +:+ newline +:+ "<<END_CLAUSE>>" +:+ newline +:+ newline).
Proof.
  unfold pText. rewrite !append_assoc. reflexivity.
Qed.

Lemma clause_pass_paragraph p rest :
  plain_paragraph p ->
  remove_matches clause_tag_length O (pText p +:+ rest)
  = newline +:+ para_text p +:+ newline +:+ "<<END_CLAUSE>>" +:+ newline +:+ newline
      +:+ remove_matches clause_tag_length O rest.
Proof.
  intros [Hid Htext]. rewrite pText_shape.
  set (mid := " id=" +:+ dquote +:+ para_id p +:+ dquote).
  pose proof (not_gt_tag_middle _ Hid) as Hmid. fold mid in Hmid.
  rewrite !append_assoc.
  pose proof (clause_tag_length_tag mid
                (newline +:+ para_text p +:+ newline +:+ "<<END_CLAUSE>>"
                   +:+ newline +:+ newline +:+ rest) Hmid) as Htag.
  set (tail := newline +:+ para_text p +:+ newline +:+ "<<END_CLAUSE>>"
                 +:+ newline +:+ newline +:+ rest) in *.
  assert (Hwhole : "<<CLAUSE" +:+ mid +:+ ">>" +:+ tail
                   = String "<" ("<CLAUSE" +:+ mid +:+ ">>") +:+ tail).
  { rewrite (append_cons "<" ("<CLAUSE" +:+ mid +:+ ">>") tail), !append_assoc.
    reflexivity. }
  rewrite Hwhole in *.
  rewrite remove_matches_tag.
  2:{ rewrite Htag. f_equal. rewrite !length_append. cbn [String.length]. lia. }
  subst tail.
  rewrite (remove_matches_plain clause_tag_length newline _ clause_tag_other) by reflexivity.
  rewrite (remove_matches_plain clause_tag_length (para_text p) _ clause_tag_other)
    by exact Htext.
  rewrite (remove_matches_plain clause_tag_length newline _ clause_tag_other) by reflexivity.
  rewrite clause_pass_end_tag.
  rewrite (remove_matches_plain clause_tag_length newline _ clause_tag_other) by reflexivity.
  rewrite (remove_matches_plain clause_tag_length newline _ clause_tag_other) by reflexivity.
  reflexivity.
Qed.

Lemma end_pass_paragraph p rest :
  plain_paragraph p ->
  remove_matches end_tag_length O
    (newline +:+ para_text p +:+ newline +:+ "<<END_CLAUSE>>" +:+ newline +:+ newline +:+ rest)
  = bare p +:+ remove_matches end_tag_length O rest.
Proof.
  intros [_ Htext]. unfold bare.
  rewrite (remove_matches_plain end_tag_length newline _ end_tag_other) by reflexivity.
  rewrite (remove_matches_plain end_tag_length (para_text p) _ end_tag_other) by exact Htext.
  rewrite (remove_matches_plain end_tag_length newline _ end_tag_other) by reflexivity.
  change ("<<END_CLAUSE>>" +:+ newline +:+ newline +:+ rest)
    with (String "<" "<END_CLAUSE>>" +:+ newline +:+ newline +:+ rest).
  rewrite remove_matches_tag by apply end_tag_length_tag.
  rewrite (remove_matches_plain end_tag_length newline _ end_tag_other) by reflexivity.
  rewrite (remove_matches_plain end_tag_length newline _ end_tag_other) by reflexivity.
  rewrite !append_assoc. reflexivity.
Qed.

Lemma clause_pass_serialize ps :
  Forall plain_paragraph ps ->
  remove_matches clause_tag_length O (serialize ps)
  = joinAll (map (fun p => newline +:+ para_text p +:+ newline +:+ "<<END_CLAUSE>>"
                             +:+ newline +:+ newline) ps).
Proof.
  induction 1 as [|p ps Hp _ IH]; [reflexivity|].
  change (serialize (p :: ps)) with (pText p +:+ serialize ps).
  rewrite (clause_pass_paragraph p _ Hp), IH.
  cbn [map joinAll fold_right]. rewrite !append_assoc. reflexivity.
Qed.

Lemma stripClauseTags_serialize_aux (ps : list Paragraph) :
  Forall plain_paragraph ps ->
  stripClauseTags (serialize ps) = joinAll (map bare ps).
Proof.
  intros Hps. unfold stripClauseTags. rewrite (clause_pass_serialize ps Hps).
  induction Hps as [|p ps Hp _ IH]; [reflexivity|].
  cbn [map joinAll fold_right]. fold (joinAll (map bare ps)).
  match goal with
  | |- context [fold_right String.append EmptyString ?l] =>
      change (fold_right String.append EmptyString l) with (joinAll l)
  end.
  rewrite !append_assoc.
  rewrite (end_pass_paragraph p _ Hp), IH. reflexivity.
Qed.

Lemma Forall_concat_groups {A} (P : A -> Prop) (groups : list (list A)) :
  Forall P (concat groups) -> Forall (Forall P) groups.
Proof.
  induction groups as [|g groups IH]; intros H; [constructor|].
  cbn [concat] in H. apply Forall_app in H as [Hg Hrest].
  constructor; [exact Hg | exact (IH Hrest)].
Qed.

(** The text that is classified for a batch is the text of its
    paragraphs and nothing else: when no identifier of the document
    holds [>] and no text holds [<], the chunks of [createChunks] with
    their tags removed, as [analyzeDocumentWithGemini] classifies them,
    are, for a split of the paragraphs into consecutive non-empty groups,
    a line feed, the text and three line feeds for every paragraph of the
    group, in order; nothing of an identifier or of a tag is left to
    count as a keyword. *)
Theorem classified_text_is_paragraph_text (d : ShadowDocument) :
  Forall plain_paragraph (paragraphs d) ->
  exists groups : list (list Paragraph),
    concat groups = paragraphs d /\
    Forall (fun g => g <> []) groups /\
    map stripClauseTags (createChunks d) = map (fun g => joinAll (map bare g)) groups.
Proof.
  intros Hd.
  destruct (ChunkerFacts.createChunks_groups d) as (groups & Hcat & Hchunks & Hgood).
  exists groups. split; [exact Hcat|]. split.
  - eapply List.Forall_impl; [|exact Hgood]. intros g Hg. apply Hg.
  - rewrite Hchunks, map_map. rewrite <- Hcat in Hd.
    apply Forall_concat_groups in Hd. clear Hcat Hchunks Hgood.
    induction Hd as [|g groups Hg _ IH]; [reflexivity|].
    cbn [map]. f_equal; [apply stripClauseTags_serialize_aux, Hg | exact IH].
Qed.

Lemma classified_text_is_paragraph_text_witness :
  let d := {| paragraphs := [ {| para_id := "p1"; para_text := "The fee is due.";
                                para_style := "Normal"; para_outline_level := 0 |} ] |} in
  Forall plain_paragraph (paragraphs d) /\
  exists groups : list (list Paragraph),
    concat groups = paragraphs d /\
    Forall (fun g => g <> []) groups /\
    map stripClauseTags (createChunks d) = map (fun g => joinAll (map bare g)) groups.
Proof.
  intros d.
  assert (H : Forall plain_paragraph (paragraphs d)) by (repeat constructor).
  split; [exact H | exact (classified_text_is_paragraph_text d H)].
Defined.

End ClassifyFacts.

(** ** Rule refinement *)

Module RefineFacts.
Import JS JSFacts Gemini GeminiSpec RefineSpec.

Lemma parseRuleIR_In text originals c :
  In c (parseRuleIR text originals) ->
  exists i body r0,
    In (i, body) (ruleBlocks O text) /\ findRule originals i = Some r0 /\
    c = applyRuleBlock body r0 /\ rule_id c = Some i.
Proof.
  unfold parseRuleIR. intros H. apply in_flat_map in H as ([i body] & Hm & Hc).
  cbn [fst snd] in Hc. destruct (findRule originals i) as [r0|] eqn:Hf; [|contradiction].
  destruct Hc as [<-|[]]. exists i, body, r0. repeat split; try assumption.
  now apply RuleIRFacts.findRule_spec in Hf as [_ Hid].
Qed.

Lemma parseRuleIR_named text originals i body r0 :
  In (i, body) (ruleBlocks O text) -> findRule originals i = Some r0 ->
  In (applyRuleBlock body r0) (parseRuleIR text originals).
Proof.
  intros Hm Hf. unfold parseRuleIR. apply in_flat_map. exists (i, body).
  split; [assumption|]. cbn [fst snd]. rewrite Hf. now left.
Qed.

Lemma same_id_eq a b : same_id a b = true <-> a = b.
Proof.
  destruct a as [x|], b as [y|]; simpl; split; try congruence.
  - intros H. apply String.eqb_eq in H. now subst.
  - intros [= ->]. apply String.eqb_refl.
Qed.

Lemma withStableIds_ids start rules r :
  In r (withStableIds start rules) -> exists i, rule_id r = Some i.
Proof.
  revert start. induction rules as [|x rules IH]; intros start; simpl; [tauto|].
  intros [<-|H]; [eexists; reflexivity | eapply IH; eassumption].
Qed.

Lemma length_withStableIds start rules :
  length (withStableIds start rules) = length rules.
Proof. revert start. induction rules; intros start; simpl; [reflexivity|]. now rewrite IHrules. Qed.

(** One rule of the merge. *)
Lemma mergeChanges_one text originals r :
  In r originals ->
  (exists i, rule_id r = Some i) ->
  refined text originals r
    (match find (fun c => same_id (rule_id c) (rule_id r)) (parseRuleIR text originals) with
     | Some change => change
     | None => r
     end).
Proof.
  intros Hin (i & Hi).
  destruct (find _ (parseRuleIR text originals)) as [c|] eqn:Hf.
  - apply find_some in Hf as [Hc Hsame]. apply same_id_eq in Hsame.
    destruct (parseRuleIR_In _ _ _ Hc) as (j & body & r0 & Hm & Hfind & Heq & Hid).
    assert (Hj : j = i) by congruence. subst j.
    split; [assumption|]. split.
    + intros Hn. exfalso. apply Hn. exists i, body. split; assumption.
    + right. exists i, body, r0. repeat split; assumption.
  - split; [reflexivity|]. split; [reflexivity | now left].
Qed.

Lemma mergeChanges_refined text originals rs :
  (forall r, In r rs -> In r originals /\ exists i, rule_id r = Some i) ->
  Forall2 (refined text originals) rs
    (map (fun r =>
            match find (fun c => same_id (rule_id c) (rule_id r))
                    (parseRuleIR text originals) with
            | Some change => change
            | None => r
            end) rs).
Proof.
  induction rs as [|r rs IH]; intros H; simpl; constructor.
  - destruct (H r (or_introl eq_refl)) as [Hin Hid]. now apply mergeChanges_one.
  - apply IH. intros r' Hr'. apply H. now right.
Qed.

Section Refinement.

Variable Service : Type.
Variable generateRefinement : Service -> RefineRequest -> Service * (Response + ApiError).

Abbreviation refinePlaybookRule := (refinePlaybookRule Service generateRefinement).
Abbreviation refinePlaybookGlobal := (refinePlaybookGlobal Service generateRefinement).

(** When the call succeeds, a global refinement answers with a
    playbook of the same name and party that has as many rules as
    before, with the same identifiers in the same order (a rule without
    one is first given [RULE_] and its rank). A rule whose identifier
    the response does not name is returned as it was; any other rule is
    either unchanged or made from a block of the response that names it,
    applied to the first rule of the playbook with that identifier. *)
Theorem refinePlaybookGlobal_merges svc playbook instruction svc1 response :
  generateRefinement svc
    {| rr_instruction := instruction;
       rr_rules := map fullContextRule (withStableIds 0 (rules playbook)) |}
  = (svc1, inl response) ->
  exists refinedPlaybook,
    refinePlaybookGlobal svc playbook instruction = (svc1, inl refinedPlaybook) /\
    playbook_name refinedPlaybook = playbook_name playbook /\
    playbook_party refinedPlaybook = playbook_party playbook /\
    length (rules refinedPlaybook) = length (rules playbook) /\
    Forall2 (refined (or_default (resp_text response) EmptyString)
               (withStableIds 0 (rules playbook)))
      (withStableIds 0 (rules playbook)) (rules refinedPlaybook).
Proof.
  intros Hcall. unfold Gemini.refinePlaybookGlobal. rewrite Hcall.
  eexists. split; [reflexivity|]. cbn [playbook_name playbook_party rules].
  split; [reflexivity|]. split; [reflexivity|]. split.
  - unfold mergeChanges. now rewrite length_map, length_withStableIds.
  - apply mergeChanges_refined. intros r Hr. split; [assumption|].
    eapply withStableIds_ids; eassumption.
Qed.


End Refinement.

Lemma refinePlaybookGlobal_merges_witness :
  exists refinedPlaybook,
    refinePlaybookGlobal nat toyRefinement 0%nat toyPlaybook "Cap the liability"
      = (1%nat, inl refinedPlaybook) /\
    map topic (rules refinedPlaybook) = ["Liability limit"].
Proof.
  destruct (refinePlaybookGlobal_merges nat toyRefinement 0%nat toyPlaybook
              "Cap the liability" 1%nat _ eq_refl)
    as (pb & Heq & _).
  exists pb. split; [exact Heq|].
  vm_compute in Heq. injection Heq as <-. reflexivity.
Defined.


End RefineFacts.

(** ** Fenced JSON *)

Module JsonFacts.
Import JS JSFacts Gemini.

Lemma drop_append a b : drop (String.length a) (a +:+ b) = b.
Proof. induction a as [|c a IH]; [now rewrite append_nil_l|]. now rewrite append_cons. Qed.

Lemma substring0_append a b : substring0 (String.length a) (a +:+ b) = a.
Proof.
  unfold substring0. induction a as [|c a IH].
  - rewrite append_nil_l. destruct b; reflexivity.
  - rewrite append_cons. simpl. now rewrite IH.
Qed.

Lemma remove_suffix_append a p : remove_suffix p (a +:+ p) = a.
Proof.
  unfold remove_suffix, ends_with. rewrite length_append.
  replace (String.length a + String.length p - String.length p)%nat
    with (String.length a) by lia.
  rewrite drop_append, String.eqb_refl, substring0_append.
  replace (String.length p <=? String.length a + String.length p)%nat with true
    by (symmetry; apply Nat.leb_le; lia).
  reflexivity.
Qed.

Lemma trim_truthy text : truthy (trim text) = true -> truthy text = true.
Proof. destruct text; [discriminate | reflexivity]. Qed.

Lemma backtick_ci c :
  c <> "`"%char -> eqb_ci "`" c = false.
Proof.
  intros Hc. unfold eqb_ci. apply Ascii.eqb_neq. intros Heq. apply Hc.
  change (lower_char "`") with "`"%char in Heq.
  unfold lower_char in Heq. destruct (is_upper c) eqn:Hu; [|congruence].
  unfold is_upper in Hu. apply andb_true_iff in Hu as [H1 H2].
  apply Nat.leb_le in H1, H2.
  apply (f_equal nat_of_ascii) in Heq. rewrite nat_ascii_embedding in Heq by lia.
  change (nat_of_ascii "`") with 96%nat in Heq. exfalso. lia.
Qed.

Lemma strip_inner payload :
  String.prefix "`" payload = false ->
  remove_suffix "```" (remove_prefix_ci "```" (payload +:+ "```")) = payload.
Proof.
  intros Hp. destruct payload as [|c p].
  - reflexivity.
  - assert (Hc : c <> "`"%char).
    { intros ->. simpl in Hp. destruct p; discriminate. }
    unfold remove_prefix_ci. rewrite append_cons. cbn [prefix_ci].
    rewrite (backtick_ci c Hc). cbn [andb].
    rewrite <- append_cons. apply remove_suffix_append.
Qed.

Section Json.

Variable Json : Type.
Variable JSON_parse : string -> option Json.

Abbreviation cleanAndParseJSON := (cleanAndParseJSON Json JSON_parse).

(** A reply wrapped in a Markdown fence, [```json] (in any letter
    case) or plain, with white space around it or not, is parsed as
    what stands between the fences, and the fall-back is returned when
    that does not parse. The payload must not begin with a backtick
    and, behind a plain fence, not with the word json. *)
Theorem cleanAndParseJSON_fenced text fence payload fallback :
  toLowerCase fence = "```json" \/
    (fence = "```" /\ prefix_ci "json" payload = false) ->
  String.prefix "`" payload = false ->
  trim text = fence +:+ payload +:+ "```" ->
  fst (cleanAndParseJSON text fallback)
  = match JSON_parse payload with Some value => value | None => fallback end.
Proof.
  intros Hfence Hp Htrim.
  assert (Ht : truthy text = true).
  { apply trim_truthy. rewrite Htrim.
    destruct Hfence as [Hf|[-> _]]; [|reflexivity].
    destruct fence; [discriminate | reflexivity]. }
  assert (Hstrip : stripFences text = payload).
  { unfold stripFences. rewrite Htrim.
    destruct Hfence as [Hf|[-> Hj]].
    - assert (Hpre : remove_prefix_ci "```json" (fence +:+ payload +:+ "```")
                     = payload +:+ "```").
      { unfold toLowerCase in Hf.
        destruct fence as [|c1 [|c2 [|c3 [|c4 [|c5 [|c6 [|c7 [|c8 f]]]]]]]];
          try discriminate.
        cbn [map_chars] in Hf. injection Hf as H1 H2 H3 H4 H5 H6 H7.
        unfold remove_prefix_ci. rewrite !append_cons, append_nil_l.
        cbn [prefix_ci]. unfold eqb_ci.
        rewrite H1, H2, H3, H4, H5, H6, H7. reflexivity. }
      rewrite Hpre. now apply strip_inner.
    - assert (Hpre : remove_prefix_ci "```json" ("```" +:+ payload +:+ "```")
                     = "```" +:+ payload +:+ "```").
      { unfold remove_prefix_ci. rewrite !append_cons, append_nil_l.
        cbn [prefix_ci]. change (eqb_ci "`" "`") with true. cbn [andb].
        assert (Hq : prefix_ci "json" (payload +:+ "```") = false).
        { revert Hj. clear.
          destruct payload as [|a [|b [|c [|d p]]]]; cbn [prefix_ci];
            rewrite ?append_cons, ?append_nil_l; cbn [prefix_ci]; try discriminate;
            intros H; repeat (destruct (eqb_ci _ _); cbn [andb] in *; try reflexivity);
            try discriminate. }
        cbn [prefix_ci] in Hq. rewrite Hq. reflexivity. }
      rewrite Hpre.
      assert (Hpre2 : remove_prefix_ci "```" ("```" +:+ payload +:+ "```")
                      = payload +:+ "```") by reflexivity.
      rewrite Hpre2. apply remove_suffix_append. }
  unfold Gemini.cleanAndParseJSON. rewrite Ht, Hstrip.
  now destruct (JSON_parse payload).
Qed.

End Json.

Lemma cleanAndParseJSON_fenced_witness :
  fst (Gemini.cleanAndParseJSON nat
         (fun s => if String.eqb s "[1]" then Some 1%nat else None)
         " ```JSON[1]``` " 0%nat)
  = 1%nat.
Proof.
  rewrite (cleanAndParseJSON_fenced nat
             (fun s => if String.eqb s "[1]" then Some 1%nat else None)
             " ```JSON[1]``` " "```JSON" "[1]" 0%nat);
    [reflexivity | left; reflexivity | reflexivity | reflexivity].
Defined.

End JsonFacts.

(** ** Finding blocks and listing clauses *)

Module ClausesFacts.
Import JS JSFacts Superdoc SuperdocSpec ClausesSpec.

(** *** Every node, in document order *)

Lemma subtree_elem a cs pos :
  subtree (ElemNode a cs) pos = (pos, ElemNode a cs) :: placed cs (pos + 1).
Proof.
  reflexivity.
Qed.

Lemma subtree_text t pos : subtree (TextNode t) pos = [(pos, TextNode t)].
Proof. reflexivity. Qed.

Lemma subtree_leaf a pos : subtree (LeafNode a) pos = [(pos, LeafNode a)].
Proof. reflexivity. Qed.

#[local] Arguments subtree : simpl never.

(** A walk whose callback always descends is a fold over the nodes. *)
Lemma walk_all_of {St} (f : pmnode -> Z -> St -> St * bool) (cs : list pmnode) :
  (forall n pos st, snd (f n pos st) = true) ->
  Forall (fun n => forall pos st,
            visit f n pos st
            = fold_left (fun st qn => fst (f (snd qn) (fst qn) st)) (subtree n pos) st) cs ->
  forall p st,
    walk f cs p st = fold_left (fun st qn => fst (f (snd qn) (fst qn) st)) (placed cs p) st.
Proof.
  intros Hf. induction 1 as [|c cs Hc _ IH]; intros p st; [reflexivity|].
  cbn [walk placed]. now rewrite fold_left_app, IH, Hc.
Qed.

Lemma visit_all {St} (f : pmnode -> Z -> St -> St * bool) :
  (forall n pos st, snd (f n pos st) = true) ->
  forall n pos st,
    visit f n pos st
    = fold_left (fun st qn => fst (f (snd qn) (fst qn) st)) (subtree n pos) st.
Proof.
  intros Hf. induction n as [t|a|a cs IH] using PatchFacts.pmnode_forall_ind; intros pos st.
  - reflexivity.
  - reflexivity.
  - rewrite PatchFacts.visit_elem, Hf, subtree_elem. cbn [fold_left fst snd].
    now apply walk_all_of.
Qed.

Lemma walk_all {St} (f : pmnode -> Z -> St -> St * bool) :
  (forall n pos st, snd (f n pos st) = true) ->
  forall cs p st,
    walk f cs p st = fold_left (fun st qn => fst (f (snd qn) (fst qn) st)) (placed cs p) st.
Proof.
  intros Hf cs. apply walk_all_of; [assumption|].
  apply List.Forall_forall. intros n _. now apply visit_all.
Qed.

(** *** The search by identifier *)

Lemma occurrences_app clauseId a b :
  occurrences clauseId (a ++ b) = occurrences clauseId a ++ occurrences clauseId b.
Proof. unfold occurrences. apply List.filter_app. Qed.

Lemma occurrences_cons clauseId q n l :
  occurrences clauseId ((q, n) :: l)
  = if has_id clauseId n then (q, n) :: occurrences clauseId l else occurrences clauseId l.
Proof. reflexivity. Qed.

(** The search never forgets a block it found. *)
Lemma walk_findBlock_keeps clauseId cs p found :
  walk (findBlock clauseId) cs p found = None -> found = None.
Proof.
  destruct (PatchFacts.walk_findBlock clauseId cs p found)
    as [Heq|(q & n & pre & post & Hr & _)]; congruence.
Qed.

Lemma walk_findBlock_spec_of (clauseId : string) (cs : list pmnode) :
  Forall (fun n => forall pos found,
            search_spec clauseId (subtree n pos) found
              (visit (findBlock clauseId) n pos found)) cs ->
  forall p found,
    search_spec clauseId (placed cs p) found (walk (findBlock clauseId) cs p found).
Proof.
  induction 1 as [|c cs Hc _ IH]; intros p found.
  - cbn [walk placed]. repeat split; try reflexivity. discriminate.
  - cbn [walk placed]. unfold search_spec. rewrite occurrences_app.
    destruct (Hc p found) as (Hc0 & Hc1 & HcN).
    destruct (IH (p + nodeSize c) (visit (findBlock clauseId) c p found))
      as (IH0 & IH1 & IHN).
    repeat split.
    + intros Hnil. apply app_eq_nil in Hnil as [Ha Hb].
      now rewrite (IH0 Hb), (Hc0 Ha).
    + intros x Hone. apply app_eq_unit in Hone as [[Ha Hb]|[Ha Hb]].
      * now apply IH1.
      * now rewrite (IH0 Hb), (Hc1 x Ha).
    + intros Hres. rewrite (IHN Hres), app_nil_r. apply HcN.
      now apply walk_findBlock_keeps in Hres.
Qed.

Lemma visit_findBlock_spec (clauseId : string) (n : pmnode) : forall pos found,
  search_spec clauseId (subtree n pos) found (visit (findBlock clauseId) n pos found).
Proof.
  induction n as [t|a|a cs IH] using PatchFacts.pmnode_forall_ind; intros pos found;
    unfold search_spec.
  - rewrite subtree_text. repeat split; try reflexivity; discriminate.
  - rewrite subtree_leaf, (occurrences_cons clauseId pos (LeafNode a) []).
    cbn [visit]. destruct (has_id clauseId (LeafNode a)) eqn:Hid.
    + rewrite PatchFacts.findBlock_hit by exact Hid. cbn [fst].
      repeat split; try discriminate. intros x [= <-]. reflexivity.
    + rewrite PatchFacts.findBlock_miss by exact Hid. cbn [fst].
      repeat split; try reflexivity; discriminate.
  - rewrite subtree_elem, occurrences_cons, PatchFacts.visit_elem.
    destruct (has_id clauseId (ElemNode a cs)) eqn:Hid.
    + rewrite !PatchFacts.findBlock_hit by exact Hid. cbn [fst snd].
      repeat split; try discriminate. intros x [= <- _]. reflexivity.
    + rewrite !PatchFacts.findBlock_miss by exact Hid. cbn [fst snd].
      now apply walk_findBlock_spec_of.
Qed.

Lemma walk_findBlock_spec (clauseId : string) (cs : list pmnode) p found :
  search_spec clauseId (placed cs p) found (walk (findBlock clauseId) cs p found).
Proof.
  apply walk_findBlock_spec_of, List.Forall_forall. intros n _. apply visit_findBlock_spec.
Qed.

Lemma occurrences_nil clauseId nodes :
  occurrences clauseId nodes = [] <->
  forall q n, In (q, n) nodes -> has_id clauseId n = false.
Proof.
  unfold occurrences. split.
  - intros Hnil q n Hin. destruct (has_id clauseId n) eqn:Hid; [|reflexivity].
    assert (Hf : In (q, n) (List.filter (fun qn => has_id clauseId (snd qn)) nodes))
      by (apply filter_In; split; assumption).
    rewrite Hnil in Hf. contradiction.
  - intros Hall. induction nodes as [|[q n] nodes IH]; [reflexivity|].
    cbn [List.filter snd]. rewrite (Hall q n (or_introl eq_refl)).
    apply IH. intros q' n' Hin. apply (Hall q' n'). now right.
Qed.

(** The search answers that there is no block exactly when no node of
    the document carries the identifier. *)
Lemma locateBlock_none doc clauseId :
  locateBlock doc clauseId = None <->
  forall q n, In (q, n) (nodesOf doc) -> has_id clauseId n = false.
Proof.
  unfold locateBlock, descendants, nodesOf.
  destruct (walk_findBlock_spec clauseId (node_content doc) 0 None) as (H0 & _ & HN).
  rewrite <- occurrences_nil. split; [exact HN | exact H0].
Qed.

Section UnknownBlock.

Variable calculateWordDiff : string -> string -> list diffpart.
Variable applyTransaction : pmnode -> transaction -> option pmnode.

Abbreviation updateClause := (Superdoc.updateClause calculateWordDiff applyTransaction).

(** When no node of the document carries the identifier, [updateClause]
    resolves to [false]: it reports that the block was not found,
    between the opening and the closing of its console group, does not
    touch track changes, sends no transaction and leaves the document
    as it is. *)
Theorem updateClause_unknown_block doc t clauseId newText :
  (forall q n, In (q, n) (nodesOf doc) -> has_id clauseId n = false) ->
  updateClause (theEditor doc t) clauseId newText
  = {| returned := Some false;
       effects := [ConsoleGroup ("[Diffing] Update Block " +:+ clauseId);
                   ConsoleError ("Block node not found for ID: " +:+ clauseId);
                   ConsoleGroupEnd];
       document := Some doc |}.
Proof.
  intros Hnone. apply locateBlock_none in Hnone.
  unfold Superdoc.updateClause, theEditor. cbn [activeEditor]. now rewrite Hnone.
Qed.

End UnknownBlock.

(** *** The clause list *)

Section Clauses.

Variable isBlock : pmnode -> bool.

Abbreviation getClauses := (Superdoc.getClauses isBlock).
Abbreviation collectClause := (Superdoc.collectClause isBlock).
Abbreviation clauses_inv := (ClausesSpec.clauses_inv isBlock).
Abbreviation records := (ClausesSpec.records isBlock).

Lemma collectClause_descends n pos st : snd (collectClause n pos st) = true.
Proof.
  unfold Superdoc.collectClause. destruct (truthy_id n); [|reflexivity].
  now destruct (bool_decide _).
Qed.

Lemma omap_snoc {A B} (f : A -> option B) l x :
  omap f (l ++ [x]) = omap f l ++ match f x with Some y => [y] | None => [] end.
Proof.
  rewrite omap_app. f_equal.
Qed.

Lemma clauses_inv_step seenNodes st q n :
  clauses_inv seenNodes st ->
  clauses_inv (seenNodes ++ [(q, n)]) (fst (collectClause n q st)).
Proof.
  intros (Hseen & Hnd & Hids & Hrec).
  assert (Hrec' : Forall (fun c => exists q0 n0,
                             In (q0, n0) (seenNodes ++ [(q, n)]) /\ records c q0 n0)
                    (snd st)).
  { eapply List.Forall_impl; [|exact Hrec]. intros c (q0 & n0 & Hin & Hr).
    exists q0, n0. split; [|assumption]. apply in_or_app. now left. }
  unfold Superdoc.collectClause, ClausesSpec.clauses_inv.
  rewrite omap_snoc. cbn [snd].
  destruct (truthy_id n) as [id|] eqn:Hid.
  - destruct (bool_decide (id ∈ fst st)) eqn:Hdec; cbn [fst snd].
    + apply bool_decide_eq_true in Hdec. repeat split; try assumption.
      * intros Hi. apply in_or_app. left. now apply Hseen.
      * intros Hi. apply in_app_or in Hi as [Hi|[<-|[]]]; [now apply Hseen | assumption].
      * now apply Hids.
      * now apply Hids.
    + apply bool_decide_eq_false in Hdec. repeat split.
      * intros Hi. apply elem_of_union in Hi as [Hi|Hi].
        -- apply elem_of_singleton in Hi. subst i. apply in_or_app. right. now left.
        -- apply in_or_app. left. now apply Hseen.
      * intros Hi. apply in_app_or in Hi as [Hi|[<-|[]]].
        -- apply elem_of_union. right. now apply Hseen.
        -- apply elem_of_union. left. now apply elem_of_singleton.
      * rewrite map_app. cbn [map clause_id]. apply NoDup_app. split; [assumption|].
        split; [|apply NoDup_singleton].
        intros x Hx Hx'. apply list_elem_of_In in Hx. apply list_elem_of_In in Hx'.
        destruct Hx' as [<-|[]]. apply Hdec. now apply Hids.
      * rewrite map_app. cbn [map clause_id]. intros Hi.
        apply in_app_or in Hi as [Hi|[<-|[]]].
        -- apply elem_of_union. right. now apply Hids.
        -- apply elem_of_union. left. now apply elem_of_singleton.
      * rewrite map_app. cbn [map clause_id]. intros Hi.
        apply elem_of_union in Hi as [Hi|Hi].
        -- apply elem_of_singleton in Hi. subst i. apply in_or_app. right. now left.
        -- apply in_or_app. left. now apply Hids.
      * apply Forall_app. split; [exact Hrec'|]. constructor; [|constructor].
        exists q, n. split; [apply in_or_app; right; now left|].
        repeat split; assumption.
  - rewrite app_nil_r. repeat split; try assumption.
    all: try (intros Hi; now apply Hseen).
    all: try (intros Hi; now apply Hids).
Qed.

Lemma clauses_inv_fold nodes : forall seenNodes st,
  clauses_inv seenNodes st ->
  clauses_inv (seenNodes ++ nodes)
    (fold_left (fun st qn => fst (collectClause (snd qn) (fst qn) st)) nodes st).
Proof.
  induction nodes as [|[q n] nodes IH]; intros seenNodes st Hinv; cbn [fold_left].
  - now rewrite app_nil_r.
  - replace (seenNodes ++ (q, n) :: nodes) with ((seenNodes ++ [(q, n)]) ++ nodes)
      by now rewrite <- app_assoc.
    apply IH. now apply clauses_inv_step.
Qed.

Lemma getClauses_inv doc :
  clauses_inv (nodesOf doc)
    (descendants collectClause doc (∅, [])).
Proof.
  unfold descendants. rewrite walk_all by apply collectClause_descends.
  apply (clauses_inv_fold (nodesOf doc) [] (∅, [])).
  split; [|split; [|split]]; cbn [fst snd map].
  - intros i. split; [intros Hi; now apply not_elem_of_empty in Hi | intros []].
  - constructor.
  - intros i. split; [intros [] | intros Hi; now apply not_elem_of_empty in Hi].
  - constructor.
Qed.

Lemma getClauses_lists_each_id_once_aux doc t :
  NoDup (map clause_id (getClauses (theEditor doc t))) /\
  (forall i, In i (map clause_id (getClauses (theEditor doc t))) <-> In i (idsOf doc)) /\
  Forall (fun c => exists q n, In (q, n) (nodesOf doc) /\ records c q n)
    (getClauses (theEditor doc t)).
Proof.
  unfold Superdoc.getClauses, theEditor. cbn [activeEditor].
  destruct (getClauses_inv doc) as (Hseen & Hnd & Hids & Hrec).
  split; [assumption|]. split; [|assumption].
  intros i. rewrite Hids. apply Hseen.
Qed.

(** The clause list names every identifier carried by a node of the
    document, each exactly once, and every clause is the record of a
    node of the document: its identifier, position, size, text and
    risk. *)
Theorem getClauses_lists_each_id_once doc t :
  NoDup (map clause_id (getClauses (theEditor doc t))) /\
  (forall i, In i (map clause_id (getClauses (theEditor doc t))) <-> In i (idsOf doc)) /\
  Forall (fun c => exists q n, In (q, n) (nodesOf doc) /\ records c q n)
    (getClauses (theEditor doc t)).
Proof. apply getClauses_lists_each_id_once_aux. Qed.

Lemma truthy_id_has_id n id : truthy_id n = Some id -> has_id id n = true.
Proof.
  unfold truthy_id, has_id. destruct (attr_id (node_attrs n)) as [i|]; [|discriminate].
  destruct (truthy i); [|discriminate]. intros [= ->]. apply String.eqb_refl.
Qed.

Lemma has_id_truthy_id n id c q0 n0 :
  records c q0 n0 -> clause_id c = id -> has_id id n = true -> truthy_id n = Some id.
Proof.
  intros (Hid & _) <- Hn. unfold truthy_id in *. unfold has_id in Hn.
  destruct (attr_id (node_attrs n)) as [i|]; [|discriminate].
  apply String.eqb_eq in Hn. subst i.
  destruct (attr_id (node_attrs n0)) as [j|]; [|discriminate].
  destruct (truthy j) eqn:Hj; [|discriminate]. injection Hid as ->. now rewrite Hj.
Qed.

Lemma unique_occurrence nodes c q n :
  NoDup (omap (fun qn : Z * pmnode => truthy_id (snd qn)) nodes) ->
  In (q, n) nodes -> records c q n ->
  occurrences (clause_id c) nodes = [(q, n)].
Proof.
  intros Hnd Hin Hrec. pose proof Hrec as (Hid & _).
  induction nodes as [|[q' n'] nodes IH]; [contradiction|].
  rewrite occurrences_cons. cbn in Hnd.
  destruct Hin as [[= -> ->]|Hin].
  - rewrite (truthy_id_has_id _ _ Hid). rewrite Hid in Hnd.
    apply NoDup_cons in Hnd as [Hnot _]. f_equal.
    apply occurrences_nil. intros q2 n2 Hin2.
    destruct (has_id (clause_id c) n2) eqn:H2; [|reflexivity].
    exfalso. apply Hnot. apply list_elem_of_omap. exists (q2, n2).
    split; [now apply list_elem_of_In|]. cbn [snd].
    now apply (has_id_truthy_id n2 (clause_id c) c q n).
  - destruct (has_id (clause_id c) n') eqn:H'.
    + exfalso.
      rewrite (has_id_truthy_id n' (clause_id c) c q n Hrec eq_refl H') in Hnd.
      apply NoDup_cons in Hnd as [Hnot _]. apply Hnot.
      apply list_elem_of_omap. exists (q, n). split; [now apply list_elem_of_In|].
      exact Hid.
    + apply IH; [|assumption].
      destruct (truthy_id n'); [now apply NoDup_cons in Hnd as [_ Hnd] | assumption].
Qed.

(** In a document where no two nodes carry the same identifier, every
    clause of the list is the block that [updateClause] finds for its
    identifier, at the position the clause records. *)
Theorem getClauses_found_by_updateClause doc t c :
  unique_ids doc ->
  In c (getClauses (theEditor doc t)) ->
  exists n,
    locateBlock doc (clause_id c) = Some (startPos c, n) /\
    records c (startPos c) n.
Proof.
  intros Huniq Hc.
  destruct (getClauses_lists_each_id_once_aux doc t) as (_ & _ & Hrec).
  rewrite List.Forall_forall in Hrec. destruct (Hrec c Hc) as (q & n & Hin & Hr).
  pose proof Hr as (_ & Hq & _). subst q.
  exists n. split; [|assumption].
  unfold locateBlock, descendants.
  destruct (walk_findBlock_spec (clause_id c) (node_content doc) 0 None) as (_ & H1 & _).
  apply H1. now apply unique_occurrence.
Qed.

End Clauses.

Lemma updateClause_unknown_block_witness :
  returned (Superdoc.updateClause exampleDiff tokenEngine
              (theEditor toyDoc (BySetDocumentMode false)) "c9" proposedText)
  = Some false.
Proof.
  rewrite (updateClause_unknown_block exampleDiff tokenEngine toyDoc
             (BySetDocumentMode false) "c9" proposedText); [reflexivity|].
  intros q n Hin. vm_compute in Hin.
  repeat (destruct Hin as [Hin|Hin]; [injection Hin as <- <-; reflexivity|]).
  contradiction.
Defined.

Lemma getClauses_found_by_updateClause_witness :
  exists n,
    locateBlock toyDoc "c2" = Some (29, n) /\
    nodeSize n = 10.
Proof.
  destruct (getClauses_found_by_updateClause (fun _ => false) toyDoc (BySetDocumentMode false)
              {| clause_id := "c2"; clause_text := "Other."; clause_risk := None;
                 startPos := 29; clause_nodeSize := 10 |})
    as (n & Hloc & Hrec).
  - unfold unique_ids. apply NoDup_ListNoDup. vm_compute.
    repeat constructor; simpl; intuition discriminate.
  - vm_compute. right. left. reflexivity.
  - exists n. split; [exact Hloc|]. destruct Hrec as (_ & _ & Hsize & _). now rewrite <- Hsize.
Defined.

(** *** The text of a clause and the text buffer of the patch *)

Lemma strip_ws_app a b : strip_ws (a +:+ b) = strip_ws a +:+ strip_ws b.
Proof.
  induction a as [|c a IH]; [now rewrite !append_nil_l|].
  rewrite append_cons. cbn [strip_ws]. destruct (is_space c); [exact IH|].
  now rewrite append_cons, IH.
Qed.

Lemma strip_ws_trimStart s : strip_ws (trimStart s) = strip_ws s.
Proof.
  induction s as [|c s IH]; [reflexivity|].
  cbn [trimStart strip_ws]. destruct (is_space c) eqn:Hc; [exact IH|].
  cbn [strip_ws]. now rewrite Hc.
Qed.

Lemma strip_ws_trimEnd s : strip_ws (trimEnd s) = strip_ws s.
Proof.
  induction s as [|c s IH]; [reflexivity|].
  cbn [trimEnd strip_ws]. rewrite <- IH.
  destruct (trimEnd s) as [|d r] eqn:Ht.
  - destruct (is_space c) eqn:Hc; [reflexivity|]. cbn [strip_ws]. now rewrite Hc.
  - cbn [strip_ws]. reflexivity.
Qed.

Lemma strip_ws_trim s : strip_ws (trim s) = strip_ws s.
Proof. unfold trim. now rewrite strip_ws_trimEnd, strip_ws_trimStart. Qed.

Lemma chars_flatten_elem a cs : chars (flatten (ElemNode a cs)) = chars (tokens cs).
Proof.
  cbn [flatten chars]. rewrite PatchFacts.chars_app. cbn [chars].
  now rewrite append_nil_r.
Qed.

Section ClauseText.

Variable isBlock : pmnode -> bool.

Abbreviation extractNodeText := (Superdoc.extractNodeText isBlock).
Abbreviation childrenText := (ClausesSpec.childrenText isBlock).

Lemma extractNodeText_elem a cs :
  extractNodeText (ElemNode a cs) = trim (childrenText cs).
Proof.
  cbn [Superdoc.extractNodeText]. f_equal.
  induction cs as [|c cs IH]; [reflexivity|].
  cbn [ClausesSpec.childrenText]. now rewrite <- IH.
Qed.

Lemma strip_newline : strip_ws newline = EmptyString.
Proof. reflexivity. Qed.

Lemma childrenText_strip_of cs :
  Forall (fun n => strip_ws (extractNodeText n) = strip_ws (chars (flatten n))) cs ->
  strip_ws (childrenText cs) = strip_ws (chars (tokens cs)).
Proof.
  induction 1 as [|c cs Hc _ IH]; [reflexivity|].
  cbn [ClausesSpec.childrenText]. rewrite PatchFacts.tokens_cons, PatchFacts.chars_app.
  rewrite !strip_ws_app, Hc, IH.
  destruct (isBlock c); [rewrite strip_newline|]; now rewrite append_nil_l.
Qed.

Lemma extractNodeText_strip n :
  strip_ws (extractNodeText n) = strip_ws (chars (flatten n)).
Proof.
  induction n as [t|a|a cs IH] using PatchFacts.pmnode_forall_ind.
  - cbn [Superdoc.extractNodeText flatten]. now rewrite PatchFacts.chars_textTokens.
  - reflexivity.
  - rewrite extractNodeText_elem, strip_ws_trim, chars_flatten_elem.
    now apply childrenText_strip_of.
Qed.

(** The text of a clause of the list and the text buffer that
    [updateClause] builds for the same block hold the same characters
    in the same order, white space apart: the clause text is trimmed at
    every level and has a line feed after each block child, the buffer
    is the plain concatenation of the text nodes. *)
Theorem clause_text_is_text_buffer doc t c :
  In c (Superdoc.getClauses isBlock (theEditor doc t)) ->
  exists n,
    In (startPos c, n) (nodesOf doc) /\
    truthy_id n = Some (clause_id c) /\
    strip_ws (clause_text c) = strip_ws (snd (buildPositionMap (startPos c) n)).
Proof.
  intros Hc.
  destruct (getClauses_lists_each_id_once_aux isBlock doc t) as (_ & _ & Hrec).
  rewrite List.Forall_forall in Hrec.
  destruct (Hrec c Hc) as (q & n & Hin & Hid & Hq & _ & Htext & _). subst q.
  exists n. split; [assumption|]. split; [assumption|].
  rewrite Htext, PatchFacts.buildPositionMap_tokens. cbn [snd].
  rewrite extractNodeText_strip.
  destruct n as [s|a|a cs].
  - discriminate.
  - reflexivity.
  - now rewrite chars_flatten_elem.
Qed.

End ClauseText.

Lemma clause_text_is_text_buffer_witness :
  exists n,
    In (0, n) (nodesOf toyDoc) /\
    strip_ws "Liability isunlimited." = strip_ws (snd (buildPositionMap 0 n)).
Proof.
  destruct (clause_text_is_text_buffer (fun _ => false) toyDoc (BySetDocumentMode false)
              {| clause_id := "c1"; clause_text := "Liability isunlimited.";
                 clause_risk := None; startPos := 0; clause_nodeSize := 29 |})
    as (n & Hin & _ & Heq).
  - vm_compute. left. reflexivity.
  - exists n. split; assumption.
Defined.

(** *** The position map *)

Lemma charPositions_entry (ts : list token) : forall base (i : nat) p,
  charPositions base ts !! i = Some p ->
  base <= p < base + Z.of_nat (length ts) /\
  exists c, ts !! Z.to_nat (p - base) = Some (TChar c) /\ String.get i (chars ts) = Some c.
Proof.
  induction ts as [|t ts IH]; intros base i p Hp; [discriminate|].
  assert (Hshift : forall j q,
             charPositions (base + 1) ts !! j = Some q ->
             base <= q < base + Z.of_nat (length (t :: ts)) /\
             exists c, (t :: ts) !! Z.to_nat (q - base) = Some (TChar c) /\
                       String.get j (chars ts) = Some c).
  { intros j q Hq. destruct (IH _ _ _ Hq) as (Hb & c & Hc & Hg).
    split; [cbn [length]; lia|]. exists c. split; [|assumption].
    replace (Z.to_nat (q - base)) with (S (Z.to_nat (q - (base + 1)))) by lia.
    exact Hc. }
  destruct t; cbn [charPositions chars] in *; try (now apply Hshift).
  destruct i as [|i].
  - injection Hp as <-. split; [cbn [length]; lia|]. exists c.
    replace (base - base) with 0 by lia. split; reflexivity.
  - apply (Hshift i p Hp).
Qed.

Lemma charPositions_increasing (ts : list token) : forall base (i j : nat) p p',
  (i < j)%nat ->
  charPositions base ts !! i = Some p ->
  charPositions base ts !! j = Some p' ->
  p < p'.
Proof.
  induction ts as [|t ts IH]; intros base i j p p' Hij Hi Hj; [discriminate|].
  destruct t; cbn [charPositions] in *; try (now apply (IH (base + 1) i j)).
  destruct j as [|j]; [lia|]. destruct i as [|i].
  - injection Hi as <-. apply charPositions_entry in Hj as [Hb _]. lia.
  - apply (IH (base + 1) i j); [lia | assumption | assumption].
Qed.

(** The position map of the block that [updateClause] found has one
    entry for each character of the text buffer, in strictly increasing
    order, and each entry is the position of that character in the
    document. *)
Theorem buildPositionMap_positions doc clauseId clausePos clauseNode :
  locateBlock doc clauseId = Some (clausePos, clauseNode) ->
  let positionMap := fst (buildPositionMap clausePos clauseNode) in
  let textBuffer := snd (buildPositionMap clausePos clauseNode) in
  length positionMap = String.length textBuffer /\
  (forall (i j : nat) p p',
      (i < j)%nat -> positionMap !! i = Some p -> positionMap !! j = Some p' -> p < p') /\
  (forall (i : nat) p,
      positionMap !! i = Some p ->
      clausePos < p < clausePos + nodeSize clauseNode - 1 /\
      exists c, tokens (node_content doc) !! Z.to_nat p = Some (TChar c) /\
                String.get i textBuffer = Some c).
Proof.
  intros Hloc positionMap textBuffer. subst positionMap textBuffer.
  rewrite PatchFacts.buildPositionMap_tokens. cbn [fst snd].
  destruct (PatchFacts.locateBlock_tokens _ _ _ _ Hloc) as (pre & post & Hdoc & Hpos & Hid).
  split; [apply PatchFacts.length_charPositions|]. split.
  - intros i j p p'. apply charPositions_increasing.
  - intros i p Hp. apply charPositions_entry in Hp as (Hb & c & Hc & Hg).
    destruct clauseNode as [s|a|a cs]; cbn [node_content] in *;
      try (cbn [tokens flat_map length] in Hb; lia).
    rewrite PatchFacts.nodeSize_elem.
    split.
    + pose proof (PatchFacts.nodeSize_flatten (ElemNode a cs)) as Hn.
      rewrite PatchFacts.nodeSize_elem in Hn. cbn [flatten length] in Hn.
      rewrite length_app in Hn. cbn [length] in Hn. unfold tokens in Hb. lia.
    + exists c. split; [|assumption].
      rewrite Hdoc.
      change (flatten (ElemNode a cs) ++ post)
        with ([TOpen a] ++ (tokens cs ++ [TClose]) ++ post).
      rewrite <- app_assoc, (app_assoc pre [TOpen a]).
      apply lookup_lt_Some in Hc as Hlt.
      rewrite lookup_app_r by (rewrite length_app; cbn [length]; lia).
      rewrite length_app. cbn [length].
      replace (Z.to_nat p - (length pre + 1))%nat
        with (Z.to_nat (p - (clausePos + 1))) by lia.
      now apply lookup_app_l_Some.
Qed.

Lemma buildPositionMap_positions_witness :
  length (fst (buildPositionMap 0 clause1))
  = String.length (snd (buildPositionMap 0 clause1)).
Proof.
  exact (proj1 (buildPositionMap_positions toyDoc "c1" 0 clause1 eq_refl)).
Defined.

(** *** The context of a clause *)

Import AssemblySpec.

Lemma visitIn_elem {St} (f : pmnode -> Z -> pmnode -> nat -> St -> St * bool)
    a cs pos parent index st :
  visitIn f (ElemNode a cs) pos parent index st =
    if snd (f (ElemNode a cs) pos parent index st)
    then walkIn f (ElemNode a cs) cs (pos + 1) O (fst (f (ElemNode a cs) pos parent index st))
    else fst (f (ElemNode a cs) pos parent index st).
Proof.
  cbn [visitIn]. destruct (snd _); [|reflexivity].
  generalize (pos + 1) O (fst (f (ElemNode a cs) pos parent index st)).
  generalize (ElemNode a cs). intros n.
  induction cs as [|c cs IH]; intros p i s; [reflexivity|].
  cbn [walkIn]. now rewrite <- IH.
Qed.

Lemma findTarget_as_block clauseId n pos parent index found :
  as_block (fst (findTarget clauseId n pos parent index found))
  = fst (findBlock clauseId n pos (as_block found)) /\
  snd (findTarget clauseId n pos parent index found)
  = snd (findBlock clauseId n pos (as_block found)).
Proof. unfold findTarget, findBlock. now destruct (has_id clauseId n). Qed.

(** The search with parent and index finds what the search of
    [updateClause] finds. *)
Lemma walkIn_as_block_of clauseId (cs : list pmnode) :
  Forall (fun n => forall pos parent index found,
            as_block (visitIn (findTarget clauseId) n pos parent index found)
            = visit (findBlock clauseId) n pos (as_block found)) cs ->
  forall parent p i found,
    as_block (walkIn (findTarget clauseId) parent cs p i found)
    = walk (findBlock clauseId) cs p (as_block found).
Proof.
  induction 1 as [|c cs Hc _ IH]; intros parent p i found; [reflexivity|].
  cbn [walkIn walk]. now rewrite IH, Hc.
Qed.

Lemma visitIn_as_block clauseId n : forall pos parent index found,
  as_block (visitIn (findTarget clauseId) n pos parent index found)
  = visit (findBlock clauseId) n pos (as_block found).
Proof.
  induction n as [t|a|a cs IH] using PatchFacts.pmnode_forall_ind;
    intros pos parent index found.
  - cbn [visitIn visit]. apply findTarget_as_block.
  - cbn [visitIn visit]. apply findTarget_as_block.
  - rewrite visitIn_elem, PatchFacts.visit_elem.
    destruct (findTarget_as_block clauseId (ElemNode a cs) pos parent index found)
      as [Hfst Hsnd].
    rewrite Hsnd. destruct (snd (findBlock _ _ _ _)); [|exact Hfst].
    rewrite <- Hfst. now apply walkIn_as_block_of.
Qed.

Lemma descendantsIn_as_block clauseId doc :
  as_block (descendantsIn (findTarget clauseId) doc None) = locateBlock doc clauseId.
Proof.
  unfold descendantsIn, locateBlock, descendants.
  apply (walkIn_as_block_of clauseId (node_content doc)).
  apply List.Forall_forall. intros n _. apply visitIn_as_block.
Qed.

(** A target that is found is a child of its parent, at its index. *)
Lemma walkIn_ok_of clauseId (cs : list pmnode) :
  Forall (fun n => forall pos parent index found,
            (exists earlier later,
                node_content parent = earlier ++ n :: later /\ length earlier = index) ->
            found_ok clauseId found ->
            found_ok clauseId (visitIn (findTarget clauseId) n pos parent index found)) cs ->
  forall parent done p found,
    node_content parent = done ++ cs ->
    found_ok clauseId found ->
    found_ok clauseId (walkIn (findTarget clauseId) parent cs p (length done) found).
Proof.
  induction 1 as [|c cs Hc _ IH]; intros parent done p found Hparent Hfound; [assumption|].
  cbn [walkIn].
  replace (S (length done)) with (length (done ++ [c])) by (rewrite length_app; simpl; lia).
  apply IH.
  - now rewrite <- app_assoc.
  - apply Hc; [|assumption]. exists done, cs. split; [assumption | reflexivity].
Qed.

Lemma visitIn_ok clauseId n : forall pos parent index found,
  (exists earlier later,
      node_content parent = earlier ++ n :: later /\ length earlier = index) ->
  found_ok clauseId found ->
  found_ok clauseId (visitIn (findTarget clauseId) n pos parent index found).
Proof.
  induction n as [t|a|a cs IH] using PatchFacts.pmnode_forall_ind;
    intros pos parent index found Hchild Hfound.
  - cbn [visitIn]. unfold findTarget.
    destruct (has_id clauseId (TextNode t)) eqn:Hid; cbn [fst]; [|assumption].
    split; assumption.
  - cbn [visitIn]. unfold findTarget.
    destruct (has_id clauseId (LeafNode a)) eqn:Hid; cbn [fst]; [|assumption].
    split; assumption.
  - rewrite visitIn_elem. unfold findTarget.
    destruct (has_id clauseId (ElemNode a cs)) eqn:Hid; cbn [fst snd].
    + split; assumption.
    + apply (walkIn_ok_of clauseId cs IH (ElemNode a cs) [] (pos + 1) found);
        [reflexivity | assumption].
Qed.

Lemma descendantsIn_ok clauseId doc :
  found_ok clauseId (descendantsIn (findTarget clauseId) doc None).
Proof.
  unfold descendantsIn.
  apply (walkIn_ok_of clauseId (node_content doc)) with (done := []);
    [|reflexivity|exact I].
  apply List.Forall_forall. intros n _. apply visitIn_ok.
Qed.

Lemma contentSize_app a b : contentSize (a ++ b) = contentSize a + contentSize b.
Proof.
  induction a as [|c a IH]; [reflexivity|].
  cbn [app]. rewrite !PatchFacts.contentSize_cons, IH. lia.
Qed.

Lemma contentSize_rev l : contentSize (rev l) = contentSize l.
Proof.
  induction l as [|c l IH]; [reflexivity|].
  cbn [rev]. rewrite contentSize_app, IH, !PatchFacts.contentSize_cons.
  change (contentSize []) with 0. lia.
Qed.

Lemma firstn_snoc {A} (l : list A) k x :
  (k < length l)%nat -> nth_error l k = Some x -> firstn (S k) l = firstn k l ++ [x].
Proof.
  revert k. induction l as [|y l IH]; intros [|k] Hk Hx; simpl in *; try lia.
  - now injection Hx as ->.
  - f_equal. apply IH; [lia | assumption].
Qed.

Lemma length_drop n s : String.length (drop n s) = (String.length s - n)%nat.
Proof.
  revert s. induction n as [|n IH]; intros [|c s]; simpl; try reflexivity; try lia.
  apply IH.
Qed.

Lemma length_trimStart s : (String.length (trimStart s) <= String.length s)%nat.
Proof. induction s as [|c s IH]; simpl; [lia|]. destruct (is_space c); simpl; lia. Qed.

Lemma length_trimEnd s : (String.length (trimEnd s) <= String.length s)%nat.
Proof.
  induction s as [|c s IH]; simpl; [lia|].
  destruct (trimEnd s); [destruct (is_space c)|]; simpl in *; lia.
Qed.

Lemma strlen_trim s : strlen (trim s) <= strlen s.
Proof.
  unfold strlen, trim.
  pose proof (length_trimEnd (trimStart s)). pose proof (length_trimStart s). lia.
Qed.

Section Assembly.

Variable isBlock : pmnode -> bool.

Abbreviation collectPrev := (Superdoc.collectPrev isBlock).
Abbreviation collectNext := (Superdoc.collectNext isBlock).
Abbreviation assembleClauseContext := (Superdoc.assembleClauseContext isBlock).

(** The loop before the target: it takes the [k] nearest siblings
    whole. *)
Lemma collectPrev_spec maxChars (siblings : list pmnode) : forall turns text collected start,
  exists k : nat,
    (k <= turns)%nat /\ (k <= length siblings)%nat /\
    snd (fst (collectPrev maxChars siblings turns text collected start))
      = start - contentSize (firstn k siblings) /\
    (snd (collectPrev maxChars siblings turns text collected start) = false ->
       k = Nat.min turns (length siblings)) /\
    (0 < maxChars -> 0 <= collected <= maxChars ->
       strlen (fst (fst (collectPrev maxChars siblings turns text collected start)))
       <= strlen text + (maxChars - collected) + Z.of_nat turns).
Proof.
  induction siblings as [|sibling rest IH]; intros turns text collected start.
  - exists O. destruct turns; cbn [Superdoc.collectPrev fst snd firstn length];
      change (contentSize []) with 0; repeat split; try lia.
  - destruct turns as [|turns].
    + exists O. cbn [Superdoc.collectPrev fst snd firstn length].
      change (contentSize []) with 0. repeat split; try lia.
    + cbn [Superdoc.collectPrev].
      set (stext := extractNodeText isBlock sibling).
      assert (Hlen : 0 <= strlen stext) by (unfold strlen; lia).
      destruct (negb (maxChars =? 0) && (maxChars <? collected + strlen stext)) eqn:Hcut.
      * exists O. cbn [fst snd firstn length]. change (contentSize []) with 0.
        repeat split; try lia; try discriminate.
        intros Hmax Hcol. destruct (0 <? maxChars - collected) eqn:Hrem.
        -- rewrite !strlen_append. unfold slice_last, strlen at 1 2.
           rewrite length_drop. change (String.length newline) with 1%nat. lia.
        -- lia.
      * destruct (IH turns (stext +:+ newline +:+ text) (collected + strlen stext)
                    (start - nodeSize sibling))
          as (k & Hk1 & Hk2 & Hstart & Htr & Hbound).
        exists (S k). cbn [firstn length]. rewrite PatchFacts.contentSize_cons.
        split; [lia|]. split; [lia|]. split; [rewrite Hstart; lia|].
        split; [intros Hf; specialize (Htr Hf); lia|].
        intros Hmax Hcol.
        assert (Hfit : collected + strlen stext <= maxChars).
        { apply andb_false_iff in Hcut as [Hz|Hlt].
          - apply negb_false_iff, Z.eqb_eq in Hz. lia.
          - apply Z.ltb_ge in Hlt. lia. }
        assert (Hnn : 0 <= collected + strlen stext) by lia.
        specialize (Hbound Hmax (conj Hnn Hfit)).
        rewrite !strlen_append in Hbound.
        change (strlen newline) with 1 in Hbound. lia.
Qed.

Lemma collectNext_spec maxChars (siblings : list pmnode) : forall turns text collected stop,
  exists k : nat,
    (k <= turns)%nat /\ (k <= length siblings)%nat /\
    snd (fst (collectNext maxChars siblings turns text collected stop))
      = stop + contentSize (firstn k siblings) /\
    (snd (collectNext maxChars siblings turns text collected stop) = false ->
       k = Nat.min turns (length siblings)) /\
    (0 < maxChars -> 0 <= collected <= maxChars ->
       strlen (fst (fst (collectNext maxChars siblings turns text collected stop)))
       <= strlen text + (maxChars - collected) + Z.of_nat turns).
Proof.
  induction siblings as [|sibling rest IH]; intros turns text collected stop.
  - exists O. destruct turns; cbn [Superdoc.collectNext fst snd firstn length];
      change (contentSize []) with 0; repeat split; try lia.
  - destruct turns as [|turns].
    + exists O. cbn [Superdoc.collectNext fst snd firstn length].
      change (contentSize []) with 0. repeat split; try lia.
    + cbn [Superdoc.collectNext].
      set (stext := extractNodeText isBlock sibling).
      assert (Hlen : 0 <= strlen stext) by (unfold strlen; lia).
      destruct (negb (maxChars =? 0) && (maxChars <? collected + strlen stext)) eqn:Hcut.
      * exists O. cbn [fst snd firstn length]. change (contentSize []) with 0.
        repeat split; try lia; try discriminate.
        intros Hmax Hcol. destruct (0 <? maxChars - collected) eqn:Hrem.
        -- rewrite !strlen_append. unfold slice_first, strlen at 2.
           pose proof (PlaybookFacts.length_substring0 (Z.to_nat (maxChars - collected)) stext).
           lia.
        -- lia.
      * destruct (IH turns (text +:+ stext +:+ newline) (collected + strlen stext)
                    (stop + nodeSize sibling))
          as (k & Hk1 & Hk2 & Hstop & Htr & Hbound).
        exists (S k). cbn [firstn length]. rewrite PatchFacts.contentSize_cons.
        split; [lia|]. split; [lia|]. split; [rewrite Hstop; lia|].
        split; [intros Hf; specialize (Htr Hf); lia|].
        intros Hmax Hcol.
        assert (Hfit : collected + strlen stext <= maxChars).
        { apply andb_false_iff in Hcut as [Hz|Hlt].
          - apply negb_false_iff, Z.eqb_eq in Hz. lia.
          - apply Z.ltb_ge in Hlt. lia. }
        assert (Hnn : 0 <= collected + strlen stext) by lia.
        specialize (Hbound Hmax (conj Hnn Hfit)).
        rewrite !strlen_append in Hbound.
        change (strlen newline) with 1 in Hbound. lia.
Qed.

Lemma siblings_split (earlier later : list pmnode) node :
  firstn (length earlier) (earlier ++ node :: later) = earlier /\
  skipn (S (length earlier)) (earlier ++ node :: later) = later.
Proof.
  split; [apply take_app_length|].
  change (earlier ++ node :: later) with (earlier ++ [node] ++ later).
  rewrite app_assoc.
  replace (S (length earlier)) with (length (earlier ++ [node]))
    by (rewrite length_app; simpl; lia).
  apply drop_app_length.
Qed.


(** With a positive limit, the context text holds at most the limit
    in characters of each side, one line feed for each sibling asked for
    and its fixed frame of twenty-four characters. *)
Theorem assembleClauseContext_bounded doc t clauseId options out :
  0 < default 2000 (maxContextChars options) ->
  assembleClauseContext (theEditor doc t) clauseId options = Some out ->
  strlen (context out)
  <= 24 + 2 * default 2000 (maxContextChars options)
     + Z.of_nat (default 1%nat (prevClauses options))
     + Z.of_nat (default 1%nat (nextClauses options)).
Proof.
  intros Hmax. unfold Superdoc.assembleClauseContext, theEditor. cbn [activeEditor].
  destruct (descendantsIn (findTarget clauseId) doc None) as [tg|]; [|discriminate].
  destruct (collectPrev_spec (default 2000 (maxContextChars options))
              (rev (firstn (targetIndex tg) (node_content (parentNode tg))))
              (default 1%nat (prevClauses options)) EmptyString 0 (targetPos tg))
    as (a & _ & _ & _ & _ & Hprev).
  destruct (collectNext_spec (default 2000 (maxContextChars options))
              (skipn (S (targetIndex tg)) (node_content (parentNode tg)))
              (default 1%nat (nextClauses options)) EmptyString 0
              (targetPos tg + nodeSize (targetNode tg)))
    as (b & _ & _ & _ & _ & Hnext).
  destruct (collectPrev _ _ _ _ _ _) as [[prevText start] truncPrev].
  destruct (collectNext _ _ _ _ _ _) as [[nextText stop] truncNext].
  cbn [fst snd] in *. intros [= <-]. cbn [context].
  specialize (Hprev Hmax ltac:(lia)). specialize (Hnext Hmax ltac:(lia)).
  rewrite !strlen_append.
  pose proof (strlen_trim prevText). pose proof (strlen_trim nextText).
  change (strlen EmptyString) with 0 in *.
  change (strlen "<context>") with 9. change (strlen newline) with 1.
  change (strlen "...") with 3. change (strlen "</context>") with 10.
  lia.
Qed.

End Assembly.

Lemma assembleClauseContext_bounded_witness :
  exists out,
    Superdoc.assembleClauseContext (fun _ => true)
      (theEditor toyDoc (BySetDocumentMode false)) "c2"
      {| prevClauses := None; nextClauses := None; maxContextChars := Some 5 |} = Some out /\
    strlen (context out) <= 36.
Proof.
  eexists. split; [reflexivity|].
  apply (assembleClauseContext_bounded (fun _ => true) toyDoc (BySetDocumentMode false) "c2"
           {| prevClauses := None; nextClauses := None; maxContextChars := Some 5 |});
    [reflexivity | reflexivity].
Defined.

(** *** What the result of updateClause tells *)

Section Outcome.

Variable calculateWordDiff : string -> string -> list diffpart.
Variable applyTransaction : pmnode -> transaction -> option pmnode.

Abbreviation updateClause := (Superdoc.updateClause calculateWordDiff applyTransaction).
Abbreviation patchOf := (patchOf calculateWordDiff).

(** When [updateClause] resolves to [false], it has sent no
    transaction and the document is as it was. When it resolves to
    [true], the block was found and the edit transaction built for it
    was applied, as the first transaction sent. In every case at most
    two transactions are sent. *)
Theorem updateClause_result_meaning doc t clauseId newText :
  (returned (updateClause (theEditor doc t) clauseId newText) = Some false ->
     dispatched (effects (updateClause (theEditor doc t) clauseId newText)) = [] /\
     document (updateClause (theEditor doc t) clauseId newText) = Some doc) /\
  (returned (updateClause (theEditor doc t) clauseId newText) = Some true ->
     exists clausePos clauseNode finalDoc,
       locateBlock doc clauseId = Some (clausePos, clauseNode) /\
       applyTransaction doc (tr (patchOf clausePos clauseNode newText)) = Some finalDoc /\
       head (dispatched (effects (updateClause (theEditor doc t) clauseId newText)))
       = Some (tr (patchOf clausePos clauseNode newText))) /\
  (length (dispatched (effects (updateClause (theEditor doc t) clauseId newText))) <= 2)%nat.
Proof.
  unfold Superdoc.updateClause, theEditor, SuperdocSpec.patchOf. cbn [activeEditor].
  destruct (locateBlock doc clauseId) as [[clausePos clauseNode]|] eqn:Hloc.
  2: { cbn [returned effects document]. repeat split; try discriminate; simpl; lia. }
  destruct (buildPositionMap clausePos clauseNode) as [positionMap textBuffer] eqn:Hpm.
  cbn [fst snd].
  change (ConsoleGroup ("[Diffing] Update Block " +:+ clauseId)
            :: enableTrackChanges {| activeEditor := Some doc; trackChanges := t |})
    with (prologue clauseId t).
  destruct (length positionMap =? 0)%nat.
  { cbn [returned effects document].
    rewrite ?PatchFacts.dispatched_app, PatchFacts.dispatched_prologue.
    repeat split; try discriminate; simpl; lia. }
  destruct (applyTransaction doc _) as [finalDoc|] eqn:Happly.
  2: { cbn [returned effects document].
       rewrite ?PatchFacts.dispatched_app, PatchFacts.dispatched_prologue.
       repeat split; try discriminate; simpl; lia. }
  destruct (locateBlock finalDoc clauseId) as [[newPos target]|].
  2: { cbn [returned effects document].
       rewrite ?PatchFacts.dispatched_app, PatchFacts.dispatched_prologue.
       split; [discriminate|]. split; [|simpl; lia].
       intros _. exists clausePos, clauseNode, finalDoc. rewrite Hpm.
       repeat split; cbn [fst snd]; try assumption; reflexivity. }
  destruct (nodeAt finalDoc newPos) as [n|].
  2: { cbn [returned effects document].
       rewrite ?PatchFacts.dispatched_app, PatchFacts.dispatched_prologue.
       repeat split; try discriminate; simpl; lia. }
  destruct (applyTransaction finalDoc _) as [lastDoc|];
    cbn [returned effects document];
    rewrite ?PatchFacts.dispatched_app, PatchFacts.dispatched_prologue.
  - split; [discriminate|]. split; [|simpl; lia].
    intros _. exists clausePos, clauseNode, finalDoc. rewrite Hpm.
       repeat split; cbn [fst snd]; try assumption; reflexivity.
  - repeat split; try discriminate; simpl; lia.
Qed.

End Outcome.

End ClausesFacts.
